(** * go-obj: a shallow embedding of the object model, the ELF backend,
      size synthesis and the interval map, with their specifications.

    Go values are modelled as follows.  Unsigned and signed machine
    integers are [Z] with the wrap-around written out ([wrap]); byte
    slices are [list byte]; a pointer is an [option] of an address into an
    explicit store; a Go function that can panic returns [option]
    ([None] is the panic); loops are fixpoints on a fuel argument. *)

From Stdlib Require Import ZArith Lia List Bool.
From Stdlib.Strings Require Import Byte.
From stdpp Require Import base tactics option list numbers gmap sorting.

Local Open Scope Z_scope.

(** ** Machine integers *)

Definition wrap (w : Z) (x : Z) : Z := x mod 2 ^ w.
Definition uint8 (x : Z) : Z := wrap 8 x.
Definition uint32 (x : Z) : Z := wrap 32 x.
Definition uint64 (x : Z) : Z := wrap 64 x.

(** Conversion of a [w]-bit unsigned value to the signed type of the same
    width (Go's [int32(x)], [int64(x)] on an unsigned [x]). *)
Definition to_signed (w : Z) (x : Z) : Z :=
  let y := wrap w x in if Z_lt_dec y (2 ^ (w - 1)) then y else y - 2 ^ w.
Definition int32 (x : Z) : Z := to_signed 32 x.
Definition int64 (x : Z) : Z := to_signed 64 x.

Definition byteZ (b : byte) : Z := Z.of_N (Byte.to_N b).

#[global] Instance byte_eq_dec : EqDecision byte.
Proof.
  intros a b. destruct (Byte.eqb a b) eqn:H.
  - left. now apply Byte.byte_dec_bl.
  - right. intros ->. rewrite (Byte.byte_dec_lb eq_refl) in H. discriminate.
Defined.

(** ** arch.Layout *)

Record Layout := mkLayout { order : Z; wordSize : Z }.

Definition Layout_Uint32 (l : Layout) (b : list byte) : option Z :=
  match b with
  | b0 :: b1 :: b2 :: b3 :: _ =>
      if decide (order l = 0) then
        Some (Z.lor (Z.lor (Z.lor (byteZ b0) (Z.shiftl (byteZ b1) 8))
                            (Z.shiftl (byteZ b2) 16)) (Z.shiftl (byteZ b3) 24))
      else
        Some (Z.lor (Z.lor (Z.lor (byteZ b3) (Z.shiftl (byteZ b2) 8))
                            (Z.shiftl (byteZ b1) 16)) (Z.shiftl (byteZ b0) 24))
  | _ => None
  end.

Definition Layout_Int32 (l : Layout) (b : list byte) : option Z :=
  int32 <$> Layout_Uint32 l b.

(** ** obj.Data and obj.Reader *)

Record Reloc := mkReloc { Addr : Z; Type_ : Z; Symbol : Z; Addend : Z }.

Record Data := mkData { D_Addr : Z; D_P : list byte; D_Layout : Layout }.

Record Reader := mkReader { R_d : Data; R_p : nat }.

Definition NewReader (d : Data) : Reader := mkReader d 0.

Definition Reader_Avail (r : Reader) : Z :=
  Z.of_nat (length (D_P (R_d r))) - Z.of_nat (R_p r).

(** [r.d.P[o : o+4]]: slicing panics when the bounds leave the slice. *)
Definition slice (P : list byte) (lo hi : nat) : option (list byte) :=
  if decide (lo <= hi <= length P)%nat then Some (take (hi - lo) (drop lo P)) else None.

Definition Reader_Uint32 (r : Reader) : option (Z * Reader) :=
  let o := R_p r in
  let r' := mkReader (R_d r) (o + 4) in
  b ← slice (D_P (R_d r)) o (o + 4);
  v ← Layout_Uint32 (D_Layout (R_d r)) b;
  Some (v, r').

(** ** Relocation types and symbol tables (ELF) *)

Definition NoSym : Z := uint32 (Z.lnot 0).

Record elfSymTab := mkSymTab { st_start : Z; st_end : Z }.

Definition emptyElfSymTab : elfSymTab := mkSymTab 0 0.

Definition elfSymTab_lookup (s : elfSymTab) (elfSym : Z) : Z * bool :=
  let symID := uint32 (uint32 (elfSym - 1) + st_start s) in
  if decide (st_start s <= symID /\ symID < st_end s) then (symID, true)
  else (NoSym, false).

Definition rcUnknown : Z := 0.
Definition rcElfX86_64 : Z := 1.
Definition rcElf386 : Z := 2.

Definition makeRelocType (cls v : Z) : option Z :=
  if decide (Z.land v (Z.shiftl 1 24 - 1) = v)
  then Some (Z.lor (uint32 (Z.shiftl cls 24)) v)
  else None.

(** [elf.R_SYM32] and [elf.R_TYPE32] of Go's debug/elf. *)
Definition R_SYM32 (info : Z) : Z := Z.shiftr info 8.
Definition R_TYPE32 (info : Z) : Z := Z.land info 255.

(** [elfReadRela32]: one iteration consumes twelve bytes, so the number
    of bytes is enough fuel. *)
Fixpoint elfReadRela32_loop (fuel : nat) (relocs : list Reloc) (r : Reader)
    (symTab : elfSymTab) (relClass : Z) : option (list Reloc) :=
  if decide (Reader_Avail r >= 12) then
    match fuel with
    | O => None
    | S fuel =>
        '(off, r) ← Reader_Uint32 r;
        '(info, r) ← Reader_Uint32 r;
        let symID := fst (elfSymTab_lookup symTab (R_SYM32 info)) in
        let typ := R_TYPE32 info in
        '(add, r) ← Reader_Uint32 r;
        rt ← makeRelocType relClass typ;
        elfReadRela32_loop fuel
          (relocs ++ [mkReloc (uint64 off) rt symID (int64 add)]) r symTab relClass
    end
  else Some relocs.

Definition elfReadRela32 (relocs : list Reloc) (r : Reader)
    (symTab : elfSymTab) (relClass : Z) : option (list Reloc) :=
  elfReadRela32_loop (length (D_P (R_d r))) relocs r symTab relClass.

(** ** Section flags (obj.go) *)

Definition sectionFlagReadOnly : Z := 1.
Definition sectionFlagZeroInitialized : Z := 2.
(** Modelled from the spec: [sectionFlagMapped], [Mapped] and [SetMapped]
    are used by [openElf] and by the symbol table, but their declarations
    are missing from obj.go; the spec lists [mapped] as the third section
    flag, so it takes the next bit of the [iota] sequence. *)
Definition sectionFlagMapped : Z := 4.

(** [s.f |= m] and [s.f &^= m] on the [uint8] flag set. *)
Definition set_flag (m : Z) (v : bool) (f : Z) : Z :=
  if v then Z.lor f m else Z.land f (uint8 (Z.lnot m)).

Definition SectionFlags_ReadOnly (f : Z) : bool :=
  negb (Z.land f sectionFlagReadOnly =? 0).
Definition SectionFlags_SetReadOnly (v : bool) (f : Z) : Z :=
  set_flag sectionFlagReadOnly v f.
Definition SectionFlags_ZeroInitialize (f : Z) : bool :=
  negb (Z.land f sectionFlagReadOnly =? 0).
Definition SectionFlags_SetZeroInitialized (v : bool) (f : Z) : Z :=
  set_flag sectionFlagZeroInitialized v f.
(** Modelled from the spec: see [sectionFlagMapped]. *)
Definition SectionFlags_Mapped (f : Z) : bool :=
  negb (Z.land f sectionFlagMapped =? 0).
(** Modelled from the spec: see [sectionFlagMapped]. *)
Definition SectionFlags_SetMapped (v : bool) (f : Z) : Z :=
  set_flag sectionFlagMapped v f.

(** ** Sections and the ELF file (obj.go, elf.go) *)

Record Section := mkSection {
  S_ID : Z; S_RawID : Z; S_Addr : Z; S_Size : Z; S_f : Z }.

(** The fields of debug/elf's [elf.Section] header that the backend reads. *)
Record elfHeader := mkElfHeader {
  sh_Type : Z; sh_Flags : Z; sh_Addr : Z; sh_Size : Z; sh_Link : Z; sh_Info : Z }.

Definition SHT_NULL : Z := 0.
Definition SHT_PROGBITS : Z := 1.
Definition SHT_SYMTAB : Z := 2.
Definition SHT_STRTAB : Z := 3.
Definition SHT_RELA : Z := 4.
Definition SHT_NOBITS : Z := 8.
Definition SHT_REL : Z := 9.
Definition SHT_DYNSYM : Z := 11.
Definition SHT_LOPROC : Z := 0x70000000.
Definition SHF_WRITE : Z := 1.
Definition SHF_ALLOC : Z := 2.
Definition SHF_EXECINSTR : Z := 4.
Definition ET_REL : Z := 1.
Definition ELFCLASS32 : Z := 1.
Definition ELFCLASS64 : Z := 2.

(** [relocSections] holds the internal IDs of the relocation sections that
    modify the section; [rel_target] is [rel.target] of a relocation section
    ([None] while [rel] is unset or the section is global). *)
Record elfSection := mkElfSection {
  es_Section : Section;
  es_elf : elfHeader;
  es_relocSections : list nat;
  es_hasRel : bool;
  es_rel_symTab : option nat;
  es_rel_target : option nat }.

Record elfFile := mkElfFile {
  f_relocatable : bool;
  f_symSize : Z;
  f_relSize : Z;
  f_relaSize : Z;
  f_sections : list elfSection;
  f_shnToSection : list (option nat);
  f_symTabs : list (option nat * elfSymTab) }.

Definition canHaveRelocs (s : elfSection) : bool :=
  (sh_Type (es_elf s) =? SHT_PROGBITS) || (sh_Type (es_elf s) =? SHT_NOBITS)
  || (SHT_LOPROC <=? sh_Type (es_elf s)).

(** The body of the section-table loop of [openElf] for one ELF section:
    the [Section] it builds and the flags it sets. *)
Definition openElf_section (relocatable : bool) (nsections : Z) (elfID : Z)
    (elfSect : elfHeader) : elfSection :=
  let f0 := 0 in
  let f1 := if negb relocatable && negb (Z.land (sh_Flags elfSect) SHF_ALLOC =? 0)
            then SectionFlags_SetMapped true f0 else f0 in
  let f2 := if Z.land (sh_Flags elfSect) SHF_WRITE =? 0
            then SectionFlags_SetReadOnly true f1 else f1 in
  let f3 := if sh_Type elfSect =? SHT_NOBITS
            then SectionFlags_SetZeroInitialized true f2 else f2 in
  mkElfSection (mkSection nsections elfID (sh_Addr elfSect) (sh_Size elfSect) f3)
               elfSect [] false None None.

Fixpoint openElf_sections (relocatable : bool) (elfID : Z) (secs : list elfHeader)
    (acc : list elfSection) (shn : list (option nat))
    : list elfSection * list (option nat) :=
  match secs with
  | [] => (acc, shn)
  | elfSect :: rest =>
      if sh_Type elfSect =? SHT_NULL
      then openElf_sections relocatable (elfID + 1) rest acc (shn ++ [None])
      else
        let es := openElf_section relocatable (Z.of_nat (length acc)) elfID elfSect in
        openElf_sections relocatable (elfID + 1) rest (acc ++ [es])
                         (shn ++ [Some (length acc)])
  end.

Definition Section_contains (s : Section) (addr : Z) : Prop :=
  S_Addr s <= addr /\ addr < S_Addr s + S_Size s.

Fixpoint ResolveAddr_loop (secs : list elfSection) (addr : Z) : option Section :=
  match secs with
  | [] => None
  | es :: rest =>
      if Z.land (sh_Flags (es_elf es)) SHF_ALLOC =? 0 then ResolveAddr_loop rest addr
      else if (S_Addr (es_Section es) <=? addr)
              && (uint64 (addr - S_Addr (es_Section es)) <? S_Size (es_Section es))
      then Some (es_Section es)
      else ResolveAddr_loop rest addr
  end.

Definition elfFile_ResolveAddr (f : elfFile) (addr : Z) : option Section :=
  if f_relocatable f then None else ResolveAddr_loop (f_sections f) addr.

(** ** Open and openElf *)

(** Go errors.  [ErrUnrecognized] is
    [fmt.Errorf("unrecognized object file format")]; the others are the
    errors [openElf] returns: the reader's and debug/elf's own errors
    (of an abstract type [E]) and the [fmt.Errorf] messages of [openElf]. *)
Inductive error (E : Type) :=
| ErrUnrecognized
| ErrExternal (e : E)
| ErrUnknownClass (cls : Z)
| ErrBadSymbolSection (es : nat) (shn : Z)
| ErrNonSymbolSection (es : nat) (sym : nat)
| ErrNoTargetSection (es : nat)
| ErrMissingTarget (es : nat) (shn : Z)
| ErrReadingSymbolTable (e : E)
| ErrBadStringSection (es : nat) (shn : Z)
| ErrReadingStringTable (es : nat) (e : E).
Arguments ErrUnrecognized {E}.
Arguments ErrExternal {E} e.
Arguments ErrUnknownClass {E} cls.
Arguments ErrBadSymbolSection {E} es shn.
Arguments ErrNonSymbolSection {E} es sym.
Arguments ErrNoTargetSection {E} es.
Arguments ErrMissingTarget {E} es shn.
Arguments ErrReadingSymbolTable {E} e.
Arguments ErrBadStringSection {E} es shn.
Arguments ErrReadingStringTable {E} es e.

(** What [elf.NewFile] returns, as far as [openElf] reads it. *)
Record elf_File := mkElfFF {
  ff_Class : Z; ff_Type : Z; ff_Sections : list elfHeader }.

Definition magicELF : list byte := [x7f; "E"; "L"; "F"]%byte.

Definition lookupShn (shnToSection : list (option nat)) (shn : Z) : option nat * bool :=
  if decide (0 <= shn < Z.of_nat (length shnToSection)) then
    match shnToSection !! Z.to_nat shn with
    | Some (Some es) => (Some es, true)
    | _ => (None, false)
    end
  else (None, false).

Definition add_relocSection (rs : nat) (es : elfSection) : elfSection :=
  mkElfSection (es_Section es) (es_elf es) (es_relocSections es ++ [rs])
               (es_hasRel es) (es_rel_symTab es) (es_rel_target es).

Definition set_rel (symTab : option nat) (target : option nat) (es : elfSection) : elfSection :=
  mkElfSection (es_Section es) (es_elf es) (es_relocSections es) true symTab target.

(** The section IDs the section-table loop tracks: the symbol tables, the
    relocation sections, and the sections to which section-less relocations
    apply. *)
Definition sections_of_type (P : elfSection -> bool) (secs : list elfSection) : list nat :=
  (fst <$> filter (fun p => P (snd p) = true) (imap pair secs)).

Definition last_of_type (ty : Z) (secs : list elfSection) : option nat :=
  last (sections_of_type (fun es => sh_Type (es_elf es) =? ty) secs).

Definition is_rel_section (es : elfSection) : bool :=
  (sh_Type (es_elf es) =? SHT_REL) || (sh_Type (es_elf es) =? SHT_RELA).

Definition is_relocatable_section (es : elfSection) : bool :=
  negb (Z.land (sh_Flags (es_elf es)) SHF_ALLOC =? 0) && canHaveRelocs es.

Definition find_symTab (symTabs : list (option nat * elfSymTab)) (symSection : nat)
    : option nat :=
  fst <$> list_find (fun p => fst p = Some symSection) symTabs.

Section OpenElf.
Context {reader E : Type}.
(** [r.ReadAt(p, off)] with [len(p) = n]: the bytes read and the error. *)
Variable ReadAt : reader -> nat -> Z -> list byte * option E.
Variable elf_NewFile : reader -> elf_File + E.
(** [f.sectionBytes] followed by [f.sectionRelocs], as far as
    [elfSectionData] reads them: the error, if any. *)
Variable sectionBytes_err : reader -> elfSection -> option E.

Definition elfSectionData_err (r : reader) (s : elfSection) (addr size : Z)
    : option (option E) :=
  let es := es_elf s in
  if decide (uint64 (addr + size) < addr) then None
  else if decide (addr < sh_Addr es \/ uint64 (addr + size) > uint64 (sh_Addr es + sh_Size es))
  then None
  else Some (sectionBytes_err r s).

(** The relocation-section loop of [openElf]. *)
Fixpoint openElf_relocs (relocatable : bool) (shn : list (option nat))
    (symTabs : list (option nat * elfSymTab)) (relocatableSections : list nat)
    (relSections : list nat) (secs : list elfSection)
    : option (list elfSection + error E) :=
  match relSections with
  | [] => Some (inl secs)
  | i :: rest =>
      es ← secs !! i;
      let shnSyms := sh_Link (es_elf es) in
      let symTabR :=
        if decide (shnSyms = 0) then inl None
        else match lookupShn shn shnSyms with
             | (Some symSection, true) =>
                 match find_symTab symTabs symSection with
                 | Some k => inl (Some k)
                 | None => inr (ErrNonSymbolSection i symSection)
                 end
             | _ => inr (ErrBadSymbolSection i shnSyms)
             end in
      match symTabR with
      | inr e => Some (inr e)
      | inl symTab =>
          let secs := alter (set_rel symTab None) i secs in
          let shnTarget := sh_Info (es_elf es) in
          if decide (shnTarget = 0) then
            if relocatable then Some (inr (ErrNoTargetSection i))
            else
              let secs := foldl (fun secs ls => alter (add_relocSection i) ls secs)
                                secs relocatableSections in
              openElf_relocs relocatable shn symTabs relocatableSections rest secs
          else
            match lookupShn shn shnTarget with
            | (Some target, true) =>
                t ← secs !! target;
                let secs :=
                  if canHaveRelocs t
                  then alter (set_rel symTab (Some target)) i
                         (alter (add_relocSection i) target secs)
                  else secs in
                openElf_relocs relocatable shn symTabs relocatableSections rest secs
            | _ => Some (inr (ErrMissingTarget i shnTarget))
            end
      end
  end.

(** The symbol-table loop of [openElf]. *)
Fixpoint openElf_symTabs (r : reader) (symSize : Z) (shn : list (option nat))
    (secs : list elfSection) (symTabs : list (option nat * elfSymTab)) (nSyms : Z)
    : option (list (option nat * elfSymTab) + error E) :=
  match symTabs with
  | [] => Some (inl [])
  | (None, _) :: rest =>
      res ← openElf_symTabs r symSize shn secs rest nSyms;
      Some (match res with
            | inl tabs => inl ((None, mkSymTab nSyms nSyms) :: tabs)
            | inr e => inr e
            end)
  | (Some i, _) :: rest =>
      es ← secs !! i;
      err ← elfSectionData_err r es (S_Addr (es_Section es)) (S_Size (es_Section es));
      match err with
      | Some e => Some (inr (ErrReadingSymbolTable e))
      | None =>
          let count := uint32 (S_Size (es_Section es) / symSize - 1) in
          let tab := mkSymTab nSyms (uint32 (nSyms + count)) in
          let strShn := sh_Link (es_elf es) in
          match lookupShn shn strShn with
          | (Some str, true) =>
              strSection ← secs !! str;
              if decide (sh_Type (es_elf strSection) = SHT_STRTAB) then
                err ← elfSectionData_err r strSection (S_Addr (es_Section strSection))
                                         (S_Size (es_Section strSection));
                match err with
                | Some e => Some (inr (ErrReadingStringTable i e))
                | None =>
                    res ← openElf_symTabs r symSize shn secs rest (uint32 (nSyms + count));
                    Some (match res with
                          | inl tabs => inl ((Some i, tab) :: tabs)
                          | inr e => inr e
                          end)
                end
              else Some (inr (ErrBadStringSection i strShn))
          | _ => Some (inr (ErrBadStringSection i strShn))
          end
      end
  end.

(** [openElf] returns [(isElf, file, err)]; the outer [option] is [None]
    when it panics. *)
Definition openElf (r : reader) : option (bool * option elfFile * option (error E)) :=
  match ReadAt r 4 0 with
  | (_, Some err) => Some (false, None, Some (ErrExternal err))
  | (magic, None) =>
      if decide (magic = magicELF) then
        match elf_NewFile r with
        | inr err => Some (true, None, Some (ErrExternal err))
        | inl ff =>
            let consts :=
              if decide (ff_Class ff = ELFCLASS32) then Some (16, 4 + 4, 4 + 4 + 4)
              else if decide (ff_Class ff = ELFCLASS64) then Some (24, 8 + 8, 8 + 8 + 8)
              else None in
            match consts with
            | None => Some (true, None, Some (ErrUnknownClass (ff_Class ff)))
            | Some (symSize, relSize, relaSize) =>
                let relocatable := bool_decide (ff_Type ff = ET_REL) in
                let '(secs, shn) :=
                  openElf_sections relocatable 0 (ff_Sections ff) [] [] in
                let symTabs := [(last_of_type SHT_SYMTAB secs, emptyElfSymTab);
                                (last_of_type SHT_DYNSYM secs, emptyElfSymTab)] in
                res ← openElf_relocs relocatable shn symTabs
                        (sections_of_type is_relocatable_section secs)
                        (sections_of_type is_rel_section secs) secs;
                match res with
                | inr e => Some (true, None, Some e)
                | inl secs =>
                    res ← openElf_symTabs r symSize shn secs symTabs 0;
                    match res with
                    | inr e => Some (true, None, Some e)
                    | inl tabs =>
                        Some (true,
                              Some (mkElfFile relocatable symSize relSize relaSize
                                              secs shn tabs),
                              None)
                    end
                end
            end
        end
      else Some (false, None, None)
  end.

Definition Open (r : reader) : option (option elfFile * option (error E)) :=
  '(isElf, f, err) ← openElf r;
  if (isElf : bool) then Some (f, err)
  else Some (None, Some ErrUnrecognized).

End OpenElf.

(** ** Symbols and size synthesis (sym.go, size.go) *)

Definition symFlagLocal : Z := 1.
Definition symFlagSizeSynthesized : Z := 2.
Definition SymSection : Z := 83.

(** A [Sym]; [Sym_Section] is the pointer [*Section], an index into a store
    of sections ([None] is nil).  The name plays no part in size synthesis
    and is left out. *)
Record Sym := mkSym {
  Sym_Section : option nat; Sym_Value : Z; Sym_Size : Z; Sym_Kind : Z; Sym_f : Z }.

Definition SymFlags_SizeSynthesized (f : Z) : bool :=
  negb (Z.land f symFlagSizeSynthesized =? 0).
Definition SymFlags_SetSizeSynthesized (v : bool) (f : Z) : Z :=
  set_flag symFlagSizeSynthesized v f.

Definition set_synth_size (size : Z) (s : Sym) : Sym :=
  mkSym (Sym_Section s) (Sym_Value s) size (Sym_Kind s)
        (SymFlags_SetSizeSynthesized true (Sym_f s)).

(** The first loop of [SynthesizeSizes]: one iteration, on index [i]. *)
Definition gather_step (secs : list Section) (st : list Sym * list nat) (i : nat)
    : option (list Sym * list nat) :=
  let '(syms, todo) := st in
  s ← syms !! i;
  match Sym_Section s with
  | None => Some st
  | Some p =>
      sec ← secs !! p;
      if Sym_Kind s =? SymSection then
        if (Sym_Value s =? S_Addr sec) && (Sym_Size s =? 0)
        then Some (<[i := set_synth_size (S_Size sec) s]> syms, todo)
        else Some st
      else if uint64 (S_Addr sec + S_Size sec) <? Sym_Value s then Some st
      else Some (syms, todo ++ [i])
  end.

Fixpoint gather (secs : list Section) (st : list Sym * list nat) (idxs : list nat)
    : option (list Sym * list nat) :=
  match idxs with
  | [] => Some st
  | i :: idxs => st ← gather_step secs st i; gather secs st idxs
  end.

(** The [less] function handed to [sort.Slice], on the symbol indices held
    in [todo]. *)
Definition synth_less (secs : list Section) (syms : list Sym) (a b : nat) : option bool :=
  si ← syms !! a; sj ← syms !! b;
  pi ← Sym_Section si; pj ← Sym_Section sj;
  if decide (pi = pj) then Some (Sym_Value si <? Sym_Value sj)
  else seci ← secs !! pi; secj ← secs !! pj; Some (S_ID seci <? S_ID secj).

(** Go's [sort.Slice] on a slice of fewer than twelve elements is an
    insertion sort: element [i] moves left while it is less than its left
    neighbour.  [pre] is the sorted prefix, reversed. *)
Fixpoint insertion_step (less : nat -> nat -> bool) (x : nat) (pre : list nat) : list nat :=
  match pre with
  | [] => [x]
  | y :: ys => if less x y then y :: insertion_step less x ys else x :: y :: ys
  end.

Definition insertionSort (less : nat -> nat -> bool) (l : list nat) : list nat :=
  rev (fold_left (fun pre x => insertion_step less x pre) l []).

(** The inner loop that collects the group of [todo[0]]. *)
Fixpoint group_loop (syms : list Sym) (s1 : Sym) (rest : list nat) (group : nat)
    (anyZero : bool) : option (nat * bool) :=
  match rest with
  | [] => Some (group, anyZero)
  | t :: rest =>
      s2 ← syms !! t;
      if negb (Sym_Value s1 =? Sym_Value s2)
         || negb (bool_decide (Sym_Section s1 = Sym_Section s2))
      then Some (group, anyZero)
      else group_loop syms s1 rest (S group)
                      (if Sym_Size s1 =? 0 then true else anyZero)
  end.

Definition apply_size (size : Z) (syms : list Sym) (symi : nat) : list Sym :=
  match syms !! symi with
  | Some s => if Sym_Size s =? 0 then <[symi := set_synth_size size s]> syms else syms
  | None => syms
  end.

Fixpoint assign_loop (fuel : nat) (secs : list Section) (syms : list Sym)
    (todo : list nat) : option (list Sym) :=
  match todo with
  | [] => Some syms
  | t0 :: rest =>
      match fuel with
      | O => None
      | S fuel =>
          s1 ← syms !! t0;
          '(group, anyZero) ← group_loop syms s1 rest 1 (Sym_Size s1 =? 0);
          if negb anyZero then assign_loop fuel secs syms (drop group todo)
          else
            p1 ← Sym_Section s1;
            sec1 ← secs !! p1;
            size ←
              match todo !! group with
              | None => Some (uint64 (S_Addr sec1 + S_Size sec1 - Sym_Value s1))
              | Some t =>
                  s2 ← syms !! t;
                  if bool_decide (Sym_Section s1 = Sym_Section s2)
                  then Some (uint64 (Sym_Value s2 - Sym_Value s1))
                  else Some (uint64 (S_Addr sec1 + S_Size sec1 - Sym_Value s1))
              end;
            assign_loop fuel secs (foldl (apply_size size) syms (take group todo))
                        (drop group todo)
      end
  end.

(** [SynthesizeSizes], over the sorting function [sort_Slice] of Go's
    sort package. *)
Definition SynthesizeSizes
    (sort_Slice : (nat -> nat -> bool) -> list nat -> list nat)
    (secs : list Section) (syms : list Sym) : option (list Sym) :=
  '(syms, todo) ← gather secs (syms, []) (seq 0 (length syms));
  let less a b := default false (synth_less secs syms a b) in
  let todo := sort_Slice less todo in
  assign_loop (length todo) secs syms todo.

(** * More of the object model: layouts, readers, relocation types *)

(** ** arch.Layout (layout.go) *)

Definition uint16 (x : Z) : Z := wrap 16 x.

(** The [binary.ByteOrder] values that [NewLayout] tells apart. *)
Inductive ByteOrder := LittleEndian | BigEndian | OtherOrder.

Definition NewLayout (o : ByteOrder) (wordSize : Z) : option Layout :=
  ord ← match o with
        | LittleEndian => Some 0
        | BigEndian => Some 1
        | OtherOrder => None
        end;
  if decide (wordSize < 1 \/ wordSize > 8 \/ Z.land wordSize (wordSize - 1) <> 0)
  then None
  else Some (mkLayout ord (uint8 wordSize)).

Definition Layout_WordSize (l : Layout) : Z := wordSize l.

Definition Layout_Uint16 (l : Layout) (b : list byte) : option Z :=
  match b with
  | b0 :: b1 :: _ =>
      if decide (order l = 0) then
        Some (Z.lor (byteZ b0) (Z.shiftl (byteZ b1) 8))
      else
        Some (Z.lor (byteZ b1) (Z.shiftl (byteZ b0) 8))
  | _ => None
  end.

Definition Layout_Uint64 (l : Layout) (b : list byte) : option Z :=
  match b with
  | b0 :: b1 :: b2 :: b3 :: b4 :: b5 :: b6 :: b7 :: _ =>
      if decide (order l = 0) then
        Some (Z.lor (Z.lor (Z.lor (Z.lor (Z.lor (Z.lor (Z.lor
                (byteZ b0) (Z.shiftl (byteZ b1) 8)) (Z.shiftl (byteZ b2) 16))
                (Z.shiftl (byteZ b3) 24)) (Z.shiftl (byteZ b4) 32))
                (Z.shiftl (byteZ b5) 40)) (Z.shiftl (byteZ b6) 48))
                (Z.shiftl (byteZ b7) 56))
      else
        Some (Z.lor (Z.lor (Z.lor (Z.lor (Z.lor (Z.lor (Z.lor
                (byteZ b7) (Z.shiftl (byteZ b6) 8)) (Z.shiftl (byteZ b5) 16))
                (Z.shiftl (byteZ b4) 24)) (Z.shiftl (byteZ b3) 32))
                (Z.shiftl (byteZ b2) 40)) (Z.shiftl (byteZ b1) 48))
                (Z.shiftl (byteZ b0) 56))
  | _ => None
  end.

Definition Layout_Word (l : Layout) (b : list byte) : option Z :=
  if decide (wordSize l = 8) then Layout_Uint64 l b
  else if decide (wordSize l = 4) then uint64 <$> Layout_Uint32 l b
  else if decide (wordSize l = 2) then uint64 <$> Layout_Uint16 l b
  else match b with
       | b0 :: _ => Some (uint64 (byteZ b0))
       | [] => None
       end.

(** ** obj.Reader (data.go) *)

(** [P[lo:]]: panics when [lo] is beyond the length. *)
Definition slice_from (P : list byte) (lo : nat) : option (list byte) :=
  if decide (lo <= length P)%nat then Some (drop lo P) else None.

Definition Reader_Uint64 (r : Reader) : option (Z * Reader) :=
  let o := R_p r in
  let r' := mkReader (R_d r) (o + 8) in
  b ← slice (D_P (R_d r)) o (o + 8);
  v ← Layout_Uint64 (D_Layout (R_d r)) b;
  Some (v, r').

Definition Reader_Int64 (r : Reader) : option (Z * Reader) :=
  '(v, r) ← Reader_Uint64 r; Some (int64 v, r).

(** [bytes.IndexByte] of Go's bytes package: the index of the first [c] in
    [s], or -1. *)
Fixpoint IndexByte (s : list byte) (c : byte) : Z :=
  match s with
  | [] => -1
  | b :: s =>
      if decide (b = c) then 0
      else let n := IndexByte s c in if decide (n < 0) then -1 else n + 1
  end.

Definition Reader_CString (r : Reader) : option (list byte * Reader) :=
  let P := D_P (R_d r) in
  s ← slice_from P (R_p r);
  let n := IndexByte s x00 in
  if decide (n < 0) then Some (s, mkReader (R_d r) (length P))
  else Some (take (Z.to_nat n) s, mkReader (R_d r) (R_p r + Z.to_nat n + 1)).

(** ** Relocation types (reloc.go) *)

(** The number of entries of [relocClasses]. *)
Definition len_relocClasses : Z := 3.

(** [RelocType.class]: the class is given by its index in [relocClasses]. *)
Definition RelocType_class (n : Z) : Z * Z :=
  let c := Z.shiftr n 24 in
  let v := Z.land n (Z.shiftl 1 24 - 1) in
  if decide (c < len_relocClasses) then (c, v) else (rcUnknown, v).

(** ** The relocation decoders of elfReloc.go *)

(** [elf.R_SYM64] and [elf.R_TYPE64] of Go's debug/elf. *)
Definition R_SYM64 (info : Z) : Z := uint32 (Z.shiftr info 32).
Definition R_TYPE64 (info : Z) : Z := uint32 info.

Fixpoint elfReadRel32_loop (fuel : nat) (relocs : list Reloc) (r : Reader)
    (symTab : elfSymTab) (relClass : Z) : option (list Reloc) :=
  if decide (Reader_Avail r >= 8) then
    match fuel with
    | O => None
    | S fuel =>
        '(off, r) ← Reader_Uint32 r;
        '(info, r) ← Reader_Uint32 r;
        let symID := fst (elfSymTab_lookup symTab (R_SYM32 info)) in
        let typ := R_TYPE32 info in
        rt ← makeRelocType relClass typ;
        elfReadRel32_loop fuel
          (relocs ++ [mkReloc (uint64 off) rt symID 0]) r symTab relClass
    end
  else Some relocs.

Definition elfReadRel32 (relocs : list Reloc) (r : Reader)
    (symTab : elfSymTab) (relClass : Z) : option (list Reloc) :=
  elfReadRel32_loop (length (D_P (R_d r))) relocs r symTab relClass.

Fixpoint elfReadRel64_loop (fuel : nat) (relocs : list Reloc) (r : Reader)
    (symTab : elfSymTab) (relClass : Z) : option (list Reloc) :=
  if decide (Reader_Avail r >= 16) then
    match fuel with
    | O => None
    | S fuel =>
        '(off, r) ← Reader_Uint64 r;
        '(info, r) ← Reader_Uint64 r;
        let symID := fst (elfSymTab_lookup symTab (R_SYM64 info)) in
        let typ := R_TYPE64 info in
        rt ← makeRelocType relClass typ;
        elfReadRel64_loop fuel
          (relocs ++ [mkReloc off rt symID 0]) r symTab relClass
    end
  else Some relocs.

Definition elfReadRel64 (relocs : list Reloc) (r : Reader)
    (symTab : elfSymTab) (relClass : Z) : option (list Reloc) :=
  elfReadRel64_loop (length (D_P (R_d r))) relocs r symTab relClass.

Fixpoint elfReadRela64_loop (fuel : nat) (relocs : list Reloc) (r : Reader)
    (symTab : elfSymTab) (relClass : Z) : option (list Reloc) :=
  if decide (Reader_Avail r >= 24) then
    match fuel with
    | O => None
    | S fuel =>
        '(off, r) ← Reader_Uint64 r;
        '(info, r) ← Reader_Uint64 r;
        let symID := fst (elfSymTab_lookup symTab (R_SYM64 info)) in
        let typ := R_TYPE64 info in
        '(add, r) ← Reader_Int64 r;
        rt ← makeRelocType relClass typ;
        elfReadRela64_loop fuel
          (relocs ++ [mkReloc off rt symID add]) r symTab relClass
    end
  else Some relocs.

Definition elfReadRela64 (relocs : list Reloc) (r : Reader)
    (symTab : elfSymTab) (relClass : Z) : option (list Reloc) :=
  elfReadRela64_loop (length (D_P (R_d r))) relocs r symTab relClass.

(** ** Rounding to a power of two (obj.go) *)

(** [x &^ m] on [uint64]. *)
Definition and_not64 (x m : Z) : Z := Z.land x (uint64 (Z.lnot m)).

Definition roundDown2 (x y : Z) : option Z :=
  if decide (Z.land y (uint64 (y - 1)) <> 0) then None
  else Some (and_not64 x (uint64 (y - 1))).

Definition roundUp2 (x y : Z) : option Z :=
  if decide (Z.land y (uint64 (y - 1)) <> 0) then None
  else Some (and_not64 (uint64 (uint64 (x + y) - 1)) (uint64 (y - 1))).

(** * The interval map (internal/imap)

    Nodes live in an explicit heap, a finite map from addresses to node
    records; a [*avlNode] is an [option] of an address.  Nodes are never
    freed: Go keeps a deleted node alive as long as a variable refers to it,
    and [Imap.Insert] reads [pred] after the loop may have deleted it. *)

Section Imap.
(** The dynamic values stored in the map.  A Go [interface{}] value is
    [None] for nil and [Some v] otherwise; [==] on the stored values is a
    decidable equality. *)
Context {V : Type} `{EqDecision V}.

Definition ptr : Type := option nat.

Record avlNode := mkNode {
  key : Z;
  left : ptr;
  right : ptr;
  parent : ptr;
  heightCache : Z;
  high : Z;
  value : option V }.

(** [avlTree] is the [root] field together with the heap of nodes. *)
Record avlTree := mkTree { root : ptr; nodes : gmap nat avlNode }.

Definition set_key (x : Z) (n : avlNode) : avlNode :=
  mkNode x (left n) (right n) (parent n) (heightCache n) (high n) (value n).
Definition set_left (x : ptr) (n : avlNode) : avlNode :=
  mkNode (key n) x (right n) (parent n) (heightCache n) (high n) (value n).
Definition set_right (x : ptr) (n : avlNode) : avlNode :=
  mkNode (key n) (left n) x (parent n) (heightCache n) (high n) (value n).
Definition set_parent (x : ptr) (n : avlNode) : avlNode :=
  mkNode (key n) (left n) (right n) x (heightCache n) (high n) (value n).
Definition set_heightCache (x : Z) (n : avlNode) : avlNode :=
  mkNode (key n) (left n) (right n) (parent n) x (high n) (value n).
Definition set_high (x : Z) (n : avlNode) : avlNode :=
  mkNode (key n) (left n) (right n) (parent n) (heightCache n) x (value n).
Definition set_value (x : option V) (n : avlNode) : avlNode :=
  mkNode (key n) (left n) (right n) (parent n) (heightCache n) (high n) x.

(** A field assignment [a.fld = x] through a non-nil pointer. *)
Definition upd (a : nat) (f : avlNode -> avlNode) (t : avlTree) : option avlTree :=
  nd ← nodes t !! a; Some (mkTree (root t) (<[a := f nd]> (nodes t))).

(** The same through a [*avlNode] that may be nil. *)
Definition upd_ptr (p : ptr) (f : avlNode -> avlNode) (t : avlTree) : option avlTree :=
  a ← p; upd a f t.

(** A [**avlNode]: the address of the root field or of a child field. *)
Inductive nodePtr := RootP | LeftP (a : nat) | RightP (a : nat).

Definition load (t : avlTree) (np : nodePtr) : option ptr :=
  match np with
  | RootP => Some (root t)
  | LeftP a => left <$> nodes t !! a
  | RightP a => right <$> nodes t !! a
  end.

Definition store (np : nodePtr) (p : ptr) (t : avlTree) : option avlTree :=
  match np with
  | RootP => Some (mkTree p (nodes t))
  | LeftP a => upd a (set_left p) t
  | RightP a => upd a (set_right p) t
  end.

(** Loops over the tree run on fuel; a walk along a path of a tree never
    takes more steps than there are nodes, and [rebalance] visits a node
    at most twice. *)
Definition fuel (t : avlTree) : nat := 2 * size (nodes t) + 2.

(** ** avl.go *)

Definition height (t : avlTree) (n : ptr) : option Z :=
  match n with
  | None => Some 0
  | Some a => heightCache <$> nodes t !! a
  end.

Definition updateHeight (n : nat) (t : avlTree) : option avlTree :=
  nd ← nodes t !! n;
  l ← height t (left nd);
  r ← height t (right nd);
  if decide (l > r) then upd n (set_heightCache (l + 1)) t
  else upd n (set_heightCache (r + 1)) t.

Definition balance (t : avlTree) (n : nat) : option Z :=
  nd ← nodes t !! n;
  l ← height t (left nd);
  r ← height t (right nd);
  Some (l - r).

Definition nodeP (t : avlTree) (n : nat) : option nodePtr :=
  nd ← nodes t !! n;
  match parent nd with
  | None => Some RootP
  | Some p =>
      pd ← nodes t !! p;
      if decide (left pd = Some n) then Some (LeftP p) else Some (RightP p)
  end.

Definition rotateLeft (np : nodePtr) (t : avlTree) : option avlTree :=
  n ← load t np; n ← n;
  nd ← nodes t !! n;
  nr ← right nd;
  nrd ← nodes t !! nr;
  let nrl := left nrd in
  let np_ := parent nd in
  t ← upd n (set_parent (Some nr)) t;
  t ← upd n (set_right nrl) t;
  t ← upd nr (set_parent np_) t;
  t ← upd nr (set_left (Some n)) t;
  t ← match nrl with
       | Some c => upd c (set_parent (Some n)) t
       | None => Some t
       end;
  t ← updateHeight n t;
  t ← updateHeight nr t;
  store np (Some nr) t.

Definition rotateRight (np : nodePtr) (t : avlTree) : option avlTree :=
  n ← load t np; n ← n;
  nd ← nodes t !! n;
  nl ← left nd;
  nld ← nodes t !! nl;
  let nlr := right nld in
  let np_ := parent nd in
  t ← upd n (set_parent (Some nl)) t;
  t ← upd n (set_left nlr) t;
  t ← upd nl (set_parent np_) t;
  t ← upd nl (set_right (Some n)) t;
  t ← match nlr with
       | Some c => upd c (set_parent (Some n)) t
       | None => Some t
       end;
  t ← updateHeight n t;
  t ← updateHeight nl t;
  store np (Some nl) t.

(** One iteration of the loop of [rebalance], up to the step to the
    parent. *)
Definition rebalance_step (node : nat) (t : avlTree) : option avlTree :=
  t ← updateHeight node t;
  b ← balance t node;
  if decide (b > 1) then
    nd ← nodes t !! node;
    l ← left nd;
    lb ← balance t l;
    t ← (if decide (lb < 0) then rotateLeft (LeftP node) t else Some t);
    np ← nodeP t node;
    rotateRight np t
  else if decide (b < -1) then
    nd ← nodes t !! node;
    r ← right nd;
    rb ← balance t r;
    t ← (if decide (rb > 0) then rotateRight (RightP node) t else Some t);
    np ← nodeP t node;
    rotateLeft np t
  else Some t.

Fixpoint rebalance_loop (n : nat) (node : ptr) (t : avlTree) : option avlTree :=
  match node with
  | None => Some t
  | Some a =>
      match n with
      | O => None
      | S n =>
          t ← rebalance_step a t;
          nd ← nodes t !! a;
          rebalance_loop n (parent nd) t
      end
  end.

Definition rebalance (node : ptr) (t : avlTree) : option avlTree :=
  rebalance_loop (fuel t) node t.

(** The descent of [avlTree.Insert]: the node with the key ([inl]), or the
    insertion point and its parent ([inr]). *)
Fixpoint Insert_descend (fl : nat) (t : avlTree) (k : Z) (p : ptr) (np : nodePtr)
    (n : ptr) : option (nat + ptr * nodePtr) :=
  match n with
  | None => Some (inr (p, np))
  | Some a =>
      match fl with
      | O => None
      | S fl =>
          nd ← nodes t !! a;
          if decide (k < key nd) then Insert_descend fl t k (Some a) (LeftP a) (left nd)
          else if decide (k > key nd)
               then Insert_descend fl t k (Some a) (RightP a) (right nd)
               else Some (inl a)
      end
  end.

Definition avlTree_Insert (k : Z) (t : avlTree) : option (nat * avlTree) :=
  r ← Insert_descend (fuel t) t k None RootP (root t);
  match r with
  | inl n => Some (n, t)
  | inr (p, np) =>
      let n := fresh (dom (nodes t)) in
      let t := mkTree (root t) (<[n := mkNode k None None p 1 0 None]> (nodes t)) in
      t ← store np (Some n) t;
      t ← rebalance p t;
      Some (n, t)
  end.

(** The search for the in-order successor in [avlTree.Delete]. *)
Fixpoint Delete_succ (fl : nat) (t : avlTree) (succP : nodePtr) (succ : nat)
    : option (nodePtr * nat) :=
  sd ← nodes t !! succ;
  match left sd with
  | None => Some (succP, succ)
  | Some l =>
      match fl with
      | O => None
      | S fl => Delete_succ fl t (LeftP succ) l
      end
  end.

(** The transposition of [node] and its successor in [avlTree.Delete];
    the result is the new [nodeP]. *)
Definition Delete_transpose (node : nat) (nodeP0 : nodePtr) (t : avlTree)
    : option (nodePtr * avlTree) :=
  nd ← nodes t !! node;
  r ← right nd;
  '(succP, succ) ← Delete_succ (fuel t) t (RightP node) r;
  sd ← nodes t !! succ;
  let parent_ := parent nd in
  let nl := left nd in
  let nr := right nd in
  let sp := parent sd in
  let sr := right sd in
  t ← store nodeP0 (Some succ) t;
  nd ← nodes t !! node;
  '(nodeP1, t) ←
    (if decide (Some succ = right nd) then
       t ← upd succ (set_right (Some node)) t;
       Some (RightP succ, t)
     else
       t ← upd succ (set_right nr) t;
       t ← upd node (set_parent sp) t;
       t ← store succP (Some node) t;
       Some (succP, t));
  t ← upd node (set_left None) t;
  t ← upd node (set_right sr) t;
  t ← upd succ (set_left nl) t;
  t ← upd succ (set_parent parent_) t;
  nd ← nodes t !! node;
  sd ← nodes t !! succ;
  t ← upd node (set_heightCache (heightCache sd)) t;
  t ← upd succ (set_heightCache (heightCache nd)) t;
  sd ← nodes t !! succ;
  t ← match left sd with
       | Some c => upd c (set_parent (Some succ)) t
       | None => Some t
       end;
  sd ← nodes t !! succ;
  t ← match right sd with
       | Some c => upd c (set_parent (Some succ)) t
       | None => Some t
       end;
  nd ← nodes t !! node;
  t ← match right nd with
       | Some c => upd c (set_parent (Some node)) t
       | None => Some t
       end;
  Some (nodeP1, t).

(** The end of [avlTree.Delete], where [node] has at most one child: the
    child takes the place of [node]. *)
Definition Delete_unlink (node : nat) (nodeP1 : nodePtr) (t : avlTree)
    : option avlTree :=
  nd ← nodes t !! node;
  match left nd, right nd with
  | None, r =>
      t ← store nodeP1 r t;
      match r with
      | Some c => upd c (set_parent (parent nd)) t
      | None => Some t
      end
  | Some l, None =>
      t ← store nodeP1 (Some l) t;
      upd l (set_parent (parent nd)) t
  | Some _, Some _ => Some t
  end.

Definition avlTree_Delete (node : nat) (t : avlTree) : option avlTree :=
  nodeP0 ← nodeP t node;
  nd ← nodes t !! node;
  '(nodeP1, t) ←
    match left nd, right nd with
    | Some _, Some _ => Delete_transpose node nodeP0 t
    | _, _ => Some (nodeP0, t)
    end;
  t ← Delete_unlink node nodeP1 t;
  rebalance (Some node) t.

Fixpoint Search_loop (fl : nat) (t : avlTree) (pred : avlNode -> bool)
    (best n : ptr) : option ptr :=
  match n with
  | None => Some best
  | Some a =>
      match fl with
      | O => None
      | S fl =>
          nd ← nodes t !! a;
          if pred nd then Search_loop fl t pred (Some a) (left nd)
          else Search_loop fl t pred best (right nd)
      end
  end.

Definition avlTree_Search (pred : avlNode -> bool) (t : avlTree) : option ptr :=
  Search_loop (fuel t) t pred None (root t).

(** [for n.parent != nil && n.parent.right == n { n = n.parent }; return n.parent] *)
Fixpoint Next_up (fl : nat) (t : avlTree) (n : nat) : option ptr :=
  nd ← nodes t !! n;
  match parent nd with
  | None => Some None
  | Some p =>
      pd ← nodes t !! p;
      if decide (right pd = Some n) then
        match fl with
        | O => None
        | S fl => Next_up fl t p
        end
      else Some (Some p)
  end.

(** [for n.left != nil { n = n.left }; return n] *)
Fixpoint Next_down (fl : nat) (t : avlTree) (n : nat) : option ptr :=
  nd ← nodes t !! n;
  match left nd with
  | None => Some (Some n)
  | Some l =>
      match fl with
      | O => None
      | S fl => Next_down fl t l
      end
  end.

Definition avlNode_Next (t : avlTree) (n : nat) : option ptr :=
  nd ← nodes t !! n;
  match right nd with
  | None => Next_up (fuel t) t n
  | Some r => Next_down (fuel t) t r
  end.

(** [for n.parent != nil && n.parent.left == n { n = n.parent }; return n.parent] *)
Fixpoint Prev_up (fl : nat) (t : avlTree) (n : nat) : option ptr :=
  nd ← nodes t !! n;
  match parent nd with
  | None => Some None
  | Some p =>
      pd ← nodes t !! p;
      if decide (left pd = Some n) then
        match fl with
        | O => None
        | S fl => Prev_up fl t p
        end
      else Some (Some p)
  end.

(** [for n.right != nil { n = n.right }; return n] *)
Fixpoint Prev_down (fl : nat) (t : avlTree) (n : nat) : option ptr :=
  nd ← nodes t !! n;
  match right nd with
  | None => Some (Some n)
  | Some r =>
      match fl with
      | O => None
      | S fl => Prev_down fl t r
      end
  end.

Definition avlNode_Prev (t : avlTree) (n : nat) : option ptr :=
  nd ← nodes t !! n;
  match left nd with
  | None => Prev_up (fuel t) t n
  | Some l => Prev_down (fuel t) t l
  end.

(** ** avl_test.go

    The closure [walk] of [check]: it returns the height of the subtree
    at [n], appends the keys to [got] in order, and reports a wrong parent
    pointer, a wrong cached height or a node out of balance; the flag of
    the state is [false] once the test has reported an error. *)
Fixpoint walk (fl : nat) (t : avlTree) (n parent_ : ptr) (st : list Z * bool)
    : option (Z * (list Z * bool)) :=
  match n with
  | None => Some (0, st)
  | Some a =>
      match fl with
      | O => None
      | S fl =>
          nd ← nodes t !! a;
          let '(got, ok) := st in
          let ok := ok && bool_decide (parent nd = parent_) in
          '(lh, (got, ok)) ← walk fl t (left nd) (Some a) (got, ok);
          let got := got ++ [key nd] in
          '(rh, (got, ok)) ← walk fl t (right nd) (Some a) (got, ok);
          let height_ := if decide (rh > lh) then rh + 1 else lh + 1 in
          let balance_ := lh - rh in
          let ok :=
            if decide (heightCache nd <> height_) then false
            else if decide (balance_ < -1 \/ balance_ > 1) then false
            else ok in
          Some (height_, (got, ok))
      end
  end.

(** [check], given the expected keys in sorted order: the walk from the
    root reports no error and collects exactly these keys. *)
Definition check (t : avlTree) (wantOrder : list Z) : option bool :=
  '(_, (got, ok)) ← walk (fuel t) t (root t) None ([], true);
  Some (ok && bool_decide (wantOrder = got)).

(** ** interval.go *)

Record Interval := mkInterval { Low : Z; High : Z }.

Definition Interval_Empty (i : Interval) : bool := High i <=? Low i.

Definition Interval_Contains (i : Interval) (addr : Z) : bool :=
  (Low i <=? addr) && (addr <? High i).

Definition Interval_Subtract (i o : Interval) : Interval * Interval :=
  let below := if Low i <? Low o then mkInterval (Low i) (Low o) else mkInterval 0 0 in
  let above := if High o <? High i then mkInterval (High o) (High i) else mkInterval 0 0 in
  (below, above).

(** ** imap.go *)

Record Imap := mkImap { tree : avlTree }.

Definition interval (n : avlNode) : Interval := mkInterval (key n) (high n).

(** The loop of [Imap.Insert].  The result is the tree with [Some n] when
    the loop ends or breaks with the variable [n], and with [None] when the
    function returns from inside the loop. *)
Fixpoint Insert_loop (fl : nat) (low hi : Z) (v : option V) (n : ptr) (t : avlTree)
    : option (avlTree * option ptr) :=
  match n with
  | None => Some (t, Some None)
  | Some a =>
      nd ← nodes t !! a;
      if decide (key nd < hi) then
        match fl with
        | O => None
        | S fl =>
            nNext ← avlNode_Next t a;
            let '(l, h) := Interval_Subtract (interval nd) (mkInterval low hi) in
            let lok := negb (Interval_Empty l) in
            let hok := negb (Interval_Empty h) in
            if lok && negb hok then
              t ← upd a (set_high (High l)) t;
              Insert_loop fl low hi v nNext t
            else if negb lok && hok then
              t ← upd a (set_key (Low h)) t;
              Some (t, Some (Some a))
            else if lok && hok then
              if decide (value nd = v) then Some (t, None)
              else
                t ← upd a (set_high (High l)) t;
                '(n2, t) ← avlTree_Insert (Low h) t;
                nd ← nodes t !! a;
                t ← upd n2 (set_high (High h)) t;
                t ← upd n2 (set_value (value nd)) t;
                Some (t, Some (Some n2))
            else
              t ← avlTree_Delete a t;
              Insert_loop fl low hi v nNext t
        end
      else Some (t, Some (Some a))
  end.

Definition Imap_Insert (k : Interval) (v : option V) (m : Imap) : option Imap :=
  if Interval_Empty k then Some m
  else
    let low := Low k in
    let hi := High k in
    let t := tree m in
    n ← avlTree_Search (fun n => low <=? high n) t;
    let pred := n in
    '(t, r) ← Insert_loop (fuel t) low hi v n t;
    match r with
    | None => Some (mkImap t)
    | Some n =>
        (* n's node, when [n != nil && n.key == high && n.value == value] *)
        let succ_merges (t : avlTree) : option (option nat) :=
          match n with
          | None => Some None
          | Some a =>
              nd ← nodes t !! a;
              Some (if decide (key nd = hi /\ value nd = v) then Some a else None)
          end in
        merge_pred ←
          match pred with
          | None => Some None
          | Some p =>
              pd ← nodes t !! p;
              Some (if decide (high pd = low /\ value pd = v) then Some p else None)
          end;
        match merge_pred with
        | Some p =>
            t ← upd p (set_high hi) t;
            s ← succ_merges t;
            match s with
            | Some a =>
                nd ← nodes t !! a;
                t ← upd p (set_high (high nd)) t;
                t ← avlTree_Delete a t;
                Some (mkImap t)
            | None => Some (mkImap t)
            end
        | None =>
            s ← succ_merges t;
            match s with
            | Some a =>
                t ← upd a (set_key low) t;
                Some (mkImap t)
            | None =>
                '(n, t) ← avlTree_Insert low t;
                t ← upd n (set_high hi) t;
                t ← upd n (set_value v) t;
                Some (mkImap t)
            end
        end
    end.

Definition Imap_Find (m : Imap) (addr : Z) : option (Interval * option V) :=
  n ← avlTree_Search (fun n => addr <? high n) (tree m);
  match n with
  | Some a =>
      nd ← nodes (tree m) !! a;
      if decide (key nd <= addr) then Some (interval nd, value nd)
      else Some (mkInterval 0 0, None)
  | None => Some (mkInterval 0 0, None)
  end.

(** ** iter.go *)

Record Iter := mkIter { it_n : ptr }.

Definition Imap_Iter (m : Imap) (addr : Z) : option Iter :=
  n ← avlTree_Search (fun n => addr <? high n) (tree m);
  Some (mkIter n).

Definition Iter_Valid (i : Iter) : bool := bool_decide (it_n i <> None).

Definition Iter_Key (m : Imap) (i : Iter) : option Interval :=
  n ← it_n i; nd ← nodes (tree m) !! n; Some (interval nd).

Definition Iter_Value (m : Imap) (i : Iter) : option (option V) :=
  n ← it_n i; nd ← nodes (tree m) !! n; Some (value nd).

Definition Iter_Next (m : Imap) (i : Iter) : option Iter :=
  n ← it_n i; n' ← avlNode_Next (tree m) n; Some (mkIter n').

(** [for it := m.Iter(addr); it.Valid(); it.Next()], collecting
    [it.Key()] and [it.Value()]. *)
Fixpoint Iter_loop (fl : nat) (m : Imap) (it : Iter)
    : option (list (Interval * option V)) :=
  if Iter_Valid it then
    match fl with
    | O => None
    | S fl =>
        k ← Iter_Key m it;
        v ← Iter_Value m it;
        it ← Iter_Next m it;
        rest ← Iter_loop fl m it;
        Some ((k, v) :: rest)
    end
  else Some [].

Definition Imap_iterate (m : Imap) (addr : Z) : option (list (Interval * option V)) :=
  it ← Imap_Iter m addr; Iter_loop (fuel (tree m)) m it.

(** The zero value of [Imap] on an empty heap. *)
Definition Imap_empty : Imap := mkImap (mkTree None ∅).

End Imap.

(** * Theorems: the object model and the ELF backend *)

Definition le_bytes32 (x : Z) : list byte :=
  match Byte.of_N (Z.to_N (Z.land x 255)),
        Byte.of_N (Z.to_N (Z.land (Z.shiftr x 8) 255)),
        Byte.of_N (Z.to_N (Z.land (Z.shiftr x 16) 255)),
        Byte.of_N (Z.to_N (Z.land (Z.shiftr x 24) 255)) with
  | Some a, Some b, Some c, Some d => [a; b; c; d]
  | _, _, _, _ => []
  end.

(** One RELA/32 entry, little endian: offset 0x10, info 0x0102, and the
    stored addend 0xfffffffc, which is -4 as a 32-bit signed value. *)
Definition rela32_entry : list byte :=
  le_bytes32 0x10 ++ le_bytes32 0x0102 ++ le_bytes32 0xfffffffc.

Definition rela32_reader : Reader :=
  NewReader (mkData 0 rela32_entry (mkLayout 0 4)).

(** C2. The RELA/32 decoder widens the stored addend by zero extension:
    the entry whose 32-bit addend is 0xfffffffc (-4 as a signed 32-bit
    value) decodes to the Addend 4294967292, not to -4. *)
Theorem elfReadRela32_addend_zero_extended :
  elfReadRela32 [] rela32_reader (mkSymTab 0 10) rcElf386
    = Some [mkReloc 0x10 (Z.lor (Z.shiftl rcElf386 24) 2) 0 4294967292]
  /\ int32 0xfffffffc = -4.
Proof. split; vm_compute; reflexivity. Qed.

Lemma Layout_Uint32_nonneg l b v : Layout_Uint32 l b = Some v -> 0 <= v.
Proof.
  unfold Layout_Uint32, byteZ.
  destruct b as [|b0 [|b1 [|b2 [|b3 ?]]]]; try discriminate.
  case_decide; intros [= <-];
    repeat (apply Z.lor_nonneg; split); try apply Z.shiftl_nonneg; lia.
Qed.

Lemma Layout_Uint32_bound l b v : Layout_Uint32 l b = Some v -> v < 2 ^ 32.
Proof.
  assert (Hb : forall x : byte, 0 <= byteZ x < 2 ^ 8).
  { intros x. unfold byteZ. pose proof (Byte.to_N_bounded x). lia. }
  assert (Hs : forall x n, 0 <= n -> 0 <= x < 2 ^ 8 -> n + 8 <= 32 ->
                 0 <= Z.shiftl x n < 2 ^ 32).
  { intros x n Hn Hx Hle. rewrite Z.shiftl_mul_pow2 by lia. split; [nia|].
    apply Z.lt_le_trans with (2 ^ 8 * 2 ^ n); [nia|].
    rewrite <- Z.pow_add_r by lia. apply Z.pow_le_mono_r; lia. }
  assert (Hor : forall x y, 0 <= x < 2 ^ 32 -> 0 <= y < 2 ^ 32 ->
                 0 <= Z.lor x y < 2 ^ 32).
  { intros x y Hx Hy. split; [apply Z.lor_nonneg; lia|].
    destruct (Z.eq_dec (Z.lor x y) 0) as [->|Hne]; [lia|].
    apply Z.log2_lt_pow2; [apply Z.le_neq; split;
      [apply Z.lor_nonneg; lia|congruence]|].
    rewrite Z.log2_lor by lia.
    apply Z.max_lub_lt.
    - destruct (Z.eq_dec x 0) as [->|?]; [simpl; lia|].
      apply Z.log2_lt_pow2; lia.
    - destruct (Z.eq_dec y 0) as [->|?]; [simpl; lia|].
      apply Z.log2_lt_pow2; lia. }
  assert (Hb32 : forall x : byte, 0 <= byteZ x < 2 ^ 32).
  { intros x. specialize (Hb x). lia. }
  unfold Layout_Uint32.
  destruct b as [|b0 [|b1 [|b2 [|b3 ?]]]]; try discriminate.
  case_decide; intros [= <-];
    apply Hor; try apply Hor; try apply Hor; try apply Hs;
    try apply Hb32; try apply Hb; lia.
Qed.

(** The zero extension at every entry: an Addend that [elfReadRela32]
    decodes is never negative. *)
Lemma elfReadRela32_loop_addend_nonneg fuel : forall relocs r symTab relClass out,
  Forall (fun rl => 0 <= Addend rl) relocs ->
  elfReadRela32_loop fuel relocs r symTab relClass = Some out ->
  Forall (fun rl => 0 <= Addend rl) out.
Proof.
  induction fuel as [|fuel IH]; intros relocs r symTab relClass out Hacc; simpl.
  - case_decide; [discriminate|]. now intros [= <-].
  - case_decide; [|now intros [= <-]].
    destruct (Reader_Uint32 r) as [[off r1]|] eqn:E1; simpl; [|discriminate].
    destruct (Reader_Uint32 r1) as [[info r2]|] eqn:E2; simpl; [|discriminate].
    destruct (Reader_Uint32 r2) as [[add r3]|] eqn:E3; simpl; [|discriminate].
    destruct (makeRelocType _ _) as [rt|]; simpl; [|discriminate].
    apply IH. apply Forall_app; split; [assumption|].
    constructor; [|constructor]. simpl.
    unfold Reader_Uint32 in E3.
    destruct (slice _ _ _) as [b|]; simpl in E3; [|discriminate].
    destruct (Layout_Uint32 _ b) as [v|] eqn:Ev; simpl in E3; [|discriminate].
    injection E3 as <- _.
    pose proof (Layout_Uint32_nonneg _ _ _ Ev).
    pose proof (Layout_Uint32_bound _ _ _ Ev).
    unfold int64, to_signed, wrap.
    rewrite Z.mod_small by lia.
    destruct (Z_lt_dec v (2 ^ (64 - 1))); lia.
Qed.

(** C4. For the section [openElf] builds from any ELF header,
    [ZeroInitialize] reports the absence of the WRITE flag, whatever the
    section's type: it reads the read-only bit. *)
Theorem ZeroInitialize_reports_ReadOnly relocatable n elfID hdr :
  SectionFlags_ZeroInitialize
    (S_f (es_Section (openElf_section relocatable n elfID hdr)))
  = (Z.land (sh_Flags hdr) SHF_WRITE =? 0).
Proof.
  unfold openElf_section; simpl.
  destruct (negb relocatable && _), (Z.land (sh_Flags hdr) SHF_WRITE =? 0),
    (sh_Type hdr =? SHT_NOBITS); reflexivity.
Qed.

(** The headers of a [.text] (PROGBITS, ALLOC|EXECINSTR) and of a [.bss]
    (NOBITS, ALLOC|WRITE) section. *)
Definition text_header : elfHeader :=
  mkElfHeader SHT_PROGBITS (Z.lor SHF_ALLOC SHF_EXECINSTR) 0x401000 0x200 0 0.
Definition bss_header : elfHeader :=
  mkElfHeader SHT_NOBITS (Z.lor SHF_ALLOC SHF_WRITE) 0x404000 0x10 0 0.

Lemma ZeroInitialize_text_bss :
  SectionFlags_ZeroInitialize
    (S_f (es_Section (openElf_section false 0 1 text_header))) = true
  /\ sh_Type text_header <> SHT_NOBITS
  /\ SectionFlags_ZeroInitialize
       (S_f (es_Section (openElf_section false 1 2 bss_header))) = false
  /\ sh_Type bss_header = SHT_NOBITS.
Proof. repeat split; vm_compute; congruence. Qed.

(** *** ResolveAddr *)

(** A section as the section-table loop builds it from its own header. *)
Definition built (relocatable : bool) (es : elfSection) : Prop :=
  exists n elfID,
    es_Section es = es_Section (openElf_section relocatable n elfID (es_elf es)).

Lemma built_openElf_section relocatable n elfID hdr :
  built relocatable (openElf_section relocatable n elfID hdr).
Proof. exists n, elfID. reflexivity. Qed.

Lemma openElf_sections_built relocatable : forall hdrs elfID acc shn,
  Forall (built relocatable) acc ->
  Forall (built relocatable) (fst (openElf_sections relocatable elfID hdrs acc shn)).
Proof.
  induction hdrs as [|h hdrs IH]; intros elfID acc shn Hacc; simpl; [assumption|].
  destruct (sh_Type h =? SHT_NULL); apply IH; [assumption|].
  apply Forall_app; split; [assumption|].
  constructor; [apply built_openElf_section|constructor].
Qed.

Lemma built_set_rel relocatable st tg es :
  built relocatable es -> built relocatable (set_rel st tg es).
Proof. intros (n & i & H). exists n, i. exact H. Qed.

Lemma built_add_relocSection relocatable rs es :
  built relocatable es -> built relocatable (add_relocSection rs es).
Proof. intros (n & i & H). exists n, i. exact H. Qed.

Lemma built_alter relocatable (g : elfSection -> elfSection) i secs :
  (forall es, built relocatable es -> built relocatable (g es)) ->
  Forall (built relocatable) secs ->
  Forall (built relocatable) (alter g i secs).
Proof. intros Hg H. apply Forall_alter; [assumption|]. intros x _. apply Hg. Qed.

Lemma built_foldl_add relocatable rs : forall ls secs,
  Forall (built relocatable) secs ->
  Forall (built relocatable)
    (foldl (fun secs l => alter (add_relocSection rs) l secs) secs ls).
Proof.
  induction ls as [|l ls IH]; intros secs H; simpl; [assumption|].
  apply IH, built_alter; [apply built_add_relocSection|assumption].
Qed.

Lemma openElf_relocs_built {E} relocatable shn symTabs rsecs :
  forall relSections secs out,
  Forall (built relocatable) secs ->
  openElf_relocs (E := E) relocatable shn symTabs rsecs relSections secs
    = Some (inl out) ->
  Forall (built relocatable) out.
Proof.
  induction relSections as [|i rest IH]; intros secs out Hb; simpl.
  - intros [= <-]. assumption.
  - destruct (secs !! i) as [es|]; simpl; [|discriminate].
    match goal with |- context [match ?x with inl _ => _ | inr _ => _ end] =>
      destruct x as [symTab|e] end; [|discriminate].
    case_decide.
    + destruct relocatable; [discriminate|].
      apply IH, built_foldl_add, built_alter; [apply built_set_rel|assumption].
    + destruct (lookupShn shn _) as [[target|] [|]]; try discriminate.
      destruct (alter _ i secs !! target) as [t|]; simpl; [|discriminate].
      destruct (canHaveRelocs t); apply IH.
      * apply built_alter; [apply built_set_rel|].
        apply built_alter; [apply built_add_relocSection|].
        apply built_alter; [apply built_set_rel|assumption].
      * apply built_alter; [apply built_set_rel|assumption].
Qed.

Lemma Mapped_built relocatable es :
  built relocatable es ->
  SectionFlags_Mapped (S_f (es_Section es))
  = negb relocatable && negb (Z.land (sh_Flags (es_elf es)) SHF_ALLOC =? 0).
Proof.
  intros (n & i & ->). unfold openElf_section; simpl.
  destruct (negb relocatable && _), (Z.land _ SHF_WRITE =? 0),
    (sh_Type _ =? SHT_NOBITS); reflexivity.
Qed.

Lemma ResolveAddr_loop_spec secs addr :
  addr < 2 ^ 64 ->
  Forall (fun es => 0 <= S_Addr (es_Section es)) secs ->
  Forall (built false) secs ->
  match ResolveAddr_loop secs addr with
  | Some s =>
      (exists es, es ∈ secs /\ es_Section es = s)
      /\ SectionFlags_Mapped (S_f s) = true /\ Section_contains s addr
  | None =>
      forall es, es ∈ secs -> SectionFlags_Mapped (S_f (es_Section es)) = true ->
                 ~ Section_contains (es_Section es) addr
  end.
Proof.
  intros Haddr Hpos Hb. induction secs as [|es secs IH]; simpl.
  - intros es Hin. inversion Hin.
  - inversion Hpos as [|? ? Hes Hpos']; subst.
    inversion Hb as [|? ? Hbes Hb']; subst.
    specialize (IH Hpos' Hb').
    pose proof (Mapped_built _ _ Hbes) as Hm.
    destruct (Z.land (sh_Flags (es_elf es)) SHF_ALLOC =? 0) eqn:Ealloc;
      simpl in Hm.
    + destruct (ResolveAddr_loop secs addr) as [s|].
      * destruct IH as ((es' & Hin & Heq) & ? & ?). split; [|split; assumption].
        exists es'. split; [now constructor|assumption].
      * intros es' Hin Hmap. inversion Hin; subst; [congruence|]. now apply IH.
    + destruct (S_Addr (es_Section es) <=? addr) eqn:Ele; simpl.
      * apply Z.leb_le in Ele.
        unfold uint64, wrap. rewrite Z.mod_small by lia.
        destruct (addr - S_Addr (es_Section es) <? S_Size (es_Section es)) eqn:Elt.
        -- apply Z.ltb_lt in Elt. split; [|split].
           ++ exists es. split; [now constructor|reflexivity].
           ++ exact Hm.
           ++ unfold Section_contains. lia.
        -- apply Z.ltb_ge in Elt.
           destruct (ResolveAddr_loop secs addr) as [s|].
           ++ destruct IH as ((es' & Hin & Heq) & ? & ?). split; [|split; assumption].
              exists es'. split; [now constructor|assumption].
           ++ intros es' Hin Hmap. inversion Hin; subst; [|now apply IH].
              unfold Section_contains. lia.
      * apply Z.leb_gt in Ele.
        destruct (ResolveAddr_loop secs addr) as [s|].
        -- destruct IH as ((es' & Hin & Heq) & ? & ?). split; [|split; assumption].
           exists es'. split; [now constructor|assumption].
        -- intros es' Hin Hmap. inversion Hin; subst; [|now apply IH].
           unfold Section_contains. lia.
Qed.

Lemma openElf_sections_of {reader E} ReadAt elf_NewFile sectionBytes_err
    (r : reader) (f : elfFile) :
  openElf (E := E) ReadAt elf_NewFile sectionBytes_err r = Some (true, Some f, None) ->
  Forall (built (f_relocatable f)) (f_sections f).
Proof.
  unfold openElf.
  destruct (ReadAt r 4%nat 0) as [magic [err|]]; [discriminate|].
  case_decide; [|discriminate].
  destruct (elf_NewFile r) as [ff|err]; [|discriminate].
  match goal with |- context [match ?x with Some _ => _ | None => _ end = _] =>
    destruct x as [[[symSize relSize] relaSize]|] end; [|discriminate].
  destruct (openElf_sections _ 0 (ff_Sections ff) [] []) as [secs shn] eqn:Esecs.
  destruct (openElf_relocs _ _ _ _ _ _) as [[secs'|e]|] eqn:Erel;
    cbn -[openElf_symTabs]; try discriminate.
  destruct (openElf_symTabs _ _ _ _ _ _ _) as [[tabs|e]|];
    cbn -[openElf_symTabs]; try discriminate.
  intros [= <-]. simpl.
  eapply openElf_relocs_built; [|exact Erel].
  pose proof (openElf_sections_built (bool_decide (ff_Type ff = ET_REL))
                (ff_Sections ff) 0 [] [] (Forall_nil_2 _)) as Hb.
  rewrite Esecs in Hb. exact Hb.
Qed.

(** C7. For a file that [openElf] opened, [ResolveAddr] returns none when
    the file is relocatable; otherwise it returns a section of the file
    that is marked mapped and contains [addr] if there is one, and none
    exactly when no mapped section contains [addr]. *)
Theorem ResolveAddr_mapped_sections {reader E} ReadAt elf_NewFile sectionBytes_err
    (r : reader) (f : elfFile) (addr : Z) :
  openElf (E := E) ReadAt elf_NewFile sectionBytes_err r = Some (true, Some f, None) ->
  addr < 2 ^ 64 ->
  Forall (fun es => 0 <= S_Addr (es_Section es)) (f_sections f) ->
  (f_relocatable f = true -> elfFile_ResolveAddr f addr = None)
  /\ (f_relocatable f = false ->
      (forall s, elfFile_ResolveAddr f addr = Some s ->
         (exists es, es ∈ f_sections f /\ es_Section es = s)
         /\ SectionFlags_Mapped (S_f s) = true /\ Section_contains s addr)
      /\ (elfFile_ResolveAddr f addr = None <->
          ~ exists es, es ∈ f_sections f
              /\ SectionFlags_Mapped (S_f (es_Section es)) = true
              /\ Section_contains (es_Section es) addr)).
Proof.
  intros Hopen Haddr Hpos. apply openElf_sections_of in Hopen.
  unfold elfFile_ResolveAddr. split; intros Hrel; rewrite Hrel in *; [reflexivity|].
  pose proof (ResolveAddr_loop_spec _ _ Haddr Hpos Hopen) as H.
  destruct (ResolveAddr_loop (f_sections f) addr) as [s|].
  - split; [intros s' [= <-]; exact H|].
    split; [discriminate|]. intros Hno. exfalso. apply Hno.
    destruct H as ((es & Hin & <-) & Hm & Hc). eauto.
  - split; [discriminate|]. split; [|reflexivity].
    intros _ (es & Hin & Hm & Hc). exact (H es Hin Hm Hc).
Qed.

(** A linked executable with a [.text] and a [.bss] section, behind a
    reader that delivers it. *)
Definition demo_elf_File : elf_File :=
  mkElfFF ELFCLASS64 2 [mkElfHeader SHT_NULL 0 0 0 0 0; text_header; bss_header].

Definition demo_elfFile : elfFile :=
  mkElfFile false 24 16 24
    [openElf_section false 0 1 text_header; openElf_section false 1 2 bss_header]
    [None; Some 0%nat; Some 1%nat]
    [(None, mkSymTab 0 0); (None, mkSymTab 0 0)].

Lemma ResolveAddr_mapped_sections_witness :
  (f_relocatable demo_elfFile = true -> elfFile_ResolveAddr demo_elfFile 0x401010 = None)
  /\ (f_relocatable demo_elfFile = false ->
      (forall s, elfFile_ResolveAddr demo_elfFile 0x401010 = Some s ->
         (exists es, es ∈ f_sections demo_elfFile /\ es_Section es = s)
         /\ SectionFlags_Mapped (S_f s) = true /\ Section_contains s 0x401010)
      /\ (elfFile_ResolveAddr demo_elfFile 0x401010 = None <->
          ~ exists es, es ∈ f_sections demo_elfFile
              /\ SectionFlags_Mapped (S_f (es_Section es)) = true
              /\ Section_contains (es_Section es) 0x401010)).
Proof.
  apply (ResolveAddr_mapped_sections (reader := unit) (E := unit)
           (fun _ _ _ => (magicELF, None)) (fun _ => inl demo_elf_File)
           (fun _ _ => None) tt).
  - vm_compute. reflexivity.
  - lia.
  - repeat constructor; vm_compute; congruence.
Defined.

(** *** Open *)

(** The first four bytes of the input, when the reader delivers them. *)
Definition first_four {reader E} (ReadAt : reader -> nat -> Z -> list byte * option E)
    (r : reader) : option (list byte) :=
  match ReadAt r 4%nat 0 with
  | (b, None) => Some b
  | (_, Some _) => None
  end.

Lemma openElf_relocs_err {E} relocatable shn symTabs rsecs :
  forall relSections secs e,
  openElf_relocs (E := E) relocatable shn symTabs rsecs relSections secs
    = Some (inr e) ->
  e <> ErrUnrecognized.
Proof.
  induction relSections as [|i rest IH]; intros secs e; simpl; [discriminate|].
  destruct (secs !! i) as [es|]; simpl; [|discriminate].
  case_decide.
  - case_decide.
    + destruct relocatable; [intros [= <-]; discriminate|]. apply IH.
    + destruct (lookupShn shn (sh_Info _)) as [[target|] [|]];
        try (intros [= <-]; discriminate).
      destruct (alter _ i secs !! target) as [t|]; simpl; [|discriminate].
      destruct (canHaveRelocs t); apply IH.
  - destruct (lookupShn shn (sh_Link _)) as [[symSection|] [|]];
      try (intros [= <-]; discriminate).
    destruct (find_symTab symTabs symSection) as [k|];
      [|intros [= <-]; discriminate].
    case_decide.
    + destruct relocatable; [intros [= <-]; discriminate|]. apply IH.
    + destruct (lookupShn shn (sh_Info _)) as [[target|] [|]];
        try (intros [= <-]; discriminate).
      destruct (alter _ i secs !! target) as [t|]; simpl; [|discriminate].
      destruct (canHaveRelocs t); apply IH.
Qed.

Lemma openElf_symTabs_err {reader E} sectionBytes_err (r : reader) symSize shn secs :
  forall symTabs nSyms e,
  openElf_symTabs (E := E) sectionBytes_err r symSize shn secs symTabs nSyms
    = Some (inr e) ->
  e <> ErrUnrecognized.
Proof.
  induction symTabs as [|[[i|] tab] rest IH]; intros nSyms e; simpl; [discriminate| |].
  - destruct (secs !! i) as [es|]; simpl; [|discriminate].
    destruct (elfSectionData_err _ _ es _ _) as [[err|]|]; simpl;
      [intros [= <-]; discriminate| |discriminate].
    destruct (lookupShn shn _) as [[str|] [|]]; try (intros [= <-]; discriminate).
    destruct (secs !! str) as [strSection|]; simpl; [|discriminate].
    case_decide; [|intros [= <-]; discriminate].
    destruct (elfSectionData_err _ _ strSection _ _) as [[err|]|]; simpl;
      [intros [= <-]; discriminate| |discriminate].
    destruct (openElf_symTabs _ _ _ _ _ _ _) as [[tabs|e']|] eqn:Erec; simpl;
      [discriminate| |discriminate].
    intros [= <-]. exact (IH _ _ Erec).
  - destruct (openElf_symTabs _ _ _ _ _ _ _) as [[tabs|e']|] eqn:Erec; simpl;
      [discriminate| |discriminate].
    intros [= <-]. exact (IH _ _ Erec).
Qed.

Lemma openElf_isElf {reader E} ReadAt elf_NewFile sectionBytes_err (r : reader)
    isElf f err :
  openElf (E := E) ReadAt elf_NewFile sectionBytes_err r = Some (isElf, f, err) ->
  (isElf = true <-> first_four ReadAt r = Some magicELF)
  /\ (isElf = true -> err <> Some ErrUnrecognized).
Proof.
  unfold openElf, first_four.
  destruct (ReadAt r 4%nat 0) as [magic [e|]].
  { intros [= <- <- <-]. split; [split; discriminate|discriminate]. }
  case_decide as Hm.
  2:{ intros [= <- <- <-]. split; [split; [discriminate|congruence]|discriminate]. }
  subst magic. intros H.
  assert (isElf = true /\ err <> Some ErrUnrecognized) as [-> Hne];
    [|split; [split; reflexivity|intros _; exact Hne]].
  destruct (elf_NewFile r) as [ff|e]; [|injection H as <- <- <-; split; congruence].
  match type of H with context [match ?x with Some _ => _ | None => _ end = _] =>
    destruct x as [[[symSize relSize] relaSize]|] end;
    [|injection H as <- <- <-; split; congruence].
  destruct (openElf_sections _ 0 (ff_Sections ff) [] []) as [secs shn].
  destruct (openElf_relocs _ _ _ _ _ _) as [[secs'|e]|] eqn:Erel;
    cbn -[openElf_symTabs] in H; [|injection H as <- <- <-|discriminate].
  - destruct (openElf_symTabs _ _ _ _ _ _ _) as [[tabs|e]|] eqn:Esym;
      cbn -[openElf_symTabs] in H; [| |discriminate];
      injection H as <- <- <-; split; try reflexivity; try discriminate.
    intros [= ->]. exact (openElf_symTabs_err _ _ _ _ _ _ _ _ Esym eq_refl).
  - split; [reflexivity|].
    intros [= ->]. exact (openElf_relocs_err _ _ _ _ _ _ _ Erel eq_refl).
Qed.

(** C8. [Open] returns the error [unrecognized object file format]
    exactly when the first four bytes of the input are not the ELF magic;
    once they are, whatever error [Open] returns is not that one. *)
Theorem Open_unrecognized_iff_not_magic {reader E} ReadAt elf_NewFile sectionBytes_err
    (r : reader) :
  ((exists f, Open (E := E) ReadAt elf_NewFile sectionBytes_err r
                = Some (f, Some ErrUnrecognized))
   <-> first_four ReadAt r <> Some magicELF)
  /\ (first_four ReadAt r = Some magicELF ->
      forall f e, Open ReadAt elf_NewFile sectionBytes_err r = Some (f, Some e) ->
                  e <> ErrUnrecognized).
Proof.
  unfold Open.
  destruct (openElf ReadAt elf_NewFile sectionBytes_err r) as [[[isElf f] err]|] eqn:Eo;
    simpl.
  - destruct (openElf_isElf _ _ _ _ _ _ _ Eo) as [Hiff Herr].
    destruct isElf.
    + split.
      * split.
        -- intros (f' & [= _ ->]). exfalso. now apply Herr.
        -- intros Hne. exfalso. apply Hne, Hiff. reflexivity.
      * intros _ f' e [= _ ->] ->. now apply Herr.
    + split.
      * split; [|eauto]. intros _ Hm. apply Hiff in Hm. discriminate.
      * intros Hm. apply Hiff in Hm. discriminate.
  - split.
    + split; [intros (f' & [=])|].
      intros Hne. exfalso. apply Hne. clear Hne.
      unfold openElf, first_four in *.
      destruct (ReadAt r 4%nat 0) as [magic [e|]]; [discriminate|].
      case_decide; [congruence|discriminate].
    + intros _ f e [=].
Qed.

(** *** SynthesizeSizes *)

(** Two data symbols of one section at the same address: the first has a
    size, the second has none. *)
Definition group_section : Section := mkSection 0 1 0 100 0.
Definition group_syms : list Sym :=
  [mkSym (Some 0%nat) 0 10 68 0; mkSym (Some 0%nat) 0 0 68 0].

(** C3. In the group of [group_syms] one member has size 0 and the
    group's extent is 100 (to the end of the section), but
    [SynthesizeSizes] leaves the zero-sized member without a size and
    without the synthesized flag: [anyZero] only reads the first member
    of the group. *)
Theorem SynthesizeSizes_skips_group_with_sized_head :
  SynthesizeSizes insertionSort [group_section] group_syms = Some group_syms
  /\ (exists s, group_syms !! 1%nat = Some s /\ Sym_Size s = 0
                /\ SymFlags_SizeSynthesized (Sym_f s) = false)
  /\ uint64 (S_Addr group_section + S_Size group_section - 0) = 100.
Proof.
  split; [vm_compute; reflexivity|].
  split; [|vm_compute; reflexivity].
  eexists. split; [reflexivity|]. split; reflexivity.
Qed.

(** With the zero-sized member first in the group the extent is assigned,
    to that member only. *)
Lemma SynthesizeSizes_group_with_unsized_head :
  SynthesizeSizes insertionSort [group_section]
    [mkSym (Some 0%nat) 0 0 68 0; mkSym (Some 0%nat) 0 10 68 0]
  = Some [mkSym (Some 0%nat) 0 100 68 2; mkSym (Some 0%nat) 0 10 68 0].
Proof. vm_compute. reflexivity. Qed.

(** [group_loop] never looks at the sizes of the later members: its
    [anyZero] result is the flag it was started with, or the test on the
    first member. *)
Lemma group_loop_anyZero syms s1 : forall rest group anyZero g z,
  group_loop syms s1 rest group anyZero = Some (g, z) ->
  z = anyZero \/ z = (Sym_Size s1 =? 0).
Proof.
  induction rest as [|t rest IH]; intros group anyZero g z; simpl.
  - intros [= _ <-]. now left.
  - destruct (syms !! t) as [s2|]; simpl; [|discriminate].
    destruct (_ || _); [intros [= _ <-]; now left|].
    intros H. apply IH in H. destruct (Sym_Size s1 =? 0); destruct H; subst; auto.
Qed.

(** * Theorems: layouts, readers, relocation types, rounding *)

(** ** Bit arithmetic *)

Lemma land_shiftl_small a v k :
  0 <= k -> 0 <= v < 2 ^ k -> Z.land (Z.shiftl a k) v = 0.
Proof.
  intros Hk Hv. apply Z.bits_inj'. intros n Hn.
  rewrite Z.land_spec, Z.bits_0.
  destruct (Z.lt_ge_cases n k) as [Hlt|Hge].
  - rewrite Z.shiftl_spec_low by lia. reflexivity.
  - rewrite <- (Z.mod_small v (2 ^ k)) by lia.
    rewrite Z.mod_pow2_bits_high by lia. apply andb_false_r.
Qed.

Lemma lor_shiftl_small a v k :
  0 <= k -> 0 <= v < 2 ^ k -> Z.lor (Z.shiftl a k) v = a * 2 ^ k + v.
Proof.
  intros Hk Hv. rewrite <- Z.shiftl_mul_pow2 by lia.
  rewrite <- Z.lxor_lor by (now apply land_shiftl_small).
  symmetry. apply Z.add_nocarry_lxor. now apply land_shiftl_small.
Qed.

Lemma lor_small_shiftl v a k :
  0 <= k -> 0 <= v < 2 ^ k -> Z.lor v (Z.shiftl a k) = v + a * 2 ^ k.
Proof. intros Hk Hv. rewrite Z.lor_comm, lor_shiftl_small by lia. lia. Qed.

Lemma byteZ_bound (x : byte) : 0 <= byteZ x < 256.
Proof. unfold byteZ. pose proof (Byte.to_N_bounded x). lia. Qed.

(** ** Relocation types *)

(** X22. [makeRelocType] then [class]: the relocation value comes back, with
    the class whose number is the low byte of the class id; ids beyond
    the table of classes give the unknown class.  Values of 2^24 and more
    are refused. *)
Theorem makeRelocType_class cls v :
  0 <= cls < 2 ^ 32 -> 0 <= v < 2 ^ 32 ->
  (v < 2 ^ 24 ->
   exists n, makeRelocType cls v = Some n /\ 0 <= n < 2 ^ 32
     /\ RelocType_class n
        = (if decide (cls mod 256 < len_relocClasses) then cls mod 256 else rcUnknown, v))
  /\ (2 ^ 24 <= v -> makeRelocType cls v = None).
Proof.
  intros Hc Hv. unfold makeRelocType.
  change (Z.shiftl 1 24 - 1) with (Z.ones 24).
  rewrite Z.land_ones by lia. split; intros Hv24.
  - rewrite decide_True by (apply Z.mod_small; lia).
    eexists. split; [reflexivity|].
    assert (Hsh : uint32 (Z.shiftl cls 24) = Z.shiftl (cls mod 256) 24).
    { unfold uint32, wrap. rewrite !Z.shiftl_mul_pow2 by lia.
      change (2 ^ 32) with (2 ^ 8 * 2 ^ 24).
      rewrite Z.mul_mod_distr_r by lia. reflexivity. }
    rewrite Hsh, lor_shiftl_small by lia.
    pose proof (Z.mod_pos_bound cls 256 ltac:(lia)) as Hm.
    split; [lia|]. unfold RelocType_class.
    change (Z.shiftl 1 24 - 1) with (Z.ones 24).
    rewrite Z.land_ones, Z.shiftr_div_pow2 by lia.
    rewrite Z.div_add_l, Z.div_small, Z.add_0_r by lia.
    rewrite (Z.add_comm _ v), Z.mod_add, (Z.mod_small v) by lia.
    destruct (decide (cls mod 256 < len_relocClasses)); reflexivity.
  - rewrite decide_False; [reflexivity|].
    pose proof (Z.mod_pos_bound v (2 ^ 24) ltac:(lia)). lia.
Qed.

Lemma makeRelocType_class_witness :
  exists n, makeRelocType rcElf386 2 = Some n /\ 0 <= n < 2 ^ 32
    /\ RelocType_class n
       = (if decide (rcElf386 mod 256 < len_relocClasses) then rcElf386 mod 256
          else rcUnknown, 2).
Proof.
  apply (makeRelocType_class rcElf386 2); unfold rcElf386; lia.
Defined.

(** ** The ELF symbol table *)

(** X23. [elfSymTab.lookup] maps the ELF symbol indices 1 .. end - start to
    the symbol ids start .. end - 1 and every other index, 0 included, to
    [NoSym]; the subtraction of 1 wraps for index 0 as the comment in the
    code says. *)
Theorem elfSymTab_lookup_range s e :
  0 <= st_start s <= st_end s -> st_end s < 2 ^ 32 -> 0 <= e < 2 ^ 32 ->
  elfSymTab_lookup s e
  = if decide (1 <= e <= st_end s - st_start s)
    then (st_start s + e - 1, true) else (NoSym, false).
Proof.
  intros Hs He Hx. unfold elfSymTab_lookup, uint32, wrap.
  set (a := ((e - 1) mod 2 ^ 32 + st_start s) mod 2 ^ 32).
  assert (Ha : (e = 0 /\ st_start s = 0 /\ a = 2 ^ 32 - 1)
               \/ (e = 0 /\ 0 < st_start s /\ a = st_start s - 1)
               \/ (1 <= e /\ e - 1 + st_start s < 2 ^ 32 /\ a = e - 1 + st_start s)
               \/ (1 <= e /\ 2 ^ 32 <= e - 1 + st_start s
                   /\ a = e - 1 + st_start s - 2 ^ 32)).
  { unfold a. destruct (decide (e = 0)) as [->|Hne].
    - change ((0 - 1) mod 2 ^ 32) with (2 ^ 32 - 1).
      destruct (decide (st_start s = 0)) as [->|Hs0].
      + left. repeat split; reflexivity.
      + right; left. repeat split; try lia.
        replace (2 ^ 32 - 1 + st_start s) with (st_start s - 1 + 1 * 2 ^ 32) by lia.
        rewrite Z.mod_add by lia. apply Z.mod_small. lia.
    - rewrite (Z.mod_small (e - 1)) by lia.
      destruct (decide (e - 1 + st_start s < 2 ^ 32)).
      + right; right; left. repeat split; try lia. apply Z.mod_small. lia.
      + right; right; right. repeat split; try lia.
        replace (e - 1 + st_start s) with (e - 1 + st_start s - 2 ^ 32 + 1 * 2 ^ 32)
          at 1 by lia.
        rewrite Z.mod_add by lia. apply Z.mod_small. lia. }
  clearbody a.
  destruct Ha as [(-> & H0 & ->)|[(-> & H0 & ->)|[(H1 & H2 & ->)|(H1 & H2 & ->)]]];
    repeat case_decide; try reflexivity; try lia.
  f_equal. lia.
Qed.

Lemma elfSymTab_lookup_range_witness :
  elfSymTab_lookup (mkSymTab 5 9) 0
  = if decide (1 <= 0 <= st_end (mkSymTab 5 9) - st_start (mkSymTab 5 9))
    then (st_start (mkSymTab 5 9) + 0 - 1, true) else (NoSym, false).
Proof.
  apply (elfSymTab_lookup_range (mkSymTab 5 9) 0); simpl; lia.
Defined.

(** ** Rounding to a power of two *)

Lemma uint64_small x : 0 <= x < 2 ^ 64 -> uint64 x = x.
Proof. intros H. unfold uint64, wrap. now apply Z.mod_small. Qed.

Lemma pow2_lt_64 k : 0 <= k < 64 -> 0 < 2 ^ k < 2 ^ 64.
Proof.
  intros Hk. split; [apply Z.pow_pos_nonneg; lia|].
  apply Z.pow_lt_mono_r; lia.
Qed.

(** [x &^ (2^k - 1)] clears the low [k] bits. *)
Lemma and_not64_ones x k :
  0 <= k < 64 -> 0 <= x < 2 ^ 64 ->
  and_not64 x (Z.ones k) = x - x mod 2 ^ k.
Proof.
  intros Hk Hx. unfold and_not64, uint64, wrap.
  replace (x - x mod 2 ^ k) with (Z.shiftl (Z.shiftr x k) k).
  2:{ rewrite Z.shiftl_mul_pow2, Z.shiftr_div_pow2 by lia.
      pose proof (Z.div_mod x (2 ^ k) ltac:(pose proof (pow2_lt_64 k Hk); lia)). lia. }
  apply Z.bits_inj'. intros n Hn. rewrite Z.land_spec.
  destruct (Z.lt_ge_cases n k) as [Hlt|Hge].
  - rewrite Z.shiftl_spec_low by lia.
    rewrite Z.mod_pow2_bits_low by lia.
    rewrite Z.lnot_spec, Z.ones_spec_low by lia. apply andb_false_r.
  - rewrite Z.shiftl_spec, Z.shiftr_spec by lia.
    replace (n - k + k) with n by lia.
    destruct (Z.lt_ge_cases n 64) as [H64|H64].
    + rewrite Z.mod_pow2_bits_low by lia.
      rewrite Z.lnot_spec, Z.ones_spec_high by lia. apply andb_true_r.
    + rewrite Z.mod_pow2_bits_high by lia. rewrite andb_false_r.
      rewrite <- (Z.mod_small x (2 ^ 64)) by lia.
      now rewrite Z.mod_pow2_bits_high by lia.
Qed.

Lemma pow2_check_pow2 k :
  0 <= k < 64 -> Z.land (2 ^ k) (uint64 (2 ^ k - 1)) = 0 /\ uint64 (2 ^ k - 1) = Z.ones k.
Proof.
  intros Hk. pose proof (pow2_lt_64 k Hk).
  rewrite uint64_small by lia.
  replace (2 ^ k - 1) with (Z.ones k) by (rewrite Z.ones_equiv; lia).
  split; [|reflexivity].
  rewrite Z.land_ones by lia. apply Z.mod_same. lia.
Qed.

(** A positive number that shares no bit with its predecessor is a power
    of two. *)
Lemma land_pred_pow2 y :
  0 < y -> Z.land y (y - 1) = 0 -> y = 2 ^ Z.log2 y.
Proof.
  intros Hy Hl. pose proof (Z.log2_spec y Hy) as (Hlo & Hhi).
  pose proof (Z.log2_nonneg y) as Hk.
  destruct (Z.eq_dec y (2 ^ Z.log2 y)) as [|Hne]; [assumption|exfalso].
  assert (Hlog : Z.log2 (y - 1) = Z.log2 y).
  { apply Z.log2_unique; [assumption|]. lia. }
  assert (Hb1 : Z.testbit y (Z.log2 y) = true) by (apply Z.bit_log2; lia).
  assert (Hb2 : Z.testbit (y - 1) (Z.log2 y) = true).
  { rewrite <- Hlog. apply Z.bit_log2.
    pose proof (Z.pow_pos_nonneg 2 (Z.log2 y) ltac:(lia) Hk). lia. }
  assert (Hb : Z.testbit (Z.land y (y - 1)) (Z.log2 y) = true).
  { rewrite Z.land_spec, Hb1, Hb2. reflexivity. }
  rewrite Hl, Z.bits_0 in Hb. discriminate.
Qed.

(** X24. The check [y&(y-1) != 0] of [roundDown2] and [roundUp2] lets
    through the powers of two and 0, and nothing else: the functions panic
    for every other [y]. *)
Theorem roundDown2_panics_iff x y :
  0 <= y < 2 ^ 64 ->
  (roundDown2 x y = None <-> ~ (y = 0 \/ exists k, 0 <= k < 64 /\ y = 2 ^ k))
  /\ (roundUp2 x y = None <-> roundDown2 x y = None).
Proof.
  intros Hy. unfold roundDown2, roundUp2. split.
  - split.
    + case_decide as Hc; [|discriminate]. intros _ [->|(k & Hk & ->)].
      * apply Hc. reflexivity.
      * apply Hc. apply (pow2_check_pow2 k Hk).
    + intros Hn. rewrite decide_True; [reflexivity|]. intros Hl. apply Hn.
      destruct (decide (y = 0)) as [|Hy0]; [now left|right].
      rewrite uint64_small in Hl by lia.
      exists (Z.log2 y). split.
      * split; [apply Z.log2_nonneg|]. apply Z.log2_lt_pow2; lia.
      * apply land_pred_pow2; [lia|assumption].
  - repeat case_decide; split; intros; congruence.
Qed.

Lemma roundDown2_panics_iff_witness :
  (roundDown2 100 12 = None <-> ~ (12 = 0 \/ exists k, 0 <= k < 64 /\ 12 = 2 ^ k))
  /\ (roundUp2 100 12 = None <-> roundDown2 100 12 = None).
Proof. apply (roundDown2_panics_iff 100 12). lia. Defined.

Lemma roundDown2_pow2 x k :
  0 <= k < 64 -> 0 <= x < 2 ^ 64 ->
  roundDown2 x (2 ^ k) = Some (x - x mod 2 ^ k).
Proof.
  intros Hk Hx. unfold roundDown2.
  destruct (pow2_check_pow2 k Hk) as (H0 & H1).
  rewrite decide_False by (now intros Hc).
  rewrite H1, and_not64_ones by assumption. reflexivity.
Qed.

Lemma roundUp2_pow2 x k :
  0 <= k < 64 -> 0 <= x < 2 ^ 64 ->
  roundUp2 x (2 ^ k)
  = Some ((x + 2 ^ k - 1) mod 2 ^ 64 - ((x + 2 ^ k - 1) mod 2 ^ 64) mod 2 ^ k).
Proof.
  intros Hk Hx. unfold roundUp2.
  destruct (pow2_check_pow2 k Hk) as (H0 & H1). pose proof (pow2_lt_64 k Hk).
  rewrite decide_False by (now intros Hc). rewrite H1.
  assert (Hsum : uint64 (uint64 (x + 2 ^ k) - 1) = (x + 2 ^ k - 1) mod 2 ^ 64).
  { unfold uint64, wrap. rewrite Zminus_mod_idemp_l. reflexivity. }
  rewrite Hsum.
  pose proof (Z.mod_pos_bound (x + 2 ^ k - 1) (2 ^ 64) ltac:(lia)) as Hb.
  rewrite and_not64_ones by assumption. reflexivity.
Qed.

Lemma sub_mod_multiple a m : 0 < m -> (a - a mod m) mod m = 0.
Proof.
  intros Hm. rewrite Zminus_mod_idemp_r, Z.sub_diag. apply Z.mod_0_l. lia.
Qed.

(** X25. For a power of two [y], [roundDown2(x, y)] is the largest multiple
    of [y] that is at most [x], and [roundUp2(x, y)] is the smallest
    multiple of [y] that is at least [x] as long as [x + y - 1] fits 64
    bits; when that sum overflows, [roundUp2] returns 0. *)
Theorem roundDown2_roundUp2_multiples x k :
  0 <= k < 64 -> 0 <= x < 2 ^ 64 ->
  exists d u, roundDown2 x (2 ^ k) = Some d /\ roundUp2 x (2 ^ k) = Some u
    /\ d mod 2 ^ k = 0 /\ d <= x < d + 2 ^ k
    /\ (x + 2 ^ k - 1 < 2 ^ 64 -> u mod 2 ^ k = 0 /\ x <= u < x + 2 ^ k)
    /\ (2 ^ 64 <= x + 2 ^ k - 1 -> u = 0).
Proof.
  intros Hk Hx. pose proof (pow2_lt_64 k Hk).
  eexists _, _. split; [apply roundDown2_pow2; assumption|].
  split; [apply roundUp2_pow2; assumption|].
  pose proof (Z.mod_pos_bound x (2 ^ k) ltac:(lia)).
  split; [apply sub_mod_multiple; lia|]. split; [lia|]. split.
  - intros Hfit. rewrite (Z.mod_small (x + 2 ^ k - 1)) by lia.
    pose proof (Z.mod_pos_bound (x + 2 ^ k - 1) (2 ^ k) ltac:(lia)).
    split; [apply sub_mod_multiple; lia|lia].
  - intros Hover.
    assert (Hw : (x + 2 ^ k - 1) mod 2 ^ 64 = x + 2 ^ k - 1 - 2 ^ 64).
    { replace (x + 2 ^ k - 1) with (x + 2 ^ k - 1 - 2 ^ 64 + 1 * 2 ^ 64) at 1 by lia.
      rewrite Z.mod_add by lia. apply Z.mod_small. lia. }
    rewrite Hw. rewrite (Z.mod_small (x + 2 ^ k - 1 - 2 ^ 64)) by lia. lia.
Qed.

Lemma roundDown2_roundUp2_multiples_witness :
  exists d u, roundDown2 4100 (2 ^ 12) = Some d /\ roundUp2 4100 (2 ^ 12) = Some u
    /\ d mod 2 ^ 12 = 0 /\ d <= 4100 < d + 2 ^ 12
    /\ (4100 + 2 ^ 12 - 1 < 2 ^ 64 -> u mod 2 ^ 12 = 0 /\ 4100 <= u < 4100 + 2 ^ 12)
    /\ (2 ^ 64 <= 4100 + 2 ^ 12 - 1 -> u = 0).
Proof. apply (roundDown2_roundUp2_multiples 4100 12); lia. Defined.

(** ** Layouts *)

(** The number that a sequence of bytes denotes, lowest byte first. *)
Fixpoint le_num (b : list byte) : Z :=
  match b with
  | [] => 0
  | x :: b => byteZ x + 256 * le_num b
  end.

Lemma NewLayout_inv o w l :
  NewLayout o w = Some l ->
  (w = 1 \/ w = 2 \/ w = 4 \/ w = 8) /\ wordSize l = w
  /\ order l = match o with BigEndian => 1 | _ => 0 end /\ o <> OtherOrder.
Proof.
  unfold NewLayout. intros H.
  assert (Hw : (w = 1 \/ w = 2 \/ w = 4 \/ w = 8)
               /\ l = mkLayout (match o with BigEndian => 1 | _ => 0 end) (uint8 w)
               /\ o <> OtherOrder).
  { destruct o; simpl in H; try discriminate;
      (case_decide as Hc; [discriminate|]); injection H as <-;
      (split; [|split; [reflexivity|discriminate]]);
      (assert (Hr : 1 <= w <= 8) by lia);
      (assert (Hcases : w = 1 \/ w = 2 \/ w = 3 \/ w = 4 \/ w = 5 \/ w = 6 \/ w = 7 \/ w = 8)
         by lia);
      destruct Hcases as [->|[->|[->|[->|[->|[->|[->| ->]]]]]]]; auto;
      exfalso; apply Hc; right; right; discriminate. }
  destruct Hw as (Hw & -> & Ho). repeat split; try assumption.
  simpl. destruct Hw as [->|[->|[->| ->]]]; reflexivity.
Qed.

Ltac bytes_bound :=
  repeat match goal with
         | x : byte |- _ => lazymatch goal with
                            | H : 0 <= byteZ x < 256 |- _ => fail
                            | _ => pose proof (byteZ_bound x)
                            end
         end.

Ltac lor_to_add :=
  repeat match goal with
         | |- context [Z.lor ?a (Z.shiftl ?b ?n)] =>
             rewrite (lor_small_shiftl a b n) by lia
         end.

Lemma Layout_Uint16_le l b0 b1 b :
  Layout_Uint16 l (b0 :: b1 :: b)
  = Some (le_num (if decide (order l = 0) then [b0; b1] else [b1; b0])).
Proof.
  unfold Layout_Uint16. bytes_bound.
  case_decide; cbn [le_num]; f_equal; lor_to_add; lia.
Qed.

Lemma Layout_Uint32_le l b0 b1 b2 b3 b :
  Layout_Uint32 l (b0 :: b1 :: b2 :: b3 :: b)
  = Some (le_num (if decide (order l = 0) then [b0; b1; b2; b3] else [b3; b2; b1; b0])).
Proof.
  unfold Layout_Uint32. bytes_bound.
  case_decide; cbn [le_num]; f_equal; lor_to_add; lia.
Qed.

Lemma Layout_Uint64_le l b0 b1 b2 b3 b4 b5 b6 b7 b :
  Layout_Uint64 l (b0 :: b1 :: b2 :: b3 :: b4 :: b5 :: b6 :: b7 :: b)
  = Some (le_num (if decide (order l = 0) then [b0; b1; b2; b3; b4; b5; b6; b7]
                  else [b7; b6; b5; b4; b3; b2; b1; b0])).
Proof.
  unfold Layout_Uint64. bytes_bound.
  case_decide; cbn [le_num]; f_equal; lor_to_add; lia.
Qed.

Lemma le_num_bound b : 0 <= le_num b < 256 ^ Z.of_nat (length b).
Proof.
  induction b as [|x b IH]; [simpl; lia|].
  cbn [le_num length]. rewrite Nat2Z.inj_succ, Z.pow_succ_r by lia.
  pose proof (byteZ_bound x). lia.
Qed.

(** X26. For a layout that [NewLayout] accepts, the word size is 1, 2, 4
    or 8, and [Word] decodes exactly that many bytes: it panics when the
    slice is shorter, and otherwise returns the number that the first
    [WordSize] bytes denote in the byte order of the layout. *)
Theorem Layout_Word_value o w l b :
  NewLayout o w = Some l ->
  Layout_WordSize l = w /\ (w = 1 \/ w = 2 \/ w = 4 \/ w = 8)
  /\ Layout_Word l b
     = if decide (w <= Z.of_nat (length b))
       then Some (le_num (match o with
                          | BigEndian => rev (take (Z.to_nat w) b)
                          | _ => take (Z.to_nat w) b
                          end))
       else None.
Proof.
  intros HN. destruct (NewLayout_inv o w l HN) as (Hw & Hws & Ho & Hoo).
  split; [exact Hws|]. split; [exact Hw|].
  unfold Layout_Word. rewrite Hws.
  assert (Hord : forall (x y : list byte),
             (if decide (order l = 0) then x else y)
             = match o with BigEndian => y | _ => x end).
  { intros x y. rewrite Ho. destruct o; try reflexivity; congruence. }
  destruct Hw as [->|[->|[->| ->]]].
  - rewrite !decide_False by lia. destruct b as [|b0 b]; cbn [length].
    + rewrite decide_False by lia. reflexivity.
    + rewrite decide_True by lia. change (Z.to_nat 1) with 1%nat.
      cbn [take rev app]. rewrite firstn_O. cbn [rev app]. pose proof (byteZ_bound b0).
      rewrite uint64_small by lia. f_equal. destruct o; cbn [le_num]; lia.
  - rewrite decide_False, decide_False, decide_True by lia.
    destruct b as [|b0 [|b1 b]]; cbn [length];
      try (rewrite decide_False by lia; reflexivity).
    rewrite decide_True by lia. rewrite Layout_Uint16_le, Hord.
    change (Z.to_nat 2) with 2%nat. cbn [take rev app fmap option_fmap option_map]. rewrite firstn_O. cbn [rev app].
    f_equal. apply uint64_small.
    match goal with |- _ <= le_num ?x < _ => pose proof (le_num_bound x) as Hb end.
    destruct o; cbn [length] in Hb;
      match type of Hb with
      | _ <= _ < ?e => let v := eval vm_compute in e in change e with v in Hb
      end; lia.
  - rewrite decide_False, decide_True by lia.
    destruct b as [|b0 [|b1 [|b2 [|b3 b]]]]; cbn [length];
      try (rewrite decide_False by lia; reflexivity).
    rewrite decide_True by lia. rewrite Layout_Uint32_le, Hord.
    change (Z.to_nat 4) with 4%nat. cbn [take rev app fmap option_fmap option_map]. rewrite firstn_O. cbn [rev app].
    f_equal. apply uint64_small.
    match goal with |- _ <= le_num ?x < _ => pose proof (le_num_bound x) as Hb end.
    destruct o; cbn [length] in Hb;
      match type of Hb with
      | _ <= _ < ?e => let v := eval vm_compute in e in change e with v in Hb
      end; lia.
  - rewrite decide_True by lia.
    destruct b as [|b0 [|b1 [|b2 [|b3 [|b4 [|b5 [|b6 [|b7 b]]]]]]]]; cbn [length];
      try (rewrite decide_False by lia; reflexivity).
    rewrite decide_True by lia. rewrite Layout_Uint64_le, Hord.
    change (Z.to_nat 8) with 8%nat. cbn [take rev app]. rewrite firstn_O. reflexivity.
Qed.

Lemma Layout_Word_value_witness :
  Layout_WordSize (mkLayout 1 4) = 4 /\ (4 = 1 \/ 4 = 2 \/ 4 = 4 \/ 4 = 8)
  /\ Layout_Word (mkLayout 1 4) [x01; x02; x03; x04; x05]%byte
     = if decide (4 <= Z.of_nat (length [x01; x02; x03; x04; x05]%byte))
       then Some (le_num (rev (take (Z.to_nat 4) [x01; x02; x03; x04; x05]%byte)))
       else None.
Proof.
  apply (Layout_Word_value BigEndian 4 (mkLayout 1 4) [x01; x02; x03; x04; x05]%byte).
  reflexivity.
Defined.

(** ** Readers *)

Lemma IndexByte_spec s c :
  (IndexByte s c = -1 /\ c ∉ s)
  \/ exists pre post, IndexByte s c = Z.of_nat (length pre)
       /\ s = pre ++ c :: post /\ c ∉ pre.
Proof.
  induction s as [|b s IH]; simpl.
  - left. split; [reflexivity|]. apply not_elem_of_nil.
  - destruct (decide (b = c)) as [->|Hne].
    + right. exists [], s. split; [reflexivity|]. split; [reflexivity|].
      apply not_elem_of_nil.
    + destruct IH as [(Hn & Hni)|(pre & post & Hn & -> & Hni)].
      * left. rewrite Hn. rewrite decide_True by lia. split; [reflexivity|].
        intros Hin. apply elem_of_cons in Hin as [Heq|Hin]; [congruence|auto].
      * right. exists (b :: pre), post. rewrite Hn.
        rewrite decide_False by lia. cbn [length]. split; [lia|].
        split; [reflexivity|].
        intros Hin. apply elem_of_cons in Hin as [Heq|Hin]; [congruence|auto].
Qed.

(** X27. [Reader.CString] with the cursor inside the data or at its end
    returns the bytes from the cursor up to the first NUL, without the
    NUL, and leaves the cursor just behind that NUL; when no NUL follows
    it returns all the remaining bytes and leaves the cursor at the end.
    With the cursor beyond the end it panics. *)
Theorem Reader_CString_splits r :
  let P := D_P (R_d r) in
  ((R_p r <= length P)%nat ->
   exists str r', Reader_CString r = Some (str, r') /\ R_d r' = R_d r
     /\ (x00 ∉ str) /\ (R_p r' <= length P)%nat
     /\ (drop (R_p r) P = str ++ x00 :: drop (R_p r') P
         \/ (drop (R_p r) P = str /\ R_p r' = length P)))
  /\ ((length P < R_p r)%nat -> Reader_CString r = None).
Proof.
  intros P. unfold Reader_CString, slice_from. fold P. split; intros Hp.
  - rewrite decide_True by lia. simpl.
    destruct (IndexByte_spec (drop (R_p r) P) x00)
      as [(Hn & Hni)|(pre & post & Hn & Hs & Hni)]; rewrite Hn.
    + rewrite decide_True by lia. eexists _, _. split; [reflexivity|].
      simpl. repeat split; auto.
    + rewrite decide_False by lia. rewrite Nat2Z.id.
      eexists _, _. split; [reflexivity|]. cbn [R_d R_p].
      assert (Hlen : length (drop (R_p r) P) = (length pre + S (length post))%nat).
      { rewrite Hs, length_app. reflexivity. }
      rewrite length_drop in Hlen.
      rewrite Hs, take_app_length.
      split; [reflexivity|]. split; [assumption|]. split; [lia|]. left.
      f_equal. f_equal.
      replace (R_p r + length pre + 1)%nat with (R_p r + S (length pre))%nat by lia.
      rewrite <- drop_drop, Hs.
      change (pre ++ x00 :: post) with (pre ++ [x00] ++ post).
      rewrite app_assoc.
      replace (S (length pre)) with (length (pre ++ [x00]))
        by (rewrite length_app; simpl; lia).
      now rewrite drop_app_length.
  - rewrite decide_False by lia. reflexivity.
Qed.

Definition cstring_reader : Reader :=
  mkReader (mkData 0 ["a"; "b"; x00; "c"]%byte (mkLayout 0 8)) 1.

Lemma Reader_CString_splits_witness :
  exists str r', Reader_CString cstring_reader = Some (str, r')
    /\ R_d r' = R_d cstring_reader
    /\ (x00 ∉ str) /\ (R_p r' <= length (D_P (R_d cstring_reader)))%nat
    /\ (drop (R_p cstring_reader) (D_P (R_d cstring_reader))
        = str ++ x00 :: drop (R_p r') (D_P (R_d cstring_reader))
        \/ (drop (R_p cstring_reader) (D_P (R_d cstring_reader)) = str
            /\ R_p r' = length (D_P (R_d cstring_reader)))).
Proof.
  apply (Reader_CString_splits cstring_reader). simpl. lia.
Defined.

(** ** The 32-bit relocation decoders *)

Lemma Reader_Uint32_ok r :
  4 <= Reader_Avail r ->
  exists v, Reader_Uint32 r = Some (v, mkReader (R_d r) (R_p r + 4)) /\ 0 <= v < 2 ^ 32.
Proof.
  unfold Reader_Avail, Reader_Uint32, slice. intros Ha.
  rewrite decide_True by lia. simpl.
  replace (R_p r + 4 - R_p r)%nat with 4%nat by lia.
  assert (Hlen : length (take 4 (drop (R_p r) (D_P (R_d r)))) = 4%nat).
  { rewrite length_take, length_drop. lia. }
  destruct (take 4 (drop (R_p r) (D_P (R_d r)))) as [|b0 [|b1 [|b2 [|b3 [|]]]]];
    try discriminate Hlen.
  destruct (Layout_Uint32 (D_Layout (R_d r)) [b0; b1; b2; b3]) as [v|] eqn:Ev.
  - exists v. split; [reflexivity|]. split.
    + exact (Layout_Uint32_nonneg _ _ _ Ev).
    + exact (Layout_Uint32_bound _ _ _ Ev).
  - unfold Layout_Uint32 in Ev. case_decide; discriminate.
Qed.

Lemma makeRelocType_TYPE32 cls info :
  0 <= info -> exists rt, makeRelocType cls (R_TYPE32 info) = Some rt.
Proof.
  intros Hi. unfold makeRelocType, R_TYPE32.
  change 255 with (Z.ones 8). change (Z.shiftl 1 24 - 1) with (Z.ones 24).
  rewrite !Z.land_ones by lia.
  pose proof (Z.mod_pos_bound info (2 ^ 8) ltac:(lia)).
  rewrite decide_True by (apply Z.mod_small; lia). eexists. reflexivity.
Qed.

Lemma div_step a n : 0 < n -> n <= a -> a / n = (a - n) / n + 1.
Proof.
  intros Hn Ha. replace a with ((a - n) + 1 * n) at 1 by lia.
  rewrite Z.div_add by lia. reflexivity.
Qed.

Lemma elfReadRela32_loop_total symTab relClass fuel : forall relocs r,
  0 <= Reader_Avail r <= 12 * Z.of_nat fuel ->
  exists out, elfReadRela32_loop fuel relocs r symTab relClass = Some (relocs ++ out)
    /\ Z.of_nat (length out) = Reader_Avail r / 12.
Proof.
  induction fuel as [|fuel IH]; intros relocs r Ha.
  - simpl. rewrite decide_False by lia. exists []. rewrite app_nil_r.
    split; [reflexivity|]. simpl. rewrite Z.div_small; lia.
  - cbn [elfReadRela32_loop]. case_decide as Hge.
    + destruct (Reader_Uint32_ok r ltac:(lia)) as (off & -> & Hoff). cbn.
      remember (mkReader (R_d r) (R_p r + 4)) as r1 eqn:E1.
      assert (Ha1 : Reader_Avail r1 = Reader_Avail r - 4)
        by (rewrite E1; unfold Reader_Avail; simpl; lia).
      destruct (Reader_Uint32_ok r1 ltac:(lia)) as (info & -> & Hinfo). cbn.
      remember (mkReader (R_d r1) (R_p r1 + 4)) as r2 eqn:E2.
      assert (Ha2 : Reader_Avail r2 = Reader_Avail r1 - 4)
        by (rewrite E2; unfold Reader_Avail; simpl; lia).
      destruct (Reader_Uint32_ok r2 ltac:(lia)) as (add & -> & Hadd). cbn.
      remember (mkReader (R_d r2) (R_p r2 + 4)) as r3 eqn:E3.
      assert (Ha3 : Reader_Avail r3 = Reader_Avail r2 - 4)
        by (rewrite E3; unfold Reader_Avail; simpl; lia).
      destruct (makeRelocType_TYPE32 relClass info ltac:(lia)) as (rt & ->). cbn.
      destruct (IH (relocs ++ [mkReloc (uint64 off) rt
                                 (elfSymTab_lookup symTab (R_SYM32 info)).1 (int64 add)])
                   r3 ltac:(lia)) as (out & -> & Hlen).
      eexists (_ :: out). rewrite <- app_assoc. split; [reflexivity|].
      cbn [length]. rewrite Nat2Z.inj_succ, Hlen.
      rewrite (div_step (Reader_Avail r) 12) by lia.
      replace (Reader_Avail r3) with (Reader_Avail r - 12) by lia. lia.
    + exists []. rewrite app_nil_r. split; [reflexivity|].
      simpl. rewrite Z.div_small; lia.
Qed.

Lemma elfReadRel32_loop_total symTab relClass fuel : forall relocs r,
  0 <= Reader_Avail r <= 8 * Z.of_nat fuel ->
  exists out, elfReadRel32_loop fuel relocs r symTab relClass = Some (relocs ++ out)
    /\ Z.of_nat (length out) = Reader_Avail r / 8.
Proof.
  induction fuel as [|fuel IH]; intros relocs r Ha.
  - simpl. rewrite decide_False by lia. exists []. rewrite app_nil_r.
    split; [reflexivity|]. simpl. rewrite Z.div_small; lia.
  - cbn [elfReadRel32_loop]. case_decide as Hge.
    + destruct (Reader_Uint32_ok r ltac:(lia)) as (off & -> & Hoff). cbn.
      remember (mkReader (R_d r) (R_p r + 4)) as r1 eqn:E1.
      assert (Ha1 : Reader_Avail r1 = Reader_Avail r - 4)
        by (rewrite E1; unfold Reader_Avail; simpl; lia).
      destruct (Reader_Uint32_ok r1 ltac:(lia)) as (info & -> & Hinfo). cbn.
      remember (mkReader (R_d r1) (R_p r1 + 4)) as r2 eqn:E2.
      assert (Ha2 : Reader_Avail r2 = Reader_Avail r1 - 4)
        by (rewrite E2; unfold Reader_Avail; simpl; lia).
      destruct (makeRelocType_TYPE32 relClass info ltac:(lia)) as (rt & ->). cbn.
      destruct (IH (relocs ++ [mkReloc (uint64 off) rt
                                 (elfSymTab_lookup symTab (R_SYM32 info)).1 0])
                   r2 ltac:(lia)) as (out & -> & Hlen).
      eexists (_ :: out). rewrite <- app_assoc. split; [reflexivity|].
      cbn [length]. rewrite Nat2Z.inj_succ, Hlen.
      rewrite (div_step (Reader_Avail r) 8) by lia.
      replace (Reader_Avail r2) with (Reader_Avail r - 8) by lia. lia.
    + exists []. rewrite app_nil_r. split; [reflexivity|].
      simpl. rewrite Z.div_small; lia.
Qed.

(** X28. The 32-bit relocation decoders [elfReadRel32] and [elfReadRela32]
    do not panic, whatever the bytes: with the cursor inside the data they
    keep the relocations passed in and append one relocation for every
    complete entry of 8 (REL) or 12 (RELA) bytes that remains, ignoring a
    trailing partial entry. *)
Theorem elfReadRel32_elfReadRela32_total relocs r symTab relClass :
  (R_p r <= length (D_P (R_d r)))%nat ->
  (exists out, elfReadRel32 relocs r symTab relClass = Some (relocs ++ out)
     /\ Z.of_nat (length out) = Reader_Avail r / 8)
  /\ (exists out, elfReadRela32 relocs r symTab relClass = Some (relocs ++ out)
        /\ Z.of_nat (length out) = Reader_Avail r / 12).
Proof.
  intros Hp.
  assert (Ha : 0 <= Reader_Avail r <= Z.of_nat (length (D_P (R_d r))))
    by (unfold Reader_Avail; lia).
  split.
  - apply elfReadRel32_loop_total. lia.
  - apply elfReadRela32_loop_total. lia.
Qed.

(** Twenty-five bytes: two RELA entries and one byte more, or three REL
    entries and one byte more. *)
Definition rel32_reader : Reader :=
  NewReader (mkData 0 (replicate 25 x01) (mkLayout 0 4)).

Lemma elfReadRel32_elfReadRela32_total_witness :
  (exists out, elfReadRel32 [] rel32_reader (mkSymTab 0 10) rcElf386 = Some ([] ++ out)
     /\ Z.of_nat (length out) = Reader_Avail rel32_reader / 8)
  /\ (exists out, elfReadRela32 [] rel32_reader (mkSymTab 0 10) rcElf386
                  = Some ([] ++ out)
        /\ Z.of_nat (length out) = Reader_Avail rel32_reader / 12).
Proof.
  apply (elfReadRel32_elfReadRela32_total [] rel32_reader (mkSymTab 0 10) rcElf386).
  vm_compute. lia.
Defined.

(** ** The 64-bit relocation decoders *)

Lemma Reader_Uint64_ok r :
  8 <= Reader_Avail r ->
  exists v, Reader_Uint64 r = Some (v, mkReader (R_d r) (R_p r + 8)).
Proof.
  unfold Reader_Avail, Reader_Uint64, slice. intros Ha.
  rewrite decide_True by lia. simpl.
  replace (R_p r + 8 - R_p r)%nat with 8%nat by lia.
  assert (Hlen : length (take 8 (drop (R_p r) (D_P (R_d r)))) = 8%nat).
  { rewrite length_take, length_drop. lia. }
  destruct (take 8 (drop (R_p r) (D_P (R_d r))))
    as [|b0 [|b1 [|b2 [|b3 [|b4 [|b5 [|b6 [|b7 [|]]]]]]]]]; try discriminate Hlen.
  rewrite Layout_Uint64_le. eexists. reflexivity.
Qed.

Lemma makeRelocType_None cls v :
  0 <= v -> makeRelocType cls v = None <-> 2 ^ 24 <= v.
Proof.
  intros Hv. unfold makeRelocType.
  change (Z.shiftl 1 24 - 1) with (Z.ones 24). rewrite Z.land_ones by lia.
  pose proof (Z.mod_pos_bound v (2 ^ 24) ltac:(lia)).
  case_decide as Hd; split; intros H1; try discriminate; try reflexivity; try lia.
  destruct (Z.lt_ge_cases v (2 ^ 24)); [|assumption].
  exfalso. apply Hd. apply Z.mod_small. lia.
Qed.

Lemma R_TYPE64_nonneg info : 0 <= R_TYPE64 info.
Proof.
  unfold R_TYPE64, uint32, wrap.
  pose proof (Z.mod_pos_bound info (2 ^ 32) ltac:(lia)). lia.
Qed.

(** The type field of entry [i] in a table of 64-bit relocation entries of
    [size] bytes each that starts at the cursor: the low half of the
    second word. *)
Definition type64_at (size : nat) (r : Reader) (i : nat) : option Z :=
  '(info, _) ← Reader_Uint64 (mkReader (R_d r) (R_p r + size * i + 8));
  Some (R_TYPE64 info).

Lemma type64_at_0 size r info r' :
  Reader_Uint64 (mkReader (R_d r) (R_p r + 8)) = Some (info, r') ->
  type64_at size r 0 = Some (R_TYPE64 info).
Proof.
  intros H. unfold type64_at.
  replace (R_p r + size * 0 + 8)%nat with (R_p r + 8)%nat by lia.
  rewrite H. reflexivity.
Qed.

Lemma type64_at_S size r i :
  type64_at size (mkReader (R_d r) (R_p r + size)) i = type64_at size r (S i).
Proof.
  unfold type64_at. cbn [R_d R_p].
  replace (R_p r + size + size * i + 8)%nat with (R_p r + size * S i + 8)%nat by lia.
  reflexivity.
Qed.

Lemma elfReadRela64_loop_None symTab relClass fuel : forall relocs r,
  0 <= Reader_Avail r <= 24 * Z.of_nat fuel ->
  elfReadRela64_loop fuel relocs r symTab relClass = None
  <-> exists i t, 24 * (Z.of_nat i + 1) <= Reader_Avail r
        /\ type64_at 24 r i = Some t /\ 2 ^ 24 <= t.
Proof.
  induction fuel as [|fuel IH]; intros relocs r Ha.
  - simpl. rewrite decide_False by lia. split; [discriminate|].
    intros (i & t & Hi & _). lia.
  - cbn [elfReadRela64_loop]. case_decide as Hge.
    + destruct (Reader_Uint64_ok r ltac:(lia)) as (off & ->). cbn.
      remember (mkReader (R_d r) (R_p r + 8)) as r1 eqn:E1.
      assert (Ha1 : Reader_Avail r1 = Reader_Avail r - 8)
        by (rewrite E1; unfold Reader_Avail; simpl; lia).
      destruct (Reader_Uint64_ok r1 ltac:(lia)) as (info & Hinfo). rewrite Hinfo. cbn.
      remember (mkReader (R_d r1) (R_p r1 + 8)) as r2 eqn:E2.
      assert (Ha2 : Reader_Avail r2 = Reader_Avail r1 - 8)
        by (rewrite E2; unfold Reader_Avail; simpl; lia).
      unfold Reader_Int64.
      destruct (Reader_Uint64_ok r2 ltac:(lia)) as (add & ->). cbn.
      remember (mkReader (R_d r2) (R_p r2 + 8)) as r3 eqn:E3.
      assert (Hr3 : r3 = mkReader (R_d r) (R_p r + 24)).
      { rewrite E3, E2, E1. cbn [R_d R_p]. f_equal. lia. }
      assert (Ha3 : Reader_Avail r3 = Reader_Avail r - 24)
        by (rewrite Hr3; unfold Reader_Avail; simpl; lia).
      assert (Ht0 : type64_at 24 r 0 = Some (R_TYPE64 info)).
      { apply (type64_at_0 24 r info r2). rewrite <- E1. exact Hinfo. }
      pose proof (R_TYPE64_nonneg info) as Hnn.
      destruct (makeRelocType relClass (R_TYPE64 info)) as [rt|] eqn:Hrt; cbn.
      * assert (Hsmall : R_TYPE64 info < 2 ^ 24).
        { destruct (Z.lt_ge_cases (R_TYPE64 info) (2 ^ 24)) as [|Hbig]; [assumption|].
          apply (makeRelocType_None relClass) in Hbig; [congruence|assumption]. }
        rewrite (IH _ r3) by lia. split.
        -- intros (i & t & Hi & Hty & Ht). exists (S i), t.
           rewrite Hr3, type64_at_S in Hty. split; [lia|]. auto.
        -- intros (i & t & Hi & Hty & Ht). destruct i as [|i].
           ++ rewrite Ht0 in Hty. injection Hty as <-. lia.
           ++ exists i, t. split; [lia|]. rewrite Hr3, type64_at_S. auto.
      * split; [intros _|reflexivity]. exists 0%nat, (R_TYPE64 info).
        split; [simpl; lia|]. split; [exact Ht0|].
        apply (makeRelocType_None relClass); assumption.
    + split; [discriminate|]. intros (i & t & Hi & _). lia.
Qed.

Lemma elfReadRel64_loop_None symTab relClass fuel : forall relocs r,
  0 <= Reader_Avail r <= 16 * Z.of_nat fuel ->
  elfReadRel64_loop fuel relocs r symTab relClass = None
  <-> exists i t, 16 * (Z.of_nat i + 1) <= Reader_Avail r
        /\ type64_at 16 r i = Some t /\ 2 ^ 24 <= t.
Proof.
  induction fuel as [|fuel IH]; intros relocs r Ha.
  - simpl. rewrite decide_False by lia. split; [discriminate|].
    intros (i & t & Hi & _). lia.
  - cbn [elfReadRel64_loop]. case_decide as Hge.
    + destruct (Reader_Uint64_ok r ltac:(lia)) as (off & ->). cbn.
      remember (mkReader (R_d r) (R_p r + 8)) as r1 eqn:E1.
      assert (Ha1 : Reader_Avail r1 = Reader_Avail r - 8)
        by (rewrite E1; unfold Reader_Avail; simpl; lia).
      destruct (Reader_Uint64_ok r1 ltac:(lia)) as (info & Hinfo). rewrite Hinfo. cbn.
      remember (mkReader (R_d r1) (R_p r1 + 8)) as r2 eqn:E2.
      assert (Hr2 : r2 = mkReader (R_d r) (R_p r + 16)).
      { rewrite E2, E1. cbn [R_d R_p]. f_equal. lia. }
      assert (Ha2 : Reader_Avail r2 = Reader_Avail r - 16)
        by (rewrite Hr2; unfold Reader_Avail; simpl; lia).
      assert (Ht0 : type64_at 16 r 0 = Some (R_TYPE64 info)).
      { apply (type64_at_0 16 r info r2). rewrite <- E1. exact Hinfo. }
      pose proof (R_TYPE64_nonneg info) as Hnn.
      destruct (makeRelocType relClass (R_TYPE64 info)) as [rt|] eqn:Hrt; cbn.
      * assert (Hsmall : R_TYPE64 info < 2 ^ 24).
        { destruct (Z.lt_ge_cases (R_TYPE64 info) (2 ^ 24)) as [|Hbig]; [assumption|].
          apply (makeRelocType_None relClass) in Hbig; [congruence|assumption]. }
        rewrite (IH _ r2) by lia. split.
        -- intros (i & t & Hi & Hty & Ht). exists (S i), t.
           rewrite Hr2, type64_at_S in Hty. split; [lia|]. auto.
        -- intros (i & t & Hi & Hty & Ht). destruct i as [|i].
           ++ rewrite Ht0 in Hty. injection Hty as <-. lia.
           ++ exists i, t. split; [lia|]. rewrite Hr2, type64_at_S. auto.
      * split; [intros _|reflexivity]. exists 0%nat, (R_TYPE64 info).
        split; [simpl; lia|]. split; [exact Ht0|].
        apply (makeRelocType_None relClass); assumption.
    + split; [discriminate|]. intros (i & t & Hi & _). lia.
Qed.

(** X29. The 64-bit relocation decoders [elfReadRel64] and [elfReadRela64]
    panic exactly on the data that holds a complete entry whose type (the
    low 32 bits of the info word) is 2^24 or more: [makeRelocType] refuses
    such a value.  On all other data they return. *)
Theorem elfReadRel64_elfReadRela64_panic relocs r symTab relClass :
  (R_p r <= length (D_P (R_d r)))%nat ->
  (elfReadRel64 relocs r symTab relClass = None
   <-> exists i t, 16 * (Z.of_nat i + 1) <= Reader_Avail r
         /\ type64_at 16 r i = Some t /\ 2 ^ 24 <= t)
  /\ (elfReadRela64 relocs r symTab relClass = None
      <-> exists i t, 24 * (Z.of_nat i + 1) <= Reader_Avail r
            /\ type64_at 24 r i = Some t /\ 2 ^ 24 <= t).
Proof.
  intros Hp.
  assert (Ha : 0 <= Reader_Avail r <= Z.of_nat (length (D_P (R_d r))))
    by (unfold Reader_Avail; lia).
  split.
  - apply elfReadRel64_loop_None. lia.
  - apply elfReadRela64_loop_None. lia.
Qed.

(** One REL/64 entry, little endian, whose info word is 0x01000000: the
    type is 2^24. *)
Definition rel64_reader : Reader :=
  NewReader (mkData 0 (replicate 8 x00 ++ [x00; x00; x00; x01; x00; x00; x00; x00]%byte)
                    (mkLayout 0 8)).

Lemma elfReadRel64_elfReadRela64_panic_witness :
  (elfReadRel64 [] rel64_reader (mkSymTab 0 10) rcElfX86_64 = None
   <-> exists i t, 16 * (Z.of_nat i + 1) <= Reader_Avail rel64_reader
         /\ type64_at 16 rel64_reader i = Some t /\ 2 ^ 24 <= t)
  /\ (elfReadRela64 [] rel64_reader (mkSymTab 0 10) rcElfX86_64 = None
      <-> exists i t, 24 * (Z.of_nat i + 1) <= Reader_Avail rel64_reader
            /\ type64_at 24 rel64_reader i = Some t /\ 2 ^ 24 <= t).
Proof.
  apply (elfReadRel64_elfReadRela64_panic [] rel64_reader (mkSymTab 0 10) rcElfX86_64).
  vm_compute. lia.
Defined.

(** * Theorems: size synthesis *)

(** What [SynthesizeSizes] may do to one symbol: nothing, or give a size
    and the synthesized flag to a symbol with data and without size. *)
Definition sym_upd (s s' : Sym) : Prop :=
  s' = s
  \/ (Sym_Size s = 0 /\ Sym_Section s <> None /\ exists sz, s' = set_synth_size sz s).

Definition syms_upd (l l' : list Sym) : Prop :=
  length l' = length l
  /\ forall i s, l !! i = Some s -> exists s', l' !! i = Some s' /\ sym_upd s s'.

(** Every section pointer of a symbol points into the store of sections. *)
Definition ptrs_ok (secs : list Section) (syms : list Sym) : Prop :=
  Forall (fun s => forall p, Sym_Section s = Some p -> is_Some (secs !! p)) syms.

Definition todo_ok (syms : list Sym) (todo : list nat) : Prop :=
  Forall (fun i => exists s p, syms !! i = Some s /\ Sym_Section s = Some p) todo.

Lemma set_synth_size_twice sz sz' s :
  set_synth_size sz' (set_synth_size sz s) = set_synth_size sz' s.
Proof.
  unfold set_synth_size, SymFlags_SetSizeSynthesized, set_flag. simpl. f_equal.
  rewrite <- Z.lor_assoc, Z.lor_diag. reflexivity.
Qed.

Lemma set_synth_size_flag sz s :
  SymFlags_SizeSynthesized (Sym_f (set_synth_size sz s)) = true.
Proof.
  unfold set_synth_size, SymFlags_SetSizeSynthesized, SymFlags_SizeSynthesized, set_flag.
  simpl. apply negb_true_iff, Z.eqb_neq. intros H0.
  rewrite Z.land_lor_distr_l in H0. apply Z.lor_eq_0_iff in H0 as (_ & H0).
  discriminate H0.
Qed.

Lemma sym_upd_refl s : sym_upd s s.
Proof. now left. Qed.

Lemma sym_upd_section s s' : sym_upd s s' -> Sym_Section s' = Sym_Section s.
Proof. intros [->|(_ & _ & sz & ->)]; reflexivity. Qed.

Lemma sym_upd_trans s1 s2 s3 : sym_upd s1 s2 -> sym_upd s2 s3 -> sym_upd s1 s3.
Proof.
  intros [->|(H0 & Hs & sz & ->)]; [auto|].
  intros [->|(H0' & Hs' & sz' & ->)].
  - right. eauto.
  - right. split; [assumption|]. split; [assumption|].
    exists sz'. apply set_synth_size_twice.
Qed.

Lemma syms_upd_refl l : syms_upd l l.
Proof. split; [reflexivity|]. intros i s Hi. exists s. split; [assumption|apply sym_upd_refl]. Qed.

Lemma syms_upd_trans l1 l2 l3 : syms_upd l1 l2 -> syms_upd l2 l3 -> syms_upd l1 l3.
Proof.
  intros (Hl1 & H1) (Hl2 & H2). split; [congruence|].
  intros i s Hi. destruct (H1 i s Hi) as (s2 & Hi2 & Hu).
  destruct (H2 i s2 Hi2) as (s3 & Hi3 & Hu'). exists s3. split; [assumption|].
  now apply (sym_upd_trans _ s2).
Qed.

Lemma syms_upd_insert l i s sz :
  l !! i = Some s -> Sym_Size s = 0 -> Sym_Section s <> None ->
  syms_upd l (<[i := set_synth_size sz s]> l).
Proof.
  intros Hi H0 Hs. split; [apply length_insert|].
  intros j t Hj. destruct (decide (i = j)) as [<-|Hne].
  - rewrite list_lookup_insert_eq by (now apply lookup_lt_Some in Hi).
    eexists. split; [reflexivity|]. right.
    rewrite Hi in Hj. injection Hj as <-. eauto.
  - rewrite list_lookup_insert_ne by assumption.
    exists t. split; [assumption|apply sym_upd_refl].
Qed.

Lemma syms_upd_lookup_r l l' i s' :
  syms_upd l l' -> l' !! i = Some s' -> exists s, l !! i = Some s /\ sym_upd s s'.
Proof.
  intros (Hlen & H) Hi.
  destruct (lookup_lt_is_Some_2 l i) as (s & Hs).
  { rewrite <- Hlen. now apply lookup_lt_Some in Hi. }
  destruct (H i s Hs) as (s2 & Hi2 & Hu). exists s. split; [assumption|]. congruence.
Qed.

Lemma syms_upd_ptrs_ok secs l l' : syms_upd l l' -> ptrs_ok secs l -> ptrs_ok secs l'.
Proof.
  intros Hu Hp. unfold ptrs_ok in *. rewrite Forall_lookup in Hp |- *.
  intros i s' Hi p Hsec.
  destruct (syms_upd_lookup_r _ _ _ _ Hu Hi) as (s & Hs & Hss).
  apply (Hp i s Hs). rewrite <- Hsec. symmetry. now apply sym_upd_section.
Qed.

Lemma syms_upd_todo_ok l l' todo : syms_upd l l' -> todo_ok l todo -> todo_ok l' todo.
Proof.
  intros (_ & Hu) Ht. unfold todo_ok in *. eapply Forall_impl; [exact Ht|].
  intros i (s & p & Hi & Hsec). destruct (Hu i s Hi) as (s' & Hi' & Hss).
  exists s', p. split; [assumption|]. rewrite <- Hsec. now apply sym_upd_section.
Qed.

(** *** The gathering loop *)

Lemma gather_step_ok secs syms todo i :
  ptrs_ok secs syms -> todo_ok syms todo -> (i < length syms)%nat ->
  exists syms' todo', gather_step secs (syms, todo) i = Some (syms', todo')
    /\ syms_upd syms syms' /\ todo_ok syms' todo'.
Proof.
  intros Hp Ht Hi. unfold gather_step.
  destruct (lookup_lt_is_Some_2 syms i Hi) as (s & Hs). rewrite Hs. simpl.
  destruct (Sym_Section s) as [p|] eqn:Hsec.
  - unfold ptrs_ok in Hp. rewrite Forall_lookup in Hp.
    destruct (Hp i s Hs p Hsec) as (sec & Hsecp). rewrite Hsecp. simpl.
    destruct (Sym_Kind s =? SymSection).
    + destruct ((Sym_Value s =? S_Addr sec) && (Sym_Size s =? 0)) eqn:Hc.
      * apply andb_true_iff in Hc as (_ & H0). apply Z.eqb_eq in H0.
        eexists _, _. split; [reflexivity|].
        assert (Hu : syms_upd syms (<[i:=set_synth_size (S_Size sec) s]> syms)).
        { apply syms_upd_insert; [assumption|assumption|congruence]. }
        split; [exact Hu|]. now apply (syms_upd_todo_ok syms).
      * eexists _, _. split; [reflexivity|]. split; [apply syms_upd_refl|assumption].
    + destruct (uint64 (S_Addr sec + S_Size sec) <? Sym_Value s).
      * eexists _, _. split; [reflexivity|]. split; [apply syms_upd_refl|assumption].
      * eexists _, _. split; [reflexivity|]. split; [apply syms_upd_refl|].
        apply Forall_app. split; [assumption|]. apply Forall_singleton. eauto.
  - eexists _, _. split; [reflexivity|]. split; [apply syms_upd_refl|assumption].
Qed.

Lemma gather_ok secs idxs : forall syms todo,
  ptrs_ok secs syms -> todo_ok syms todo ->
  Forall (fun i => (i < length syms)%nat) idxs ->
  exists syms' todo', gather secs (syms, todo) idxs = Some (syms', todo')
    /\ syms_upd syms syms' /\ todo_ok syms' todo'.
Proof.
  induction idxs as [|i idxs IH]; intros syms todo Hp Ht Hi.
  - eexists _, _. split; [reflexivity|]. split; [apply syms_upd_refl|assumption].
  - apply Forall_cons in Hi as (Hi & His). cbn [gather].
    destruct (gather_step_ok secs syms todo i Hp Ht Hi) as (syms1 & todo1 & -> & Hu & Ht1).
    simpl.
    destruct (IH syms1 todo1) as (syms2 & todo2 & Hg & Hu2 & Ht2).
    + now apply (syms_upd_ptrs_ok secs syms).
    + assumption.
    + destruct Hu as (Hlen & _). rewrite Hlen. assumption.
    + exists syms2, todo2. split; [assumption|]. split; [|assumption].
      now apply (syms_upd_trans _ syms1).
Qed.

(** *** The assignment loop *)

Lemma group_loop_ok syms s1 : forall rest group anyZero,
  todo_ok syms rest ->
  exists g z, group_loop syms s1 rest group anyZero = Some (g, z)
    /\ (group <= g <= group + length rest)%nat.
Proof.
  induction rest as [|t rest IH]; intros group anyZero Ht.
  - eexists _, _. split; [reflexivity|]. simpl. lia.
  - apply Forall_cons in Ht as ((s2 & p & Hs2 & _) & Ht). cbn [group_loop].
    rewrite Hs2. simpl.
    destruct (_ || _).
    + eexists _, _. split; [reflexivity|]. simpl. lia.
    + destruct (IH (S group) (if Sym_Size s1 =? 0 then true else anyZero) Ht)
        as (g & z & -> & Hg).
      eexists _, _. split; [reflexivity|]. simpl. lia.
Qed.

Lemma foldl_apply_size_ok size l : forall syms,
  todo_ok syms l -> syms_upd syms (foldl (apply_size size) syms l).
Proof.
  induction l as [|i l IH]; intros syms Ht.
  - apply syms_upd_refl.
  - apply Forall_cons in Ht as ((s & p & Hs & Hsec) & Ht). cbn [foldl].
    assert (Hu : syms_upd syms (apply_size size syms i)).
    { unfold apply_size. rewrite Hs. destruct (Sym_Size s =? 0) eqn:H0.
      - apply Z.eqb_eq in H0. apply syms_upd_insert; [assumption|assumption|congruence].
      - apply syms_upd_refl. }
    apply (syms_upd_trans _ (apply_size size syms i)); [assumption|].
    apply IH. now apply (syms_upd_todo_ok syms).
Qed.

Lemma assign_loop_ok secs fuel : forall syms todo,
  (length todo <= fuel)%nat -> ptrs_ok secs syms -> todo_ok syms todo ->
  exists syms', assign_loop fuel secs syms todo = Some syms' /\ syms_upd syms syms'.
Proof.
  induction fuel as [|fuel IH]; intros syms todo Hlen Hp Ht.
  - destruct todo; [|simpl in Hlen; lia].
    exists syms. split; [reflexivity|apply syms_upd_refl].
  - destruct todo as [|t0 rest].
    { exists syms. split; [reflexivity|apply syms_upd_refl]. }
    cbn [assign_loop].
    pose proof Ht as Ht'. apply Forall_cons in Ht' as ((s1 & p1 & Hs1 & Hsec1) & Hrest).
    rewrite Hs1. simpl.
    destruct (group_loop_ok syms s1 rest 1 (Sym_Size s1 =? 0) Hrest)
      as (g & z & -> & Hg). simpl.
    assert (Hdrop : (length (drop g (t0 :: rest)) <= fuel)%nat).
    { rewrite length_drop. simpl in Hlen |- *. lia. }
    destruct z; simpl.
    + rewrite Hsec1. simpl.
      unfold ptrs_ok in Hp. pose proof Hp as Hp'. rewrite Forall_lookup in Hp'.
      destruct (Hp' _ _ Hs1 p1 Hsec1) as (sec1 & ->). simpl.
      assert (Hsize : exists size,
                 match (t0 :: rest) !! g with
                 | Some t =>
                     s2 ← syms !! t;
                     (if bool_decide (Sym_Section s1 = Sym_Section s2)
                      then Some (uint64 (Sym_Value s2 - Sym_Value s1))
                      else Some (uint64 (S_Addr sec1 + S_Size sec1 - Sym_Value s1)))
                 | None => Some (uint64 (S_Addr sec1 + S_Size sec1 - Sym_Value s1))
                 end = Some size).
      { destruct ((t0 :: rest) !! g) as [t|] eqn:Hg'; [|eauto].
        unfold todo_ok in Ht. rewrite Forall_lookup in Ht.
        destruct (Ht _ _ Hg') as (s2 & p2 & -> & _). simpl.
        destruct (bool_decide _); eauto. }
      rewrite Hsec1 in Hsize. destruct Hsize as (size & ->). simpl.
      set (syms1 := foldl (apply_size size) syms (take g (t0 :: rest))).
      assert (Hu : syms_upd syms syms1).
      { apply foldl_apply_size_ok. apply Forall_take. exact Ht. }
      destruct (IH syms1 (drop g (t0 :: rest)) Hdrop) as (syms' & Hrun & Hu').
      * now apply (syms_upd_ptrs_ok secs syms).
      * apply (syms_upd_todo_ok syms); [assumption|]. apply Forall_drop. exact Ht.
      * exists syms'. split; [assumption|]. now apply (syms_upd_trans _ syms1).
    + apply (IH syms (drop g (t0 :: rest)) Hdrop Hp). apply Forall_drop. exact Ht.
Qed.

(** X30. [SynthesizeSizes] returns for every list of symbols whose section
    pointers are valid, and only fills in what is missing: the list keeps
    its length, no symbol changes its section, value or kind, a symbol
    that has a size or has no section is left exactly as it was, and every
    symbol that was changed carries the SizeSynthesized flag. *)
Theorem SynthesizeSizes_fills_only_missing_sizes sort_Slice secs syms :
  (forall less l, sort_Slice less l ≡ₚ l) ->
  ptrs_ok secs syms ->
  exists syms', SynthesizeSizes sort_Slice secs syms = Some syms'
    /\ length syms' = length syms
    /\ forall i s s', syms !! i = Some s -> syms' !! i = Some s' ->
         Sym_Section s' = Sym_Section s /\ Sym_Value s' = Sym_Value s
         /\ Sym_Kind s' = Sym_Kind s
         /\ (Sym_Size s <> 0 -> s' = s)
         /\ (Sym_Section s = None -> s' = s)
         /\ (s' <> s -> SymFlags_SizeSynthesized (Sym_f s') = true).
Proof.
  intros Hsort Hp. unfold SynthesizeSizes.
  destruct (gather_ok secs (seq 0 (length syms)) syms [] Hp)
    as (syms1 & todo1 & -> & Hu1 & Ht1).
  { constructor. }
  { apply Forall_forall. intros i Hi. apply elem_of_seq in Hi. lia. }
  simpl.
  set (todo2 := sort_Slice _ todo1).
  assert (Ht2 : todo_ok syms1 todo2).
  { unfold todo_ok, todo2. rewrite Hsort. exact Ht1. }
  destruct (assign_loop_ok secs (length todo2) syms1 todo2 (le_n _))
    as (syms' & -> & Hu2); [now apply (syms_upd_ptrs_ok secs syms)|assumption|].
  exists syms'. split; [reflexivity|].
  pose proof (syms_upd_trans _ _ _ Hu1 Hu2) as (Hlen & Hu). split; [exact Hlen|].
  intros i s s' Hs Hs'. destruct (Hu i s Hs) as (s2 & Hs2 & Hss).
  rewrite Hs' in Hs2. injection Hs2 as <-.
  destruct Hss as [->|(H0 & Hsec & sz & ->)].
  - repeat split; auto; intros Hne; congruence.
  - repeat split; try reflexivity; try (intros; congruence).
    intros _. apply set_synth_size_flag.
Qed.

(** The insertion sort returns a permutation. *)
Lemma insertion_step_perm less x pre : insertion_step less x pre ≡ₚ x :: pre.
Proof.
  induction pre as [|y ys IH]; simpl; [reflexivity|].
  destruct (less x y); [|reflexivity].
  rewrite IH. apply Permutation_swap.
Qed.

Lemma insertionSort_perm less l : insertionSort less l ≡ₚ l.
Proof.
  unfold insertionSort. rewrite <- Permutation_rev.
  assert (H : forall acc, fold_left (fun pre x => insertion_step less x pre) l acc
                          ≡ₚ l ++ acc).
  { induction l as [|x l IH]; intros acc; simpl; [reflexivity|].
    rewrite IH, insertion_step_perm. symmetry. apply Permutation_middle. }
  rewrite H, app_nil_r. reflexivity.
Qed.

(** Three symbols of one section of 100 bytes at address 0: one with a
    size, an unsized one at address 40, and one without a section. *)
Definition size_secs : list Section := [mkSection 0 1 0 100 0].
Definition size_syms : list Sym :=
  [mkSym (Some 0%nat) 0 10 68 0; mkSym (Some 0%nat) 40 0 68 0; mkSym None 7 0 85 0].

Lemma SynthesizeSizes_fills_only_missing_sizes_witness :
  exists syms', SynthesizeSizes insertionSort size_secs size_syms = Some syms'
    /\ length syms' = length size_syms
    /\ forall i s s', size_syms !! i = Some s -> syms' !! i = Some s' ->
         Sym_Section s' = Sym_Section s /\ Sym_Value s' = Sym_Value s
         /\ Sym_Kind s' = Sym_Kind s
         /\ (Sym_Size s <> 0 -> s' = s)
         /\ (Sym_Section s = None -> s' = s)
         /\ (s' <> s -> SymFlags_SizeSynthesized (Sym_f s') = true).
Proof.
  apply (SynthesizeSizes_fills_only_missing_sizes insertionSort size_secs size_syms).
  - apply insertionSort_perm.
  - unfold ptrs_ok, size_syms, size_secs.
    repeat (apply Forall_cons_2 || apply Forall_nil_2);
      intros p [= <-]; eexists; reflexivity.
Defined.

(** * The shape of the tree in the heap

    A [shape] is what the pointers of the heap draw: the address and
    the cached height of every node.  [heap_ok] says that the heap holds
    this shape below a given parent; a context ([list frame], innermost
    frame first) is a path from a subtree up to the root. *)

Inductive shape := E | T (l : shape) (a : nat) (hc : Z) (r : shape).

Fixpoint inorder (t : shape) : list nat :=
  match t with
  | E => []
  | T l a _ r => inorder l ++ a :: inorder r
  end.

Definition root_of (t : shape) : option nat :=
  match t with
  | E => None
  | T _ a _ _ => Some a
  end.

Fixpoint ht (t : shape) : Z :=
  match t with
  | E => 0
  | T l _ _ r => 1 + Z.max (ht l) (ht r)
  end.

Definition hcache (t : shape) : Z :=
  match t with
  | E => 0
  | T _ _ hc _ => hc
  end.

(** The AVL invariant: every cached height is one more than the larger
    height of the children, and the heights of the children differ by at
    most one. *)
Fixpoint avl (t : shape) : Prop :=
  match t with
  | E => True
  | T l _ hc r =>
      avl l /\ avl r /\ hc = 1 + Z.max (ht l) (ht r) /\ -1 <= ht l - ht r <= 1
  end.

Inductive frame :=
| FL (a : nat) (hc : Z) (r : shape)
| FR (l : shape) (a : nat) (hc : Z).

Definition fill (f : frame) (t : shape) : shape :=
  match f with
  | FL a hc r => T t a hc r
  | FR l a hc => T l a hc t
  end.

Fixpoint plug (t : shape) (c : list frame) : shape :=
  match c with
  | [] => t
  | f :: c => plug (fill f t) c
  end.

Definition frame_addr (f : frame) : nat :=
  match f with
  | FL a _ _ => a
  | FR _ a _ => a
  end.

Definition frame_hc (f : frame) : Z :=
  match f with
  | FL _ hc _ => hc
  | FR _ _ hc => hc
  end.

Definition frame_sib (f : frame) : shape :=
  match f with
  | FL _ _ r => r
  | FR l _ _ => l
  end.

(** The parent of the hole of a context segment whose own top hangs below
    [top]. *)
Definition seg_par (c : list frame) (top : option nat) : option nat :=
  match c with
  | [] => top
  | f :: _ => Some (frame_addr f)
  end.

Definition hole_par (c : list frame) : option nat := seg_par c None.

(** The pointer at the top of a segment with [q] in its hole. *)
Fixpoint top_ptr (c : list frame) (q : option nat) : option nat :=
  match c with
  | [] => q
  | f :: c => top_ptr c (Some (frame_addr f))
  end.

Fixpoint before (c : list frame) : list nat :=
  match c with
  | [] => []
  | FL _ _ _ :: c => before c
  | FR l a _ :: c => before c ++ inorder l ++ [a]
  end.

Fixpoint after (c : list frame) : list nat :=
  match c with
  | [] => []
  | FL a _ r :: c => a :: inorder r ++ after c
  | FR _ _ _ :: c => after c
  end.

Lemma inorder_plug c : forall t,
  inorder (plug t c) = before c ++ inorder t ++ after c.
Proof.
  induction c as [|[a hc r|l a hc] c IH]; intros t; simpl.
  - now rewrite app_nil_r.
  - rewrite IH. simpl. now rewrite <- !app_assoc.
  - rewrite IH. simpl. now rewrite <- !app_assoc.
Qed.

Lemma plug_app c1 c2 t : plug t (c1 ++ c2) = plug (plug t c1) c2.
Proof. revert t. induction c1 as [|f c1 IH]; intros t; simpl; auto. Qed.

Lemma before_app c1 c2 : before (c1 ++ c2) = before c2 ++ before c1.
Proof.
  induction c1 as [|[a hc r|l a hc] c1 IH]; simpl.
  - now rewrite app_nil_r.
  - exact IH.
  - rewrite IH. now rewrite <- !app_assoc.
Qed.

Lemma after_app c1 c2 : after (c1 ++ c2) = after c1 ++ after c2.
Proof.
  induction c1 as [|[a hc r|l a hc] c1 IH]; simpl.
  - reflexivity.
  - rewrite IH. now rewrite <- !app_assoc.
  - exact IH.
Qed.

Lemma avl_hcache t : avl t -> hcache t = ht t.
Proof. destruct t; simpl; [reflexivity|]. intros (_ & _ & -> & _). reflexivity. Qed.

Lemma ht_nonneg t : 0 <= ht t.
Proof. induction t; simpl; lia. Qed.

Lemma ht_E_inv t : ht t <= 0 -> t = E.
Proof. destruct t as [|l a hc r]; simpl; [reflexivity|]. pose proof (ht_nonneg l). lia. Qed.

(** The context of an AVL tree around a hole that holds a tree of height
    [h0]. *)
Fixpoint ctx_avl (c : list frame) (h0 : Z) : Prop :=
  match c with
  | [] => True
  | f :: c =>
      avl (frame_sib f)
      /\ frame_hc f = 1 + Z.max h0 (ht (frame_sib f))
      /\ -1 <= h0 - ht (frame_sib f) <= 1
      /\ ctx_avl c (frame_hc f)
  end.

Lemma ht_fill f t : ht (fill f t) = 1 + Z.max (ht t) (ht (frame_sib f)).
Proof. destruct f; simpl; lia. Qed.

Lemma avl_plug c : forall t,
  avl (plug t c) <-> avl t /\ ctx_avl c (ht t).
Proof.
  induction c as [|f c IH]; intros t; simpl; [tauto|].
  rewrite IH. destruct f as [a hc r|l a hc]; simpl.
  - split.
    + intros ((? & ? & -> & ?) & Hc). repeat split; try assumption; try lia.
    + intros (? & ? & Hhc & ? & Hc). rewrite Hhc in *.
      repeat split; try assumption; lia.
  - split.
    + intros ((? & ? & -> & ?) & Hc). rewrite (Z.max_comm (ht l)) in *.
      repeat split; try assumption; try lia.
    + intros (? & ? & Hhc & ? & Hc). rewrite Hhc in *.
      rewrite (Z.max_comm (ht t)) in *.
      repeat split; try assumption; lia.
Qed.

Section Repr.
Context {V : Type} `{EqDecision V}.
Abbreviation heap := (gmap nat (avlNode (V:=V))).
Abbreviation avlNode := (avlNode (V:=V)).
Abbreviation avlTree := (avlTree (V:=V)).

(** The pointer fields and the height of a node, and its payload. *)
Definition lk (nd : avlNode) : option nat * option nat * option nat * Z :=
  (left nd, right nd, parent nd, heightCache nd).

Definition payload (nd : avlNode) : Z * Z * option V :=
  (key nd, high nd, value nd).

Definition node_at (h : heap) (a : nat) (l r p : option nat) (hc : Z) : Prop :=
  lk <$> h !! a = Some (l, r, p, hc).

Fixpoint heap_ok (h : heap) (par : option nat) (t : shape) : Prop :=
  match t with
  | E => True
  | T l a hc r =>
      node_at h a (root_of l) (root_of r) par hc
      /\ heap_ok h (Some a) l /\ heap_ok h (Some a) r
  end.

Definition frame_ok (h : heap) (f : frame) (q par : option nat) : Prop :=
  match f with
  | FL a hc r => node_at h a q (root_of r) par hc /\ heap_ok h (Some a) r
  | FR l a hc => node_at h a (root_of l) q par hc /\ heap_ok h (Some a) l
  end.

Fixpoint seg_ok (h : heap) (c : list frame) (q top : option nat) : Prop :=
  match c with
  | [] => True
  | f :: c' => frame_ok h f q (seg_par c' top) /\ seg_ok h c' (Some (frame_addr f)) top
  end.

(** The state [s] holds the tree [plug t c], seen from the subtree [t]. *)
Definition Zip (t : shape) (c : list frame) (s : avlTree) : Prop :=
  root s = top_ptr c (root_of t)
  /\ seg_ok (nodes s) c (root_of t) None
  /\ heap_ok (nodes s) (hole_par c) t
  /\ NoDup (inorder (plug t c)).

Definition Repr (t : shape) (s : avlTree) : Prop := Zip t [] s.

(** The payloads of all nodes, in the tree or not, are the same. *)
Definition same_payload (s s' : avlTree) : Prop :=
  forall b, payload <$> nodes s' !! b = payload <$> nodes s !! b.

(** The location of the hole of a context. *)
Definition hole_loc (c : list frame) : nodePtr :=
  match c with
  | [] => RootP
  | FL a _ _ :: _ => LeftP a
  | FR _ a _ :: _ => RightP a
  end.

Lemma same_payload_refl s : same_payload s s.
Proof. intros b. reflexivity. Qed.

Lemma same_payload_trans s1 s2 s3 :
  same_payload s1 s2 -> same_payload s2 s3 -> same_payload s1 s3.
Proof. intros H1 H2 b. now rewrite H2, H1. Qed.

Lemma top_ptr_cons f c q : top_ptr (f :: c) q = top_ptr c (Some (frame_addr f)).
Proof. reflexivity. Qed.

Lemma root_of_fill f t : root_of (fill f t) = Some (frame_addr f).
Proof. now destruct f. Qed.

Lemma Zip_fill f c t s : Zip t (f :: c) s <-> Zip (fill f t) c s.
Proof.
  unfold Zip. rewrite top_ptr_cons, root_of_fill. simpl.
  unfold hole_par. destruct f as [a hc r|l a hc]; simpl; tauto.
Qed.

Lemma heap_ok_ext h h' par t :
  (forall a, a ∈ inorder t -> lk <$> h' !! a = lk <$> h !! a) ->
  heap_ok h par t -> heap_ok h' par t.
Proof.
  revert par. induction t as [|l IHl a hc r IHr]; intros par Hext; simpl; [tauto|].
  intros (Ha & Hl & Hr). split; [|split].
  - unfold node_at in *. rewrite Hext; [assumption|]. set_solver.
  - apply IHl; [|assumption]. intros b Hb. apply Hext. set_solver.
  - apply IHr; [|assumption]. intros b Hb. apply Hext. set_solver.
Qed.

Lemma frame_ok_ext h h' f q par :
  (forall a, a = frame_addr f \/ a ∈ inorder (frame_sib f) ->
             lk <$> h' !! a = lk <$> h !! a) ->
  frame_ok h f q par -> frame_ok h' f q par.
Proof.
  intros Hext. destruct f as [a hc r|l a hc]; simpl in *; intros (Ha & Hs); split.
  - unfold node_at in *. rewrite Hext; auto.
  - eapply heap_ok_ext; [|eassumption]. auto.
  - unfold node_at in *. rewrite Hext; auto.
  - eapply heap_ok_ext; [|eassumption]. auto.
Qed.

(** The addresses of a context: its nodes and those of the siblings. *)
Fixpoint ctx_ids (c : list frame) : list nat :=
  match c with
  | [] => []
  | f :: c => frame_addr f :: inorder (frame_sib f) ++ ctx_ids c
  end.

Lemma ctx_ids_before_after c a : a ∈ ctx_ids c <-> a ∈ before c \/ a ∈ after c.
Proof.
  induction c as [|[b hc r|l b hc] c IH]; simpl; [set_solver| |];
    rewrite ?elem_of_cons, ?elem_of_app, ?elem_of_cons, IH; set_solver.
Qed.

Lemma seg_ok_ext h h' c q top :
  (forall a, a ∈ ctx_ids c -> lk <$> h' !! a = lk <$> h !! a) ->
  seg_ok h c q top -> seg_ok h' c q top.
Proof.
  revert q. induction c as [|f c IH]; intros q Hext; simpl; [tauto|].
  intros (Hf & Hc). split.
  - eapply frame_ok_ext; [|eassumption]. intros a Ha. apply Hext. simpl. set_solver.
  - apply IH; [|assumption]. intros a Ha. apply Hext. simpl. set_solver.
Qed.

(** Changing the pointer in the hole only touches the innermost frame. *)
Lemma seg_ok_hole h c q q' top :
  match c with
  | [] => True
  | f :: c' => frame_ok h f q' (seg_par c' top)
  end ->
  seg_ok h c q top -> seg_ok h c q' top.
Proof. destruct c as [|f c]; simpl; tauto. Qed.

Lemma seg_ok_app h c1 c2 q top :
  seg_ok h (c1 ++ c2) q top <->
  seg_ok h c1 q (seg_par c2 top) /\ seg_ok h c2 (top_ptr c1 q) top.
Proof.
  revert q. induction c1 as [|f c1 IH]; intros q; simpl.
  - tauto.
  - rewrite IH.
    assert (seg_par (c1 ++ c2) top = seg_par c1 (seg_par c2 top)) as ->
      by (destruct c1; reflexivity).
    tauto.
Qed.

Lemma seg_par_app c1 c2 top : seg_par (c1 ++ c2) top = seg_par c1 (seg_par c2 top).
Proof. destruct c1; reflexivity. Qed.

Lemma top_ptr_app c1 c2 q : top_ptr (c1 ++ c2) q = top_ptr c2 (top_ptr c1 q).
Proof.
  revert q. induction c1 as [|f c1 IH]; intros q; [reflexivity|].
  simpl. apply IH.
Qed.

Lemma height_root (s : avlTree) par t :
  heap_ok (nodes s) par t -> height s (root_of t) = Some (hcache t).
Proof.
  destruct t as [|l a hc r]; simpl; [reflexivity|].
  intros (Ha & _). unfold node_at in Ha.
  destruct (nodes s !! a) as [nd|]; simpl in *; [|discriminate].
  injection Ha as _ _ _ ->. reflexivity.
Qed.

Lemma node_at_inv h a l r p hc :
  node_at h a l r p hc ->
  exists nd, h !! a = Some nd /\ left nd = l /\ right nd = r
             /\ parent nd = p /\ heightCache nd = hc.
Proof.
  unfold node_at. destruct (h !! a) as [nd|]; simpl; [|discriminate].
  intros [= <- <- <- <-]. eauto 10.
Qed.

Lemma heap_ok_dom h par t a : heap_ok h par t -> a ∈ inorder t -> is_Some (h !! a).
Proof.
  revert par. induction t as [|l IHl b hc r IHr]; intros par; simpl; [set_solver|].
  intros (Hb & Hl & Hr). rewrite elem_of_app, elem_of_cons.
  intros [?|[->|?]]; eauto.
  apply node_at_inv in Hb as (nd & -> & _). eauto.
Qed.

Lemma seg_ok_dom h c q top a : seg_ok h c q top -> a ∈ ctx_ids c -> is_Some (h !! a).
Proof.
  revert q. induction c as [|f c IH]; intros q; simpl; [set_solver|].
  intros (Hf & Hc). rewrite elem_of_cons, elem_of_app.
  intros [->|[?|?]]; eauto.
  - destruct f; simpl in *; destruct Hf as (Hf & _);
      apply node_at_inv in Hf as (nd & -> & _); eauto.
  - destruct f; simpl in *; destruct Hf as (_ & Hf); eauto using heap_ok_dom.
Qed.

Lemma Zip_dom t c s a : Zip t c s -> a ∈ inorder (plug t c) -> is_Some (nodes s !! a).
Proof.
  intros (_ & Hc & Ht & _). rewrite inorder_plug, !elem_of_app.
  intros [?|[?|?]].
  - eapply seg_ok_dom; [eassumption|]. apply ctx_ids_before_after. auto.
  - eauto using heap_ok_dom.
  - eapply seg_ok_dom; [eassumption|]. apply ctx_ids_before_after. auto.
Qed.

(** A path of a tree is no longer than the heap is large. *)
Lemma NoDup_length_le_size (h : heap) (l : list nat) :
  NoDup l -> (forall a, a ∈ l -> is_Some (h !! a)) -> (length l <= size h)%nat.
Proof.
  intros Hnd Hdom.
  rewrite <- (size_dom (D := gset nat)).
  rewrite <- (size_list_to_set (C := gset nat) l) by assumption.
  apply subseteq_size. intros a Ha. apply elem_of_list_to_set in Ha.
  apply elem_of_dom. auto.
Qed.

End Repr.

(** * Tactics for heaps and for lists without duplicates *)

Lemma in_app_l {A} (x : A) l1 l2 : x ∈ l1 -> x ∈ l1 ++ l2.
Proof. intros. apply elem_of_app. auto. Qed.
Lemma in_app_r {A} (x : A) l1 l2 : x ∈ l2 -> x ∈ l1 ++ l2.
Proof. intros. apply elem_of_app. auto. Qed.
Lemma in_cons_tl {A} (x a : A) l : x ∈ l -> x ∈ a :: l.
Proof. intros. apply elem_of_cons. auto. Qed.
Lemma in_cons_hd {A} (x : A) l : x ∈ x :: l.
Proof. apply elem_of_cons. auto. Qed.

Ltac solve_in :=
  solve [ assumption
        | apply in_cons_hd
        | apply in_app_l; solve_in
        | apply in_app_r; solve_in
        | apply in_cons_tl; solve_in ].

Lemma NoDup_app_ne {A} (l1 l2 : list A) x y :
  NoDup (l1 ++ l2) -> x ∈ l1 -> y ∈ l2 -> x <> y.
Proof.
  intros Hnd Hx Hy ->. apply NoDup_app in Hnd as (_ & Hd & _). exact (Hd y Hx Hy).
Qed.
Lemma NoDup_cons_ne {A} (a : A) l y : NoDup (a :: l) -> y ∈ l -> a <> y.
Proof. intros Hnd Hy ->. apply NoDup_cons in Hnd as (Hn & _). auto. Qed.
Lemma NoDup_app_l {A} (l1 l2 : list A) : NoDup (l1 ++ l2) -> NoDup l1.
Proof. intros Hnd. now apply NoDup_app in Hnd. Qed.
Lemma NoDup_app_r {A} (l1 l2 : list A) : NoDup (l1 ++ l2) -> NoDup l2.
Proof. intros Hnd. now apply NoDup_app in Hnd. Qed.
Lemma NoDup_cons_tl {A} (a : A) (l : list A) : NoDup (a :: l) -> NoDup l.
Proof. intros Hnd. now apply NoDup_cons in Hnd. Qed.

(** [x <> y] from a [NoDup] of a list built from [++] and [::] in which
    both occur. *)
Ltac nodup_ne_with H :=
  lazymatch type of H with
  | NoDup (?l1 ++ ?l2) =>
      first
        [ apply (NoDup_app_ne l1 l2 _ _ H); solve_in
        | apply not_eq_sym; apply (NoDup_app_ne l1 l2 _ _ H); solve_in
        | let H1 := fresh in
          pose proof (NoDup_app_l _ _ H) as H1; nodup_ne_with H1
        | let H1 := fresh in
          pose proof (NoDup_app_r _ _ H) as H1; nodup_ne_with H1 ]
  | NoDup (?a :: ?l) =>
      first
        [ apply (NoDup_cons_ne a l _ H); solve_in
        | apply not_eq_sym; apply (NoDup_cons_ne a l _ H); solve_in
        | let H1 := fresh in
          pose proof (NoDup_cons_tl _ _ H) as H1; nodup_ne_with H1 ]
  end.

Ltac node_eq :=
  unfold set_heightCache, set_right, set_left, set_parent; simpl;
  repeat match goal with
         | H : left _ = _ |- _ => rewrite H
         | H : right _ = _ |- _ => rewrite H
         | H : parent _ = _ |- _ => rewrite H
         | H : heightCache _ = _ |- _ => rewrite H
         end;
  reflexivity.

Ltac hlook :=
  repeat first
    [ rewrite lookup_insert_eq
    | rewrite lookup_insert_ne by
        (first [assumption | apply not_eq_sym; assumption | congruence]) ].

Ltac inorder_eq := simpl; repeat (rewrite <- app_assoc; simpl); reflexivity.

(** A contradiction from an element that occurs in two parts of a list
    without duplicates. *)
Ltac nodup_absurd H x := exfalso; cut (x <> x); [congruence | nodup_ne_with H].

Section Ops.
Context {V : Type} `{EqDecision V}.
Abbreviation heap := (gmap nat (avlNode (V:=V))).
Abbreviation avlNode := (avlNode (V:=V)).
Abbreviation avlTree := (avlTree (V:=V)).

Lemma lk_set_left x (nd : avlNode) :
  lk (set_left x nd) = (x, right nd, parent nd, heightCache nd).
Proof. reflexivity. Qed.
Lemma lk_set_right x (nd : avlNode) :
  lk (set_right x nd) = (left nd, x, parent nd, heightCache nd).
Proof. reflexivity. Qed.
Lemma lk_set_parent x (nd : avlNode) :
  lk (set_parent x nd) = (left nd, right nd, x, heightCache nd).
Proof. reflexivity. Qed.
Lemma lk_set_heightCache x (nd : avlNode) :
  lk (set_heightCache x nd) = (left nd, right nd, parent nd, x).
Proof. reflexivity. Qed.
Lemma lk_set_key x (nd : avlNode) : lk (set_key x nd) = lk nd.
Proof. reflexivity. Qed.
Lemma lk_set_high x (nd : avlNode) : lk (set_high x nd) = lk nd.
Proof. reflexivity. Qed.
Lemma lk_set_value x (nd : avlNode) : lk (set_value x nd) = lk nd.
Proof. reflexivity. Qed.

Lemma upd_Some a f (s : avlTree) nd :
  nodes s !! a = Some nd ->
  upd a f s = Some (mkTree (root s) (<[a := f nd]> (nodes s))).
Proof. intros Hnd. unfold upd. rewrite Hnd. reflexivity. Qed.

Lemma NoDup_plug_inv t c :
  NoDup (inorder (plug t c)) ->
  NoDup (inorder t) /\ NoDup (ctx_ids c)
  /\ (forall x, x ∈ inorder t -> x ∉ ctx_ids c).
Proof.
  revert t. induction c as [|f c IH]; intros t; simpl.
  - intros Hnd. split; [assumption|]. split; [constructor|]. set_solver.
  - intros Hnd. apply IH in Hnd as (Hf & Hc & Hd).
    destruct f as [a hc r|l a hc]; simpl in *.
    + apply NoDup_app in Hf as (Ht & Hta & Har).
      apply NoDup_cons in Har as (Har & Hr).
      split; [assumption|]. split.
      * apply NoDup_cons. split; [|apply NoDup_app; split; [assumption|split; [|assumption]]].
        -- rewrite elem_of_app. intros [?|?]; [auto|]. eapply Hd; [|eassumption]. set_solver.
        -- intros x Hx. apply Hd. set_solver.
      * intros x Hx. rewrite elem_of_cons, elem_of_app.
        intros [->|[?|?]].
        -- eapply Hta; [eassumption|]. set_solver.
        -- eapply Hta; [eassumption|]. set_solver.
        -- eapply Hd; [|eassumption]. set_solver.
    + apply NoDup_app in Hf as (Hl & Hla & Hat).
      apply NoDup_cons in Hat as (Hat & Ht).
      split; [assumption|]. split.
      * apply NoDup_cons. split; [|apply NoDup_app; split; [assumption|split; [|assumption]]].
        -- rewrite elem_of_app. intros [?|?]; [eapply Hla; [eassumption|set_solver]|].
           eapply Hd; [|eassumption]. set_solver.
        -- intros x Hx. apply Hd. set_solver.
      * intros x Hx. rewrite elem_of_cons, elem_of_app.
        intros [->|[?|?]].
        -- auto.
        -- eapply Hla; [eassumption|]. set_solver.
        -- eapply Hd; [|eassumption]. set_solver.
Qed.

Lemma NoDup_plug_perm t t' c :
  inorder t' ≡ₚ inorder t ->
  NoDup (inorder (plug t c)) -> NoDup (inorder (plug t' c)).
Proof.
  intros Hp. rewrite !inorder_plug. intros Hnd.
  eapply NoDup_Permutation_proper; [|exact Hnd].
  apply Permutation_app; [reflexivity|]. apply Permutation_app; [assumption|reflexivity].
Qed.

(** Reading and writing the hole of a context. *)
Lemma load_hole (s : avlTree) c q :
  root s = top_ptr c q -> seg_ok (nodes s) c q None ->
  load s (hole_loc c) = Some q.
Proof.
  destruct c as [|[a hc r|l a hc] c]; simpl.
  - intros ->. reflexivity.
  - intros _ ((Ha & _) & _). apply node_at_inv in Ha as (nd & -> & <- & _). reflexivity.
  - intros _ ((Ha & _) & _). apply node_at_inv in Ha as (nd & -> & _ & <- & _). reflexivity.
Qed.

Lemma lk_insert_ne (h : heap) a b nd :
  a <> b -> lk <$> <[a := nd]> h !! b = lk <$> h !! b.
Proof. intros. now rewrite lookup_insert_ne. Qed.

Lemma payload_insert (h : heap) a b nd nd' :
  h !! a = Some nd -> payload nd' = payload nd ->
  payload <$> <[a := nd']> h !! b = payload <$> h !! b.
Proof.
  intros Ha Hp. destruct (decide (a = b)) as [->|].
  - rewrite lookup_insert_eq, Ha. simpl. now rewrite Hp.
  - now rewrite lookup_insert_ne.
Qed.

Lemma same_payload_upd a f (s s' : avlTree) :
  (forall nd, payload (f nd) = payload nd) ->
  upd a f s = Some s' -> same_payload s s'.
Proof.
  unfold upd. destruct (nodes s !! a) as [nd|] eqn:Ha; simpl; [|discriminate].
  intros Hf [= <-] b. simpl. eapply payload_insert; eauto.
Qed.

Lemma store_hole (s : avlTree) c q q' :
  root s = top_ptr c q -> seg_ok (nodes s) c q None -> NoDup (ctx_ids c) ->
  exists s', store (hole_loc c) q' s = Some s'
    /\ root s' = top_ptr c q'
    /\ seg_ok (nodes s') c q' None
    /\ (forall x, Some x <> hole_par c -> nodes s' !! x = nodes s !! x)
    /\ same_payload s s'.
Proof.
  intros Hroot Hc Hnd.
  destruct c as [|f c]; simpl in *.
  - eexists. split; [reflexivity|]. simpl. repeat split; auto.
  - destruct Hc as (Hf & Hc).
    apply NoDup_cons in Hnd as (Hfa & Hnd).
    rewrite not_elem_of_app in Hfa. destruct Hfa as (Hfs & Hfc).
    destruct f as [a hc r|l a hc]; simpl in *; destruct Hf as (Ha & Hs);
      apply node_at_inv in Ha as (nd & Hnda & Hl & Hr & Hp & Hhc).
    + erewrite upd_Some by eassumption. eexists. split; [reflexivity|]. simpl.
      split; [assumption|]. split; [split; [split|]|split].
      * unfold node_at. rewrite lookup_insert_eq. unfold lk. simpl.
        rewrite ?Hl, ?Hr, ?Hp, ?Hhc. reflexivity.
      * eapply heap_ok_ext; [|eassumption]. intros x Hx.
        apply lk_insert_ne. congruence.
      * eapply seg_ok_ext; [|eassumption]. intros x Hx.
        apply lk_insert_ne. congruence.
      * intros x Hx. apply lookup_insert_ne. congruence.
      * intros b. simpl. eapply payload_insert; eauto.
    + erewrite upd_Some by eassumption. eexists. split; [reflexivity|]. simpl.
      split; [assumption|]. split; [split; [split|]|split].
      * unfold node_at. rewrite lookup_insert_eq. unfold lk. simpl.
        rewrite ?Hl, ?Hr, ?Hp, ?Hhc. reflexivity.
      * eapply heap_ok_ext; [|eassumption]. intros x Hx.
        apply lk_insert_ne. congruence.
      * eapply seg_ok_ext; [|eassumption]. intros x Hx.
        apply lk_insert_ne. congruence.
      * intros x Hx. apply lookup_insert_ne. congruence.
      * intros b. simpl. eapply payload_insert; eauto.
Qed.

(** [nodeP] finds the hole of the context of a node. *)
Lemma nodeP_hole (s : avlTree) l a hc r c :
  Zip (T l a hc r) c s -> nodeP s a = Some (hole_loc c).
Proof.
  intros (Hroot & Hc & (Ha & _) & Hnd).
  apply node_at_inv in Ha as (nd & Hnda & _ & _ & Hp & _).
  unfold nodeP. rewrite Hnda. simpl. rewrite Hp.
  destruct c as [|[p hcp rp|lp p hcp] c]; simpl in *; [reflexivity| |].
  - destruct Hc as ((Hpn & _) & _).
    apply node_at_inv in Hpn as (pd & -> & Hl & _). simpl.
    rewrite decide_True by assumption. reflexivity.
  - destruct Hc as ((Hpn & _) & _).
    apply node_at_inv in Hpn as (pd & -> & Hl & _). simpl.
    rewrite decide_False; [reflexivity|].
    rewrite Hl. intros Heq.
    rewrite inorder_plug in Hnd. simpl in Hnd.
    assert (a ∈ inorder lp) by (destruct lp; simpl in *; [discriminate|]; set_solver).
    apply NoDup_app in Hnd as (_ & _ & Hnd).
    apply NoDup_app in Hnd as (Hnd & _).
    apply NoDup_app in Hnd as (_ & Hnd & _).
    eapply Hnd; [eassumption|]. set_solver.
Qed.


Lemma height_ext (s s' : avlTree) p :
  (forall y, p = Some y -> lk <$> nodes s' !! y = lk <$> nodes s !! y) ->
  height s' p = height s p.
Proof.
  destruct p as [y|]; simpl; [|reflexivity]. intros Hy.
  specialize (Hy y eq_refl).
  destruct (nodes s' !! y) as [n1|], (nodes s !! y) as [n2|]; simpl in *;
    try discriminate; [|reflexivity].
  injection Hy as _ _ _ ->. reflexivity.
Qed.

Lemma updateHeight_node (s : avlTree) a nd hl hr :
  nodes s !! a = Some nd ->
  height s (left nd) = Some hl -> height s (right nd) = Some hr ->
  updateHeight a s
  = Some (mkTree (root s) (<[a := set_heightCache (1 + Z.max hl hr) nd]> (nodes s))).
Proof.
  intros Ha Hl Hr. unfold updateHeight. rewrite Ha. simpl. rewrite Hl, Hr. simpl.
  case_decide; erewrite upd_Some by eassumption.
  - replace (1 + Z.max hl hr) with (hl + 1) by lia. reflexivity.
  - replace (1 + Z.max hl hr) with (hr + 1) by lia. reflexivity.
Qed.

Lemma root_of_in t x : root_of t = Some x -> x ∈ inorder t.
Proof. destruct t; simpl; [discriminate|]. intros [= ->]. set_solver. Qed.

(** Re-hanging a subtree below another parent. *)
Lemma heap_ok_reparent (h h' : heap) par par' t :
  NoDup (inorder t) ->
  (forall x, x ∈ inorder t -> Some x <> root_of t -> lk <$> h' !! x = lk <$> h !! x) ->
  (forall x l r p hc, root_of t = Some x -> lk <$> h !! x = Some (l, r, p, hc) ->
                      lk <$> h' !! x = Some (l, r, par', hc)) ->
  heap_ok h par t -> heap_ok h' par' t.
Proof.
  destruct t as [|l a hc r]; simpl; [tauto|].
  intros Hnd Hext Hroot (Ha & Hl & Hr).
  apply NoDup_app in Hnd as (_ & Hla & Hnd). apply NoDup_cons in Hnd as (Har & _).
  split; [|split].
  - eapply Hroot; [reflexivity|exact Ha].
  - eapply heap_ok_ext; [|eassumption]. intros x Hx. apply Hext; [set_solver|].
    intros [= ->]. eapply Hla; [eassumption|]. set_solver.
  - eapply heap_ok_ext; [|eassumption]. intros x Hx. apply Hext; [set_solver|].
    intros [= ->]. auto.
Qed.

Lemma rotateLeft_spec (s : avlTree) l a ha rl b hb rr c :
  Zip (T l a ha (T rl b hb rr)) c s ->
  exists s', rotateLeft (hole_loc c) s = Some s'
    /\ Zip (T (T l a (1 + Z.max (hcache l) (hcache rl)) rl) b
              (1 + Z.max (1 + Z.max (hcache l) (hcache rl)) (hcache rr)) rr) c s'
    /\ same_payload s s'.
Proof.
  intros (Hroot & Hc & Ht & Hnd).
  pose proof (NoDup_plug_inv _ _ Hnd) as (Hndt & Hndc & Hdisj).
  simpl in Ht. destruct Ht as (Ha & Hl & Hb & Hrl & Hrr).
  apply node_at_inv in Ha as (nda & Hnda & Hal & Har & Hap & Hah).
  apply node_at_inv in Hb as (ndb & Hndb & Hbl & Hbr & Hbp & Hbh).
  simpl in Hndt.
  apply NoDup_app in Hndt as (Hndl & Hl_dis & Hndt).
  apply NoDup_cons in Hndt as (Ha_nin & Hndt).
  apply NoDup_app in Hndt as (Hndrl & Hrl_dis & Hndt).
  apply NoDup_cons in Hndt as (Hb_nin & Hndrr).
  assert (Hab : a <> b) by (intros ->; apply Ha_nin; set_solver).
  assert (Hal' : a ∉ inorder l) by (intros ?; eapply Hl_dis; [eassumption|set_solver]).
  assert (Hbl' : b ∉ inorder l) by (intros ?; eapply Hl_dis; [eassumption|set_solver]).
  assert (Harl : a ∉ inorder rl) by (intros ?; apply Ha_nin; set_solver).
  assert (Harr : a ∉ inorder rr) by (intros ?; apply Ha_nin; set_solver).
  assert (Hbrl : b ∉ inorder rl) by (intros ?; eapply Hrl_dis; [eassumption|set_solver]).
  assert (Hac : a ∉ ctx_ids c) by (apply Hdisj; simpl; set_solver).
  assert (Hbc : b ∉ ctx_ids c) by (apply Hdisj; simpl; set_solver).
  assert (Hlrl : forall x, x ∈ inorder l -> x ∉ inorder rl)
    by (intros x ? ?; eapply Hl_dis; [eassumption|set_solver]).
  pose proof (height_root s _ _ Hl) as Hhl.
  pose proof (height_root s _ _ Hrl) as Hhrl.
  pose proof (height_root s _ _ Hrr) as Hhrr.
  (* the state before the final store *)
  set (ha' := 1 + Z.max (hcache l) (hcache rl)).
  set (hb' := 1 + Z.max ha' (hcache rr)).
  set (A := mkNode (key nda) (root_of l) (root_of rl) (Some b) ha' (high nda) (value nda)).
  set (B := mkNode (key ndb) (Some a) (root_of rr) (hole_par c) hb' (high ndb) (value ndb)).
  assert (exists h1,
    (forall x, x <> a -> x <> b -> Some x <> root_of rl -> h1 !! x = nodes s !! x)
    /\ (forall x nd, root_of rl = Some x -> nodes s !! x = Some nd ->
                     h1 !! x = Some (set_parent (Some a) nd))
    /\ h1 !! a = Some A /\ h1 !! b = Some B
    /\ rotateLeft (hole_loc c) s = store (hole_loc c) (Some b) (mkTree (root s) h1))
    as (h1 & Hother & Hx & HA & HB & Hrun).
  { unfold rotateLeft.
    rewrite (load_hole _ _ _ Hroot Hc). simpl. rewrite Hnda. simpl. rewrite Har. simpl.
    rewrite Hndb. simpl.
    erewrite upd_Some by eassumption. simpl.
    erewrite upd_Some by (simpl; hlook; reflexivity). simpl.
    erewrite upd_Some by (simpl; hlook; eassumption). simpl.
    erewrite upd_Some by (simpl; hlook; reflexivity). simpl.
    destruct rl as [|rll x hx rlr]; simpl in *.
    - rewrite Hbl. simpl.
      erewrite updateHeight_node; [|simpl; hlook; reflexivity| |].
      2:{ simpl. rewrite Hal. erewrite height_ext; [exact Hhl|].
          intros y Hy. simpl. apply root_of_in in Hy.
          rewrite !lk_insert_ne by (intros ->; auto). reflexivity. }
      2:{ reflexivity. }
      simpl.
      erewrite updateHeight_node; [|simpl; hlook; reflexivity| |].
      2:{ simpl. hlook. reflexivity. }
      2:{ simpl. rewrite Hbr. erewrite height_ext; [exact Hhrr|].
          intros y Hy. simpl. apply root_of_in in Hy.
          rewrite !lk_insert_ne by (intros ->; auto). reflexivity. }
      simpl. eexists. split; [|split; [|split; [|split; [|reflexivity]]]].
      + intros y Hya Hyb _. hlook. reflexivity.
      + intros y nd [=].
      + hlook. unfold A. node_eq.
      + hlook. unfold B. node_eq.
    - assert (Hxa : x <> a) by set_solver.
      assert (Hxb : x <> b) by set_solver.
      destruct Hrl as (Hxn & Hrll & Hrlr).
      apply node_at_inv in Hxn as (ndx & Hndx & Hxl & Hxr & Hxp & Hxh).
      rewrite Hbl. simpl.
      erewrite upd_Some by (simpl; hlook; eassumption). simpl.
      erewrite updateHeight_node; [|simpl; hlook; reflexivity| |].
      2:{ simpl. rewrite Hal. erewrite height_ext; [exact Hhl|].
          intros y Hy. simpl. apply root_of_in in Hy.
          assert (y ∉ inorder rll ++ x :: inorder rlr) by auto.
          rewrite !lk_insert_ne by (intros ->; set_solver). reflexivity. }
      2:{ simpl. hlook. simpl. rewrite Hxh. reflexivity. }
      simpl.
      erewrite updateHeight_node; [|simpl; hlook; reflexivity| |].
      2:{ simpl. hlook. reflexivity. }
      2:{ simpl. rewrite Hbr. erewrite height_ext; [exact Hhrr|].
          intros y Hy. simpl. apply root_of_in in Hy.
          rewrite !lk_insert_ne by (intros ->; set_solver). reflexivity. }
      simpl. eexists. split; [|split; [|split; [|split; [|reflexivity]]]].
      + intros y Hya Hyb Hyx. hlook. reflexivity.
      + intros y nd [= <-] Hy. hlook. congruence.
      + hlook. unfold A. node_eq.
      + hlook. unfold B. node_eq. }
  assert (Hseg1 : seg_ok h1 c (Some a) None).
  { eapply seg_ok_ext; [|exact Hc]. intros x Hxc. rewrite Hother; [reflexivity| | |].
    - intros ->. auto.
    - intros ->. auto.
    - intros Hr. symmetry in Hr. apply root_of_in in Hr.
      eapply Hdisj; [|exact Hxc]. simpl. set_solver. }
  destruct (store_hole (mkTree (root s) h1) c (Some a) (Some b) Hroot Hseg1 Hndc)
    as (s' & Hstore & Hroot' & Hseg' & Hsame' & Hpay').
  assert (Hpar : forall x, x ∈ inorder l ++ a :: inorder rl ++ b :: inorder rr ->
                           Some x <> hole_par c).
  { intros x Hxt Hp. destruct c as [|f c]; [discriminate|]. injection Hp as ->.
    eapply Hdisj; [exact Hxt|]. simpl. set_solver. }
  exists s'. split; [|split].
  - rewrite Hrun. exact Hstore.
  - split; [exact Hroot'|]. split; [exact Hseg'|]. split.
    + simpl. split; [|split; [split; [|split]|]].
      * unfold node_at. rewrite Hsame' by (apply Hpar; set_solver).
        simpl. rewrite HB. reflexivity.
      * unfold node_at. rewrite Hsame' by (apply Hpar; set_solver).
        simpl. rewrite HA. reflexivity.
      * eapply heap_ok_ext; [|exact Hl]. intros x Hxl.
        rewrite Hsame' by (apply Hpar; set_solver). simpl.
        rewrite Hother; [reflexivity| | |].
        -- intros ->. auto.
        -- intros ->. auto.
        -- intros Hr. symmetry in Hr. apply root_of_in in Hr. eapply Hlrl; eassumption.
      * eapply heap_ok_reparent; [exact Hndrl| | |exact Hrl].
        -- intros x Hxrl Hxr. rewrite Hsame' by (apply Hpar; set_solver). simpl.
           rewrite Hother; [reflexivity| | |assumption].
           ++ intros ->. auto.
           ++ intros ->. auto.
        -- intros x l0 r0 p0 hc0 Hxr Hlk.
           rewrite Hsame' by (apply Hpar; apply root_of_in in Hxr; set_solver). simpl.
           destruct (nodes s !! x) as [ndx|] eqn:Hndx; [|discriminate].
           rewrite (Hx x ndx Hxr Hndx). simpl in *.
           injection Hlk as <- <- _ <-. reflexivity.
      * eapply heap_ok_ext; [|exact Hrr]. intros x Hxrr.
        rewrite Hsame' by (apply Hpar; set_solver). simpl.
        rewrite Hother; [reflexivity| | |].
        -- intros ->. auto.
        -- intros ->. auto.
        -- intros Hr. symmetry in Hr. apply root_of_in in Hr.
           eapply Hrl_dis; [exact Hr|]. set_solver.
    + eapply NoDup_plug_perm; [|exact Hnd]. simpl.
      rewrite <- !app_assoc. reflexivity.
  - eapply same_payload_trans; [|exact Hpay'].
    intros x. simpl.
    destruct (decide (x = a)) as [->|Hxa]; [rewrite HA, Hnda; reflexivity|].
    destruct (decide (x = b)) as [->|Hxb]; [rewrite HB, Hndb; reflexivity|].
    destruct (decide (Some x = root_of rl)) as [Hxr|Hxr].
    + destruct (nodes s !! x) as [ndx|] eqn:Hndx.
      * rewrite (Hx x ndx (eq_sym Hxr) Hndx). reflexivity.
      * symmetry in Hxr. apply root_of_in in Hxr.
        destruct (heap_ok_dom _ _ _ _ Hrl Hxr) as (? & ?). congruence.
    + rewrite Hother by assumption. reflexivity.
Qed.


Lemma rotateRight_spec (s : avlTree) ll b hb lr a ha r c :
  Zip (T (T ll b hb lr) a ha r) c s ->
  exists s', rotateRight (hole_loc c) s = Some s'
    /\ Zip (T ll b (1 + Z.max (hcache ll) (1 + Z.max (hcache lr) (hcache r)))
              (T lr a (1 + Z.max (hcache lr) (hcache r)) r)) c s'
    /\ same_payload s s'.
Proof.
  intros (Hroot & Hc & Ht & Hnd).
  pose proof (NoDup_plug_inv _ _ Hnd) as (Hndt & Hndc & Hdisj).
  simpl in Ht. destruct Ht as (Ha & (Hb & Hll & Hlr) & Hr).
  apply node_at_inv in Ha as (nda & Hnda & Hal & Har & Hap & Hah).
  apply node_at_inv in Hb as (ndb & Hndb & Hbl & Hbr & Hbp & Hbh).
  simpl in Hndt.
  apply NoDup_app in Hndt as (Hndl & Hl_dis & Hndt).
  apply NoDup_cons in Hndt as (Ha_nin & Hndr).
  apply NoDup_app in Hndl as (Hndll & Hll_dis & Hndl).
  apply NoDup_cons in Hndl as (Hb_nin & Hndlr).
  assert (Hab : a <> b) by (intros ->; apply (Hl_dis b); set_solver).
  assert (Hall : a ∉ inorder ll) by (intros ?; apply (Hl_dis a); set_solver).
  assert (Halr : a ∉ inorder lr) by (intros ?; apply (Hl_dis a); set_solver).
  assert (Hbll : b ∉ inorder ll) by (intros ?; apply (Hll_dis b); set_solver).
  assert (Hbr' : b ∉ inorder r) by (intros ?; apply (Hl_dis b); set_solver).
  assert (Hac : a ∉ ctx_ids c) by (apply Hdisj; simpl; set_solver).
  assert (Hbc : b ∉ ctx_ids c) by (apply Hdisj; simpl; set_solver).
  assert (Hlrr : forall x, x ∈ inorder lr -> x ∉ inorder r)
    by (intros x ? ?; apply (Hl_dis x); set_solver).
  assert (Hlrll : forall x, x ∈ inorder lr -> x ∉ inorder ll)
    by (intros x ? ?; apply (Hll_dis x); set_solver).
  pose proof (height_root s _ _ Hll) as Hhll.
  pose proof (height_root s _ _ Hlr) as Hhlr.
  pose proof (height_root s _ _ Hr) as Hhr.
  set (ha' := 1 + Z.max (hcache lr) (hcache r)).
  set (hb' := 1 + Z.max (hcache ll) ha').
  set (A := mkNode (key nda) (root_of lr) (root_of r) (Some b) ha' (high nda) (value nda)).
  set (B := mkNode (key ndb) (root_of ll) (Some a) (hole_par c) hb' (high ndb) (value ndb)).
  assert (exists h1,
    (forall x, x <> a -> x <> b -> Some x <> root_of lr -> h1 !! x = nodes s !! x)
    /\ (forall x nd, root_of lr = Some x -> nodes s !! x = Some nd ->
                     h1 !! x = Some (set_parent (Some a) nd))
    /\ h1 !! a = Some A /\ h1 !! b = Some B
    /\ rotateRight (hole_loc c) s = store (hole_loc c) (Some b) (mkTree (root s) h1))
    as (h1 & Hother & Hx & HA & HB & Hrun).
  { unfold rotateRight.
    rewrite (load_hole _ _ _ Hroot Hc). simpl. rewrite Hnda. simpl. rewrite Hal. simpl.
    rewrite Hndb. simpl.
    erewrite upd_Some by eassumption. simpl.
    erewrite upd_Some by (simpl; hlook; reflexivity). simpl.
    erewrite upd_Some by (simpl; hlook; eassumption). simpl.
    erewrite upd_Some by (simpl; hlook; reflexivity). simpl.
    destruct lr as [|lrl x hx lrr]; simpl in *.
    - rewrite Hbr. simpl.
      erewrite updateHeight_node; [|simpl; hlook; reflexivity| |].
      2:{ reflexivity. }
      2:{ simpl. rewrite Har. erewrite height_ext; [exact Hhr|].
          intros y Hy. simpl. apply root_of_in in Hy.
          rewrite !lk_insert_ne by (intros ->; auto). reflexivity. }
      simpl.
      erewrite updateHeight_node; [|simpl; hlook; reflexivity| |].
      2:{ simpl. rewrite Hbl. erewrite height_ext; [exact Hhll|].
          intros y Hy. simpl. apply root_of_in in Hy.
          rewrite !lk_insert_ne by (intros ->; auto). reflexivity. }
      2:{ simpl. hlook. reflexivity. }
      simpl. eexists. split; [|split; [|split; [|split; [|reflexivity]]]].
      + intros y Hya Hyb _. hlook. reflexivity.
      + intros y nd [=].
      + hlook. unfold A. node_eq.
      + hlook. unfold B. node_eq.
    - assert (Hxa : x <> a) by (intros ->; apply Halr; set_solver).
      assert (Hxb : x <> b) by (intros ->; apply Hb_nin; set_solver).
      destruct Hlr as (Hxn & Hlrl_ok & Hlrr_ok).
      apply node_at_inv in Hxn as (ndx & Hndx & Hxl & Hxr & Hxp & Hxh).
      rewrite Hbr. simpl.
      erewrite upd_Some by (simpl; hlook; eassumption). simpl.
      erewrite updateHeight_node; [|simpl; hlook; reflexivity| |].
      2:{ simpl. hlook. simpl. rewrite Hxh. reflexivity. }
      2:{ simpl. rewrite Har. erewrite height_ext; [exact Hhr|].
          intros y Hy. simpl. apply root_of_in in Hy.
          assert (y ∉ inorder lrl ++ x :: inorder lrr) by (intros ?; eapply Hlrr; eauto).
          rewrite !lk_insert_ne by (intros ->; set_solver). reflexivity. }
      simpl.
      erewrite updateHeight_node; [|simpl; hlook; reflexivity| |].
      2:{ simpl. rewrite Hbl. erewrite height_ext; [exact Hhll|].
          intros y Hy. simpl. apply root_of_in in Hy.
          assert (y ∉ inorder lrl ++ x :: inorder lrr) by (intros ?; eapply Hlrll; eauto).
          rewrite !lk_insert_ne by (intros ->; set_solver). reflexivity. }
      2:{ simpl. hlook. reflexivity. }
      simpl. eexists. split; [|split; [|split; [|split; [|reflexivity]]]].
      + intros y Hya Hyb Hyx. hlook. reflexivity.
      + intros y nd [= <-] Hy. hlook. congruence.
      + hlook. unfold A. node_eq.
      + hlook. unfold B. node_eq. }
  assert (Hseg1 : seg_ok h1 c (Some a) None).
  { eapply seg_ok_ext; [|exact Hc]. intros x Hxc. rewrite Hother; [reflexivity| | |].
    - intros ->. auto.
    - intros ->. auto.
    - intros Hrt. symmetry in Hrt. apply root_of_in in Hrt.
      eapply Hdisj; [|exact Hxc]. simpl. set_solver. }
  destruct (store_hole (mkTree (root s) h1) c (Some a) (Some b) Hroot Hseg1 Hndc)
    as (s' & Hstore & Hroot' & Hseg' & Hsame' & Hpay').
  assert (Hpar : forall x, x ∈ (inorder ll ++ b :: inorder lr) ++ a :: inorder r ->
                           Some x <> hole_par c).
  { intros x Hxt Hp. destruct c as [|f c]; [discriminate|]. injection Hp as ->.
    eapply Hdisj; [exact Hxt|]. simpl. set_solver. }
  exists s'. split; [|split].
  - rewrite Hrun. exact Hstore.
  - split; [exact Hroot'|]. split; [exact Hseg'|]. split.
    + simpl. split; [|split; [|split; [|split]]].
      * unfold node_at. rewrite Hsame' by (apply Hpar; set_solver).
        simpl. rewrite HB. reflexivity.
      * eapply heap_ok_ext; [|exact Hll]. intros x Hxl.
        rewrite Hsame' by (apply Hpar; set_solver). simpl.
        rewrite Hother; [reflexivity| | |].
        -- intros ->. auto.
        -- intros ->. auto.
        -- intros Hrt. symmetry in Hrt. apply root_of_in in Hrt.
           eapply Hlrll; eassumption.
      * unfold node_at. rewrite Hsame' by (apply Hpar; set_solver).
        simpl. rewrite HA. reflexivity.
      * eapply heap_ok_reparent; [exact Hndlr| | |exact Hlr].
        -- intros x Hxrl Hxr. rewrite Hsame' by (apply Hpar; set_solver). simpl.
           rewrite Hother; [reflexivity| | |assumption].
           ++ intros ->. auto.
           ++ intros ->. auto.
        -- intros x l0 r0 p0 hc0 Hxr Hlk.
           rewrite Hsame' by (apply Hpar; apply root_of_in in Hxr; set_solver). simpl.
           destruct (nodes s !! x) as [ndx|] eqn:Hndx; [|discriminate].
           rewrite (Hx x ndx Hxr Hndx). simpl in *.
           injection Hlk as <- <- _ <-. reflexivity.
      * eapply heap_ok_ext; [|exact Hr]. intros x Hxrr.
        rewrite Hsame' by (apply Hpar; set_solver). simpl.
        rewrite Hother; [reflexivity| | |].
        -- intros ->. auto.
        -- intros ->. auto.
        -- intros Hrt. symmetry in Hrt. apply root_of_in in Hrt.
           eapply Hlrr; eassumption.
    + eapply NoDup_plug_perm; [|exact Hnd]. simpl.
      rewrite <- !app_assoc. reflexivity.
  - eapply same_payload_trans; [|exact Hpay'].
    intros x. simpl.
    destruct (decide (x = a)) as [->|Hxa]; [rewrite HA, Hnda; reflexivity|].
    destruct (decide (x = b)) as [->|Hxb]; [rewrite HB, Hndb; reflexivity|].
    destruct (decide (Some x = root_of lr)) as [Hxr|Hxr].
    + destruct (nodes s !! x) as [ndx|] eqn:Hndx.
      * rewrite (Hx x ndx (eq_sym Hxr) Hndx). reflexivity.
      * symmetry in Hxr. apply root_of_in in Hxr.
        destruct (heap_ok_dom _ _ _ _ Hlr Hxr) as (? & ?). congruence.
    + rewrite Hother by assumption. reflexivity.
Qed.


Lemma Zip_node (s : avlTree) l a hc r c :
  Zip (T l a hc r) c s ->
  exists nd, nodes s !! a = Some nd /\ left nd = root_of l /\ right nd = root_of r
             /\ parent nd = hole_par c /\ heightCache nd = hc.
Proof. intros (_ & _ & (Ha & _) & _). now apply node_at_inv in Ha. Qed.

Lemma Zip_heights (s : avlTree) l a hc r c :
  Zip (T l a hc r) c s ->
  height s (root_of l) = Some (hcache l) /\ height s (root_of r) = Some (hcache r).
Proof. intros (_ & _ & (_ & Hl & Hr) & _). eauto using height_root. Qed.

Lemma balance_spec (s : avlTree) l a hc r c :
  Zip (T l a hc r) c s -> balance s a = Some (hcache l - hcache r).
Proof.
  intros HZ. destruct (Zip_node _ _ _ _ _ _ HZ) as (nd & Hnd & Hl & Hr & _).
  destruct (Zip_heights _ _ _ _ _ _ HZ) as (Hhl & Hhr).
  unfold balance. rewrite Hnd. simpl. rewrite Hl, Hr, Hhl, Hhr. reflexivity.
Qed.

Lemma updateHeight_spec (s : avlTree) l a hc r c :
  Zip (T l a hc r) c s ->
  exists s', updateHeight a s = Some s'
    /\ Zip (T l a (1 + Z.max (hcache l) (hcache r)) r) c s'
    /\ same_payload s s'.
Proof.
  intros HZ. destruct (Zip_node _ _ _ _ _ _ HZ) as (nd & Hnd & Hl & Hr & Hp & Hh).
  destruct (Zip_heights _ _ _ _ _ _ HZ) as (Hhl & Hhr).
  destruct HZ as (Hroot & Hc & (_ & Hlok & Hrok) & Hndp).
  pose proof (NoDup_plug_inv _ _ Hndp) as (Hndt & Hndc & Hdisj).
  simpl in Hndt.
  apply NoDup_app in Hndt as (_ & Hl_dis & Hndt).
  apply NoDup_cons in Hndt as (Ha_nin & _).
  eexists. split; [|split].
  - eapply updateHeight_node; [eassumption| |]; [rewrite Hl|rewrite Hr]; eassumption.
  - split; [exact Hroot|]. simpl. split; [|split; [split; [|split]|]].
    + eapply seg_ok_ext; [|exact Hc]. intros x Hx. apply lk_insert_ne.
      intros ->. eapply Hdisj; [|exact Hx]. simpl. set_solver.
    + unfold node_at. rewrite lookup_insert_eq. simpl. unfold lk. simpl.
      rewrite Hl, Hr, Hp. reflexivity.
    + eapply heap_ok_ext; [|exact Hlok]. intros x Hx. apply lk_insert_ne.
      intros ->. eapply Hl_dis; [exact Hx|]. set_solver.
    + eapply heap_ok_ext; [|exact Hrok]. intros x Hx. apply lk_insert_ne.
      intros ->. auto.
    + eapply NoDup_plug_perm; [|exact Hndp]. reflexivity.
  - intros b. simpl. eapply payload_insert; [eassumption|reflexivity].
Qed.

(** The node [a] hangs directly below the root of [t]. *)
Definition child_of_root (a : nat) (t : shape) : Prop :=
  match t with
  | E => False
  | T l _ _ r => root_of l = Some a \/ root_of r = Some a
  end.

Lemma Zip_child_parent (s : avlTree) a t c :
  Zip t c s -> child_of_root a t ->
  exists nd, nodes s !! a = Some nd /\ parent nd = root_of t.
Proof.
  destruct t as [|l b hc r]; simpl; [tauto|].
  intros (_ & _ & (_ & Hl & Hr) & _) [Ha|Ha].
  - destruct l as [|ll x hx lr]; simpl in *; [discriminate|]. injection Ha as ->.
    destruct Hl as (Hx & _). apply node_at_inv in Hx as (nd & ? & _ & _ & ? & _). eauto.
  - destruct r as [|rl x hx rr]; simpl in *; [discriminate|]. injection Ha as ->.
    destruct Hr as (Hx & _). apply node_at_inv in Hx as (nd & ? & _ & _ & ? & _). eauto.
Qed.

Lemma ht_pos_inv t : 0 < ht t -> exists l a hc r, t = T l a hc r.
Proof. destruct t as [|l a hc r]; simpl; [lia|]. eauto. Qed.

Lemma rebalance_step_spec (s : avlTree) l a hc r c :
  Zip (T l a hc r) c s -> avl l -> avl r -> -2 <= ht l - ht r <= 2 ->
  exists s' t', rebalance_step a s = Some s'
    /\ Zip t' c s' /\ avl t'
    /\ inorder t' = inorder (T l a hc r)
    /\ same_payload s s'
    /\ (-1 <= ht l - ht r <= 1 -> t' = T l a (1 + Z.max (ht l) (ht r)) r)
    /\ Z.max (ht l) (ht r) <= ht t' <= 1 + Z.max (ht l) (ht r)
    /\ (root_of t' = Some a \/ child_of_root a t').
Proof.
  intros HZ Hl Hr Hbal.
  destruct (updateHeight_spec _ _ _ _ _ _ HZ) as (s1 & Hup & HZ1 & Hp1).
  pose proof (balance_spec _ _ _ _ _ _ HZ1) as Hb.
  pose proof (avl_hcache _ Hl) as Hcl. pose proof (avl_hcache _ Hr) as Hcr.
  rewrite Hcl, Hcr in *.
  unfold rebalance_step. rewrite Hup. simpl. rewrite Hb. simpl.
  destruct (decide (ht l - ht r > 1)) as [Hgt|Hgt].
  - (* left heavy *)
    destruct (ht_pos_inv l) as (ll & b & hb & lr & ->); [pose proof (ht_nonneg r); lia|].
    destruct (Zip_node _ _ _ _ _ _ HZ1) as (nd & Hnd & Hndl & _).
    rewrite Hnd. simpl. rewrite Hndl. simpl.
    apply Zip_fill with (f := FL a _ r) in HZ1 as HZl.
    rewrite (balance_spec _ _ _ _ _ _ HZl). simpl.
    simpl in Hl. destruct Hl as (Hll & Hlr & Hhb & Hlbal).
    pose proof (avl_hcache _ Hll) as Hcll. pose proof (avl_hcache _ Hlr) as Hclr.
    rewrite Hcll, Hclr.
    destruct (decide (ht ll - ht lr < 0)) as [Hlt|Hlt].
    + (* double rotation *)
      destruct (ht_pos_inv lr) as (lrl & x & hx & lrr & ->);
        [pose proof (ht_nonneg ll); lia|].
      destruct (rotateLeft_spec _ _ _ _ _ _ _ _ _ HZl) as (s2 & Hrot1 & HZ2 & Hp2).
      change (hole_loc (FL a (1 + Z.max (ht (T ll b hb (T lrl x hx lrr))) (ht r)) r :: c))
        with (LeftP a) in Hrot1.
      rewrite Hrot1. simpl.
      apply Zip_fill in HZ2. simpl in HZ2.
      rewrite (nodeP_hole _ _ _ _ _ _ HZ2). simpl.
      destruct (rotateRight_spec _ _ _ _ _ _ _ _ _ HZ2) as (s3 & Hrot2 & HZ3 & Hp3).
      rewrite Hrot2.
      simpl in Hlr. destruct Hlr as (Hlrl & Hlrr & Hhx & Hxbal).
      pose proof (avl_hcache _ Hlrl) as Hclrl. pose proof (avl_hcache _ Hlrr) as Hclrr.
      simpl in HZ3. rewrite ?Hcll, ?Hclrl, ?Hclrr, ?Hcr in HZ3.
      eexists _, _. split; [reflexivity|]. split; [exact HZ3|].
      simpl in *. pose proof (ht_nonneg ll). pose proof (ht_nonneg lrl).
      pose proof (ht_nonneg lrr). pose proof (ht_nonneg r).
      split; [repeat split; try assumption; lia|].
      split; [inorder_eq|].
      split; [eauto using same_payload_trans|].
      split; [lia|]. split; [lia|]. right. right. reflexivity.
    + destruct (rotateRight_spec _ _ _ _ _ _ _ _ _ HZ1) as (s3 & Hrot2 & HZ3 & Hp3).
      simpl. rewrite (nodeP_hole _ _ _ _ _ _ HZ1). simpl. rewrite Hrot2.
      rewrite ?Hcll, ?Hclr, ?Hcr in HZ3.
      eexists _, _. split; [reflexivity|]. split; [exact HZ3|].
      simpl in *. pose proof (ht_nonneg ll). pose proof (ht_nonneg lr).
      pose proof (ht_nonneg r).
      split; [repeat split; try assumption; lia|].
      split; [inorder_eq|].
      split; [eauto using same_payload_trans|].
      split; [lia|]. split; [lia|]. right. right. reflexivity.
  - destruct (decide (ht l - ht r < -1)) as [Hlt|Hlt].
    + (* right heavy *)
      destruct (ht_pos_inv r) as (rl & b & hb & rr & ->); [pose proof (ht_nonneg l); lia|].
      destruct (Zip_node _ _ _ _ _ _ HZ1) as (nd & Hnd & _ & Hndr & _).
      rewrite Hnd. simpl. rewrite Hndr. simpl.
      apply Zip_fill with (f := FR l a _) in HZ1 as HZr.
      rewrite (balance_spec _ _ _ _ _ _ HZr). simpl.
      simpl in Hr. destruct Hr as (Hrl & Hrr & Hhb & Hrbal).
      pose proof (avl_hcache _ Hrl) as Hcrl. pose proof (avl_hcache _ Hrr) as Hcrr.
      rewrite Hcrl, Hcrr.
      destruct (decide (ht rl - ht rr > 0)) as [Hgt'|Hgt'].
      * destruct (ht_pos_inv rl) as (rll & x & hx & rlr & ->);
          [pose proof (ht_nonneg rr); lia|].
        destruct (rotateRight_spec _ _ _ _ _ _ _ _ _ HZr) as (s2 & Hrot1 & HZ2 & Hp2).
        change (hole_loc (FR l a (1 + Z.max (ht l) (ht (T (T rll x hx rlr) b hb rr))) :: c))
          with (RightP a) in Hrot1.
        rewrite Hrot1. simpl.
        apply Zip_fill in HZ2. simpl in HZ2.
        rewrite (nodeP_hole _ _ _ _ _ _ HZ2). simpl.
        destruct (rotateLeft_spec _ _ _ _ _ _ _ _ _ HZ2) as (s3 & Hrot2 & HZ3 & Hp3).
        rewrite Hrot2.
        simpl in Hrl. destruct Hrl as (Hrll & Hrlr & Hhx & Hxbal).
        pose proof (avl_hcache _ Hrll) as Hcrll. pose proof (avl_hcache _ Hrlr) as Hcrlr.
        simpl in HZ3. rewrite ?Hcl, ?Hcrll, ?Hcrlr, ?Hcrr in HZ3.
        eexists _, _. split; [reflexivity|]. split; [exact HZ3|].
        simpl in *. pose proof (ht_nonneg l). pose proof (ht_nonneg rll).
        pose proof (ht_nonneg rlr). pose proof (ht_nonneg rr).
        split; [repeat split; try assumption; lia|].
        split; [inorder_eq|].
        split; [eauto using same_payload_trans|].
        split; [lia|]. split; [lia|]. right. left. reflexivity.
      * destruct (rotateLeft_spec _ _ _ _ _ _ _ _ _ HZ1) as (s3 & Hrot2 & HZ3 & Hp3).
        simpl. rewrite (nodeP_hole _ _ _ _ _ _ HZ1). simpl. rewrite Hrot2.
        rewrite ?Hcl, ?Hcrl, ?Hcrr in HZ3.
        eexists _, _. split; [reflexivity|]. split; [exact HZ3|].
        simpl in *. pose proof (ht_nonneg l). pose proof (ht_nonneg rl).
        pose proof (ht_nonneg rr).
        split; [repeat split; try assumption; lia|].
        split; [inorder_eq|].
        split; [eauto using same_payload_trans|].
        split; [lia|]. split; [lia|]. right. left. reflexivity.
    + eexists _, _. split; [reflexivity|]. split; [exact HZ1|].
      simpl. split; [repeat split; try assumption; lia|].
      split; [reflexivity|]. split; [assumption|].
      split; [reflexivity|]. split; [lia|]. left. reflexivity.
Qed.


Lemma rebalance_loop_None n (s : avlTree) : rebalance_loop n None s = Some s.
Proof. destruct n; reflexivity. Qed.

(** The loop of [rebalance], from the parent of a subtree whose height
    changed by at most one, up to the root. *)
Lemma rebalance_up c : forall t (s : avlTree) n h0,
  Zip t c s -> avl t -> ctx_avl c h0 -> -1 <= ht t - h0 <= 1 ->
  (2 * length c <= n)%nat ->
  exists s' t', rebalance_loop n (hole_par c) s = Some s'
    /\ Repr t' s' /\ avl t'
    /\ inorder t' = inorder (plug t c)
    /\ same_payload s s'.
Proof.
  induction c as [|f c IH]; intros t s n h0 HZ Havl Hctx Hh Hn.
  - exists s, t. rewrite rebalance_loop_None. simpl.
    repeat split; try assumption; try reflexivity. apply HZ. apply HZ. apply HZ.
  - simpl in Hctx. destruct Hctx as (Hsib & Hhc & Hsb & Hctx).
    apply Zip_fill in HZ.
    destruct n as [|n]; [simpl in Hn; lia|].
    assert (exists l b hc r, fill f t = T l b hc r /\ b = frame_addr f
              /\ hc = frame_hc f /\ avl l /\ avl r
              /\ -2 <= ht l - ht r <= 2
              /\ (-1 <= ht l - ht r <= 1 ->
                  -1 <= 1 + Z.max (ht l) (ht r) - frame_hc f <= 1)
              /\ (~ -1 <= ht l - ht r <= 1 ->
                  0 <= 1 + Z.max (ht l) (ht r) - frame_hc f <= 1))
      as (l & b & hc & r & Hfill & Hb & Hhcf & Hl & Hr & Hbal & Hu1 & Hu2).
    { destruct f as [b hc r|l b hc]; simpl in *; eexists _, _, _, _;
        (split; [reflexivity|]); repeat split; try assumption; lia. }
    rewrite Hfill in HZ.
    destruct (rebalance_step_spec _ _ _ _ _ _ HZ Hl Hr Hbal)
      as (s1 & t1 & Hstep & HZ1 & Havl1 & Hin1 & Hp1 & Hsame & Hht1 & Hpos).
    assert (Hh1 : -1 <= ht t1 - frame_hc f <= 1).
    { destruct (decide (-1 <= ht l - ht r <= 1)) as [Hd|Hd].
      - rewrite (Hsame Hd). simpl. auto.
      - specialize (Hu2 Hd). lia. }
    simpl. change (seg_par (f :: c) None) with (Some (frame_addr f)).
    simpl. rewrite <- Hb, Hstep. simpl.
    destruct Hpos as [Hroot1|Hchild].
    + destruct t1 as [|l1 b1 hc1 r1]; [discriminate|]. injection Hroot1 as ->.
      destruct (Zip_node _ _ _ _ _ _ HZ1) as (nd & Hnd & _ & _ & Hpar & _).
      rewrite Hnd. simpl. rewrite Hpar.
      destruct (IH _ _ n _ HZ1 Havl1 Hctx Hh1) as (s' & t' & Hloop & HR & Havl' & Hin' & Hp');
        [simpl in Hn; lia|].
      exists s', t'. split; [exact Hloop|]. split; [exact HR|]. split; [exact Havl'|].
      split; [|eauto using same_payload_trans].
      change (plug t (f :: c)) with (plug (fill f t) c).
      rewrite Hin', !inorder_plug, Hin1, Hfill. reflexivity.
    + destruct (Zip_child_parent _ _ _ _ HZ1 Hchild) as (nd & Hnd & Hpar).
      rewrite Hnd. simpl. rewrite Hpar.
      destruct t1 as [|l1 b1 hc1 r1]; [contradiction|]. simpl.
      destruct n as [|n]; [simpl in Hn; lia|].
      simpl in Havl1. destruct Havl1 as (Hl1 & Hr1 & Hhc1 & Hbal1).
      destruct (rebalance_step_spec _ _ _ _ _ _ HZ1 Hl1 Hr1 ltac:(lia))
        as (s2 & t2 & Hstep2 & HZ2 & Havl2 & Hin2 & Hp2 & Hsame2 & _ & _).
      rewrite (Hsame2 Hbal1) in *. simpl. rewrite Hstep2. simpl.
      destruct (Zip_node _ _ _ _ _ _ HZ2) as (nd2 & Hnd2 & _ & _ & Hpar2 & _).
      rewrite Hnd2. simpl. rewrite Hpar2.
      assert (Hh2 : -1 <= ht (T l1 b1 (1 + Z.max (ht l1) (ht r1)) r1) - frame_hc f <= 1)
        by (simpl in *; lia).
      destruct (IH _ _ n _ HZ2 Havl2 Hctx Hh2) as (s' & t' & Hloop & HR & Havl' & Hin' & Hp');
        [simpl in Hn; lia|].
      exists s', t'. split; [exact Hloop|]. split; [exact HR|]. split; [exact Havl'|].
      split; [|eauto using same_payload_trans].
      change (plug t (f :: c)) with (plug (fill f t) c).
      rewrite Hin', !inorder_plug, Hfill. simpl in Hin1 |- *. rewrite Hin1.
      reflexivity.
Qed.

Lemma length_ctx_ids c : (length c <= length (ctx_ids c))%nat.
Proof.
  induction c as [|f c IH]; simpl; [lia|]. rewrite length_app. lia.
Qed.

Lemma Zip_fuel t c (s : avlTree) : Zip t c s -> (2 * length c <= fuel s)%nat.
Proof.
  intros (_ & Hc & _ & Hnd). apply NoDup_plug_inv in Hnd as (_ & Hndc & _).
  pose proof (NoDup_length_le_size (nodes s) (ctx_ids c) Hndc) as Hle.
  pose proof (length_ctx_ids c). unfold fuel.
  assert (length (ctx_ids c) <= size (nodes s))%nat; [|lia].
  apply Hle. intros a Ha. eapply seg_ok_dom; eassumption.
Qed.


Lemma Zip_plug c1 : forall t c (s : avlTree),
  Zip (plug t c1) c s <-> Zip t (c1 ++ c) s.
Proof.
  induction c1 as [|f c1 IH]; intros t c s; simpl; [tauto|].
  rewrite IH. symmetry. apply Zip_fill.
Qed.

Lemma Zip_length t c (s : avlTree) :
  Zip t c s -> (length (inorder (plug t c)) <= size (nodes s))%nat.
Proof.
  intros HZ. apply NoDup_length_le_size; [apply HZ|].
  intros a Ha. eapply Zip_dom; eassumption.
Qed.

(** Keys of the nodes, read from the heap. *)
Definition key_at (h : heap) (a : nat) : Z := default 0 (key <$> h !! a).
Definition keys (h : heap) (l : list nat) : list Z := key_at h <$> l.

Lemma key_at_payload (h h' : heap) a :
  payload <$> h' !! a = payload <$> h !! a -> key_at h' a = key_at h a.
Proof.
  unfold key_at. destruct (h' !! a) as [n1|], (h !! a) as [n2|]; simpl;
    try discriminate; [|reflexivity].
  intros [= -> _ _]. reflexivity.
Qed.

Lemma Insert_descend_spec t : forall c (s : avlTree) k fl,
  Zip t c s -> StronglySorted Z.lt (keys (nodes s) (inorder t)) ->
  (length (inorder t) <= fl)%nat ->
  exists res, Insert_descend fl s k (hole_par c) (hole_loc c) (root_of t) = Some res
    /\ match res with
       | inl a => a ∈ inorder t /\ key_at (nodes s) a = k
       | inr (p, np) =>
           exists c1, p = hole_par (c1 ++ c) /\ np = hole_loc (c1 ++ c)
             /\ t = plug E c1
             /\ Forall (fun x => key_at (nodes s) x < k) (before c1)
             /\ Forall (fun x => k < key_at (nodes s) x) (after c1)
       end.
Proof.
  induction t as [|l IHl a hc r IHr]; intros c s k fl HZ Hs Hfl.
  - exists (inr (hole_par c, hole_loc c)). split; [destruct fl; reflexivity|].
    exists []. simpl. repeat split; constructor.
  - destruct fl as [|fl]; [simpl in Hfl; rewrite length_app in Hfl; simpl in Hfl; lia|].
    destruct (Zip_node _ _ _ _ _ _ HZ) as (nd & Hnd & Hl & Hr & _).
    simpl. rewrite Hnd. simpl.
    simpl in Hs. unfold keys in Hs. rewrite fmap_app, fmap_cons in Hs.
    apply StronglySorted_app in Hs as (Hlr & Hsl & Hsr).
    apply StronglySorted_cons in Hsr as (Har & Hsr).
    assert (Hka : key_at (nodes s) a = key nd) by (unfold key_at; now rewrite Hnd).
    simpl in Hfl. rewrite length_app in Hfl. simpl in Hfl.
    destruct (decide (k < key nd)) as [Hlt|Hge].
    + rewrite Hl.
      apply Zip_fill with (f := FL a hc r) in HZ.
      destruct (IHl _ _ k fl HZ Hsl ltac:(lia)) as (res & Hres & Hpost).
      exists res. split; [exact Hres|].
      destruct res as [x|[p np]].
      * destruct Hpost as (Hx & Hkx). split; [set_solver|assumption].
      * destruct Hpost as (c1 & -> & -> & -> & Hb & Ha).
        exists (c1 ++ [FL a hc r]). rewrite <- !app_assoc. simpl.
        split; [reflexivity|]. split; [reflexivity|].
        split; [now rewrite plug_app|].
        rewrite before_app, after_app. simpl. rewrite app_nil_r.
        split; [assumption|]. apply Forall_app. split; [assumption|].
        constructor; [lia|].
        rewrite Forall_fmap in Har. eapply Forall_impl; [exact Har|].
        simpl. intros x Hx. lia.
    + destruct (decide (k > key nd)) as [Hgt|Hle].
      * rewrite Hr.
        apply Zip_fill with (f := FR l a hc) in HZ.
        destruct (IHr _ _ k fl HZ Hsr ltac:(lia)) as (res & Hres & Hpost).
        exists res. split; [exact Hres|].
        destruct res as [x|[p np]].
        -- destruct Hpost as (Hx & Hkx). split; [set_solver|assumption].
        -- destruct Hpost as (c1 & -> & -> & -> & Hb & Ha).
           exists (c1 ++ [FR l a hc]). rewrite <- !app_assoc. simpl.
           split; [reflexivity|]. split; [reflexivity|].
           split; [now rewrite plug_app|].
           rewrite before_app, after_app. simpl. rewrite app_nil_r.
           split; [|assumption]. apply Forall_app. split; [|assumption].
           apply Forall_app. split; [|constructor; [lia|constructor]].
           apply Forall_forall. intros x Hx.
           assert (key_at (nodes s) x < key_at (nodes s) a); [|lia].
           apply Hlr; [|set_solver]. apply list_elem_of_fmap. eauto.
      * exists (inl a). split; [reflexivity|]. split; [set_solver|lia].
Qed.

Lemma avlTree_Insert_spec (s : avlTree) t k :
  Repr t s -> avl t -> StronglySorted Z.lt (keys (nodes s) (inorder t)) ->
  exists n s', avlTree_Insert k s = Some (n, s')
    /\ ((n ∈ inorder t /\ key_at (nodes s) n = k /\ s' = s)
        \/ (nodes s !! n = None
            /\ exists t' l1 l2, Repr t' s' /\ avl t'
                 /\ inorder t = l1 ++ l2 /\ inorder t' = l1 ++ n :: l2
                 /\ Forall (fun x => key_at (nodes s) x < k) l1
                 /\ Forall (fun x => k < key_at (nodes s) x) l2
                 /\ payload <$> nodes s' !! n = Some (k, 0, None)
                 /\ forall b, b <> n ->
                      payload <$> nodes s' !! b = payload <$> nodes s !! b)).
Proof.
  intros HR Havl Hs.
  pose proof (Zip_length _ _ _ HR) as Hlen. simpl in Hlen.
  destruct (Insert_descend_spec t [] s k (fuel s) HR Hs ltac:(unfold fuel; lia))
    as (res & Hres & Hpost).
  unfold avlTree_Insert. simpl in Hres. destruct HR as (Hroot & _ & Hok & Hnd).
  simpl in Hroot. rewrite <- Hroot in Hres. rewrite Hres. simpl.
  destruct res as [a|[p np]].
  - exists a, s. split; [reflexivity|]. left. tauto.
  - destruct Hpost as (c1 & -> & -> & -> & Hb & Ha). rewrite app_nil_r in *.
    set (n := fresh (dom (nodes s))).
    assert (Hfresh : nodes s !! n = None).
    { apply not_elem_of_dom. apply is_fresh. }
    assert (HZ0 : Zip E c1 s).
    { assert (HZ : Zip (plug E c1) [] s) by (split; [|split; [|split]]; auto; exact I).
      apply Zip_plug in HZ. now rewrite app_nil_r in HZ. }
    destruct HZ0 as (Hroot0 & Hseg0 & _ & Hnd0).
    pose proof (NoDup_plug_inv _ _ Hnd0) as (_ & Hndc & _).
    set (nd := mkNode k None None (hole_par c1) 1 0 (None : option V)).
    set (s1 := mkTree (root s) (<[n := nd]> (nodes s))).
    assert (Hnc : n ∉ ctx_ids c1).
    { intros Hin. destruct (seg_ok_dom _ _ _ _ _ Hseg0 Hin) as (? & ?). congruence. }
    assert (Hseg1 : seg_ok (nodes s1) c1 None None).
    { eapply seg_ok_ext; [|exact Hseg0]. intros x Hx. simpl.
      apply lk_insert_ne. intros ->. auto. }
    destruct (store_hole s1 c1 None (Some n) Hroot0 Hseg1 Hndc)
      as (s2 & Hstore & Hroot2 & Hseg2 & Hsame2 & Hpay2).
    fold n. fold nd. fold s1. rewrite Hstore. simpl.
    assert (Hnpar : Some n <> hole_par c1).
    { intros Hp. destruct c1 as [|f c1]; [discriminate|]. injection Hp as Hp.
      apply Hnc. rewrite Hp. simpl. set_solver. }
    assert (HZ2 : Zip (T E n 1 E) c1 s2).
    { split; [exact Hroot2|]. split; [exact Hseg2|]. split.
      - simpl. split; [|tauto]. unfold node_at. rewrite Hsame2 by assumption.
        unfold s1. simpl. rewrite lookup_insert_eq. reflexivity.
      - rewrite inorder_plug in *. simpl in *.
        apply NoDup_app in Hnd0 as (Hnb & Hba & Hna).
        apply NoDup_app. split; [assumption|]. split.
        + intros x Hx. rewrite elem_of_cons. intros [->|Hxa]; [|eapply Hba; eassumption].
          apply Hnc. apply ctx_ids_before_after. auto.
        + apply NoDup_cons. split; [|assumption].
          intros Hn. apply Hnc. apply ctx_ids_before_after. auto. }
    assert (Hctx : ctx_avl c1 0).
    { apply avl_plug in Havl. apply Havl. }
    assert (Havln : avl (T E n 1 E)) by (simpl; repeat split; lia).
    destruct (rebalance_up c1 _ _ (fuel s2) 0 HZ2 Havln Hctx
                ltac:(simpl; lia) (Zip_fuel _ _ _ HZ2))
      as (s' & t' & Hloop & HR' & Havl' & Hin' & Hp').
    unfold rebalance. rewrite Hloop. simpl.
    exists n, s'. split; [reflexivity|]. right. split; [assumption|].
    exists t', (before c1), (after c1).
    split; [assumption|]. split; [assumption|].
    split; [now rewrite inorder_plug|]. split; [now rewrite Hin', inorder_plug|].
    split; [assumption|]. split; [assumption|].
    split.
    + rewrite Hp', Hpay2. unfold s1. simpl. rewrite lookup_insert_eq. reflexivity.
    + intros b Hbn. rewrite Hp', Hpay2. unfold s1. simpl.
      now rewrite lookup_insert_ne.
Qed.

End Ops.

Section Delete.
Context {V : Type} `{EqDecision V}.
Abbreviation heap := (gmap nat (avlNode (V:=V))).
Abbreviation avlNode := (avlNode (V:=V)).
Abbreviation avlTree := (avlTree (V:=V)).

Lemma Zip_ext t c (s s' : avlTree) :
  Zip t c s -> root s' = root s ->
  (forall x, x ∈ inorder (plug t c) -> lk <$> nodes s' !! x = lk <$> nodes s !! x) ->
  Zip t c s'.
Proof.
  intros (Hroot & Hc & Ht & Hnd) Hr Hext.
  split; [congruence|]. split; [|split; [|assumption]].
  - eapply seg_ok_ext; [|exact Hc]. intros x Hx. apply Hext.
    rewrite inorder_plug, !elem_of_app. apply ctx_ids_before_after in Hx. tauto.
  - eapply heap_ok_ext; [|exact Ht]. intros x Hx. apply Hext.
    rewrite inorder_plug, !elem_of_app. tauto.
Qed.

(** Every node of a tree is the root of a subtree in a context. *)
Lemma tree_focus t a :
  a ∈ inorder t -> exists l hc r c, t = plug (T l a hc r) c.
Proof.
  induction t as [|l IHl b hc r IHr]; simpl; [set_solver|].
  rewrite elem_of_app, elem_of_cons. intros [Hl|[->|Hr]].
  - destruct (IHl Hl) as (l' & hc' & r' & c & ->).
    exists l', hc', r', (c ++ [FL b hc r]). now rewrite plug_app.
  - exists l, hc, r, []. reflexivity.
  - destruct (IHr Hr) as (l' & hc' & r' & c & ->).
    exists l', hc', r', (c ++ [FR l b hc]). now rewrite plug_app.
Qed.

Lemma NoDup_remove_mid {A} (b l1 l2 a : list A) x :
  NoDup (b ++ (l1 ++ x :: l2) ++ a) -> NoDup (b ++ (l1 ++ l2) ++ a).
Proof.
  intros Hnd.
  assert (Hp : b ++ (l1 ++ x :: l2) ++ a ≡ₚ x :: (b ++ (l1 ++ l2) ++ a)).
  { replace (b ++ (l1 ++ x :: l2) ++ a) with ((b ++ l1) ++ x :: (l2 ++ a))
      by (rewrite <- !app_assoc; simpl; reflexivity).
    replace (b ++ (l1 ++ l2) ++ a) with ((b ++ l1) ++ (l2 ++ a))
      by (rewrite <- !app_assoc; reflexivity).
    symmetry. apply Permutation_middle. }
  rewrite Hp in Hnd. now apply NoDup_cons in Hnd.
Qed.

Lemma hole_par_in c x : hole_par c = Some x -> x ∈ ctx_ids c.
Proof. destruct c as [|f c]; simpl; [discriminate|]. intros [= <-]. set_solver. Qed.

(** Unlinking a node with at most one child. *)
Lemma Delete_unlink_spec (s : avlTree) l n hc r c :
  Zip (T l n hc r) c s -> l = E \/ r = E ->
  exists s', Delete_unlink n (hole_loc c) s = Some s'
    /\ Zip (match l with E => r | _ => l end) c s'
    /\ same_payload s s'
    /\ nodes s' !! n = nodes s !! n.
Proof.
  intros HZ Hone.
  destruct (Zip_node _ _ _ _ _ _ HZ) as (nd & Hnd & Hl & Hr & Hp & Hh).
  destruct HZ as (Hroot & Hc & (_ & Hlok & Hrok) & Hndp).
  pose proof (NoDup_plug_inv _ _ Hndp) as (Hndt & Hndc & Hdisj).
  assert (Hnc : n ∉ ctx_ids c) by (apply Hdisj; simpl; set_solver).
  assert (Hnpar : Some n <> hole_par c).
  { intros Heq. symmetry in Heq. apply hole_par_in in Heq. auto. }
  unfold Delete_unlink. rewrite Hnd. simpl. rewrite Hl, Hr.
  assert (Hsub : forall t1, (t1 = l /\ r = E) \/ (t1 = r /\ l = E) ->
            NoDup (inorder (plug t1 c))).
  { intros t1 Ht1. rewrite inorder_plug in *. simpl in Hndp.
    destruct Ht1 as [(-> & ->)|(-> & ->)]; simpl in *.
    - apply (NoDup_remove_mid _ (inorder l) [] _ n) in Hndp.
      now rewrite app_nil_r in *.
    - now apply (NoDup_remove_mid _ [] (inorder r) _ n) in Hndp. }
  assert (Hchild : forall t1, (t1 = l /\ r = E) \/ (t1 = r /\ l = E) ->
            heap_ok (nodes s) (Some n) t1 ->
            exists s', (t ← store (hole_loc c) (root_of t1) s;
                        match root_of t1 with
                        | Some c0 => upd c0 (set_parent (hole_par c)) t
                        | None => Some t
                        end) = Some s'
              /\ Zip t1 c s' /\ same_payload s s' /\ nodes s' !! n = nodes s !! n).
  { intros t1 Ht1 Hok1. specialize (Hsub t1 Ht1).
    assert (Hin1 : forall x, x ∈ inorder t1 -> x ∈ inorder (T l n hc r) /\ x <> n).
    { intros x Hx. simpl in Hndt.
      destruct Ht1 as [(-> & ->)|(-> & ->)]; simpl in *.
      - split; [set_solver|]. nodup_ne_with Hndt.
      - split; [set_solver|]. nodup_ne_with Hndt. }
    destruct (store_hole s c (Some n) (root_of t1) Hroot Hc Hndc)
      as (s1 & Hstore & Hroot1 & Hseg1 & Hsame1 & Hpay1).
    rewrite Hstore. simpl.
    destruct t1 as [|l1 x hx r1]; simpl.
    - exists s1. split; [reflexivity|]. split; [|split; [exact Hpay1|now apply Hsame1]].
      split; [exact Hroot1|]. split; [exact Hseg1|]. split; [exact I|exact Hsub].
    - destruct (Hin1 x ltac:(simpl; set_solver)) as (Hxt & Hxn).
      assert (Hxc : x ∉ ctx_ids c) by auto.
      assert (Hxpar : Some x <> hole_par c).
      { intros Heq. symmetry in Heq. apply hole_par_in in Heq. auto. }
      destruct Hok1 as (Hx & Hl1 & Hr1).
      apply node_at_inv in Hx as (ndx & Hndx & Hxl & Hxr & Hxp & Hxh).
      erewrite upd_Some by (rewrite Hsame1 by assumption; eassumption).
      eexists. split; [reflexivity|]. simpl.
      split; [|split].
      + split; [exact Hroot1|]. simpl. split; [|split; [|exact Hsub]].
        * eapply seg_ok_ext; [|exact Hseg1]. intros y Hy. apply lk_insert_ne.
          intros ->. auto.
        * apply NoDup_plug_inv in Hsub as (Hnd1 & _ & _).
          apply (heap_ok_reparent (nodes s) _ (Some n) (hole_par c) (T l1 x hx r1));
            [exact Hnd1| | |simpl; split; [|tauto]].
          -- intros y Hy Hyx. simpl in Hyx.
             rewrite lk_insert_ne by congruence.
             rewrite Hsame1; [reflexivity|].
             intros Heq. symmetry in Heq. apply hole_par_in in Heq.
             eapply Hdisj; [|exact Heq]. now apply Hin1.
          -- intros y l0 r0 p0 hc0 [= <-] Hlk. rewrite lookup_insert_eq. simpl.
             rewrite Hndx in Hlk. simpl in Hlk. injection Hlk as <- <- _ <-.
             reflexivity.
          -- unfold node_at. rewrite Hndx. simpl. unfold lk.
             rewrite Hxl, Hxr, Hxp, Hxh. reflexivity.
      + eapply same_payload_trans; [exact Hpay1|]. intros b. simpl.
        eapply payload_insert; [rewrite Hsame1 by assumption; eassumption|reflexivity].
      + simpl. rewrite lookup_insert_ne by congruence. now apply Hsame1. }
  destruct Hone as [->| ->].
  - simpl in *. destruct (Hchild r (or_intror (conj eq_refl eq_refl)) Hrok)
      as (s' & Hrun & HZ' & Hpay & Hn).
    exists s'. split; [|split; [exact HZ'|split; [assumption|congruence]]]. rewrite <- Hrun, Hp. reflexivity.
  - destruct l as [|ll x hx lr].
    + simpl in *. destruct (Hchild E (or_intror (conj eq_refl eq_refl)) Hrok)
        as (s' & Hrun & HZ' & Hpay & Hn).
      exists s'. split; [|split; [exact HZ'|split; [assumption|congruence]]]. rewrite <- Hrun. reflexivity.
    + destruct (Hchild (T ll x hx lr) (or_introl (conj eq_refl eq_refl)) Hlok)
        as (s' & Hrun & HZ' & Hpay & Hn).
      exists s'. split; [|split; [exact HZ'|split; [assumption|congruence]]]. rewrite <- Hrun, Hp. reflexivity.
Qed.


Lemma Zip_ctx_size t c (s : avlTree) : Zip t c s -> (length c <= size (nodes s))%nat.
Proof.
  intros (_ & Hc & _ & Hnd). apply NoDup_plug_inv in Hnd as (_ & Hndc & _).
  pose proof (NoDup_length_le_size (nodes s) (ctx_ids c) Hndc) as Hle.
  pose proof (length_ctx_ids c).
  assert (length (ctx_ids c) <= size (nodes s))%nat; [|lia].
  apply Hle. intros a Ha. eapply seg_ok_dom; eassumption.
Qed.

Lemma rebalance_loop_S n a (s : avlTree) :
  rebalance_loop (S n) (Some a) s
  = (t ← rebalance_step a s; nd ← nodes t !! a; rebalance_loop n (parent nd) t).
Proof. reflexivity. Qed.

(** [rebalance] started at a node that is no longer in the tree: the
    first iteration only refreshes the cached height of that node. *)
Lemma rebalance_detached (s : avlTree) t c n nd h0 hl hr :
  Zip t c s -> n ∉ inorder (plug t c) ->
  nodes s !! n = Some nd -> parent nd = hole_par c ->
  left nd <> Some n -> right nd <> Some n ->
  height s (left nd) = Some hl -> height s (right nd) = Some hr ->
  -1 <= hl - hr <= 1 ->
  avl t -> ctx_avl c h0 -> -1 <= ht t - h0 <= 1 ->
  exists s' t', rebalance (Some n) s = Some s'
    /\ Repr t' s' /\ avl t'
    /\ inorder t' = inorder (plug t c)
    /\ same_payload s s'.
Proof.
  intros HZ Hnin Hnd Hpar Hln Hrn Hhl Hhr Hb Havl Hctx Hh.
  unfold rebalance, fuel.
  replace (2 * size (nodes s) + 2)%nat with (S (2 * size (nodes s) + 1)) by lia.
  rewrite rebalance_loop_S. unfold rebalance_step.
  rewrite (updateHeight_node _ _ _ _ _ Hnd Hhl Hhr). simpl.
  set (nd1 := set_heightCache (1 + Z.max hl hr) nd).
  set (s1 := mkTree (root s) (<[n := nd1]> (nodes s))).
  assert (Hh1 : forall p, p <> Some n -> height s1 p = height s p).
  { intros p Hp. apply height_ext. intros y ->. simpl.
    apply lk_insert_ne. congruence. }
  unfold balance. simpl. rewrite lookup_insert_eq. simpl.
  change (height s1 (left nd) ≫= (λ l : Z, height s1 (right nd) ≫= λ r : Z, Some (l - r)))
    with (height s1 (left nd) ≫= (λ l : Z, height s1 (right nd) ≫= λ r : Z, Some (l - r))).
  fold s1. rewrite !Hh1 by assumption. rewrite Hhl, Hhr. simpl.
  rewrite decide_False by lia. rewrite decide_False by lia. simpl.
  rewrite lookup_insert_eq. simpl. rewrite Hpar.
  assert (HZ1 : Zip t c s1).
  { eapply Zip_ext; [exact HZ|reflexivity|]. intros x Hx. simpl.
    apply lk_insert_ne. intros ->. auto. }
  destruct (rebalance_up c t s1 (2 * size (nodes s) + 1) h0 HZ1 Havl Hctx Hh)
    as (s' & t' & Hloop & HR & Havl' & Hin & Hp').
  { pose proof (Zip_ctx_size _ _ _ HZ). lia. }
  exists s', t'. split; [exact Hloop|]. split; [exact HR|]. split; [exact Havl'|].
  split; [exact Hin|]. eapply same_payload_trans; [|exact Hp'].
  intros b. simpl. eapply payload_insert; [eassumption|reflexivity].
Qed.


Definition is_FL (f : frame) : Prop :=
  match f with
  | FL _ _ _ => True
  | FR _ _ _ => False
  end.

(** The leftmost node of a non-empty tree, below a spine of left frames. *)
Lemma leftmost_focus t :
  t <> E -> exists succ hs sr cin, t = plug (T E succ hs sr) cin /\ Forall is_FL cin.
Proof.
  induction t as [|l IHl a hc r _]; [congruence|]. intros _.
  destruct l as [|ll b hb lr].
  - exists a, hc, r, []. split; [reflexivity|constructor].
  - destruct IHl as (succ & hs & sr & cin & Heq & Hfl); [discriminate|].
    exists succ, hs, sr, (cin ++ [FL a hc r]). rewrite plug_app, <- Heq.
    split; [reflexivity|]. apply Forall_app. split; [assumption|].
    repeat constructor.
Qed.

Lemma hole_loc_FL_app cin c :
  cin <> [] -> hole_loc (cin ++ c) = hole_loc cin.
Proof. destruct cin; [congruence|reflexivity]. Qed.

Lemma root_of_plug c : forall t, root_of (plug t c) = top_ptr c (root_of t).
Proof.
  induction c as [|f c IH]; intros t; simpl; [reflexivity|].
  rewrite IH. now rewrite root_of_fill.
Qed.

Lemma top_ptr_Some c : forall x, exists y, top_ptr c (Some x) = Some y.
Proof. induction c as [|f c IH]; intros x; simpl; eauto. Qed.

Lemma Delete_succ_spec cin : forall c (s : avlTree) succ hs sr fl x,
  Forall is_FL cin ->
  Zip (T E succ hs sr) (cin ++ c) s ->
  top_ptr cin (Some succ) = Some x ->
  (length cin <= fl)%nat ->
  Delete_succ fl s (hole_loc c) x = Some (hole_loc (cin ++ c), succ).
Proof.
  induction cin as [|f cin IH] using rev_ind; intros c s succ hs sr fl x Hfl HZ Hx Hlen.
  - simpl in *. injection Hx as <-.
    destruct (Zip_node _ _ _ _ _ _ HZ) as (nd & Hnd & Hl & _).
    destruct fl; simpl; rewrite Hnd; simpl; rewrite Hl; reflexivity.
  - apply Forall_app in Hfl as (Hfl & Hf). inversion Hf as [|? ? Hf1 _]; subst.
    destruct f as [a hc r|]; [|contradiction].
    rewrite top_ptr_app in Hx. simpl in Hx. injection Hx as <-.
    rewrite <- app_assoc in HZ |- *. simpl in HZ |- *.
    pose proof HZ as HZ'. apply Zip_plug in HZ'.
    pose proof (root_of_plug cin (T E succ hs sr)) as Hroot. simpl in Hroot.
    apply Zip_fill in HZ'. simpl in HZ'.
    destruct (Zip_node _ _ _ _ _ _ HZ') as (nd & Hnd & Hl & _).
    rewrite length_app in Hlen. simpl in Hlen.
    destruct fl as [|fl]; [lia|].
    simpl. rewrite Hnd. simpl. rewrite Hl, Hroot.
    destruct (top_ptr_Some cin succ) as (y & Hy). rewrite Hy.
    apply (IH (FL a hc r :: c) s succ hs sr fl y Hfl HZ Hy). lia.
Qed.


Ltac exec_upd :=
  erewrite upd_Some by (simpl; hlook; first [eassumption | reflexivity]); simpl.

(** The transposition when the successor is the right child of the node. *)
Lemma Delete_transpose_adjacent (s : avlTree) ll L hl lr N hc S hs sr c :
  Zip (T E S hs sr) (FR (T ll L hl lr) N hc :: c) s ->
  exists s', Delete_transpose N (hole_loc c) s = Some (RightP S, s')
    /\ Zip (T E N hs sr) (FR (T ll L hl lr) S hc :: c) s'
    /\ same_payload s s'.
Proof.
  intros HZ. set (l := T ll L hl lr) in *.
  pose proof (Delete_succ_spec [] _ s S hs sr (fuel s) S (Forall_nil_2 _) HZ eq_refl
                ltac:(simpl; lia)) as Hsucc.
  simpl in Hsucc.
  pose proof HZ as HZf. apply Zip_fill in HZf. simpl in HZf.
  destruct HZf as (Hroot & Hc & (HN & Hl & HS & _ & Hsr) & Hnd).
  pose proof (NoDup_plug_inv _ _ Hnd) as (Hndt & Hndc & Hdisj).
  simpl in Hroot.
  apply node_at_inv in HN as (ndN & HndN & HNl & HNr & HNp & HNh).
  apply node_at_inv in HS as (ndS & HndS & HSl & HSr & HSp & HSh).
  pose proof Hl as Hl'. unfold l in Hl'. simpl in Hl'. destruct Hl' as (HL & Hll & Hlr).
  apply node_at_inv in HL as (ndL & HndL & HLl & HLr & HLp & HLh).
  simpl in HNl, HNr, HSl.
  assert (Hnopar : forall x, x ∈ inorder (T l N hc (T E S hs sr)) -> Some x <> hole_par c).
  { intros x Hx Heq. symmetry in Heq. apply hole_par_in in Heq. eapply Hdisj; eassumption. }
  assert (HNpar : Some N <> hole_par c) by (apply Hnopar; simpl; solve_in).
  assert (HSpar : Some S <> hole_par c) by (apply Hnopar; simpl; solve_in).
  assert (HLpar : Some L <> hole_par c) by (apply Hnopar; unfold l; simpl; solve_in).
  unfold l in Hndt. simpl in Hndt.
  assert (HNS : N <> S) by nodup_ne_with Hndt.
  assert (HNL : N <> L) by nodup_ne_with Hndt.
  assert (HSL : S <> L) by nodup_ne_with Hndt.
  destruct (store_hole s c (Some N) (Some S) Hroot Hc Hndc)
    as (s1 & Hstore & Hroot1 & Hseg1 & Hsame1 & Hpay1).
  set (N' := mkNode (key ndN) None (root_of sr) (Some S) hs (high ndN) (value ndN)).
  set (S' := mkNode (key ndS) (Some L) (Some N) (hole_par c) hc (high ndS) (value ndS)).
  assert (exists h',
    Delete_transpose N (hole_loc c) s = Some (RightP S, mkTree (root s1) h')
    /\ h' !! N = Some N' /\ h' !! S = Some S'
    /\ h' !! L = Some (set_parent (Some S) ndL)
    /\ (forall X ndX, root_of sr = Some X -> nodes s !! X = Some ndX ->
                      h' !! X = Some (set_parent (Some N) ndX))
    /\ (forall x, x <> N -> x <> S -> x <> L -> Some x <> root_of sr ->
                  h' !! x = nodes s1 !! x))
    as (h' & Hrun & HN' & HS' & HL' & HX' & Hoth).
  { unfold Delete_transpose. rewrite HndN. simpl. rewrite HNr. simpl.
    rewrite Hsucc. simpl. rewrite HndS. simpl. rewrite Hstore. simpl.
    rewrite (Hsame1 N HNpar), HndN. simpl. rewrite HNr.
    rewrite decide_True by reflexivity. simpl.
    assert (H1S : nodes s1 !! S = Some ndS) by (rewrite Hsame1; assumption).
    assert (H1N : nodes s1 !! N = Some ndN) by (rewrite Hsame1; assumption).
    assert (H1L : nodes s1 !! L = Some ndL) by (rewrite Hsame1; assumption).
    do 5 exec_upd. hlook. simpl. do 2 exec_upd. hlook. simpl.
    rewrite HNl. exec_upd. hlook. simpl. exec_upd. hlook. simpl.
    destruct sr as [|srl X hx srr]; simpl in *.
    - rewrite HSr. eexists. split; [reflexivity|].
      split; [hlook; unfold N'; node_eq|].
      split; [hlook; unfold S'; node_eq|].
      split; [hlook; reflexivity|].
      split; [intros X ndX [=]|].
      intros x HxN HxS HxL _. hlook. reflexivity.
    - assert (HXN : X <> N) by nodup_ne_with Hndt.
      assert (HXS : X <> S) by nodup_ne_with Hndt.
      assert (HXL : X <> L) by nodup_ne_with Hndt.
      destruct Hsr as (HX & _).
      apply node_at_inv in HX as (ndX & HndX & _).
      assert (HXpar : Some X <> hole_par c) by (apply Hnopar; simpl; solve_in).
      assert (H1X : nodes s1 !! X = Some ndX) by (rewrite Hsame1; assumption).
      rewrite HSr. exec_upd.
      eexists. split; [reflexivity|].
      split; [hlook; unfold N'; node_eq|].
      split; [hlook; unfold S'; node_eq|].
      split; [hlook; reflexivity|].
      split; [intros X0 ndX0 [= <-] HX0; hlook; congruence|].
      intros x HxN HxS HxL HxX. hlook. reflexivity. }
  exists (mkTree (root s1) h'). split; [exact Hrun|].
  assert (Hlk : forall x, x ∈ ctx_ids c -> lk <$> h' !! x = lk <$> nodes s1 !! x).
  { intros x Hx. rewrite Hoth; [reflexivity| | | |].
    - intros ->. eapply Hdisj; [|exact Hx]. simpl. solve_in.
    - intros ->. eapply Hdisj; [|exact Hx]. simpl. solve_in.
    - intros ->. eapply Hdisj; [|exact Hx]. unfold l. simpl. solve_in.
    - intros Hr. symmetry in Hr. apply root_of_in in Hr.
      eapply Hdisj; [|exact Hx]. simpl. solve_in. }
  assert (Hsub : forall x, x ∈ inorder ll ++ inorder lr -> h' !! x = nodes s !! x).
  { intros x Hx. apply elem_of_app in Hx.
    rewrite Hoth; [apply Hsame1| | | |].
    - apply Hnopar. unfold l. simpl. destruct Hx; solve_in.
    - destruct Hx; nodup_ne_with Hndt.
    - destruct Hx; nodup_ne_with Hndt.
    - destruct Hx; nodup_ne_with Hndt.
    - intros Hr. symmetry in Hr. apply root_of_in in Hr.
      destruct Hx; nodup_absurd Hndt x. }
  split.
  - split; [exact Hroot1|]. simpl. split; [split; [split|]|split].
    + unfold node_at. rewrite HS'. reflexivity.
    + unfold l. simpl. split; [|split].
      * unfold node_at. rewrite HL'. simpl. unfold lk. simpl.
        rewrite HLl, HLr, HLh. reflexivity.
      * eapply heap_ok_ext; [|exact Hll]. intros x Hx.
        rewrite Hsub by solve_in. reflexivity.
      * eapply heap_ok_ext; [|exact Hlr]. intros x Hx.
        rewrite Hsub by solve_in. reflexivity.
    + eapply seg_ok_ext; [|exact Hseg1]. exact Hlk.
    + split; [|split; [exact I|]].
      * unfold node_at. rewrite HN'. reflexivity.
      * apply (heap_ok_reparent (nodes s) _ (Some S) (Some N) sr); [| | |exact Hsr].
        -- apply NoDup_app_r in Hndt. apply NoDup_cons_tl in Hndt.
           apply NoDup_cons_tl in Hndt. exact Hndt.
        -- intros x Hx Hxr.
           rewrite Hoth; [rewrite Hsame1; [reflexivity|]| | | |assumption].
           ++ apply Hnopar. simpl. solve_in.
           ++ nodup_ne_with Hndt.
           ++ nodup_ne_with Hndt.
           ++ nodup_ne_with Hndt.
        -- intros x l0 r0 p0 hc0 Hxr Hlk0.
           destruct (nodes s !! x) as [ndX|] eqn:HndX; [|discriminate].
           rewrite (HX' x ndX Hxr HndX). simpl in *.
           injection Hlk0 as <- <- _ <-. reflexivity.
    + change (plug (T E N hs sr) (FR l S hc :: c))
        with (plug (T l S hc (T E N hs sr)) c).
      eapply NoDup_plug_perm; [|exact Hnd]. simpl.
      apply Permutation_app_head. apply perm_swap.
  - eapply same_payload_trans; [exact Hpay1|]. intros x. simpl.
    destruct (decide (x = N)) as [->|HxN];
      [rewrite HN', (Hsame1 N HNpar), HndN; reflexivity|].
    destruct (decide (x = S)) as [->|HxS];
      [rewrite HS', (Hsame1 S HSpar), HndS; reflexivity|].
    destruct (decide (x = L)) as [->|HxL];
      [rewrite HL', (Hsame1 L HLpar), HndL; reflexivity|].
    destruct (decide (Some x = root_of sr)) as [Hxr|Hxr].
    + symmetry in Hxr. pose proof (root_of_in _ _ Hxr) as Hxin.
      destruct (heap_ok_dom _ _ _ _ Hsr Hxin) as (ndX & HndX).
      rewrite (HX' x ndX Hxr HndX).
      rewrite Hsame1 by (apply Hnopar; simpl; solve_in).
      rewrite HndX. reflexivity.
    + rewrite Hoth by assumption. reflexivity.
Qed.


Lemma before_FL c : Forall is_FL c -> before c = [].
Proof.
  induction 1 as [|f c Hf _ IH]; [reflexivity|].
  destruct f; [exact IH|contradiction].
Qed.

Lemma seg_ok_top_node (h : heap) c : forall q top R,
  c <> [] -> seg_ok h c q top -> top_ptr c q = Some R ->
  R ∈ ctx_ids c
  /\ exists nd, h !! R = Some nd /\ parent nd = top.
Proof.
  induction c as [|f c IH]; intros q top R Hne; [congruence|].
  simpl. intros (Hf & Hc) HR.
  destruct c as [|g c].
  - simpl in HR. injection HR as <-. split; [set_solver|].
    destruct f as [a hc r|l a hc]; simpl in *; destruct Hf as (Ha & _);
      apply node_at_inv in Ha as (nd & ? & _ & _ & ? & _); eauto.
  - destruct (IH _ _ _ ltac:(discriminate) Hc HR) as (Hin & Hnd).
    split; [|exact Hnd]. set_solver.
Qed.

Lemma seg_ok_set_hole_FL (h h' : heap) a hc r c q q' top :
  seg_ok h (FL a hc r :: c) q top -> NoDup (ctx_ids (FL a hc r :: c)) ->
  (forall x, x ∈ ctx_ids (FL a hc r :: c) -> x <> a -> lk <$> h' !! x = lk <$> h !! x) ->
  (forall l0 r0 p0 hc0, lk <$> h !! a = Some (l0, r0, p0, hc0) ->
                        lk <$> h' !! a = Some (q', r0, p0, hc0)) ->
  seg_ok h' (FL a hc r :: c) q' top.
Proof.
  simpl. intros ((Ha & Hr) & Hc) Hnd Hoth Hhole.
  apply NoDup_cons in Hnd as (Hnin & Hnd).
  split; [split|].
  - eapply Hhole. exact Ha.
  - eapply heap_ok_ext; [|exact Hr]. intros x Hx. apply Hoth; [set_solver|].
    intros ->. apply Hnin. set_solver.
  - eapply seg_ok_ext; [|exact Hc]. intros x Hx. apply Hoth; [set_solver|].
    intros ->. apply Hnin. set_solver.
Qed.

Lemma seg_ok_set_top (h h' : heap) c : forall q top top' R,
  c <> [] -> top_ptr c q = Some R -> NoDup (ctx_ids c) ->
  seg_ok h c q top ->
  (forall x, x ∈ ctx_ids c -> x <> R -> lk <$> h' !! x = lk <$> h !! x) ->
  (forall l0 r0 p0 hc0, lk <$> h !! R = Some (l0, r0, p0, hc0) ->
                        lk <$> h' !! R = Some (l0, r0, top', hc0)) ->
  seg_ok h' c q top'.
Proof.
  induction c as [|f c IH]; intros q top top' R Hne HR Hnd Hok Hoth Htop;
    [congruence|].
  simpl in Hok. destruct Hok as (Hf & Hc). simpl in Hnd.
  apply NoDup_cons in Hnd as (Hnin & Hnd).
  destruct c as [|g c].
  - simpl in HR. injection HR as <-. simpl. split; [|exact I].
    destruct f as [a hc r|l a hc]; simpl in *; destruct Hf as (Ha & Hs); split.
    + eapply Htop. exact Ha.
    + eapply heap_ok_ext; [|exact Hs]. intros x Hx. apply Hoth; [set_solver|].
      intros ->. apply Hnin. set_solver.
    + eapply Htop. exact Ha.
    + eapply heap_ok_ext; [|exact Hs]. intros x Hx. apply Hoth; [set_solver|].
      intros ->. apply Hnin. set_solver.
  - assert (HRin : R ∈ ctx_ids (g :: c)).
    { eapply seg_ok_top_node; [discriminate|exact Hc|exact HR]. }
    assert (HfR : frame_addr f <> R) by (intros Heq; apply Hnin; rewrite Heq; set_solver).
    split.
    + change (seg_par (g :: c) top') with (seg_par (g :: c) top).
      eapply frame_ok_ext; [|exact Hf]. intros x Hx. apply Hoth.
      * simpl. destruct Hx as [->|Hx]; set_solver.
      * destruct Hx as [->|Hx]; [assumption|]. intros ->. nodup_absurd Hnd R.
    + eapply (IH _ top top' R); try eassumption; [discriminate| |].
      * apply NoDup_app_r in Hnd. exact Hnd.
      * intros x Hx HxR. apply Hoth; [|assumption]. simpl. set_solver.
Qed.


Lemma NoDup_swap_mid {A} (a b : list A) x y :
  NoDup (a ++ x :: y :: b) -> NoDup (a ++ y :: x :: b).
Proof.
  intros Hnd. eapply NoDup_Permutation_proper; [|exact Hnd].
  apply Permutation_app_head. apply perm_swap.
Qed.

(** The transposition when the successor lies deeper in the right
    subtree, below the left frames [FL Q hq rq :: cin1]. *)
Lemma Delete_transpose_deep (s : avlTree) ll L hl lr N hc S hs sr c Q hq rq cin1 :
  Forall is_FL cin1 ->
  Zip (T E S hs sr) ((FL Q hq rq :: cin1) ++ FR (T ll L hl lr) N hc :: c) s ->
  exists s', Delete_transpose N (hole_loc c) s = Some (LeftP Q, s')
    /\ Zip (T E N hs sr) ((FL Q hq rq :: cin1) ++ FR (T ll L hl lr) S hc :: c) s'
    /\ same_payload s s'.
Proof.
  intros Hfl1 HZ. set (l := T ll L hl lr) in *.
  remember (FL Q hq rq :: cin1) as cin eqn:Ecin.
  assert (Hfl : Forall is_FL cin) by (rewrite Ecin; constructor; [exact I|assumption]).
  destruct (top_ptr_Some cin1 Q) as (R & HR).
  assert (HRx : forall x, top_ptr cin (Some x) = Some R) by (intros x; rewrite Ecin; exact HR).
  assert (Hhl : forall c0, hole_loc (cin ++ c0) = LeftP Q) by (intros c0; rewrite Ecin; reflexivity).
  assert (Hhp : forall c0, hole_par (cin ++ c0) = Some Q) by (intros c0; rewrite Ecin; reflexivity).
  pose proof (Zip_ctx_size _ _ _ HZ) as Hsize. rewrite length_app in Hsize.
  pose proof (Delete_succ_spec cin (FR l N hc :: c) s S hs sr (fuel s) R Hfl HZ (HRx S)
                ltac:(unfold fuel; lia)) as Hsucc.
  change (hole_loc (FR l N hc :: c)) with (RightP N) in Hsucc.
  rewrite Hhl in Hsucc.
  pose proof HZ as HZf. apply Zip_plug in HZf. apply Zip_fill in HZf.
  change (fill (FR l N hc) (plug (T E S hs sr) cin))
    with (T l N hc (plug (T E S hs sr) cin)) in HZf.
  destruct HZf as (Hroot & Hc & _ & Hnd).
  pose proof (NoDup_plug_inv _ _ Hnd) as (Hndt & Hndc & Hdisj).
  change (root_of (T l N hc (plug (T E S hs sr) cin))) with (Some N) in Hroot, Hc.
  destruct HZ as (_ & Hseg & (HS & _ & Hsr) & _).
  change (root_of (T E S hs sr)) with (Some S) in Hseg.
  apply seg_ok_app in Hseg as (Hcin & Hout).
  rewrite HRx in Hout. simpl in Hout. destruct Hout as ((HN & Hl) & _).
  change (seg_par (FR l N hc :: c) None) with (Some N) in Hcin.
  rewrite Hhp in HS.
  apply node_at_inv in HN as (ndN & HndN & HNl & HNr & HNp & HNh).
  apply node_at_inv in HS as (ndS & HndS & HSl & HSr & HSp & HSh).
  pose proof Hl as Hl'. unfold l in Hl'. simpl in Hl'. destruct Hl' as (HL & Hll & Hlr).
  apply node_at_inv in HL as (ndL & HndL & HLl & HLr & HLp & HLh).
  simpl in HNl, HSl.
  pose proof Hcin as Hcin'. rewrite Ecin in Hcin'. simpl in Hcin'.
  destruct Hcin' as ((HQ & Hrq) & Hcin1).
  apply node_at_inv in HQ as (ndQ & HndQ & HQl & HQr & HQp & HQh).
  assert (Hcne : cin <> []) by (rewrite Ecin; discriminate).
  destruct (seg_ok_top_node _ _ _ _ R Hcne Hcin (HRx S))
    as (HRin & ndR & HndR & HRp).
  (* the addresses, in a list without duplicates *)
  simpl in Hndt. rewrite inorder_plug, (before_FL _ Hfl) in Hndt. simpl in Hndt.
  unfold l in Hndt. simpl in Hndt.
  assert (HRA : R ∈ after cin).
  { apply ctx_ids_before_after in HRin. rewrite (before_FL _ Hfl) in HRin.
    destruct HRin as [HRin|HRin]; [inversion HRin|exact HRin]. }
  assert (HQA : Q ∈ after cin) by (rewrite Ecin; simpl; solve_in).
  assert (HcinA : forall x, x ∈ ctx_ids cin -> x ∈ after cin).
  { intros x Hx. apply ctx_ids_before_after in Hx. rewrite (before_FL _ Hfl) in Hx.
    destruct Hx as [Hx|Hx]; [inversion Hx|exact Hx]. }
  assert (Hndcin : NoDup (ctx_ids cin)).
  { assert (Hp : NoDup (inorder (plug (T E S hs sr) cin))).
    { rewrite inorder_plug, (before_FL _ Hfl). simpl.
      apply NoDup_app_r in Hndt. apply NoDup_cons_tl in Hndt. exact Hndt. }
    apply NoDup_plug_inv in Hp. apply Hp. }
  set (A := after cin) in *.
  assert (Hnopar : forall x,
            x ∈ inorder (T l N hc (plug (T E S hs sr) cin)) -> Some x <> hole_par c).
  { intros x Hx Heq. symmetry in Heq. apply hole_par_in in Heq. eapply Hdisj; eassumption. }
  assert (Hin_t : forall x,
            x ∈ (inorder ll ++ L :: inorder lr) ++ N :: S :: inorder sr ++ A ->
            x ∈ inorder (T l N hc (plug (T E S hs sr) cin))).
  { intros x Hx. simpl. rewrite inorder_plug, (before_FL _ Hfl). exact Hx. }
  assert (HNpar : Some N <> hole_par c) by (apply Hnopar, Hin_t; solve_in).
  assert (HSpar : Some S <> hole_par c) by (apply Hnopar, Hin_t; solve_in).
  assert (HLpar : Some L <> hole_par c) by (apply Hnopar, Hin_t; solve_in).
  assert (HQpar : Some Q <> hole_par c) by (apply Hnopar, Hin_t; solve_in).
  assert (HRpar : Some R <> hole_par c) by (apply Hnopar, Hin_t; solve_in).
  assert (HNS : N <> S) by nodup_ne_with Hndt.
  assert (HNL : N <> L) by nodup_ne_with Hndt.
  assert (HSL : S <> L) by nodup_ne_with Hndt.
  assert (HNQ : N <> Q) by nodup_ne_with Hndt.
  assert (HSQ : S <> Q) by nodup_ne_with Hndt.
  assert (HLQ : L <> Q) by nodup_ne_with Hndt.
  assert (HNR : N <> R) by nodup_ne_with Hndt.
  assert (HSR : S <> R) by nodup_ne_with Hndt.
  assert (HLR : L <> R) by nodup_ne_with Hndt.
  destruct (store_hole s c (Some N) (Some S) Hroot Hc Hndc)
    as (s1 & Hstore & Hroot1 & Hseg1 & Hsame1 & Hpay1).
  set (N' := mkNode (key ndN) None (root_of sr) (Some Q) hs (high ndN) (value ndN)).
  set (S' := mkNode (key ndS) (Some L) (Some R) (hole_par c) hc (high ndS) (value ndS)).
  set (hmid := <[Q := set_left (Some N) ndQ]> (nodes s)).
  assert (exists h',
    Delete_transpose N (hole_loc c) s = Some (LeftP Q, mkTree (root s1) h')
    /\ h' !! N = Some N' /\ h' !! S = Some S'
    /\ h' !! L = Some (set_parent (Some S) ndL)
    /\ (forall X ndX, root_of sr = Some X -> nodes s !! X = Some ndX ->
                      h' !! X = Some (set_parent (Some N) ndX))
    /\ h' !! R = set_parent (Some S) <$> hmid !! R
    /\ (forall x, x <> N -> x <> S -> x <> L -> Some x <> root_of sr -> x <> R ->
                  Some x <> hole_par c -> h' !! x = hmid !! x)
    /\ (forall x, x <> N -> x <> S -> x <> L -> Some x <> root_of sr -> x <> R ->
                  x <> Q -> h' !! x = nodes s1 !! x))
    as (h' & Hrun & HN' & HS' & HL' & HX' & HR' & Hoth & Hoth1).
  { unfold Delete_transpose. rewrite HndN. simpl. rewrite HNr. simpl.
    rewrite Hsucc. simpl. rewrite HndS. simpl. rewrite Hstore. simpl.
    rewrite (Hsame1 N HNpar), HndN. simpl. rewrite HNr.
    rewrite decide_False by congruence. simpl.
    assert (H1S : nodes s1 !! S = Some ndS) by (rewrite Hsame1; assumption).
    assert (H1N : nodes s1 !! N = Some ndN) by (rewrite Hsame1; assumption).
    assert (H1L : nodes s1 !! L = Some ndL) by (rewrite Hsame1; assumption).
    assert (H1Q : nodes s1 !! Q = Some ndQ) by (rewrite Hsame1; assumption).
    assert (H1R : nodes s1 !! R = Some ndR) by (rewrite Hsame1; assumption).
    do 7 exec_upd. hlook. simpl. do 2 exec_upd. hlook. simpl.
    rewrite HNl. exec_upd. hlook. simpl.
    destruct (decide (Q = R)) as [HQR|HQR].
    - subst R. exec_upd. hlook. simpl.
      destruct sr as [|srl X hx srr]; simpl in *.
      + rewrite HSr. eexists. split; [reflexivity|].
        split; [hlook; unfold N'; node_eq|].
        split; [hlook; unfold S'; node_eq|].
        split; [hlook; reflexivity|].
        split; [intros X ndX [=]|].
        split; [unfold hmid; hlook; reflexivity|].
        split; [intros x HxN HxS HxL HxX HxR HxP; unfold hmid; hlook; now apply Hsame1|].
        intros x HxN HxS HxL _ HxR HxQ. hlook. reflexivity.
      + assert (HXN : X <> N) by nodup_ne_with Hndt.
        assert (HXS : X <> S) by nodup_ne_with Hndt.
        assert (HXL : X <> L) by nodup_ne_with Hndt.
        assert (HXQ : X <> Q) by nodup_ne_with Hndt.
        destruct Hsr as (HX & _).
        apply node_at_inv in HX as (ndX & HndX & _).
        assert (HXpar : Some X <> hole_par c) by (apply Hnopar, Hin_t; simpl; solve_in).
        assert (H1X : nodes s1 !! X = Some ndX) by (rewrite Hsame1; assumption).
        rewrite HSr. exec_upd.
        eexists. split; [reflexivity|].
        split; [hlook; unfold N'; node_eq|].
        split; [hlook; unfold S'; node_eq|].
        split; [hlook; reflexivity|].
        split; [intros X0 ndX0 [= <-] HX0; hlook; congruence|].
        split; [unfold hmid; hlook; reflexivity|].
        split; [intros x HxN HxS HxL HxX HxR HxP; unfold hmid; hlook; now apply Hsame1|].
        intros x HxN HxS HxL HxX HxR HxQ. hlook. reflexivity.
    - exec_upd. hlook. simpl.
      destruct sr as [|srl X hx srr]; simpl in *.
      + rewrite HSr. eexists. split; [reflexivity|].
        split; [hlook; unfold N'; node_eq|].
        split; [hlook; unfold S'; node_eq|].
        split; [hlook; reflexivity|].
        split; [intros X ndX [=]|].
        split; [unfold hmid; hlook; rewrite HndR; reflexivity|].
        split.
        * intros x HxN HxS HxL _ HxR HxP. unfold hmid.
          destruct (decide (x = Q)) as [->|HxQ]; hlook; [reflexivity|].
          now apply Hsame1.
        * intros x HxN HxS HxL _ HxR HxQ. hlook. reflexivity.
      + assert (HXN : X <> N) by nodup_ne_with Hndt.
        assert (HXS : X <> S) by nodup_ne_with Hndt.
        assert (HXL : X <> L) by nodup_ne_with Hndt.
        assert (HXQ : X <> Q) by nodup_ne_with Hndt.
        assert (HXR : X <> R) by nodup_ne_with Hndt.
        destruct Hsr as (HX & _).
        apply node_at_inv in HX as (ndX & HndX & _).
        assert (HXpar : Some X <> hole_par c) by (apply Hnopar, Hin_t; simpl; solve_in).
        assert (H1X : nodes s1 !! X = Some ndX) by (rewrite Hsame1; assumption).
        rewrite HSr. exec_upd.
        eexists. split; [reflexivity|].
        split; [hlook; unfold N'; node_eq|].
        split; [hlook; unfold S'; node_eq|].
        split; [hlook; reflexivity|].
        split; [intros X0 ndX0 [= <-] HX0; hlook; congruence|].
        split; [unfold hmid; hlook; rewrite HndR; reflexivity|].
        split.
        * intros x HxN HxS HxL HxX HxR HxP. unfold hmid.
          destruct (decide (x = Q)) as [->|HxQ]; hlook; [reflexivity|].
          now apply Hsame1.
        * intros x HxN HxS HxL HxX HxR HxQ. hlook. reflexivity. }
  exists (mkTree (root s1) h'). split; [exact Hrun|].
  assert (HA : forall x, x ∈ A ->
            x <> N /\ x <> S /\ x <> L /\ Some x <> root_of sr /\ Some x <> hole_par c).
  { intros x Hx. split; [nodup_ne_with Hndt|]. split; [nodup_ne_with Hndt|].
    split; [nodup_ne_with Hndt|]. split.
    - intros Hr. symmetry in Hr. apply root_of_in in Hr. nodup_absurd Hndt x.
    - apply Hnopar, Hin_t. solve_in. }
  assert (Hctx : forall x, x ∈ ctx_ids c -> h' !! x = nodes s1 !! x).
  { intros x Hx. apply Hoth1.
    - intros ->. eapply Hdisj; [|exact Hx]. apply Hin_t. solve_in.
    - intros ->. eapply Hdisj; [|exact Hx]. apply Hin_t. solve_in.
    - intros ->. eapply Hdisj; [|exact Hx]. apply Hin_t. solve_in.
    - intros Hr. symmetry in Hr. apply root_of_in in Hr.
      eapply Hdisj; [|exact Hx]. apply Hin_t. solve_in.
    - intros ->. eapply Hdisj; [|exact Hx]. apply Hin_t. solve_in.
    - intros ->. eapply Hdisj; [|exact Hx]. apply Hin_t. solve_in. }
  assert (Hsub : forall x, x ∈ inorder ll ++ inorder lr -> h' !! x = nodes s !! x).
  { intros x Hx. apply elem_of_app in Hx.
    rewrite Hoth1; [apply Hsame1| | | | | |].
    - apply Hnopar, Hin_t. destruct Hx; solve_in.
    - destruct Hx; nodup_ne_with Hndt.
    - destruct Hx; nodup_ne_with Hndt.
    - destruct Hx; nodup_ne_with Hndt.
    - intros Hr. symmetry in Hr. apply root_of_in in Hr.
      destruct Hx; nodup_absurd Hndt x.
    - destruct Hx; nodup_ne_with Hndt.
    - destruct Hx; nodup_ne_with Hndt. }
  assert (Hmid : seg_ok hmid cin (Some N) (Some N)).
  { rewrite Ecin. rewrite Ecin in Hcin, Hndcin.
    eapply (seg_ok_set_hole_FL (nodes s) hmid); [exact Hcin|exact Hndcin| |].
    - intros x _ Hx. unfold hmid. apply lk_insert_ne. congruence.
    - intros l0 r0 p0 hc0 Hlk. unfold hmid. rewrite lookup_insert_eq.
      rewrite HndQ in Hlk. simpl in *. injection Hlk as _ <- <- <-. reflexivity. }
  assert (Hcin' : seg_ok h' cin (Some N) (Some S)).
  { apply (seg_ok_set_top hmid h' cin (Some N) (Some N) (Some S) R Hcne (HRx N) Hndcin Hmid).
    - intros x Hx HxR. destruct (HA x (HcinA x Hx)) as (? & ? & ? & ? & ?).
      rewrite Hoth by assumption. reflexivity.
    - intros l0 r0 p0 hc0 Hlk. rewrite HR'.
      destruct (hmid !! R) as [ndR'|]; [|discriminate]. simpl in *.
      injection Hlk as <- <- _ <-. reflexivity. }
  split.
  - unfold Zip. cbn [nodes root]. split; [|split; [|split]].
    + simpl. rewrite top_ptr_app, (HRx N). exact Hroot1.
    + apply seg_ok_app. split; [exact Hcin'|].
      change (root_of (T E N hs sr)) with (Some N). rewrite (HRx N).
      split; [split|].
      * unfold node_at. rewrite HS'. reflexivity.
      * unfold l. simpl. split; [|split].
        -- unfold node_at. rewrite HL'. simpl. unfold lk. simpl.
           rewrite HLl, HLr, HLh. reflexivity.
        -- eapply heap_ok_ext; [|exact Hll]. intros x Hx.
           rewrite Hsub by solve_in. reflexivity.
        -- eapply heap_ok_ext; [|exact Hlr]. intros x Hx.
           rewrite Hsub by solve_in. reflexivity.
      * eapply seg_ok_ext; [|exact Hseg1]. intros x Hx. now rewrite Hctx.
    + rewrite Hhp. split; [|split; [exact I|]].
      * unfold node_at. rewrite HN'. reflexivity.
      * apply (heap_ok_reparent (nodes s) _ (Some S) (Some N) sr); [| | |exact Hsr].
        -- apply NoDup_app_r in Hndt. apply NoDup_cons_tl in Hndt.
           apply NoDup_cons_tl in Hndt. apply NoDup_app_l in Hndt. exact Hndt.
        -- intros x Hx Hxr.
           rewrite Hoth1; [rewrite Hsame1; [reflexivity|]| | | |assumption| |].
           ++ apply Hnopar, Hin_t. solve_in.
           ++ nodup_ne_with Hndt.
           ++ nodup_ne_with Hndt.
           ++ nodup_ne_with Hndt.
           ++ nodup_ne_with Hndt.
           ++ nodup_ne_with Hndt.
        -- intros x l0 r0 p0 hc0 Hxr Hlk0.
           destruct (nodes s !! x) as [ndX|] eqn:HndX; [|discriminate].
           rewrite (HX' x ndX Hxr HndX). simpl in *.
           injection Hlk0 as <- <- _ <-. reflexivity.
    + rewrite plug_app. cbn [plug fill].
      eapply NoDup_plug_perm; [|exact Hnd]. simpl.
      rewrite !inorder_plug, (before_FL _ Hfl). simpl.
      apply Permutation_app_head. apply perm_swap.
  - eapply same_payload_trans; [exact Hpay1|]. intros x. simpl.
    destruct (decide (x = N)) as [->|HxN];
      [rewrite HN', (Hsame1 N HNpar), HndN; reflexivity|].
    destruct (decide (x = S)) as [->|HxS];
      [rewrite HS', (Hsame1 S HSpar), HndS; reflexivity|].
    destruct (decide (x = L)) as [->|HxL];
      [rewrite HL', (Hsame1 L HLpar), HndL; reflexivity|].
    destruct (decide (Some x = root_of sr)) as [Hxr|Hxr].
    { symmetry in Hxr. pose proof (root_of_in _ _ Hxr) as Hxin.
      destruct (heap_ok_dom _ _ _ _ Hsr Hxin) as (ndX & HndX).
      rewrite (HX' x ndX Hxr HndX).
      rewrite Hsame1 by (apply Hnopar, Hin_t; solve_in).
      rewrite HndX. reflexivity. }
    assert (HpQ : payload <$> hmid !! x = payload <$> nodes s !! x).
    { unfold hmid. eapply payload_insert; [exact HndQ|reflexivity]. }
    destruct (decide (x = R)) as [->|HxR].
    { rewrite HR', (Hsame1 R HRpar), <- HpQ.
      destruct (hmid !! R); reflexivity. }
    destruct (decide (Some x = hole_par c)) as [Hxp|Hxp].
    + rewrite Hoth1; [reflexivity|assumption..|].
      intros ->. congruence.
    + rewrite Hoth by assumption. rewrite HpQ, Hsame1 by assumption. reflexivity.
Qed.

Lemma NoDup_mid_notin {A} (b l1 l2 a : list A) x :
  NoDup (b ++ (l1 ++ x :: l2) ++ a) -> x ∉ b ++ (l1 ++ l2) ++ a.
Proof.
  intros Hnd.
  assert (Hp : b ++ (l1 ++ x :: l2) ++ a ≡ₚ x :: (b ++ (l1 ++ l2) ++ a)).
  { replace (b ++ (l1 ++ x :: l2) ++ a) with ((b ++ l1) ++ x :: (l2 ++ a))
      by (rewrite <- !app_assoc; simpl; reflexivity).
    replace (b ++ (l1 ++ l2) ++ a) with ((b ++ l1) ++ (l2 ++ a))
      by (rewrite <- !app_assoc; reflexivity).
    symmetry. apply Permutation_middle. }
  rewrite Hp in Hnd. now apply NoDup_cons in Hnd.
Qed.

(** The balance conditions of a context do not mention its addresses. *)
Lemma ctx_avl_rename c1 l a b hc c2 h :
  ctx_avl (c1 ++ FR l a hc :: c2) h -> ctx_avl (c1 ++ FR l b hc :: c2) h.
Proof.
  revert h. induction c1 as [|f c1 IH]; intros h; simpl; [tauto|].
  intros (? & ? & ? & ?). auto.
Qed.

(** The end of [Delete]: unlinking a node with at most one child and
    rebalancing from it. *)
Lemma Delete_finish (s : avlTree) l n hc r c :
  Zip (T l n hc r) c s -> l = E \/ r = E ->
  avl (T l n hc r) -> ctx_avl c (ht (T l n hc r)) ->
  exists s' t', (t ← Delete_unlink n (hole_loc c) s; rebalance (Some n) t) = Some s'
    /\ Repr t' s' /\ avl t'
    /\ inorder t' = before c ++ (inorder l ++ inorder r) ++ after c
    /\ same_payload s s'.
Proof.
  intros HZ Hone Havl Hctx.
  destruct (Zip_node _ _ _ _ _ _ HZ) as (nd & Hnd & Hl & Hr & Hp & Hh).
  destruct (Delete_unlink_spec s l n hc r c HZ Hone) as (s1 & Hun & HZ1 & Hpay1 & Hn1).
  rewrite Hun. simpl.
  pose proof HZ as (_ & _ & _ & Hndp).
  pose proof (NoDup_plug_inv _ _ Hndp) as (Hndt & _ & _). simpl in Hndt.
  set (t1 := match l with E => r | _ => l end) in *.
  assert (Hin1 : inorder t1 = inorder l ++ inorder r).
  { destruct Hone as [-> | ->]; unfold t1; [reflexivity|].
    destruct l; simpl; [reflexivity|]. now rewrite app_nil_r. }
  assert (Hht : ht (T l n hc r) = 1 + ht t1).
  { destruct Hone as [-> | ->]; unfold t1; simpl.
    - pose proof (ht_nonneg r). lia.
    - destruct l as [|l0 a0 h0 r0]; simpl; [lia|].
      pose proof (ht_nonneg l0). pose proof (ht_nonneg r0). lia. }
  pose proof Havl as (Hal & Har & Hhc & Hbal).
  assert (Havl1 : avl t1) by (unfold t1; destruct l; assumption).
  assert (Hhts : height s1 (root_of l) = Some (hcache l)
                 /\ height s1 (root_of r) = Some (hcache r)).
  { destruct HZ1 as (_ & _ & Hok1 & _). apply height_root in Hok1.
    destruct Hone as [-> | ->]; unfold t1 in Hok1.
    - split; [reflexivity|exact Hok1].
    - split; [|reflexivity]. destruct l; [reflexivity|exact Hok1]. }
  destruct Hhts as (Hhl & Hhr).
  destruct (rebalance_detached s1 t1 c n nd (ht (T l n hc r)) (hcache l) (hcache r))
    as (s' & t' & Hreb & HR & Havl' & Hin & Hpay'); try assumption.
  - rewrite inorder_plug, Hin1. rewrite inorder_plug in Hndp. simpl in Hndp.
    now apply NoDup_mid_notin.
  - congruence.
  - rewrite Hl. intros Hx. apply root_of_in in Hx. nodup_absurd Hndt n.
  - rewrite Hr. intros Hx. apply root_of_in in Hx. nodup_absurd Hndt n.
  - now rewrite Hl.
  - now rewrite Hr.
  - rewrite !avl_hcache by assumption. exact Hbal.
  - lia.
  - exists s', t'. split; [exact Hreb|]. split; [exact HR|]. split; [exact Havl'|].
    split; [|eapply same_payload_trans; eassumption].
    rewrite Hin, inorder_plug, Hin1. reflexivity.
Qed.

(** [avlTree.Delete] removes the node from the in-order sequence and
    leaves an AVL tree; no payload changes. *)
Lemma avlTree_Delete_spec (s : avlTree) t n :
  Repr t s -> avl t -> n ∈ inorder t ->
  exists s' t' l1 l2, avlTree_Delete n s = Some s'
    /\ Repr t' s' /\ avl t'
    /\ inorder t = l1 ++ n :: l2 /\ inorder t' = l1 ++ l2
    /\ same_payload s s'.
Proof.
  intros HR Havl Hin.
  destruct (tree_focus _ _ Hin) as (l & hc & r & c & ->).
  assert (HZ : Zip (T l n hc r) c s).
  { unfold Repr in HR. rewrite <- (app_nil_r c). now apply Zip_plug. }
  apply avl_plug in Havl as (Havl & Hctx).
  unfold avlTree_Delete. rewrite (nodeP_hole _ _ _ _ _ _ HZ). simpl.
  destruct (Zip_node _ _ _ _ _ _ HZ) as (nd & Hnd & Hl & Hr & Hp & Hh).
  rewrite Hnd. simpl. rewrite Hl, Hr.
  assert (Hsimple : l = E \/ r = E ->
    exists s' t' l1 l2,
      (t0 ← Delete_unlink n (hole_loc c) s; rebalance (Some n) t0) = Some s'
      /\ Repr t' s' /\ avl t'
      /\ inorder (plug (T l n hc r) c) = l1 ++ n :: l2 /\ inorder t' = l1 ++ l2
      /\ same_payload s s').
  { intros Hone.
    destruct (Delete_finish s l n hc r c HZ Hone Havl Hctx)
      as (s' & t' & Hrun & HR' & Havl' & Hin' & Hpay).
    exists s', t', (before c ++ inorder l), (inorder r ++ after c).
    split; [exact Hrun|]. split; [exact HR'|]. split; [exact Havl'|].
    split; [|split; [|exact Hpay]].
    - rewrite inorder_plug. simpl. now rewrite <- !app_assoc.
    - rewrite Hin'. now rewrite <- !app_assoc. }
  destruct l as [|ll L hl lr]; [apply Hsimple; auto|].
  destruct r as [|rl R0 hr rr]; [apply Hsimple; auto|].
  clear Hsimple. simpl root_of. cbv iota.
  destruct (leftmost_focus (T rl R0 hr rr) ltac:(discriminate))
    as (S & hs & sr & cin & Heq & Hfl).
  rewrite Heq in *. clear Heq rl R0 hr rr.
  set (l := T ll L hl lr) in *.
  assert (HZS : Zip (T E S hs sr) (cin ++ FR l n hc :: c) s).
  { apply Zip_plug. apply Zip_fill. exact HZ. }
  pose proof Havl as (Hal & Har & _). apply avl_plug in Har as (HavlS & _).
  assert (HctxS : ctx_avl (cin ++ FR l S hc :: c) (ht (T E S hs sr))).
  { apply ctx_avl_rename with (a := n).
    assert (Hall : avl (plug (T E S hs sr) (cin ++ FR l n hc :: c))).
    { rewrite plug_app. simpl. apply avl_plug. split; assumption. }
    apply avl_plug in Hall. apply Hall. }
  assert (Hfin : forall s1,
    Zip (T E n hs sr) (cin ++ FR l S hc :: c) s1 -> same_payload s s1 ->
    exists s' t' l1 l2,
      (t0 ← Delete_unlink n (hole_loc (cin ++ FR l S hc :: c)) s1;
       rebalance (Some n) t0) = Some s'
      /\ Repr t' s' /\ avl t'
      /\ inorder (plug (T l n hc (plug (T E S hs sr) cin)) c) = l1 ++ n :: l2
      /\ inorder t' = l1 ++ l2
      /\ same_payload s s').
  { intros s1 HZ1 Hpay1.
    destruct (Delete_finish s1 E n hs sr (cin ++ FR l S hc :: c) HZ1 (or_introl eq_refl))
      as (s' & t' & Hrun & HR' & Havl' & Hin' & Hpay).
    - simpl. simpl in HavlS. tauto.
    - exact HctxS.
    - exists s', t', (before c ++ inorder l),
        (S :: inorder sr ++ after cin ++ after c).
      split; [exact Hrun|]. split; [exact HR'|]. split; [exact Havl'|].
      split; [|split; [|eapply same_payload_trans; eassumption]].
      + rewrite inorder_plug. simpl. rewrite inorder_plug, (before_FL _ Hfl). simpl.
        repeat (rewrite <- app_assoc; simpl). reflexivity.
      + rewrite Hin', before_app, after_app, (before_FL _ Hfl). simpl.
        repeat (rewrite <- app_assoc; simpl). reflexivity. }
  destruct cin as [|f cin1].
  - destruct (Delete_transpose_adjacent s ll L hl lr n hc S hs sr c HZS)
      as (s1 & Htr & HZ1 & Hpay1).
    rewrite Htr. simpl. exact (Hfin s1 HZ1 Hpay1).
  - apply Forall_cons in Hfl as (Hf & Hfl1).
    destruct f as [Q hq rq|]; [|contradiction].
    destruct (Delete_transpose_deep s ll L hl lr n hc S hs sr c Q hq rq cin1 Hfl1 HZS)
      as (s1 & Htr & HZ1 & Hpay1).
    rewrite Htr. simpl. apply (Hfin s1 HZ1 Hpay1).
Qed.

End Delete.

(** * Search and Next on the tree in the heap *)

Lemma split_mid {A} (x y l1 l2 : list A) a :
  x ++ a :: y = l1 ++ l2 ->
  (exists l', x = l1 ++ l' /\ l2 = l' ++ a :: y)
  \/ (exists l', l1 = x ++ a :: l' /\ y = l' ++ l2).
Proof.
  revert l1. induction x as [|b x IH]; intros [|c l1]; simpl; intros Heq.
  - left. exists []. auto.
  - injection Heq as <- ->. right. exists l1. auto.
  - left. exists (b :: x). auto.
  - injection Heq as <- Heq. destruct (IH _ Heq) as [(l' & -> & ->)|(l' & -> & ->)].
    + left. exists l'. auto.
    + right. exists l'. auto.
Qed.

Lemma NoDup_split_unique {A} (x y l1 l2 : list A) a :
  NoDup (x ++ a :: y) -> x ++ a :: y = l1 ++ a :: l2 -> x = l1 /\ y = l2.
Proof.
  revert l1. induction x as [|b x IH]; intros [|c l1]; simpl; intros Hnd Heq.
  - injection Heq as ->. auto.
  - injection Heq as <- ->. apply NoDup_cons in Hnd as (Hn & _).
    exfalso. apply Hn. solve_in.
  - injection Heq as -> <-. apply NoDup_cons in Hnd as (Hn & _).
    exfalso. apply Hn. solve_in.
  - injection Heq as <- Heq. apply NoDup_cons in Hnd as (_ & Hnd).
    destruct (IH _ Hnd Heq) as (-> & ->). auto.
Qed.

Section SearchNext.
Context {V : Type} `{EqDecision V}.
Abbreviation heap := (gmap nat (avlNode (V:=V))).
Abbreviation avlNode := (avlNode (V:=V)).
Abbreviation avlTree := (avlTree (V:=V)).

(** The value of a predicate on the node at an address. *)
Definition holds (s : avlTree) (pred : avlNode -> bool) (b : bool) (a : nat) : Prop :=
  pred <$> nodes s !! a = Some b.

Lemma Search_loop_spec (s : avlTree) pred : forall t par fl best l1 l2,
  heap_ok (nodes s) par t -> inorder t = l1 ++ l2 ->
  Forall (holds s pred false) l1 -> Forall (holds s pred true) l2 ->
  (length (inorder t) <= fl)%nat ->
  Search_loop fl s pred best (root_of t)
  = Some (match l2 with [] => best | a :: _ => Some a end).
Proof.
  induction t as [|l IHl a hc r IHr]; intros par fl best l1 l2 Hok Hin H1 H2 Hfl.
  - simpl in Hin. symmetry in Hin. apply app_eq_nil in Hin as (-> & ->).
    destruct fl; reflexivity.
  - simpl in Hok. destruct Hok as (Ha & Hl & Hr).
    apply node_at_inv in Ha as (nd & Hnd & Hnl & Hnr & _).
    simpl in Hin, Hfl. rewrite length_app in Hfl. simpl in Hfl.
    destruct fl as [|fl]; [lia|]. simpl. rewrite Hnd. simpl.
    destruct (split_mid _ _ _ _ _ Hin) as [(l' & Hl' & ->)|(l' & -> & Hr')].
    + apply Forall_app in H2 as (H2l & H2a). apply Forall_cons in H2a as (Hpa & _).
      unfold holds in Hpa. rewrite Hnd in Hpa. injection Hpa as ->.
      rewrite Hnl. rewrite (IHl (Some a) fl (Some a) l1 l' Hl Hl' H1 H2l) by lia.
      destruct l'; reflexivity.
    + apply Forall_app in H1 as (_ & H1a). apply Forall_cons in H1a as (Hpa & H1r).
      unfold holds in Hpa. rewrite Hnd in Hpa. injection Hpa as ->.
      rewrite Hnr. apply (IHr (Some a) fl best l' l2 Hr Hr' H1r H2). lia.
Qed.

(** [Search] returns the first node, in order, on which the predicate
    holds, when the predicate is monotone along the order. *)
Lemma avlTree_Search_spec (s : avlTree) t pred l1 l2 :
  Repr t s -> inorder t = l1 ++ l2 ->
  Forall (holds s pred false) l1 -> Forall (holds s pred true) l2 ->
  avlTree_Search pred s = Some (head l2).
Proof.
  intros HR Hin H1 H2. pose proof (Zip_length _ _ _ HR) as Hlen. simpl in Hlen.
  destruct HR as (Hroot & _ & Hok & _). simpl in Hroot, Hok.
  unfold avlTree_Search. rewrite Hroot.
  rewrite (Search_loop_spec s pred t None (fuel s) None l1 l2 Hok Hin H1 H2)
    by (unfold fuel; lia).
  destruct l2; reflexivity.
Qed.

Lemma Next_up_spec c : forall l a hc r (s : avlTree) fl,
  Zip (T l a hc r) c s -> (length c <= fl)%nat ->
  Next_up fl s a = Some (head (after c)).
Proof.
  induction c as [|f c IH]; intros l a hc r s fl HZ Hfl.
  - destruct (Zip_node _ _ _ _ _ _ HZ) as (nd & Hnd & _ & _ & Hp & _).
    simpl in Hp. destruct fl; simpl; rewrite Hnd; simpl; rewrite Hp; reflexivity.
  - destruct (Zip_node _ _ _ _ _ _ HZ) as (nd & Hnd & _ & _ & Hp & _).
    simpl in Hp. simpl in Hfl. destruct fl as [|fl]; [lia|].
    pose proof HZ as HZf. apply Zip_fill in HZf.
    pose proof HZf as (_ & _ & _ & Hndp). apply NoDup_plug_inv in Hndp as (Hndt & _).
    destruct f as [p hcp rp|lp p hcp]; simpl in *.
    + destruct (Zip_node _ _ _ _ _ _ HZf) as (pd & Hpd & _ & Hpr & _).
      rewrite Hnd. simpl. rewrite Hp, Hpd. simpl.
      rewrite decide_False; [reflexivity|].
      rewrite Hpr. intros Hx. apply root_of_in in Hx. nodup_absurd Hndt a.
    + destruct (Zip_node _ _ _ _ _ _ HZf) as (pd & Hpd & _ & Hpr & _).
      rewrite Hnd. simpl. rewrite Hp, Hpd. simpl.
      rewrite decide_True by exact Hpr.
      apply (IH _ _ _ _ _ _ HZf). lia.
Qed.

Lemma Next_down_spec cin : forall c (s : avlTree) succ hs sr fl x,
  Forall is_FL cin ->
  Zip (T E succ hs sr) (cin ++ c) s ->
  top_ptr cin (Some succ) = Some x ->
  (length cin <= fl)%nat ->
  Next_down fl s x = Some (Some succ).
Proof.
  induction cin as [|f cin IH] using rev_ind; intros c s succ hs sr fl x Hfl HZ Hx Hlen.
  - simpl in *. injection Hx as <-.
    destruct (Zip_node _ _ _ _ _ _ HZ) as (nd & Hnd & Hl & _).
    destruct fl; simpl; rewrite Hnd; simpl; rewrite Hl; reflexivity.
  - apply Forall_app in Hfl as (Hfl & Hf). inversion Hf as [|? ? Hf1 _]; subst.
    destruct f as [a hc r|]; [|contradiction].
    rewrite top_ptr_app in Hx. simpl in Hx. injection Hx as <-.
    rewrite <- app_assoc in HZ. simpl in HZ.
    pose proof HZ as HZ'. apply Zip_plug in HZ'.
    pose proof (root_of_plug cin (T E succ hs sr)) as Hroot. simpl in Hroot.
    apply Zip_fill in HZ'. simpl in HZ'.
    destruct (Zip_node _ _ _ _ _ _ HZ') as (nd & Hnd & Hl & _).
    rewrite length_app in Hlen. simpl in Hlen.
    destruct fl as [|fl]; [lia|].
    simpl. rewrite Hnd. simpl. rewrite Hl, Hroot.
    destruct (top_ptr_Some cin succ) as (y & Hy). rewrite Hy.
    apply (IH (FL a hc r :: c) s succ hs sr fl y Hfl HZ Hy). lia.
Qed.

(** [Next] returns the following node of the in-order sequence. *)
Lemma avlNode_Next_spec (s : avlTree) t l1 a l2 :
  Repr t s -> inorder t = l1 ++ a :: l2 ->
  avlNode_Next s a = Some (head l2).
Proof.
  intros HR Hin.
  assert (Ha : a ∈ inorder t) by (rewrite Hin; solve_in).
  destruct (tree_focus _ _ Ha) as (l & hc & r & c & ->).
  assert (HZ : Zip (T l a hc r) c s).
  { unfold Repr in HR. rewrite <- (app_nil_r c). now apply Zip_plug. }
  pose proof HZ as (_ & _ & _ & Hnd).
  rewrite inorder_plug in Hin, Hnd. simpl in Hin, Hnd.
  rewrite <- app_assoc in Hin, Hnd. simpl in Hin, Hnd. rewrite app_assoc in Hin, Hnd.
  destruct (NoDup_split_unique _ _ _ _ _ Hnd Hin) as (_ & <-).
  destruct (Zip_node _ _ _ _ _ _ HZ) as (nd & Hndn & _ & Hr & _).
  pose proof (Zip_fuel _ _ _ HZ) as Hfuel.
  unfold avlNode_Next. rewrite Hndn. simpl. rewrite Hr.
  destruct r as [|rl R hr rr].
  - simpl. apply (Next_up_spec c _ _ _ _ _ _ HZ). lia.
  - destruct (leftmost_focus (T rl R hr rr) ltac:(discriminate))
      as (S & hs & sr & cin & Heq & Hfl).
    rewrite Heq in *. clear Heq.
    assert (HZS : Zip (T E S hs sr) (cin ++ FR l a hc :: c) s).
    { apply Zip_plug. apply Zip_fill. exact HZ. }
    rewrite root_of_plug. simpl root_of.
    destruct (top_ptr_Some cin S) as (x & Hx). rewrite Hx. simpl.
    rewrite (Next_down_spec cin _ s S hs sr (fuel s) x Hfl HZS Hx).
    + rewrite inorder_plug, (before_FL _ Hfl). reflexivity.
    + pose proof (Zip_fuel _ _ _ HZS) as Hf. rewrite length_app in Hf. lia.
Qed.

End SearchNext.

(** * The AVL tree: what its operations guarantee *)

Lemma StronglySorted_lt_remove_mid (l1 l2 : list Z) x :
  StronglySorted Z.lt (l1 ++ x :: l2) -> StronglySorted Z.lt (l1 ++ l2).
Proof.
  intros Hs. apply StronglySorted_app in Hs as (H12 & H1 & H2).
  apply StronglySorted_cons in H2 as (_ & H2).
  apply StronglySorted_app. split; [|auto].
  intros a b Ha Hb. apply H12; [assumption|solve_in].
Qed.

Lemma StronglySorted_lt_insert_mid (l1 l2 : list Z) x :
  StronglySorted Z.lt (l1 ++ l2) -> Forall (fun y => y < x) l1 ->
  Forall (fun y => x < y) l2 -> StronglySorted Z.lt (l1 ++ x :: l2).
Proof.
  intros Hs Hl1 Hl2. apply StronglySorted_app in Hs as (H12 & H1 & H2).
  rewrite Forall_forall in Hl1, Hl2.
  apply StronglySorted_app. split; [|split; [assumption|]].
  - intros a b Ha Hb. apply elem_of_cons in Hb as [->|Hb]; auto.
  - apply StronglySorted_cons. split; [|assumption].
    apply Forall_forall. auto.
Qed.

Lemma StronglySorted_lt_NoDup (l : list Z) : StronglySorted Z.lt l -> NoDup l.
Proof.
  induction 1 as [|x l _ IH Hx]; constructor; [|assumption].
  intros Hin. rewrite Forall_forall in Hx. specialize (Hx _ Hin). lia.
Qed.

Section AvlProps.
Context {V : Type} `{EqDecision V}.
Abbreviation heap := (gmap nat (avlNode (V:=V))).
Abbreviation avlNode := (avlNode (V:=V)).
Abbreviation avlTree := (avlTree (V:=V)).

(** The nodes that the root reaches through child pointers. *)
Inductive linked (s : avlTree) : nat -> Prop :=
| linked_root a : root s = Some a -> linked s a
| linked_left p pd a :
    linked s p -> nodes s !! p = Some pd -> left pd = Some a -> linked s a
| linked_right p pd a :
    linked s p -> nodes s !! p = Some pd -> right pd = Some a -> linked s a.

(** The invariant of the tree: the heap holds a tree without sharing whose
    nodes are, in order, [l]; child and parent pointers agree; every cached
    height is one more than the larger height below; the heights below a
    node differ by at most one; the keys increase strictly. *)
Definition tree_ok (s : avlTree) (l : list nat) : Prop :=
  exists t, Repr t s /\ avl t /\ inorder t = l
            /\ StronglySorted Z.lt (keys (nodes s) l).

(** The trees that [Insert] and [Delete] build from the empty tree;
    [Delete] is given a node of the tree. *)
Inductive reachable : avlTree -> Prop :=
| reach_empty : reachable (mkTree None ∅)
| reach_Insert s k n s' :
    reachable s -> avlTree_Insert k s = Some (n, s') -> reachable s'
| reach_Delete s n s' :
    reachable s -> linked s n -> avlTree_Delete n s = Some s' -> reachable s'.

Lemma keys_ext (h h' : heap) l :
  (forall a, a ∈ l -> payload <$> h' !! a = payload <$> h !! a) ->
  keys h' l = keys h l.
Proof.
  intros Hext. unfold keys. apply list_fmap_ext. intros i a Hi.
  apply key_at_payload, Hext. eapply list_elem_of_lookup_2. exact Hi.
Qed.

Lemma keys_app (h : heap) l1 l2 : keys h (l1 ++ l2) = keys h l1 ++ keys h l2.
Proof. unfold keys. apply fmap_app. Qed.

Lemma key_at_in_keys (h : heap) a l : a ∈ l -> key_at h a ∈ keys h l.
Proof. intros Ha. unfold keys. apply list_elem_of_fmap_2. exact Ha. Qed.

Lemma tree_ok_empty : tree_ok (mkTree None ∅) [].
Proof.
  exists E. repeat split; try constructor.
Qed.

Lemma tree_ok_dom (s : avlTree) l a : tree_ok s l -> a ∈ l -> is_Some (nodes s !! a).
Proof.
  intros (t & HR & _ & <- & _) Ha. destruct HR as (_ & _ & Hok & _).
  eapply heap_ok_dom; eassumption.
Qed.

Lemma tree_ok_NoDup (s : avlTree) l : tree_ok s l -> NoDup l.
Proof. intros (t & HR & _ & <- & _). apply HR. Qed.

(** [Insert], on a tree that satisfies the invariant. *)
Lemma tree_ok_Insert (s : avlTree) l k :
  tree_ok s l ->
  exists n s', avlTree_Insert k s = Some (n, s')
    /\ ((n ∈ l /\ key_at (nodes s) n = k /\ s' = s)
        \/ (nodes s !! n = None
            /\ exists l1 l2, l = l1 ++ l2 /\ tree_ok s' (l1 ++ n :: l2)
                 /\ Forall (fun x => key_at (nodes s) x < k) l1
                 /\ Forall (fun x => k < key_at (nodes s) x) l2
                 /\ payload <$> nodes s' !! n = Some (k, 0, None)
                 /\ forall b, b <> n ->
                      payload <$> nodes s' !! b = payload <$> nodes s !! b)).
Proof.
  intros (t & HR & Havl & <- & Hs).
  destruct (avlTree_Insert_spec s t k HR Havl Hs) as (n & s' & Hrun & Hcase).
  exists n, s'. split; [exact Hrun|].
  destruct Hcase as [Hold|(Hnone & t' & l1 & l2 & HR' & Havl' & Hin & Hin' & Hlt & Hgt & Hpn & Hoth)];
    [left; exact Hold|right].
  split; [exact Hnone|]. exists l1, l2. split; [exact Hin|].
  split; [|auto].
  exists t'. split; [exact HR'|]. split; [exact Havl'|]. split; [exact Hin'|].
  assert (Hn : forall a, a ∈ inorder t -> a <> n).
  { intros a Ha ->. destruct HR as (_ & _ & Hok & _).
    destruct (heap_ok_dom _ _ _ _ Hok Ha) as (nd & Hnd). congruence. }
  rewrite Hin in Hs, Hn. rewrite keys_app in Hs.
  rewrite keys_app. simpl.
  assert (Hkn : key_at (nodes s') n = k).
  { unfold key_at. destruct (nodes s' !! n) as [nd|]; [|discriminate].
    simpl in *. now injection Hpn as -> _ _. }
  rewrite Hkn.
  rewrite (keys_ext (nodes s) (nodes s') l1), (keys_ext (nodes s) (nodes s') l2).
  - apply StronglySorted_lt_insert_mid; [exact Hs| |].
    + unfold keys. apply Forall_fmap. exact Hlt.
    + unfold keys. apply Forall_fmap. exact Hgt.
  - intros a Ha. apply Hoth, Hn. solve_in.
  - intros a Ha. apply Hoth, Hn. solve_in.
Qed.

(** [Delete], on a tree that satisfies the invariant. *)
Lemma tree_ok_Delete (s : avlTree) l n :
  tree_ok s l -> n ∈ l ->
  exists s' l1 l2, avlTree_Delete n s = Some s'
    /\ l = l1 ++ n :: l2 /\ tree_ok s' (l1 ++ l2) /\ same_payload s s'.
Proof.
  intros (t & HR & Havl & <- & Hs) Hn.
  destruct (avlTree_Delete_spec s t n HR Havl Hn)
    as (s' & t' & l1 & l2 & Hrun & HR' & Havl' & Hin & Hin' & Hpay).
  exists s', l1, l2. split; [exact Hrun|]. split; [exact Hin|]. split; [|exact Hpay].
  exists t'. split; [exact HR'|]. split; [exact Havl'|]. split; [exact Hin'|].
  rewrite (keys_ext (nodes s) (nodes s')) by (intros; apply Hpay).
  rewrite Hin, keys_app in Hs. simpl in Hs. rewrite keys_app.
  eapply StronglySorted_lt_remove_mid. exact Hs.
Qed.

Lemma heap_ok_linked (s : avlTree) : forall t par,
  heap_ok (nodes s) par t ->
  (forall a, root_of t = Some a -> linked s a) ->
  forall n, n ∈ inorder t -> linked s n.
Proof.
  induction t as [|l IHl a hc r IHr]; intros par Hok Hroot n Hn; simpl in *.
  - inversion Hn.
  - destruct Hok as (Ha & Hl & Hr).
    apply node_at_inv in Ha as (nd & Hnd & Hnl & Hnr & _).
    assert (La : linked s a) by auto.
    apply elem_of_app in Hn as [Hn|Hn]; [|apply elem_of_cons in Hn as [->|Hn]].
    + apply (IHl (Some a) Hl); [|assumption].
      intros b Hb. eapply linked_left; [exact La|exact Hnd|congruence].
    + exact La.
    + apply (IHr (Some a) Hr); [|assumption].
      intros b Hb. eapply linked_right; [exact La|exact Hnd|congruence].
Qed.

(** The nodes of the in-order sequence are the linked ones. *)
Lemma tree_ok_linked (s : avlTree) l n : tree_ok s l -> (linked s n <-> n ∈ l).
Proof.
  intros (t & HR & _ & <- & _). split.
  - induction 1 as [a Ha|p pd a _ IH Hpd Hl|p pd a _ IH Hpd Hr].
    + destruct HR as (Hroot & _). simpl in Hroot. rewrite Hroot in Ha.
      now apply root_of_in.
    + destruct (tree_focus _ _ IH) as (l & hc & r & c & Heq).
      assert (HZ : Zip (T l p hc r) c s).
      { unfold Repr in HR. rewrite Heq in HR. rewrite <- (app_nil_r c).
        now apply Zip_plug. }
      destruct (Zip_node _ _ _ _ _ _ HZ) as (nd & Hnd & Hnl & _).
      rewrite Hpd in Hnd. injection Hnd as <-. rewrite Hl in Hnl.
      symmetry in Hnl. apply root_of_in in Hnl.
      rewrite Heq, inorder_plug. simpl. solve_in.
    + destruct (tree_focus _ _ IH) as (l & hc & r & c & Heq).
      assert (HZ : Zip (T l p hc r) c s).
      { unfold Repr in HR. rewrite Heq in HR. rewrite <- (app_nil_r c).
        now apply Zip_plug. }
      destruct (Zip_node _ _ _ _ _ _ HZ) as (nd & Hnd & _ & Hnr & _).
      rewrite Hpd in Hnd. injection Hnd as <-. rewrite Hr in Hnr.
      symmetry in Hnr. apply root_of_in in Hnr.
      rewrite Heq, inorder_plug. simpl. solve_in.
  - intros Hn. destruct HR as (Hroot & _ & Hok & _). simpl in Hroot, Hok.
    eapply heap_ok_linked; [exact Hok| |exact Hn].
    intros a Ha. apply linked_root. congruence.
Qed.

Lemma reachable_tree_ok (s : avlTree) : reachable s -> exists l, tree_ok s l.
Proof.
  induction 1 as [|s k n s' _ (l & IH) Hrun|s n s' _ (l & IH) Hn Hrun].
  - exists []. apply tree_ok_empty.
  - destruct (tree_ok_Insert s l k IH) as (n0 & s0 & Hrun0 & Hcase).
    rewrite Hrun in Hrun0. injection Hrun0 as <- <-.
    destruct Hcase as [(_ & _ & ->)|(_ & l1 & l2 & _ & Hok & _)]; eauto.
  - apply (tree_ok_linked s l n IH) in Hn.
    destruct (tree_ok_Delete s l n IH Hn) as (s0 & l1 & l2 & Hrun0 & _ & Hok & _).
    rewrite Hrun in Hrun0. injection Hrun0 as <-. eauto.
Qed.

(** The walk of the test over a subtree that satisfies the invariant. *)
Lemma walk_spec (s : avlTree) : forall t par fl got ok,
  heap_ok (nodes s) par t -> avl t -> (length (inorder t) <= fl)%nat ->
  walk fl s (root_of t) par (got, ok)
  = Some (ht t, (got ++ keys (nodes s) (inorder t), ok)).
Proof.
  induction t as [|l IHl a hc r IHr]; intros par fl got ok Hok Havl Hfl.
  - simpl. rewrite app_nil_r. destruct fl; reflexivity.
  - simpl in Hok, Havl, Hfl. destruct Hok as (Ha & Hl & Hr).
    destruct Havl as (Hal & Har & Hhc & Hbal).
    apply node_at_inv in Ha as (nd & Hnd & Hnl & Hnr & Hnp & Hnh).
    rewrite length_app in Hfl. simpl in Hfl.
    destruct fl as [|fl]; [lia|]. simpl. rewrite Hnd. simpl.
    rewrite Hnl, (IHl (Some a) fl _ _ Hl Hal) by lia. simpl.
    rewrite Hnr, (IHr (Some a) fl _ _ Hr Har) by lia. simpl.
    rewrite bool_decide_eq_true_2 by exact Hnp. rewrite andb_true_r.
    assert (Hh : (if decide (ht r > ht l) then ht r + 1 else ht l + 1)
                 = 1 + Z.max (ht l) (ht r)) by (destruct (decide _); lia).
    rewrite Hh. rewrite decide_False by lia.
    rewrite decide_False by lia.
    do 3 f_equal. rewrite keys_app. simpl. rewrite <- !app_assoc. simpl.
    do 2 f_equal. unfold key_at. rewrite Hnd. reflexivity.
Qed.

Lemma tree_ok_walk (s : avlTree) l :
  tree_ok s l ->
  exists h, walk (fuel s) s (root s) None ([], true)
            = Some (h, (keys (nodes s) l, true)).
Proof.
  intros (t & HR & Havl & <- & _).
  pose proof (Zip_length _ _ _ HR) as Hlen. simpl in Hlen.
  destruct HR as (Hroot & _ & Hok & _). simpl in Hroot, Hok.
  exists (ht t). rewrite Hroot.
  rewrite (walk_spec s t None (fuel s) [] true Hok Havl) by (unfold fuel; lia).
  reflexivity.
Qed.

End AvlProps.

(** ** Theorems on avl.go *)

Section AvlTheorems.
Context {V : Type} `{EqDecision V}.
Abbreviation heap := (gmap nat (avlNode (V:=V))).
Abbreviation avlNode := (avlNode (V:=V)).
Abbreviation avlTree := (avlTree (V:=V)).

Lemma keys_split_at (h : heap) l k :
  StronglySorted Z.lt (keys h l) ->
  exists l1 l2, l = l1 ++ l2
    /\ Forall (fun a => key_at h a < k) l1
    /\ Forall (fun a => k <= key_at h a) l2.
Proof.
  induction l as [|a l IH]; intros Hs.
  - exists [], []. repeat split; constructor.
  - unfold keys in Hs. rewrite fmap_cons in Hs.
    apply StronglySorted_cons in Hs as (Ha & Hs).
    destruct (decide (key_at h a < k)) as [Hlt|Hge].
    + destruct (IH Hs) as (l1 & l2 & -> & H1 & H2).
      exists (a :: l1), l2. repeat split; [constructor; assumption|assumption].
    + exists [], (a :: l). split; [reflexivity|]. split; [constructor|].
      constructor; [lia|]. rewrite Forall_forall in Ha.
      apply Forall_forall. intros b Hb.
      specialize (Ha _ (list_elem_of_fmap_2 (key_at h) _ _ Hb)). lia.
Qed.

Lemma holds_key (s : avlTree) l (f : Z -> bool) a :
  tree_ok s l -> a ∈ l ->
  holds s (fun n => f (key n)) (f (key_at (nodes s) a)) a.
Proof.
  intros Hok Ha. destruct (tree_ok_dom s l a Hok Ha) as (nd & Hnd).
  unfold holds, key_at. rewrite Hnd. reflexivity.
Qed.

(** The search for the first key that is at least [k]. *)
Lemma Search_key_spec (s : avlTree) l k :
  tree_ok s l ->
  exists l1 l2, l = l1 ++ l2
    /\ Forall (fun a => key_at (nodes s) a < k) l1
    /\ Forall (fun a => k <= key_at (nodes s) a) l2
    /\ avlTree_Search (fun n => k <=? key n) s = Some (head l2).
Proof.
  intros Hok. pose proof Hok as (t & HR & _ & Hin & Hs).
  destruct (keys_split_at (nodes s) l k Hs) as (l1 & l2 & Hl & H1 & H2).
  exists l1, l2. split; [exact Hl|]. split; [exact H1|]. split; [exact H2|].
  apply (avlTree_Search_spec s t _ l1 l2 HR); [congruence| |].
  - apply Forall_forall. intros a Ha. rewrite Forall_forall in H1.
    pose proof (holds_key s l (fun x => k <=? x) a Hok) as Hh. simpl in Hh.
    rewrite (proj2 (Z.leb_gt _ _) (H1 a Ha)) in Hh. apply Hh. rewrite Hl. solve_in.
  - apply Forall_forall. intros a Ha. rewrite Forall_forall in H2.
    pose proof (holds_key s l (fun x => k <=? x) a Hok) as Hh. simpl in Hh.
    rewrite (proj2 (Z.leb_le _ _) (H2 a Ha)) in Hh. apply Hh. rewrite Hl. solve_in.
Qed.

(** X1. [avlTree.Insert] of a key that no node of the tree holds
    allocates a node that was not in the heap, gives it the key, links it
    at the place the order of the keys asks for, and rebalances: the result
    satisfies the invariant of the tree again, and the key, high and value
    of every other node are what they were. *)
Theorem avlTree_Insert_new_key (s : avlTree) l k :
  tree_ok s l -> k ∉ keys (nodes s) l ->
  exists n s' l1 l2, avlTree_Insert k s = Some (n, s')
    /\ nodes s !! n = None /\ l = l1 ++ l2 /\ tree_ok s' (l1 ++ n :: l2)
    /\ keys (nodes s') (l1 ++ n :: l2) = keys (nodes s) l1 ++ k :: keys (nodes s) l2
    /\ forall b, b <> n -> payload <$> nodes s' !! b = payload <$> nodes s !! b.
Proof.
  intros Hok Hk.
  destruct (tree_ok_Insert s l k Hok) as (n & s' & Hrun & Hcase).
  destruct Hcase as [(Hn & Hkn & _)|(Hnone & l1 & l2 & Hl & Hok' & _ & _ & Hpn & Hoth)].
  { exfalso. apply Hk. rewrite <- Hkn. now apply key_at_in_keys. }
  exists n, s', l1, l2. repeat (split; [assumption|]). split; [|exact Hoth].
  assert (Hn : forall a, a ∈ l -> a <> n).
  { intros a Ha ->. destruct (tree_ok_dom s l n Hok Ha) as (nd & Hnd). congruence. }
  rewrite keys_app. simpl.
  rewrite (keys_ext (nodes s) (nodes s') l1), (keys_ext (nodes s) (nodes s') l2).
  - do 2 f_equal. unfold key_at. destruct (nodes s' !! n) as [nd|]; [|discriminate].
    simpl in *. now injection Hpn as -> _ _.
  - intros a Ha. apply Hoth, Hn. subst l. solve_in.
  - intros a Ha. apply Hoth, Hn. subst l. solve_in.
Qed.

(** X2. [avlTree.Insert] of the key of a node of the tree returns that
    node and leaves the tree as it is. *)
Theorem avlTree_Insert_existing_key (s : avlTree) l a :
  tree_ok s l -> a ∈ l ->
  avlTree_Insert (key_at (nodes s) a) s = Some (a, s).
Proof.
  intros Hok Ha. set (k := key_at (nodes s) a).
  destruct (tree_ok_Insert s l k Hok) as (n & s' & Hrun & Hcase).
  rewrite Hrun. pose proof Hok as (_ & _ & _ & _ & Hs).
  destruct Hcase as [(Hn & Hkn & ->)|(_ & l1 & l2 & Hl & _ & Hlt & Hgt & _)].
  - destruct (decide (n = a)) as [->|Hna]; [reflexivity|exfalso].
    apply list_elem_of_split in Ha as (x & y & ->).
    rewrite keys_app in Hs. simpl in Hs.
    apply StronglySorted_app in Hs as (Hxy & _ & Hy).
    apply StronglySorted_cons in Hy as (Hay & _).
    rewrite Forall_forall in Hay. fold k in Hxy, Hay.
    apply elem_of_app in Hn as [Hn|Hn]; [|apply elem_of_cons in Hn as [->|Hn]].
    + specialize (Hxy _ k (key_at_in_keys (nodes s) n x Hn) ltac:(solve_in)). lia.
    + congruence.
    + specialize (Hay _ (key_at_in_keys (nodes s) n y Hn)). lia.
  - exfalso. rewrite Forall_forall in Hlt, Hgt. subst l.
    apply elem_of_app in Ha as [Ha|Ha].
    + specialize (Hlt a Ha). fold k in Hlt. lia.
    + specialize (Hgt a Ha). fold k in Hgt. lia.
Qed.

(** X3. [avlTree.Delete] of a node of the tree unlinks that node and no
    other: the other nodes stay linked, in the order they had, the
    invariant of the tree holds again, and no node, the deleted one
    included, changes its key, high or value (a node that an iterator
    holds keeps its identity). *)
Theorem avlTree_Delete_unlinks_node (s : avlTree) l n :
  tree_ok s l -> n ∈ l ->
  exists s' l1 l2, avlTree_Delete n s = Some s'
    /\ l = l1 ++ n :: l2 /\ tree_ok s' (l1 ++ l2)
    /\ same_payload s s'
    /\ forall m, linked s' m <-> m ∈ l /\ m <> n.
Proof.
  intros Hok Hn.
  destruct (tree_ok_Delete s l n Hok Hn) as (s' & l1 & l2 & Hrun & Hl & Hok' & Hpay).
  exists s', l1, l2. repeat (split; [assumption|]).
  intros m. rewrite (tree_ok_linked s' _ m Hok').
  pose proof (tree_ok_NoDup s l Hok) as Hnd. subst l.
  rewrite !elem_of_app, elem_of_cons. split.
  - intros Hm. split; [tauto|]. intros ->.
    destruct Hm as [Hm|Hm]; nodup_absurd Hnd n.
  - intros ([Hm|[->|Hm]] & Hne); tauto.
Qed.

(** X4. [avlTree.Search] returns the first node, in the order of the
    tree, on which the predicate holds, and nil when it holds on none,
    provided the predicate is monotone: false on a prefix of the nodes and
    true on the rest. *)
Theorem avlTree_Search_first (s : avlTree) pred l1 l2 :
  tree_ok s (l1 ++ l2) ->
  Forall (holds s pred false) l1 -> Forall (holds s pred true) l2 ->
  avlTree_Search pred s = Some (head l2).
Proof.
  intros (t & HR & _ & Hin & _) H1 H2.
  exact (avlTree_Search_spec s t pred l1 l2 HR Hin H1 H2).
Qed.

(** X5. [avlNode.Next] of a node of the tree returns the node that
    follows it in order, which has a larger key, and nil for the last
    node. *)
Theorem avlNode_Next_successor (s : avlTree) l1 a l2 :
  tree_ok s (l1 ++ a :: l2) ->
  avlNode_Next s a = Some (head l2)
  /\ forall b, head l2 = Some b -> key_at (nodes s) a < key_at (nodes s) b.
Proof.
  intros (t & HR & _ & Hin & Hs). split.
  - exact (avlNode_Next_spec s t l1 a l2 HR Hin).
  - intros b Hb. destruct l2 as [|b' l2]; [discriminate|]. injection Hb as ->.
    rewrite keys_app in Hs. simpl in Hs.
    apply StronglySorted_app in Hs as (_ & _ & Hs).
    apply StronglySorted_cons in Hs as (Hab & _).
    now apply Forall_cons in Hab as (Hab & _).
Qed.

(** X6. After every sequence of Insert and Delete calls on an empty
    tree, the walk of the test's [check] from the root reports no error
    (every parent pointer is the node the walk came from, every cached
    height is one more than the larger height below, no node is out of
    balance) and collects the keys in strictly increasing order. *)
Theorem walk_accepts_reachable (s : avlTree) :
  reachable s ->
  exists h got, walk (fuel s) s (root s) None ([], true) = Some (h, (got, true))
    /\ StronglySorted Z.lt got.
Proof.
  intros Hr. destruct (reachable_tree_ok s Hr) as (l & Hok).
  destruct (tree_ok_walk s l Hok) as (h & Hw).
  exists h, (keys (nodes s) l). split; [exact Hw|].
  destruct Hok as (_ & _ & _ & _ & Hs). exact Hs.
Qed.

(** X7. On every tree that Insert and Delete calls build from the empty
    tree, no call panics or runs forever: Insert returns for every key,
    and Delete and Next return for every node linked in the tree. *)
Theorem reachable_no_panic (s : avlTree) :
  reachable s ->
  (forall k, is_Some (avlTree_Insert k s))
  /\ (forall n, linked s n ->
        is_Some (avlTree_Delete n s) /\ is_Some (avlNode_Next s n)).
Proof.
  intros Hr. destruct (reachable_tree_ok s Hr) as (l & Hok). split.
  - intros k. destruct (tree_ok_Insert s l k Hok) as (n & s' & -> & _). eauto.
  - intros n Hn. apply (tree_ok_linked s l n Hok) in Hn. split.
    + destruct (tree_ok_Delete s l n Hok Hn) as (s' & _ & _ & -> & _). eauto.
    + destruct Hok as (t & HR & _ & Hin & _).
      apply list_elem_of_split in Hn as (l1 & l2 & ->).
      rewrite (avlNode_Next_spec s t l1 n l2 HR Hin). eauto.
Qed.

(** X8. [rotateRight] undoes [rotateLeft]: rotating the subtree
    [a(l, b(rl, rr))] to the left and the result to the right, at the same
    place, gives back the same shape with the same cached heights (when the
    heights cached in [a] and [b] were exact), and no key, high or value
    changes. *)
Theorem rotateLeft_rotateRight (s : avlTree) l a ha rl b hb rr c :
  Zip (T l a ha (T rl b hb rr)) c s ->
  hb = 1 + Z.max (hcache rl) (hcache rr) -> ha = 1 + Z.max (hcache l) hb ->
  exists s1 s2, rotateLeft (hole_loc c) s = Some s1
    /\ rotateRight (hole_loc c) s1 = Some s2
    /\ Zip (T l a ha (T rl b hb rr)) c s2
    /\ inorder (plug (T l a ha (T rl b hb rr)) c)
       = inorder (plug (T (T l a (1 + Z.max (hcache l) (hcache rl)) rl) b
                          (1 + Z.max (1 + Z.max (hcache l) (hcache rl)) (hcache rr)) rr) c)
    /\ same_payload s s2.
Proof.
  intros HZ Hb Ha.
  destruct (rotateLeft_spec s l a ha rl b hb rr c HZ) as (s1 & Hrun1 & HZ1 & Hp1).
  destruct (rotateRight_spec s1 _ _ _ _ _ _ _ c HZ1) as (s2 & Hrun2 & HZ2 & Hp2).
  exists s1, s2. split; [exact Hrun1|]. split; [exact Hrun2|].
  split; [|split].
  - rewrite Ha, Hb. exact HZ2.
  - rewrite !inorder_plug. simpl. repeat (rewrite <- app_assoc; simpl). reflexivity.
  - eapply same_payload_trans; eassumption.
Qed.

(** X9. A key that was inserted is found: after [Insert k], the search
    for the first key that is at least [k] returns the node that Insert
    returned. *)
Theorem avlTree_Insert_then_Search (s : avlTree) l k n s' :
  tree_ok s l -> avlTree_Insert k s = Some (n, s') ->
  avlTree_Search (fun nd => k <=? key nd) s' = Some (Some n).
Proof.
  intros Hok Hrun.
  destruct (tree_ok_Insert s l k Hok) as (n0 & s0 & Hrun0 & Hcase).
  rewrite Hrun in Hrun0. injection Hrun0 as <- <-.
  destruct Hcase as [(Hn & Hkn & ->)|(Hnone & l1 & l2 & Hl & Hok' & Hlt & Hgt & Hpn & Hoth)].
  - destruct (Search_key_spec s l k Hok) as (l1 & l2 & -> & H1 & H2 & ->).
    rewrite Forall_forall in H1.
    apply elem_of_app in Hn as [Hn|Hn]; [specialize (H1 n Hn); lia|].
    destruct l2 as [|b l2]; [inversion Hn|]. simpl.
    apply elem_of_cons in Hn as [->|Hn]; [reflexivity|exfalso].
    destruct Hok as (_ & _ & _ & _ & Hs). rewrite keys_app in Hs. simpl in Hs.
    apply StronglySorted_app in Hs as (_ & _ & Hs).
    apply StronglySorted_cons in Hs as (Hb & _). rewrite Forall_forall in Hb.
    specialize (Hb _ (key_at_in_keys (nodes s) n l2 Hn)).
    apply Forall_cons in H2 as (H2 & _). lia.
  - assert (Hn : forall a, a ∈ l -> a <> n).
    { intros a Ha ->. destruct (tree_ok_dom s l n Hok Ha) as (nd & Hnd). congruence. }
    assert (Hkn : key_at (nodes s') n = k).
    { unfold key_at. destruct (nodes s' !! n) as [nd|]; [|discriminate].
      simpl in *. now injection Hpn as -> _ _. }
    assert (Hk : forall a, a ∈ l -> key_at (nodes s') a = key_at (nodes s) a).
    { intros a Ha. apply key_at_payload, Hoth, Hn, Ha. }
    pose proof Hok' as (t' & HR' & _ & Hin' & _).
    rewrite (avlTree_Search_spec s' t' (fun nd => k <=? key nd) l1 (n :: l2) HR' Hin');
      [reflexivity| |].
    + apply Forall_forall. intros a Ha. rewrite Forall_forall in Hlt.
      pose proof (holds_key s' _ (fun x => k <=? x) a Hok' ltac:(solve_in)) as Hh.
      simpl in Hh. rewrite Hk in Hh by (subst l; solve_in).
      rewrite (proj2 (Z.leb_gt _ _) (Hlt a Ha)) in Hh. exact Hh.
    + apply Forall_forall. intros a Ha. rewrite Forall_forall in Hgt.
      pose proof (holds_key s' _ (fun x => k <=? x) a Hok' ltac:(solve_in)) as Hh.
      simpl in Hh. apply elem_of_cons in Ha as [->|Ha].
      * rewrite Hkn, Z.leb_refl in Hh. exact Hh.
      * rewrite Hk in Hh by (subst l; solve_in).
        rewrite (proj2 (Z.leb_le _ _)) in Hh; [exact Hh|].
        specialize (Hgt a Ha). lia.
Qed.

End AvlTheorems.

(** ** Example trees *)

(** The trees after [Insert(10)], [Insert(20)] and [Insert(30)] on an empty
    tree; the third insertion rotates the root to the left. *)
Definition demo1 : avlTree (V:=nat) :=
  mkTree (Some 0%nat) (<[0%nat := mkNode 10 None None None 1 0 None]> ∅).

Definition demo2 : avlTree (V:=nat) :=
  mkTree (Some 0%nat)
    (<[0%nat := mkNode 10 None (Some 1%nat) None 2 0 None]>
       (<[1%nat := mkNode 20 None None (Some 0%nat) 1 0 None]> ∅)).

Definition demo3 : avlTree (V:=nat) :=
  mkTree (Some 1%nat)
    (<[0%nat := mkNode 10 None None (Some 1%nat) 1 0 None]>
       (<[1%nat := mkNode 20 (Some 0%nat) (Some 2%nat) None 2 0 None]>
          (<[2%nat := mkNode 30 None None (Some 1%nat) 1 0 None]> ∅))).

Definition demo3_shape : shape := T (T E 0%nat 1 E) 1%nat 2 (T E 2%nat 1 E).

Ltac solve_sorted :=
  repeat first [ apply SSorted_nil | apply SSorted_cons | apply Forall_nil_2
               | apply Forall_cons_2 | reflexivity | lia ].

Ltac solve_NoDup :=
  repeat first [ apply NoDup_nil_2 | apply NoDup_cons_2 ];
  try (intros Hin; repeat (apply elem_of_cons in Hin as [Hin|Hin]; [discriminate|]);
       inversion Hin).

Ltac solve_Zip :=
  repeat split; try reflexivity; try (vm_compute; reflexivity);
  simpl; solve_NoDup.

Ltac solve_tree_ok t :=
  exists t; split; [|split; [|split]];
  [ solve_Zip
  | simpl; repeat split; lia
  | reflexivity
  | vm_compute; solve_sorted ].

Ltac solve_reach3 :=
  apply (reach_Insert demo2 30 2%nat demo3);
  [ apply (reach_Insert demo1 20 1%nat demo2);
    [ apply (reach_Insert (mkTree None ∅) 10 0%nat demo1);
      [ apply reach_empty | vm_compute; reflexivity ]
    | vm_compute; reflexivity ]
  | vm_compute; reflexivity ].

Lemma avlTree_Insert_new_key_witness :
  exists n s' l1 l2, avlTree_Insert 25 demo3 = Some (n, s')
    /\ nodes demo3 !! n = None /\ [0; 1; 2]%nat = l1 ++ l2
    /\ tree_ok s' (l1 ++ n :: l2)
    /\ keys (nodes s') (l1 ++ n :: l2)
       = keys (nodes demo3) l1 ++ 25 :: keys (nodes demo3) l2
    /\ forall b, b <> n -> payload <$> nodes s' !! b = payload <$> nodes demo3 !! b.
Proof.
  apply (avlTree_Insert_new_key demo3 [0; 1; 2]%nat 25).
  - solve_tree_ok demo3_shape.
  - vm_compute. intros Hin.
    repeat (apply elem_of_cons in Hin as [Hin|Hin]; [discriminate|]). inversion Hin.
Defined.

Lemma avlTree_Insert_existing_key_witness :
  avlTree_Insert (key_at (nodes demo3) 2%nat) demo3 = Some (2%nat, demo3).
Proof.
  apply (avlTree_Insert_existing_key demo3 [0; 1; 2]%nat 2%nat).
  - solve_tree_ok demo3_shape.
  - solve_in.
Defined.

Lemma avlTree_Delete_unlinks_node_witness :
  exists s' l1 l2, avlTree_Delete 1%nat demo3 = Some s'
    /\ [0; 1; 2]%nat = l1 ++ 1%nat :: l2 /\ tree_ok s' (l1 ++ l2)
    /\ same_payload demo3 s'
    /\ forall m, linked s' m <-> m ∈ [0; 1; 2]%nat /\ m <> 1%nat.
Proof.
  apply (avlTree_Delete_unlinks_node demo3 [0; 1; 2]%nat 1%nat).
  - solve_tree_ok demo3_shape.
  - solve_in.
Defined.

Lemma avlTree_Search_first_witness :
  avlTree_Search (fun n => 15 <=? key n) demo3 = Some (Some 1%nat).
Proof.
  apply (avlTree_Search_first demo3 (fun n => 15 <=? key n) [0%nat] [1; 2]%nat).
  - solve_tree_ok demo3_shape.
  - repeat constructor.
  - repeat constructor.
Defined.

Lemma avlNode_Next_successor_witness :
  avlNode_Next demo3 0%nat = Some (Some 1%nat)
  /\ forall b, Some 1%nat = Some b -> key_at (nodes demo3) 0%nat < key_at (nodes demo3) b.
Proof.
  apply (avlNode_Next_successor demo3 [] 0%nat [1; 2]%nat).
  solve_tree_ok demo3_shape.
Defined.

Lemma walk_accepts_reachable_witness :
  exists h got, walk (fuel demo3) demo3 (root demo3) None ([], true)
                = Some (h, (got, true))
    /\ StronglySorted Z.lt got.
Proof. apply (walk_accepts_reachable demo3). solve_reach3. Defined.

Lemma reachable_no_panic_witness :
  (forall k, is_Some (avlTree_Insert k demo3))
  /\ (forall n, linked demo3 n ->
        is_Some (avlTree_Delete n demo3) /\ is_Some (avlNode_Next demo3 n)).
Proof. apply (reachable_no_panic demo3). solve_reach3. Defined.

Lemma rotateLeft_rotateRight_witness :
  exists s1 s2, rotateLeft RootP demo2 = Some s1
    /\ rotateRight RootP s1 = Some s2
    /\ Zip (T E 0%nat 2 (T E 1%nat 1 E)) [] s2
    /\ inorder (T E 0%nat 2 (T E 1%nat 1 E))
       = inorder (T (T E 0%nat 1 E) 1%nat 2 E)
    /\ same_payload demo2 s2.
Proof.
  apply (rotateLeft_rotateRight demo2 E 0%nat 2 E 1%nat 1 E []).
  - solve_Zip.
  - reflexivity.
  - reflexivity.
Defined.

Lemma avlTree_Insert_then_Search_witness :
  exists n s', avlTree_Insert 25 demo3 = Some (n, s')
    /\ avlTree_Search (fun nd => 25 <=? key nd) s' = Some (Some n).
Proof.
  destruct (avlTree_Insert 25 demo3) as [[n s']|] eqn:Hrun.
  - exists n, s'. split; [reflexivity|].
    apply (avlTree_Insert_then_Search demo3 [0; 1; 2]%nat 25 n s'); [|exact Hrun].
    solve_tree_ok demo3_shape.
  - vm_compute in Hrun. discriminate Hrun.
Defined.

(** ** The height of a balanced tree *)




Section Height.
Context {V : Type} `{EqDecision V}.
Abbreviation avlTree := (avlTree (V:=V)).


End Height.


(** ** Prev *)

Section Prev.
Context {V : Type} `{EqDecision V}.
Abbreviation heap := (gmap nat (avlNode (V:=V))).
Abbreviation avlNode := (avlNode (V:=V)).
Abbreviation avlTree := (avlTree (V:=V)).

Definition is_FR (f : frame) : Prop :=
  match f with
  | FL _ _ _ => False
  | FR _ _ _ => True
  end.

Lemma after_FR c : Forall is_FR c -> after c = [].
Proof.
  induction 1 as [|f c Hf _ IH]; [reflexivity|].
  destruct f; [contradiction|exact IH].
Qed.

(** The rightmost node of a non-empty tree, below a spine of right frames. *)
Lemma rightmost_focus t :
  t <> E -> exists p hp pl cin, t = plug (T pl p hp E) cin /\ Forall is_FR cin.
Proof.
  induction t as [|l _ a hc r IHr]; [congruence|]. intros _.
  destruct r as [|rl b hb rr].
  - exists a, hc, l, []. split; [reflexivity|constructor].
  - destruct IHr as (p & hp & pl & cin & Heq & Hfr); [discriminate|].
    exists p, hp, pl, (cin ++ [FR l a hc]). rewrite plug_app, <- Heq.
    split; [reflexivity|]. apply Forall_app. split; [assumption|].
    repeat constructor.
Qed.

Lemma Prev_up_spec c : forall l a hc r (s : avlTree) fl,
  Zip (T l a hc r) c s -> (length c <= fl)%nat ->
  Prev_up fl s a = Some (last (before c)).
Proof.
  induction c as [|f c IH]; intros l a hc r s fl HZ Hfl.
  - destruct (Zip_node _ _ _ _ _ _ HZ) as (nd & Hnd & _ & _ & Hp & _).
    simpl in Hp. destruct fl; simpl; rewrite Hnd; simpl; rewrite Hp; reflexivity.
  - destruct (Zip_node _ _ _ _ _ _ HZ) as (nd & Hnd & _ & _ & Hp & _).
    simpl in Hp. simpl in Hfl. destruct fl as [|fl]; [lia|].
    pose proof HZ as HZf. apply Zip_fill in HZf.
    pose proof HZf as (_ & _ & _ & Hndp). apply NoDup_plug_inv in Hndp as (Hndt & _).
    destruct f as [p hcp rp|lp p hcp]; simpl in *.
    + destruct (Zip_node _ _ _ _ _ _ HZf) as (pd & Hpd & Hpl & _).
      rewrite Hnd. simpl. rewrite Hp, Hpd. simpl.
      rewrite decide_True by exact Hpl.
      apply (IH _ _ _ _ _ _ HZf). lia.
    + destruct (Zip_node _ _ _ _ _ _ HZf) as (pd & Hpd & Hpl & _).
      rewrite Hnd. simpl. rewrite Hp, Hpd. simpl.
      rewrite decide_False.
      * rewrite !app_assoc. now rewrite last_snoc.
      * rewrite Hpl. intros Hx. apply root_of_in in Hx. nodup_absurd Hndt a.
Qed.

Lemma Prev_down_spec cin : forall c (s : avlTree) p hp pl fl x,
  Forall is_FR cin ->
  Zip (T pl p hp E) (cin ++ c) s ->
  top_ptr cin (Some p) = Some x ->
  (length cin <= fl)%nat ->
  Prev_down fl s x = Some (Some p).
Proof.
  induction cin as [|f cin IH] using rev_ind; intros c s p hp pl fl x Hfr HZ Hx Hlen.
  - simpl in *. injection Hx as <-.
    destruct (Zip_node _ _ _ _ _ _ HZ) as (nd & Hnd & _ & Hr & _).
    destruct fl; simpl; rewrite Hnd; simpl; rewrite Hr; reflexivity.
  - apply Forall_app in Hfr as (Hfr & Hf). inversion Hf as [|? ? Hf1 _]; subst.
    destruct f as [|l a hc]; [contradiction|].
    rewrite top_ptr_app in Hx. simpl in Hx. injection Hx as <-.
    rewrite <- app_assoc in HZ. simpl in HZ.
    pose proof HZ as HZ'. apply Zip_plug in HZ'.
    pose proof (root_of_plug cin (T pl p hp E)) as Hroot. simpl in Hroot.
    apply Zip_fill in HZ'. simpl in HZ'.
    destruct (Zip_node _ _ _ _ _ _ HZ') as (nd & Hnd & _ & Hr & _).
    rewrite length_app in Hlen. simpl in Hlen.
    destruct fl as [|fl]; [lia|].
    simpl. rewrite Hnd. simpl. rewrite Hr, Hroot.
    destruct (top_ptr_Some cin p) as (y & Hy). rewrite Hy.
    apply (IH (FR l a hc :: c) s p hp pl fl y Hfr HZ Hy). lia.
Qed.

(** [Prev] returns the preceding node of the in-order sequence. *)
Lemma avlNode_Prev_spec (s : avlTree) t l1 a l2 :
  Repr t s -> inorder t = l1 ++ a :: l2 ->
  avlNode_Prev s a = Some (last l1).
Proof.
  intros HR Hin.
  assert (Ha : a ∈ inorder t) by (rewrite Hin; solve_in).
  destruct (tree_focus _ _ Ha) as (l & hc & r & c & ->).
  assert (HZ : Zip (T l a hc r) c s).
  { unfold Repr in HR. rewrite <- (app_nil_r c). now apply Zip_plug. }
  pose proof HZ as (_ & _ & _ & Hnd).
  rewrite inorder_plug in Hin, Hnd. simpl in Hin, Hnd.
  rewrite <- app_assoc in Hin, Hnd. simpl in Hin, Hnd. rewrite app_assoc in Hin, Hnd.
  destruct (NoDup_split_unique _ _ _ _ _ Hnd Hin) as (<- & _).
  destruct (Zip_node _ _ _ _ _ _ HZ) as (nd & Hndn & Hl & _).
  pose proof (Zip_fuel _ _ _ HZ) as Hfuel.
  unfold avlNode_Prev. rewrite Hndn. simpl. rewrite Hl.
  destruct l as [|ll L hl lr].
  - simpl. rewrite app_nil_r. apply (Prev_up_spec c _ _ _ _ _ _ HZ). lia.
  - destruct (rightmost_focus (T ll L hl lr) ltac:(discriminate))
      as (p & hp & pl & cin & Heq & Hfr).
    rewrite Heq in *. clear Heq.
    assert (HZS : Zip (T pl p hp E) (cin ++ FL a hc r :: c) s).
    { apply Zip_plug. apply Zip_fill. exact HZ. }
    rewrite root_of_plug. simpl root_of.
    destruct (top_ptr_Some cin p) as (x & Hx). rewrite Hx. simpl.
    rewrite (Prev_down_spec cin _ s p hp pl (fuel s) x Hfr HZS Hx).
    + rewrite inorder_plug, (after_FR _ Hfr). simpl. rewrite app_nil_r.
      rewrite !app_assoc. now rewrite last_snoc.
    + pose proof (Zip_fuel _ _ _ HZS) as Hf. rewrite length_app in Hf. lia.
Qed.

(** X11. [avlNode.Prev] of a node of the tree returns the node that
    precedes it in order, which has a smaller key, and nil for the first
    node; [Next] of that result is the node again. *)
Theorem avlNode_Prev_predecessor (s : avlTree) l1 a l2 :
  tree_ok s (l1 ++ a :: l2) ->
  avlNode_Prev s a = Some (last l1)
  /\ forall b, last l1 = Some b ->
       key_at (nodes s) b < key_at (nodes s) a
       /\ avlNode_Next s b = Some (Some a).
Proof.
  intros (t & HR & _ & Hin & Hs). split.
  - exact (avlNode_Prev_spec s t l1 a l2 HR Hin).
  - intros b Hb. destruct l1 as [|x l1] using rev_ind; [discriminate|].
    rewrite last_snoc in Hb. injection Hb as ->. split.
    + rewrite keys_app in Hs. apply StronglySorted_app in Hs as (Hs & _ & _).
      apply Hs; apply key_at_in_keys; solve_in.
    + rewrite <- app_assoc in Hin. simpl in Hin.
      exact (avlNode_Next_spec s t l1 b (a :: l2) HR Hin).
Qed.

End Prev.

Lemma avlNode_Prev_predecessor_witness :
  avlNode_Prev demo3 2%nat = Some (Some 1%nat)
  /\ forall b, Some 1%nat = Some b ->
       key_at (nodes demo3) b < key_at (nodes demo3) 2%nat
       /\ avlNode_Next demo3 b = Some (Some 2%nat).
Proof.
  apply (avlNode_Prev_predecessor demo3 [0; 1]%nat 2%nat []).
  solve_tree_ok demo3_shape.
Defined.

(** ** Theorems on interval.go *)

Lemma Interval_Contains_spec i a :
  Interval_Contains i a = true <-> Low i <= a < High i.
Proof. unfold Interval_Contains. rewrite andb_true_iff, Z.leb_le, Z.ltb_lt. tauto. Qed.

Lemma Subtract_below_spec i o a :
  Interval_Contains (fst (Interval_Subtract i o)) a = true <-> Low i <= a < Low o.
Proof.
  unfold Interval_Subtract. simpl. destruct (Low i <? Low o) eqn:Hlt.
  - rewrite Interval_Contains_spec. simpl. tauto.
  - apply Z.ltb_ge in Hlt. rewrite Interval_Contains_spec. simpl. lia.
Qed.

Lemma Subtract_above_spec i o a :
  Interval_Contains (snd (Interval_Subtract i o)) a = true <-> High o <= a < High i.
Proof.
  unfold Interval_Subtract. simpl. destruct (High o <? High i) eqn:Hlt.
  - rewrite Interval_Contains_spec. simpl. tauto.
  - apply Z.ltb_ge in Hlt. rewrite Interval_Contains_spec. simpl. lia.
Qed.

(** [Interval.Empty] holds exactly of the intervals that contain no
    address. *)
Lemma Interval_Empty_iff_contains_nothing i :
  Interval_Empty i = true <-> forall a, Interval_Contains i a = false.
Proof.
  unfold Interval_Empty. rewrite Z.leb_le. split.
  - intros He a. apply not_true_is_false. rewrite Interval_Contains_spec. lia.
  - intros Hn. specialize (Hn (Low i)). apply not_true_iff_false in Hn.
    rewrite Interval_Contains_spec in Hn. lia.
Qed.

(** X10. [Interval.Subtract] of [o] from an interval [i] that overlaps
    or abuts [o] returns the difference: an address is in [below] or in
    [above] exactly when it is in [i] and not in [o]; [below] lies under
    [o] and [above] over it. *)
Theorem Interval_Subtract_difference i o a :
  Low o <= High i -> Low i <= High o ->
  let '(below, above) := Interval_Subtract i o in
  (Interval_Contains below a = true \/ Interval_Contains above a = true
   <-> Interval_Contains i a = true /\ Interval_Contains o a = false)
  /\ (Interval_Contains below a = true -> a < Low o)
  /\ (Interval_Contains above a = true -> High o <= a).
Proof.
  intros H1 H2. destruct (Interval_Subtract i o) as [below above] eqn:Hs.
  pose proof (Subtract_below_spec i o a) as Hb.
  pose proof (Subtract_above_spec i o a) as Ha.
  rewrite Hs in Hb, Ha. simpl in Hb, Ha.
  rewrite Hb, Ha, Interval_Contains_spec, <- not_true_iff_false, Interval_Contains_spec.
  repeat split; lia.
Qed.

Lemma Interval_Subtract_difference_witness :
  let '(below, above) := Interval_Subtract (mkInterval 0 10) (mkInterval 4 6) in
  (Interval_Contains below 7 = true \/ Interval_Contains above 7 = true
   <-> Interval_Contains (mkInterval 0 10) 7 = true
       /\ Interval_Contains (mkInterval 4 6) 7 = false)
  /\ (Interval_Contains below 7 = true -> 7 < Low (mkInterval 4 6))
  /\ (Interval_Contains above 7 = true -> High (mkInterval 4 6) <= 7).
Proof.
  apply (Interval_Subtract_difference (mkInterval 0 10) (mkInterval 4 6) 7); simpl; lia.
Defined.

(** [Interval.Subtract] does not clip its results to [i]: whatever
    the two intervals, [below] is [[i.Low, o.Low)] and [above] is
    [[o.High, i.High)], so for an [i] that ends before [o] begins, [below]
    reaches over the gap up to [o.Low]. *)
Lemma Interval_Subtract_unclipped i o a :
  (Interval_Contains (fst (Interval_Subtract i o)) a = true <-> Low i <= a < Low o)
  /\ (Interval_Contains (snd (Interval_Subtract i o)) a = true <-> High o <= a < High i).
Proof. split; [apply Subtract_below_spec|apply Subtract_above_spec]. Qed.

(** * The interval map as a list of entries

    The nodes of the tree, read in order, are a list of entries
    [(low, high, value)].  [ins] is what [Imap.Insert] does to this list;
    the refinement is proved further down. *)

Section ImapPure.
Context {V : Type} `{EqDecision V}.

Abbreviation entry := (Z * Z * option V)%type.

(** The entries are sorted, not empty and disjoint, above the bound [b];
    two entries that abut hold different values ([pv] is the value of an
    entry that ends at [b], if there is one). *)
Fixpoint canon_from (b : Z) (pv : option (option V)) (es : list entry) : Prop :=
  match es with
  | [] => True
  | (k, h, v0) :: es' =>
      b <= k /\ (b = k -> pv <> Some v0) /\ k < h /\ canon_from h (Some v0) es'
  end.

Fixpoint disj_from (b : Z) (es : list entry) : Prop :=
  match es with
  | [] => True
  | (k, h, _) :: es' => b <= k /\ k < h /\ disj_from h es'
  end.

(** The entry that covers an address. *)
Fixpoint find_entry (es : list entry) (x : Z) : option entry :=
  match es with
  | [] => None
  | (k, h, v0) :: es' =>
      if decide (k <= x < h) then Some (k, h, v0) else find_entry es' x
  end.

Definition val_at (es : list entry) (x : Z) : option (option V) :=
  snd <$> find_entry es x.

(** The rest of the loop of [Insert], on entries that start at [low] or
    above: entries that end by [hi] go, an entry that reaches over [hi]
    is cut to start at [hi]. *)
Fixpoint rest (hi : Z) (B : list entry) : list entry :=
  match B with
  | [] => []
  | (k, h, v0) :: B' =>
      if decide (k < hi) then
        if decide (hi < h) then (hi, h, v0) :: B' else rest hi B'
      else B
  end.

(** The end of [Insert] when no predecessor takes the new interval: the
    successor takes it, or a new entry is made. *)
Definition finish (lo hi : Z) (v : option V) (R : list entry) : list entry :=
  match R with
  | (k', h', v') :: R' =>
      if decide (k' = hi /\ v' = v) then (lo, h', v') :: R' else (lo, hi, v) :: R
  | [] => [(lo, hi, v)]
  end.

(** The end of [Insert] when the predecessor [(k, _, v0)] takes the new
    interval, and the successor too if it abuts with the same value. *)
Definition merge_into (k hi : Z) (v0 v : option V) (R : list entry) : list entry :=
  match R with
  | (k', h', v') :: R' =>
      if decide (k' = hi /\ v' = v) then (k, h', v0) :: R' else (k, hi, v0) :: R
  | [] => [(k, hi, v0)]
  end.

(** [Insert] from the first entry that does not end before [lo]. *)
Definition ins_at (lo hi : Z) (v : option V) (B : list entry) : list entry :=
  match B with
  | [] => [(lo, hi, v)]
  | (k, h, v0) :: B1 =>
      if decide (k < lo) then
        if decide (hi < h) then
          if decide (v0 = v) then B
          else (k, lo, v0) :: (lo, hi, v) :: (hi, h, v0) :: B1
        else
          if decide (v0 = v) then merge_into k hi v0 v (rest hi B1)
          else (k, lo, v0) :: finish lo hi v (rest hi B1)
      else finish lo hi v (rest hi B)
  end.

Fixpoint ins (lo hi : Z) (v : option V) (es : list entry) : list entry :=
  match es with
  | [] => [(lo, hi, v)]
  | (k, h, v0) :: es' =>
      if decide (h < lo) then (k, h, v0) :: ins lo hi v es'
      else ins_at lo hi v es
  end.

(** What [Find] returns, on the entries. *)
Fixpoint first_above (es : list entry) (x : Z) : option entry :=
  match es with
  | [] => None
  | (k, h, v0) :: es' => if decide (x < h) then Some (k, h, v0) else first_above es' x
  end.

Definition Find_entries (es : list entry) (x : Z) : Interval * option V :=
  match first_above es x with
  | Some (k, h, v0) =>
      if decide (k <= x) then (mkInterval k h, v0) else (mkInterval 0 0, None)
  | None => (mkInterval 0 0, None)
  end.

Lemma canon_disj es : forall b pv, canon_from b pv es -> disj_from b es.
Proof.
  induction es as [|[[k h] v0] es IH]; intros b pv; simpl; [tauto|].
  intros (? & _ & ? & Hc). eauto.
Qed.

Lemma disj_from_weaken es b b' : b' <= b -> disj_from b es -> disj_from b' es.
Proof. destruct es as [|[[k h] v0] es]; simpl; [tauto|]. intros ? (? & ? & ?). repeat split; auto; lia. Qed.

Lemma find_entry_below es : forall b x, disj_from b es -> x < b -> find_entry es x = None.
Proof.
  induction es as [|[[k h] v0] es IH]; intros b x; simpl; [reflexivity|].
  intros (? & ? & Hd) Hx. rewrite decide_False by lia. apply (IH h); [assumption|lia].
Qed.

Lemma val_at_below es b x : disj_from b es -> x < b -> val_at es x = None.
Proof. intros. unfold val_at. now rewrite (find_entry_below es b). Qed.

Lemma val_at_cons k h v0 es x :
  val_at ((k, h, v0) :: es) x = if decide (k <= x < h) then Some v0 else val_at es x.
Proof. unfold val_at. simpl. destruct (decide _); reflexivity. Qed.

Lemma val_at_nil x : val_at [] x = None.
Proof. reflexivity. Qed.

Ltac vcases :=
  repeat destruct (decide _);
  first [ reflexivity | lia | congruence
        | eapply val_at_below; [eassumption|lia]
        | symmetry; eapply val_at_below; [eassumption|lia] ].

(** ** [rest] *)

Lemma rest_disj hi B : forall b, disj_from b B -> disj_from hi (rest hi B).
Proof.
  induction B as [|[[k h] v0] B IH]; intros b; simpl; [tauto|].
  intros (Hb & Hk & Hd).
  destruct (decide (k < hi)); [destruct (decide (hi < h))|].
  - simpl. repeat split; try lia; assumption.
  - eapply IH; eassumption.
  - simpl. repeat split; try lia; assumption.
Qed.

Lemma rest_disj_max hi B : forall b, disj_from b B -> disj_from (Z.max b hi) (rest hi B).
Proof.
  induction B as [|[[k h] v0] B IH]; intros b; simpl; [tauto|].
  intros (Hb & Hk & Hd).
  destruct (decide (k < hi)); [destruct (decide (hi < h))|].
  - simpl. repeat split; try lia; assumption.
  - eapply disj_from_weaken; [|apply (IH h Hd)]. lia.
  - simpl. repeat split; try lia; assumption.
Qed.

Lemma rest_canon hi B : forall b pv, canon_from b pv B -> canon_from hi None (rest hi B).
Proof.
  induction B as [|[[k h] v0] B IH]; intros b pv; simpl; [tauto|].
  intros (Hb & Hpv & Hk & Hc).
  destruct (decide (k < hi)); [destruct (decide (hi < h))|].
  - simpl. repeat split; try lia; [congruence|assumption].
  - eapply IH; eassumption.
  - simpl. repeat split; try lia; [congruence|assumption].
Qed.

Lemma rest_val hi B x : forall b, disj_from b B ->
  val_at (rest hi B) x = if decide (x < hi) then None else val_at B x.
Proof.
  induction B as [|[[k h] v0] B IH]; intros b; simpl.
  - intros _. destruct (decide _); reflexivity.
  - intros (Hb & Hk & Hd).
    destruct (decide (k < hi)); [destruct (decide (hi < h))|].
    + rewrite !val_at_cons. vcases.
    + rewrite (IH h Hd), val_at_cons.
      vcases.
    + rewrite !val_at_cons. vcases.
Qed.

(** ** [finish] and [merge_into] *)

Lemma finish_canon lo hi v R b pv :
  lo < hi -> b <= lo -> (b = lo -> pv <> Some v) ->
  canon_from hi None R -> canon_from b pv (finish lo hi v R).
Proof.
  intros Hlh Hb Hpv. destruct R as [|[[k' h'] v'] R']; simpl.
  - intros _. repeat split; auto.
  - intros (Hk' & _ & Hkh & Hc). destruct (decide (k' = hi /\ v' = v)) as [(-> & ->)|Hn].
    + simpl. repeat split; auto. lia.
    + simpl. repeat split; auto.
      intros <- [= <-]. auto.
Qed.

Lemma finish_val lo hi v R x :
  lo < hi -> disj_from hi R ->
  val_at (finish lo hi v R) x = if decide (lo <= x < hi) then Some v else val_at R x.
Proof.
  intros Hlh. destruct R as [|[[k' h'] v'] R']; simpl.
  - intros _. rewrite val_at_cons. reflexivity.
  - intros (Hk' & Hkh & Hd). destruct (decide (k' = hi /\ v' = v)) as [(-> & ->)|Hn].
    + rewrite !val_at_cons. vcases.
    + rewrite !val_at_cons. reflexivity.
Qed.

Lemma merge_into_canon k hi v R b pv :
  k < hi -> b <= k -> (b = k -> pv <> Some v) ->
  canon_from hi None R -> canon_from b pv (merge_into k hi v v R).
Proof.
  intros Hlh Hb Hpv. destruct R as [|[[k' h'] v'] R']; simpl.
  - intros _. repeat split; auto.
  - intros (Hk' & _ & Hkh & Hc). destruct (decide (k' = hi /\ v' = v)) as [(-> & ->)|Hn].
    + simpl. repeat split; auto. lia.
    + simpl. repeat split; auto.
      intros <- [= <-]. auto.
Qed.

Lemma merge_into_val k hi v R x :
  k < hi -> disj_from hi R ->
  val_at (merge_into k hi v v R) x = if decide (k <= x < hi) then Some v else val_at R x.
Proof.
  intros Hlh. destruct R as [|[[k' h'] v'] R']; simpl.
  - intros _. rewrite val_at_cons. reflexivity.
  - intros (Hk' & Hkh & Hd). destruct (decide (k' = hi /\ v' = v)) as [(-> & ->)|Hn].
    + rewrite !val_at_cons. vcases.
    + rewrite !val_at_cons. reflexivity.
Qed.

(** ** [ins] keeps the entries canonical and overwrites [[lo, hi)] *)

Lemma ins_at_canon lo hi v B b pv :
  lo < hi -> b <= lo -> (b = lo -> pv <> Some v) ->
  canon_from b pv B -> canon_from b pv (ins_at lo hi v B).
Proof.
  intros Hlh Hb Hpv. destruct B as [|[[k h] v0] B1]; simpl.
  - intros _. repeat split; auto.
  - intros (Hbk & Hpk & Hkh & Hc).
    pose proof (rest_canon hi B1 _ _ Hc) as HR.
    destruct (decide (k < lo)); [destruct (decide (hi < h))|].
    + destruct (decide (v0 = v)) as [->|Hv].
      * simpl. auto.
      * simpl. repeat split; auto; try lia; intros _ [= ?]; congruence.
    + destruct (decide (v0 = v)) as [->|Hv].
      * apply merge_into_canon; auto. lia.
      * simpl. repeat split; auto.
        apply finish_canon; auto; [lia|congruence].
    + apply finish_canon; auto.
      apply (rest_canon hi ((k, h, v0) :: B1) b pv). simpl. auto.
Qed.

Lemma ins_canon lo hi v es : forall b pv,
  lo < hi -> b <= lo -> (b = lo -> pv <> Some v) ->
  canon_from b pv es -> canon_from b pv (ins lo hi v es).
Proof.
  induction es as [|[[k h] v0] es IH]; intros b pv Hlh Hb Hpv Hc.
  - simpl. repeat split; auto.
  - cbn [ins]. destruct (decide (h < lo)).
    + simpl in Hc. destruct Hc as (? & ? & ? & Hc). cbn [canon_from]. repeat split; auto.
      apply IH; auto; lia.
    + apply ins_at_canon; auto.
Qed.

Lemma ins_at_val lo hi v B b x :
  lo < hi -> disj_from b B ->
  match B with (_, h, _) :: _ => lo <= h | [] => True end ->
  val_at (ins_at lo hi v B) x
  = if decide (lo <= x < hi) then Some v else val_at B x.
Proof.
  intros Hlh Hd Hhead. destruct B as [|[[k h] v0] B1]; cbn [ins_at].
  - rewrite val_at_cons. reflexivity.
  - simpl in Hd. destruct Hd as (Hbk & Hkh & Hd).
    pose proof (rest_disj hi B1 h Hd) as HR.
    pose proof (rest_val hi B1 x h Hd) as HRv.
    destruct (decide (k < lo)); [destruct (decide (hi < h))|].
    + destruct (decide (v0 = v)) as [->|Hv].
      * rewrite !val_at_cons. vcases.
      * rewrite !val_at_cons. vcases.
    + destruct (decide (v0 = v)) as [->|Hv].
      * rewrite merge_into_val, HRv, !val_at_cons by (assumption || lia).
        vcases.
      * rewrite val_at_cons, finish_val, HRv, !val_at_cons by (assumption || lia).
        vcases.
    + rewrite finish_val by
        (try assumption; apply (rest_disj hi ((k, h, v0) :: B1) b); simpl; auto).
      rewrite (rest_val hi ((k, h, v0) :: B1) x b) by (simpl; auto).
      rewrite !val_at_cons.
      vcases.
Qed.

Lemma ins_val lo hi v es x : forall b,
  lo < hi -> disj_from b es ->
  val_at (ins lo hi v es) x
  = if decide (lo <= x < hi) then Some v else val_at es x.
Proof.
  induction es as [|[[k h] v0] es IH]; intros b Hlh Hd.
  - simpl. rewrite val_at_cons. reflexivity.
  - cbn [ins]. destruct (decide (h < lo)).
    + simpl in Hd. destruct Hd as (? & ? & Hd).
      rewrite !val_at_cons, (IH h) by assumption.
      vcases.
    + apply (ins_at_val lo hi v _ b); [assumption|assumption|]. lia.
Qed.

(** ** [Find] on the entries *)

Lemma Find_entries_find es x : forall b,
  disj_from b es ->
  Find_entries es x
  = match find_entry es x with
    | Some (k, h, v0) => (mkInterval k h, v0)
    | None => (mkInterval 0 0, None)
    end.
Proof.
  unfold Find_entries.
  induction es as [|[[k h] v0] es IH]; intros b; simpl; [reflexivity|].
  intros (Hb & Hk & Hd).
  destruct (decide (x < h)) as [Hx|Hx].
  - destruct (decide (k <= x)) as [Hkx|Hkx].
    + rewrite decide_True by lia. reflexivity.
    + rewrite decide_False by lia.
      rewrite (find_entry_below es h x Hd) by lia. reflexivity.
  - rewrite decide_False by lia. apply (IH h Hd).
Qed.

Lemma find_entry_in es x k h v0 :
  find_entry es x = Some (k, h, v0) -> k <= x < h /\ (k, h, v0) ∈ es.
Proof.
  induction es as [|[[k1 h1] v1] es IH]; simpl; [discriminate|].
  destruct (decide (k1 <= x < h1)).
  - intros [= -> -> ->]. split; [assumption|]. apply elem_of_cons. auto.
  - intros Hf. destruct (IH Hf). split; [assumption|]. apply elem_of_cons. auto.
Qed.

Lemma disj_lower es : forall b e,
  disj_from b es -> e ∈ es -> b <= e.1.1 /\ e.1.1 < e.1.2.
Proof.
  induction es as [|[[k h] v0] es IH]; intros b e; simpl.
  - intros _ Hin. inversion Hin.
  - intros (Hb & Hk & Hd) Hin. apply elem_of_cons in Hin as [->|Hin].
    + simpl. lia.
    + destruct (IH h e Hd Hin). lia.
Qed.

Lemma find_entry_head_value es x k h v0 : forall b pv,
  canon_from b pv es -> find_entry es x = Some (k, h, v0) -> b = k -> pv <> Some v0.
Proof.
  destruct es as [|[[k1 h1] v1] es]; intros b pv; simpl; [discriminate|].
  intros (Hb & Hpv & Hk & Hc). destruct (decide (k1 <= x < h1)).
  - intros [= -> -> ->]. exact Hpv.
  - intros Hf Hbk. exfalso.
    pose proof (disj_lower es h1 _ (canon_disj _ _ _ Hc)
                  (proj2 (find_entry_in _ _ _ _ _ Hf))) as Hl.
    simpl in Hl. lia.
Qed.

(** The interval of an entry is a maximal run of its value. *)
Lemma find_entry_run es x k h v0 : forall b pv,
  canon_from b pv es -> find_entry es x = Some (k, h, v0) ->
  (forall y, k <= y < h -> val_at es y = Some v0)
  /\ val_at es (k - 1) <> Some v0
  /\ val_at es h <> Some v0.
Proof.
  induction es as [|[[k1 h1] v1] es IH]; intros b pv; simpl; [discriminate|].
  intros (Hb & Hpv & Hk & Hc). pose proof (canon_disj _ _ _ Hc) as Hd.
  destruct (decide (k1 <= x < h1)) as [Hx|Hx].
  - intros [= -> -> ->]. split; [|split].
    + intros y Hy. rewrite val_at_cons, decide_True by lia. reflexivity.
    + rewrite val_at_cons, decide_False by lia.
      rewrite (val_at_below es h (k - 1)) by (assumption || lia). discriminate.
    + rewrite val_at_cons, decide_False by lia.
      destruct (find_entry es h) as [[[k2 h2] v2]|] eqn:Hf.
      * unfold val_at. rewrite Hf. simpl. intros [= ->].
        pose proof (proj1 (find_entry_in _ _ _ _ _ Hf)) as Hin.
        pose proof (disj_lower es h _ Hd (proj2 (find_entry_in _ _ _ _ _ Hf))) as Hl.
        simpl in Hl.
        eapply (find_entry_head_value es h k2 h2 v0 h (Some v0) Hc Hf); [lia|reflexivity].
      * unfold val_at. rewrite Hf. discriminate.
  - intros Hf. destruct (IH h1 (Some v1) Hc Hf) as (Hrun & Hlo & Hhi).
    pose proof (proj1 (find_entry_in _ _ _ _ _ Hf)) as Hin.
    pose proof (disj_lower es h1 _ Hd (proj2 (find_entry_in _ _ _ _ _ Hf))) as Hk1.
    simpl in Hk1.
    split; [|split].
    + intros y Hy. rewrite val_at_cons, decide_False by lia. auto.
    + rewrite val_at_cons. destruct (decide (k1 <= k - 1 < h1)) as [Hin1|Hin1].
      * intros [= ->].
        eapply (find_entry_head_value es x k h v0 h1 (Some v0) Hc Hf); [lia|reflexivity].
      * exact Hlo.
    + rewrite val_at_cons, decide_False by lia. exact Hhi.
Qed.

(** Canonical entries are determined by the values they give. *)
Lemma canon_head_val es : forall b pv v0,
  canon_from b pv es -> pv = Some v0 -> val_at es b <> Some v0.
Proof.
  destruct es as [|[[k h] v1] es]; intros b pv v0; simpl; [discriminate|].
  intros (Hb & Hpv & Hk & Hc) ->. rewrite val_at_cons.
  destruct (decide (k <= b < h)).
  - intros [= ->]. apply Hpv; [lia|reflexivity].
  - rewrite (val_at_below es h b (canon_disj _ _ _ Hc)) by lia. discriminate.
Qed.

Lemma canon_unique es1 : forall es2 b pv,
  canon_from b pv es1 -> canon_from b pv es2 ->
  (forall x, val_at es1 x = val_at es2 x) -> es1 = es2.
Proof.
  induction es1 as [|[[k1 h1] v1] r1 IH]; intros [|[[k2 h2] v2] r2] b pv; simpl.
  - reflexivity.
  - intros _ (_ & _ & Hk & _) Hv. specialize (Hv k2).
    rewrite val_at_cons, decide_True in Hv by lia. discriminate.
  - intros (_ & _ & Hk & _) _ Hv. specialize (Hv k1).
    rewrite val_at_cons, decide_True in Hv by lia. discriminate.
  - intros (Hb1 & Hp1 & Hk1 & Hc1) (Hb2 & Hp2 & Hk2 & Hc2) Hv.
    pose proof (canon_disj _ _ _ Hc1) as Hd1. pose proof (canon_disj _ _ _ Hc2) as Hd2.
    assert (k1 = k2) as <-.
    { destruct (Z.lt_trichotomy k1 k2) as [Hlt|[Heq|Hgt]]; [exfalso|exact Heq|exfalso].
      - specialize (Hv k1). rewrite !val_at_cons, decide_True, decide_False in Hv by lia.
        rewrite (val_at_below r2 h2 k1) in Hv by (assumption || lia). discriminate.
      - specialize (Hv k2). rewrite !val_at_cons, decide_False, decide_True in Hv by lia.
        rewrite (val_at_below r1 h1 k2) in Hv by (assumption || lia). discriminate. }
    assert (v1 = v2) as <-.
    { specialize (Hv k1). rewrite !val_at_cons, !decide_True in Hv by lia. congruence. }
    assert (h1 = h2) as <-.
    { destruct (Z.lt_trichotomy h1 h2) as [Hlt|[Heq|Hgt]]; [exfalso|exact Heq|exfalso].
      - specialize (Hv h1). rewrite !val_at_cons, decide_False, decide_True in Hv by lia.
        exact (canon_head_val r1 h1 (Some v1) v1 Hc1 eq_refl Hv).
      - specialize (Hv h2). rewrite !val_at_cons, decide_True, decide_False in Hv by lia.
        symmetry in Hv. exact (canon_head_val r2 h2 (Some v1) v1 Hc2 eq_refl Hv). }
    f_equal. apply (IH r2 h1 (Some v1) Hc1 Hc2). intros x.
    destruct (decide (x < h1)) as [Hx|Hx].
    + rewrite (val_at_below r1 h1 x), (val_at_below r2 h1 x) by (assumption || lia).
      reflexivity.
    + specialize (Hv x). rewrite !val_at_cons, !decide_False in Hv by lia. exact Hv.
Qed.

End ImapPure.

(** * The interval map in the heap refines the list of entries *)

Lemma app_eq_split_by {A} (P Q : A -> Prop) (l1 l2 x y : list A) :
  (forall a, P a -> Q a -> False) ->
  l1 ++ l2 = x ++ y -> Forall P l1 -> Forall Q l2 -> Forall P x -> Forall Q y ->
  l1 = x /\ l2 = y.
Proof.
  intros HPQ. revert x. induction l1 as [|a l1 IH]; intros [|b x]; simpl; intros Heq H1 H2 Hx Hy.
  - auto.
  - subst l2. apply Forall_cons in H2 as (Hb & _). apply Forall_cons in Hx as (Hb' & _).
    exfalso. eauto.
  - subst y. apply Forall_cons in H1 as (Ha & _). apply Forall_cons in Hy as (Ha' & _).
    exfalso. eauto.
  - injection Heq as -> Heq. apply Forall_cons in H1 as (_ & H1).
    apply Forall_cons in Hx as (_ & Hx).
    destruct (IH x Heq H1 H2 Hx Hy) as (-> & ->). auto.
Qed.

Section ImapHeap.
Context {V : Type} `{EqDecision V}.
Abbreviation heap := (gmap nat (avlNode (V:=V))).
Abbreviation avlNode := (avlNode (V:=V)).
Abbreviation avlTree := (avlTree (V:=V)).
Abbreviation entry := (Z * Z * option V)%type.

(** The entry of the node at an address, and of the nodes of a list. *)
Definition ent (h : heap) (a : nat) : entry :=
  default (0, 0, None) (payload <$> h !! a).

Definition ents (h : heap) (l : list nat) : list entry := ent h <$> l.

(** The heap holds a balanced tree whose nodes are, in order, [l]. *)
Definition shape_ok (s : avlTree) (l : list nat) : Prop :=
  exists t, Repr t s /\ avl t /\ inorder t = l.

Lemma ent_Some (h : heap) a nd : h !! a = Some nd -> ent h a = (key nd, high nd, value nd).
Proof. intros Hnd. unfold ent. rewrite Hnd. reflexivity. Qed.

Lemma ent_payload (h h' : heap) a :
  payload <$> h' !! a = payload <$> h !! a -> ent h' a = ent h a.
Proof. unfold ent. intros ->. reflexivity. Qed.

Lemma ents_ext (h h' : heap) l :
  (forall a, a ∈ l -> payload <$> h' !! a = payload <$> h !! a) ->
  ents h' l = ents h l.
Proof.
  intros Hext. unfold ents. apply list_fmap_ext. intros i a Hi.
  apply ent_payload, Hext. eapply list_elem_of_lookup_2. exact Hi.
Qed.

Lemma ents_app (h : heap) l1 l2 : ents h (l1 ++ l2) = ents h l1 ++ ents h l2.
Proof. unfold ents. apply fmap_app. Qed.

Lemma key_at_ent (h : heap) a : key_at h a = (ent h a).1.1.
Proof. unfold key_at, ent. destruct (h !! a); reflexivity. Qed.

Lemma disj_keys_lower (h : heap) l : forall b,
  disj_from b (ents h l) -> Forall (fun x => b <= x) (keys h l).
Proof.
  induction l as [|a l IH]; intros b; simpl; [constructor|].
  rewrite key_at_ent. destruct (ent h a) as [[k hh] v0]. simpl.
  intros (Hb & Hk & Hd). constructor; [exact Hb|].
  eapply Forall_impl; [apply (IH hh Hd)|]. simpl. intros. lia.
Qed.

Lemma disj_sorted (h : heap) l : forall b,
  disj_from b (ents h l) -> StronglySorted Z.lt (keys h l).
Proof.
  induction l as [|a l IH]; intros b; simpl; [constructor|].
  pose proof (key_at_ent h a) as Hk. destruct (ent h a) as [[k hh] v0] eqn:He.
  simpl in Hk. intros (Hb & Hkh & Hd).
  apply StronglySorted_cons. split; [|eapply IH; eassumption].
  eapply Forall_impl; [apply (disj_keys_lower h l hh Hd)|]. simpl. intros. lia.
Qed.

Lemma shape_tree_ok (s : avlTree) l b :
  shape_ok s l -> disj_from b (ents (nodes s) l) -> tree_ok s l.
Proof.
  intros (t & HR & Havl & Hin) Hd. exists t.
  split; [exact HR|]. split; [exact Havl|]. split; [exact Hin|].
  eapply disj_sorted. exact Hd.
Qed.

Lemma tree_ok_shape (s : avlTree) l : tree_ok s l -> shape_ok s l.
Proof. intros (t & HR & Havl & Hin & _). exists t. auto. Qed.

Lemma shape_dom (s : avlTree) l a : shape_ok s l -> a ∈ l -> is_Some (nodes s !! a).
Proof.
  intros (t & HR & _ & <-) Ha. destruct HR as (_ & _ & Hok & _).
  eapply heap_ok_dom; eassumption.
Qed.

Lemma shape_NoDup (s : avlTree) l : shape_ok s l -> NoDup l.
Proof. intros (t & HR & _ & <-). apply HR. Qed.

Lemma shape_fuel (s : avlTree) l : shape_ok s l -> (length l < fuel s)%nat.
Proof.
  intros (t & HR & _ & <-). pose proof (Zip_length _ _ _ HR) as Hlen.
  simpl in Hlen. unfold fuel. lia.
Qed.

(** A write to the key, high or value of a node. *)
Lemma shape_upd (s : avlTree) l a f nd :
  shape_ok s l -> nodes s !! a = Some nd -> lk (f nd) = lk nd ->
  upd a f s = Some (mkTree (root s) (<[a := f nd]> (nodes s)))
  /\ shape_ok (mkTree (root s) (<[a := f nd]> (nodes s))) l.
Proof.
  intros (t & HR & Havl & Hin) Hnd Hlk. split; [now apply upd_Some|].
  exists t. split; [|auto].
  eapply Zip_ext; [exact HR|reflexivity|]. intros x _. simpl.
  destruct (decide (a = x)) as [->|Hne].
  - rewrite lookup_insert_eq, Hnd. simpl. now rewrite Hlk.
  - now rewrite lookup_insert_ne.
Qed.

Lemma ents_insert_notin (h : heap) a nd l :
  a ∉ l -> ents (<[a := nd]> h) l = ents h l.
Proof.
  intros Ha. apply ents_ext. intros x Hx. rewrite lookup_insert_ne; [reflexivity|].
  intros ->. auto.
Qed.

Lemma ent_insert (h : heap) a nd : ent (<[a := nd]> h) a = (key nd, high nd, value nd).
Proof. apply ent_Some. apply lookup_insert_eq. Qed.

Lemma ents_insert_mid (h : heap) a nd l1 l2 :
  NoDup (l1 ++ a :: l2) ->
  ents (<[a := nd]> h) (l1 ++ a :: l2)
  = ents h l1 ++ (key nd, high nd, value nd) :: ents h l2.
Proof.
  intros Hnd. rewrite ents_app. simpl. rewrite ent_insert.
  rewrite !ents_insert_notin; [reflexivity| |].
  - intros Hin. nodup_absurd Hnd a.
  - intros Hin. nodup_absurd Hnd a.
Qed.

Lemma shape_Delete (s : avlTree) l1 a l2 :
  shape_ok s (l1 ++ a :: l2) ->
  exists s', avlTree_Delete a s = Some s'
    /\ shape_ok s' (l1 ++ l2) /\ same_payload s s'.
Proof.
  intros (t & HR & Havl & Hin).
  destruct (avlTree_Delete_spec s t a HR Havl ltac:(rewrite Hin; solve_in))
    as (s' & t' & x & y & Hrun & HR' & Havl' & Hin1 & Hin' & Hpay).
  exists s'. split; [exact Hrun|]. split; [|exact Hpay].
  exists t'. split; [exact HR'|]. split; [exact Havl'|].
  rewrite Hin in Hin1. destruct HR as (_ & _ & _ & Hnd). simpl in Hnd. rewrite Hin in Hnd. destruct (NoDup_split_unique _ _ _ _ _ Hnd Hin1) as (<- & <-).
  exact Hin'.
Qed.

Lemma shape_Next (s : avlTree) l1 a l2 :
  shape_ok s (l1 ++ a :: l2) -> avlNode_Next s a = Some (head l2).
Proof. intros (t & HR & _ & Hin). exact (avlNode_Next_spec s t l1 a l2 HR Hin). Qed.

Lemma shape_Search (s : avlTree) pred l1 l2 :
  shape_ok s (l1 ++ l2) ->
  Forall (holds s pred false) l1 -> Forall (holds s pred true) l2 ->
  avlTree_Search pred s = Some (head l2).
Proof. intros (t & HR & _ & Hin). exact (avlTree_Search_spec s t pred l1 l2 HR Hin). Qed.

(** [avlTree.Insert] of a key that lies between the keys of [l1] and the
    keys of [l2]. *)
Lemma shape_Insert (s : avlTree) l1 l2 k b :
  shape_ok s (l1 ++ l2) -> disj_from b (ents (nodes s) (l1 ++ l2)) ->
  Forall (fun a => (ent (nodes s) a).1.1 < k) l1 ->
  Forall (fun a => k < (ent (nodes s) a).1.1) l2 ->
  exists n s', avlTree_Insert k s = Some (n, s')
    /\ nodes s !! n = None /\ shape_ok s' (l1 ++ n :: l2)
    /\ ent (nodes s') n = (k, 0, None)
    /\ forall x, x <> n -> payload <$> nodes s' !! x = payload <$> nodes s !! x.
Proof.
  intros Hsh Hd H1 H2.
  destruct (tree_ok_Insert s (l1 ++ l2) k (shape_tree_ok s _ b Hsh Hd))
    as (n & s' & Hrun & Hcase).
  exists n, s'. split; [exact Hrun|].
  rewrite Forall_forall in H1, H2.
  destruct Hcase as [(Hn & Hkn & _)|(Hnone & x & y & Hl & Hok' & Hlt & Hgt & Hpn & Hoth)].
  - exfalso. rewrite key_at_ent in Hkn. apply elem_of_app in Hn as [Hn|Hn].
    + specialize (H1 n Hn). lia.
    + specialize (H2 n Hn). lia.
  - split; [exact Hnone|].
    assert (l1 = x /\ l2 = y) as (<- & <-).
    { apply (app_eq_split_by (fun a => key_at (nodes s) a < k)
                             (fun a => k < key_at (nodes s) a)); try assumption.
      - intros a ? ?. lia.
      - apply Forall_forall. intros a Ha. rewrite key_at_ent. auto.
      - apply Forall_forall. intros a Ha. rewrite key_at_ent. auto. }
    split; [apply tree_ok_shape; exact Hok'|]. split; [|exact Hoth].
    unfold ent. rewrite Hpn. reflexivity.
Qed.

(** A write to the key, high or value of the node [a] of the tree, on the
    entries. *)
Lemma upd_ents (s : avlTree) l1 a l2 f nd :
  shape_ok s (l1 ++ a :: l2) -> nodes s !! a = Some nd -> lk (f nd) = lk nd ->
  exists s', upd a f s = Some s'
    /\ shape_ok s' (l1 ++ a :: l2)
    /\ nodes s' !! a = Some (f nd)
    /\ (forall x, x <> a -> nodes s' !! x = nodes s !! x)
    /\ ent (nodes s') a = (key (f nd), high (f nd), value (f nd))
    /\ ents (nodes s') l1 = ents (nodes s) l1
    /\ ents (nodes s') l2 = ents (nodes s) l2.
Proof.
  intros Hsh Hnd Hlk. pose proof (shape_NoDup _ _ Hsh) as Hnodup.
  destruct (shape_upd s _ a f nd Hsh Hnd Hlk) as (Hu & Hsh').
  eexists. split; [exact Hu|]. split; [exact Hsh'|]. cbn [nodes].
  split; [apply lookup_insert_eq|]. split; [|split; [apply ent_insert|split]].
  - intros x Hx. apply lookup_insert_ne. congruence.
  - apply ents_insert_notin. intros Hin. nodup_absurd Hnodup a.
  - apply ents_insert_notin. intros Hin. nodup_absurd Hnodup a.
Qed.

(** One iteration of the loop of [Insert], by the position of the node
    against [[lo, hi)]. *)
Lemma Insert_loop_step fl lo hi v a (s : avlTree) nd nx :
  nodes s !! a = Some nd -> key nd < hi -> avlNode_Next s a = Some nx ->
  Insert_loop (S fl) lo hi v (Some a) s
  = if decide (key nd < lo) then
      if decide (hi < high nd) then
        if decide (value nd = v) then Some (s, None)
        else
          t ← upd a (set_high lo) s;
          '(n2, t) ← avlTree_Insert hi t;
          nd' ← nodes t !! a;
          t ← upd n2 (set_high (high nd)) t;
          t ← upd n2 (set_value (value nd')) t;
          Some (t, Some (Some n2))
      else t ← upd a (set_high lo) s; Insert_loop fl lo hi v nx t
    else
      if decide (hi < high nd) then
        t ← upd a (set_key hi) s; Some (t, Some (Some a))
      else t ← avlTree_Delete a s; Insert_loop fl lo hi v nx t.
Proof.
  intros Hnd Hk Hnx. cbn [Insert_loop]. rewrite Hnd. cbn [mbind option_bind].
  rewrite decide_True by exact Hk. rewrite Hnx. cbn [mbind option_bind].
  unfold Interval_Subtract, interval, Interval_Empty. cbn [Low High].
  destruct (decide (key nd < lo)) as [Hl|Hl];
    destruct (decide (hi < high nd)) as [Hh|Hh].
  - rewrite (proj2 (Z.ltb_lt _ _) Hl), (proj2 (Z.ltb_lt _ _) Hh). cbn [Low High].
    rewrite (proj2 (Z.leb_gt _ _) Hl), (proj2 (Z.leb_gt _ _) Hh). reflexivity.
  - rewrite (proj2 (Z.ltb_lt _ _) Hl), (proj2 (Z.ltb_ge _ _)) by lia. cbn [Low High].
    rewrite (proj2 (Z.leb_gt _ _) Hl). reflexivity.
  - rewrite (proj2 (Z.ltb_ge _ _)), (proj2 (Z.ltb_lt _ _) Hh) by lia. cbn [Low High].
    rewrite (proj2 (Z.leb_gt _ _) Hh). reflexivity.
  - rewrite !(proj2 (Z.ltb_ge _ _)) by lia. reflexivity.
Qed.

Lemma Insert_loop_done fl lo hi v a (s : avlTree) nd :
  nodes s !! a = Some nd -> hi <= key nd ->
  Insert_loop fl lo hi v (Some a) s = Some (s, Some (Some a)).
Proof.
  intros Hnd Hk. destruct fl; cbn [Insert_loop]; rewrite Hnd; cbn [mbind option_bind];
    rewrite decide_False by lia; reflexivity.
Qed.

Lemma Insert_loop_nil fl lo hi v (s : avlTree) :
  Insert_loop fl lo hi v None s = Some (s, Some None).
Proof. destruct fl; reflexivity. Qed.

Lemma ents_cons (h : heap) a l : ents h (a :: l) = ent h a :: ents h l.
Proof. reflexivity. Qed.

(** The loop on nodes that start at [lo] or above. *)
Lemma Insert_loop_rest lo hi v : forall B A (s : avlTree) fl,
  shape_ok s (A ++ B) ->
  Forall (fun a => lo <= (ent (nodes s) a).1.1) B ->
  (length B <= fl)%nat ->
  exists s' D B', B = D ++ B'
    /\ Insert_loop fl lo hi v (head B) s = Some (s', Some (head B'))
    /\ shape_ok s' (A ++ B')
    /\ ents (nodes s') B' = rest hi (ents (nodes s) B)
    /\ (forall x, Some x <> head B' ->
                  payload <$> nodes s' !! x = payload <$> nodes s !! x)
    /\ (forall x, (ent (nodes s') x).1.2 = (ent (nodes s) x).1.2
                  /\ (ent (nodes s') x).2 = (ent (nodes s) x).2).
Proof.
  induction B as [|a B1 IH]; intros A s fl Hsh Hlo Hfl.
  - exists s, [], []. rewrite Insert_loop_nil. repeat split; auto.
  - destruct (shape_dom s _ a Hsh ltac:(solve_in)) as (nd & Hnd).
    pose proof (ent_Some _ _ _ Hnd) as He.
    apply Forall_cons in Hlo as (Hka & Hlo). rewrite He in Hka. simpl in Hka.
    pose proof (shape_NoDup _ _ Hsh) as Hnodup.
    assert (HaB1 : a ∉ B1).
    { intros Hin. nodup_absurd Hnodup a. }
    cbn [head]. rewrite ents_cons, He. cbn [rest].
    destruct (decide (key nd < hi)) as [Hk|Hk].
    + simpl in Hfl. destruct fl as [|fl]; [lia|].
      rewrite (Insert_loop_step fl lo hi v a s nd (head B1) Hnd Hk (shape_Next s A a B1 Hsh)).
      rewrite decide_False by lia.
      destruct (decide (hi < high nd)) as [Hh|Hh].
      * destruct (shape_upd s _ a (set_key hi) nd Hsh Hnd (lk_set_key _ _)) as (Hupd & Hsh').
        rewrite Hupd. cbn [mbind option_bind].
        eexists _, [], (a :: B1). split; [reflexivity|]. split; [reflexivity|].
        split; [exact Hsh'|]. cbn [nodes]. split; [|split].
        -- rewrite ents_cons, ent_insert, ents_insert_notin by assumption. reflexivity.
        -- intros x Hx. rewrite lookup_insert_ne; [reflexivity|]. simpl in Hx. congruence.
        -- intros x. destruct (decide (x = a)) as [->|Hne].
           ++ rewrite ent_insert, He. auto.
           ++ unfold ent. rewrite lookup_insert_ne by congruence. auto.
      * destruct (shape_Delete s A a B1 Hsh) as (s1 & Hdel & Hsh1 & Hpay1).
        rewrite Hdel. cbn [mbind option_bind].
        destruct (IH A s1 fl Hsh1) as (s' & D & B' & HB & Hrun & Hsh' & Hents & Hpay & Hhv).
        { eapply Forall_impl; [exact Hlo|]. simpl. intros x Hx.
          rewrite (ent_payload (nodes s) (nodes s1)); [exact Hx|apply Hpay1]. }
        { lia. }
        exists s', (a :: D), B'. split; [simpl; congruence|]. split; [exact Hrun|].
        split; [exact Hsh'|]. split; [|split].
        -- rewrite Hents. f_equal. apply ents_ext. intros; apply Hpay1.
        -- intros x Hx. rewrite (Hpay x Hx). apply Hpay1.
        -- intros x. destruct (Hhv x) as (-> & ->).
           rewrite (ent_payload (nodes s) (nodes s1)); [auto|apply Hpay1].
    + rewrite (Insert_loop_done fl lo hi v a s nd Hnd) by lia.
      exists s, [], (a :: B1). split; [reflexivity|]. split; [reflexivity|].
      split; [exact Hsh|]. split; [|auto].
      rewrite ents_cons, He. reflexivity.
Qed.

(** The end of [Imap.Insert], after the loop. *)
Definition Insert_tail (low hi : Z) (v : option V) (pred n : ptr) (t : avlTree)
    : option Imap :=
  let succ_merges (t : avlTree) : option (option nat) :=
    match n with
    | None => Some None
    | Some a =>
        nd ← nodes t !! a;
        Some (if decide (key nd = hi /\ value nd = v) then Some a else None)
    end in
  merge_pred ←
    match pred with
    | None => Some None
    | Some p =>
        pd ← nodes t !! p;
        Some (if decide (high pd = low /\ value pd = v) then Some p else None)
    end;
  match merge_pred with
  | Some p =>
      t ← upd p (set_high hi) t;
      s ← succ_merges t;
      match s with
      | Some a =>
          nd ← nodes t !! a;
          t ← upd p (set_high (high nd)) t;
          t ← avlTree_Delete a t;
          Some (mkImap t)
      | None => Some (mkImap t)
      end
  | None =>
      s ← succ_merges t;
      match s with
      | Some a =>
          t ← upd a (set_key low) t;
          Some (mkImap t)
      | None =>
          '(n, t) ← avlTree_Insert low t;
          t ← upd n (set_high hi) t;
          t ← upd n (set_value v) t;
          Some (mkImap t)
      end
  end.

Lemma Imap_Insert_unfold lo hi v (m : Imap) :
  lo < hi ->
  Imap_Insert (mkInterval lo hi) v m
  = (n ← avlTree_Search (fun n => lo <=? high n) (tree m);
     '(t, r) ← Insert_loop (fuel (tree m)) lo hi v n (tree m);
     match r with
     | None => Some (mkImap t)
     | Some n' => Insert_tail lo hi v n n' t
     end).
Proof.
  intros Hlh. unfold Imap_Insert, Interval_Empty. cbn [Low High].
  rewrite (proj2 (Z.leb_gt _ _) Hlh). reflexivity.
Qed.

Lemma disj_from_app (e1 e2 : list entry) b c :
  disj_from b e1 -> b <= c -> Forall (fun e => e.1.2 <= c) e1 -> disj_from c e2 ->
  disj_from b (e1 ++ e2).
Proof.
  revert b. induction e1 as [|[[k h] v0] e1 IH]; intros b; simpl.
  - intros _ Hb _ Hd. eapply disj_from_weaken; eassumption.
  - intros (Hb & Hk & Hd) Hbc Hall Hd2. apply Forall_cons in Hall as (Hh & Hall).
    simpl in Hh. repeat split; auto.
Qed.

Lemma disj_from_app_inv (e1 e2 : list entry) b :
  disj_from b (e1 ++ e2) -> disj_from b e1 /\ exists c, disj_from c e2.
Proof.
  revert b. induction e1 as [|[[k h] v0] e1 IH]; intros b; simpl.
  - eauto.
  - intros (Hb & Hk & Hd). destruct (IH h Hd) as (H1 & c & H2). eauto.
Qed.

(** The end of [Insert] when the predecessor does not take the new
    interval. *)
Lemma Insert_tail_finish lo hi v (s : avlTree) A R pred b :
  lo < hi -> shape_ok s (A ++ R) -> disj_from b (ents (nodes s) (A ++ R)) ->
  Forall (fun a => (ent (nodes s) a).1.1 < lo) A ->
  Forall (fun a => hi <= (ent (nodes s) a).1.1) R ->
  match pred with
  | None => True
  | Some p => is_Some (nodes s !! p)
              /\ ~ ((ent (nodes s) p).1.2 = lo /\ (ent (nodes s) p).2 = v)
  end ->
  exists s' l', Insert_tail lo hi v pred (head R) s = Some (mkImap s')
    /\ shape_ok s' l'
    /\ ents (nodes s') l' = ents (nodes s) A ++ finish lo hi v (ents (nodes s) R).
Proof.
  intros Hlh Hsh Hd HA HR Hpred.
  pose proof (shape_NoDup _ _ Hsh) as Hnodup.
  unfold Insert_tail.
  assert (Hmp : match pred with
                | None => Some None
                | Some p =>
                    pd ← nodes s !! p;
                    Some (if decide (high pd = lo /\ value pd = v) then Some p else None)
                end = Some None).
  { destruct pred as [p|]; [|reflexivity]. destruct Hpred as ((pd & Hpd) & Hn).
    rewrite Hpd. cbn [mbind option_bind]. rewrite (ent_Some _ _ _ Hpd) in Hn. simpl in Hn.
    rewrite decide_False by exact Hn. reflexivity. }
  rewrite Hmp. cbn [mbind option_bind].
  assert (Hnew : R = [] \/ (exists a R1 nd, R = a :: R1 /\ nodes s !! a = Some nd
                              /\ ~ (key nd = hi /\ value nd = v)) ->
    exists s' l',
      ('(n, t) ← avlTree_Insert lo s;
       t ← upd n (set_high hi) t;
       t ← upd n (set_value v) t;
       Some (mkImap t)) = Some (mkImap s')
      /\ shape_ok s' l'
      /\ ents (nodes s') l' = ents (nodes s) A ++ (lo, hi, v) :: ents (nodes s) R).
  { intros _.
    destruct (shape_Insert s A R lo b Hsh Hd HA) as (n & s1 & Hins & Hnone & Hsh1 & Hen & Hoth).
    { eapply Forall_impl; [exact HR|]. simpl. intros. lia. }
    rewrite Hins. cbn [mbind option_bind].
    assert (Hn1 : exists nd1, nodes s1 !! n = Some nd1) by
      (apply (shape_dom s1 (A ++ n :: R)); [assumption|solve_in]).
    destruct Hn1 as (nd1 & Hnd1).
    destruct (shape_upd s1 _ n (set_high hi) nd1 Hsh1 Hnd1 (lk_set_high _ _)) as (Hu1 & Hsh2).
    rewrite Hu1. cbn [mbind option_bind].
    set (s2 := mkTree (root s1) (<[n := set_high hi nd1]> (nodes s1))) in *.
    assert (Hnd2 : nodes s2 !! n = Some (set_high hi nd1)) by apply lookup_insert_eq.
    destruct (shape_upd s2 _ n (set_value v) _ Hsh2 Hnd2 (lk_set_value _ _)) as (Hu2 & Hsh3).
    rewrite Hu2. cbn [mbind option_bind].
    eexists _, _. split; [reflexivity|]. split; [exact Hsh3|]. cbn [nodes root].
    pose proof (shape_NoDup _ _ Hsh1) as Hnodup1.
    rewrite ents_insert_mid by exact Hnodup1. unfold s2. cbn [nodes].
    rewrite !ents_insert_notin by (intros Hin; nodup_absurd Hnodup1 n).
    rewrite (ent_Some _ _ _ Hnd1) in Hen. injection Hen as Hk _ _.
    simpl. rewrite Hk.
    rewrite (ents_ext (nodes s) (nodes s1) A), (ents_ext (nodes s) (nodes s1) R);
      [reflexivity| |].
    - intros a Ha. apply Hoth. intros ->. nodup_absurd Hnodup1 n.
    - intros a Ha. apply Hoth. intros ->. nodup_absurd Hnodup1 n. }
  destruct R as [|a R1].
  - cbn [head mbind option_bind]. simpl finish. apply Hnew. auto.
  - destruct (shape_dom s _ a Hsh ltac:(solve_in)) as (nd & Hnd).
    cbn [head]. rewrite Hnd. cbn [mbind option_bind].
    rewrite ents_cons, (ent_Some _ _ _ Hnd). cbn [finish].
    destruct (decide (key nd = hi /\ value nd = v)) as [(Hk & Hv)|Hn].
    + destruct (shape_upd s _ a (set_key lo) nd Hsh Hnd (lk_set_key _ _)) as (Hu & Hsh').
      rewrite Hu. cbn [mbind option_bind].
      eexists _, _. split; [reflexivity|]. split; [exact Hsh'|]. cbn [nodes].
      rewrite ents_insert_mid by exact Hnodup. reflexivity.
    + rewrite <- (ent_Some _ _ _ Hnd), <- ents_cons. apply Hnew.
      right. eauto 10.
Qed.

(** The end of [Insert] when the predecessor takes the new interval. *)
Lemma Insert_tail_merge lo hi v (s : avlTree) A0 p R k :
  shape_ok s (A0 ++ p :: R) -> ent (nodes s) p = (k, lo, v) ->
  exists s' l', Insert_tail lo hi v (Some p) (head R) s = Some (mkImap s')
    /\ shape_ok s' l'
    /\ ents (nodes s') l'
       = ents (nodes s) A0 ++ merge_into k hi v v (ents (nodes s) R).
Proof.
  intros Hsh Hp.
  pose proof (shape_NoDup _ _ Hsh) as Hnodup.
  destruct (shape_dom s _ p Hsh ltac:(solve_in)) as (pd & Hpd).
  rewrite (ent_Some _ _ _ Hpd) in Hp. injection Hp as Hpk Hph Hpv.
  unfold Insert_tail. rewrite Hpd. cbn [mbind option_bind].
  rewrite decide_True by auto.
  destruct (shape_upd s _ p (set_high hi) pd Hsh Hpd (lk_set_high _ _)) as (Hu1 & Hsh1).
  rewrite Hu1. cbn [mbind option_bind].
  set (s1 := mkTree (root s) (<[p := set_high hi pd]> (nodes s))) in *.
  assert (He1 : ents (nodes s1) (A0 ++ p :: R)
                = ents (nodes s) A0 ++ (k, hi, v) :: ents (nodes s) R).
  { unfold s1. cbn [nodes]. rewrite ents_insert_mid by exact Hnodup.
    simpl. now rewrite Hpk, Hpv. }
  destruct R as [|a R1].
  - cbn [head mbind option_bind]. eexists _, _. split; [reflexivity|].
    split; [exact Hsh1|]. exact He1.
  - assert (Hap : a <> p) by (intros ->; nodup_absurd Hnodup p).
    destruct (shape_dom s _ a Hsh ltac:(solve_in)) as (nd & Hnd).
    assert (Hnd1 : nodes s1 !! a = Some nd).
    { unfold s1. cbn [nodes]. rewrite lookup_insert_ne by congruence. exact Hnd. }
    cbn [head]. rewrite Hnd1. cbn [mbind option_bind].
    rewrite ents_cons, (ent_Some _ _ _ Hnd). cbn [merge_into].
    destruct (decide (key nd = hi /\ value nd = v)) as [(Hk & Hv)|Hn].
    + rewrite Hnd1. cbn [mbind option_bind].
      assert (Hpd1 : nodes s1 !! p = Some (set_high hi pd)) by apply lookup_insert_eq.
      destruct (shape_upd s1 _ p (set_high (high nd)) _ Hsh1 Hpd1 (lk_set_high _ _))
        as (Hu2 & Hsh2).
      rewrite Hu2. cbn [mbind option_bind].
      set (s2 := mkTree (root s1) (<[p := set_high (high nd) (set_high hi pd)]> (nodes s1))) in *.
      replace (A0 ++ p :: a :: R1) with ((A0 ++ [p]) ++ a :: R1) in Hsh2, Hnodup
        by (rewrite <- app_assoc; reflexivity).
      destruct (shape_Delete s2 _ a R1 Hsh2) as (s3 & Hdel & Hsh3 & Hpay3).
      rewrite Hdel. cbn [mbind option_bind].
      eexists _, _. split; [reflexivity|]. split; [exact Hsh3|].
      rewrite (ents_ext (nodes s2) (nodes s3)) by (intros; apply Hpay3).
      rewrite <- app_assoc. simpl. unfold s2, s1. cbn [nodes].
      rewrite <- app_assoc in Hnodup. simpl in Hnodup.
      assert (Hnd' : NoDup (A0 ++ p :: R1)).
      { pose proof (NoDup_remove_mid A0 [p] R1 [] a) as Hr.
        rewrite !app_nil_r in Hr. simpl in Hr. apply Hr. exact Hnodup. }
      rewrite ents_insert_mid by exact Hnd'.
      rewrite !ents_insert_notin by (intros Hin; nodup_absurd Hnd' p).
      simpl. now rewrite Hpk, Hpv.
    + eexists _, _. split; [reflexivity|]. split; [exact Hsh1|].
      rewrite He1, ents_cons, (ent_Some _ _ _ Hnd). reflexivity.
Qed.

Lemma Forall_ents (P : entry -> Prop) (h : heap) l :
  Forall P (ents h l) <-> Forall (fun a => P (ent h a)) l.
Proof. unfold ents. apply Forall_fmap. Qed.

Lemma ents_in (h : heap) a l : a ∈ l -> ent h a ∈ ents h l.
Proof. intros Ha. unfold ents. apply list_elem_of_fmap_2. exact Ha. Qed.

Lemma disj_key_lt_high (es : list entry) : forall b,
  disj_from b es -> Forall (fun e => b <= e.1.1 /\ e.1.1 < e.1.2) es.
Proof.
  induction es as [|[[k h] v0] es IH]; intros b; simpl; [constructor|].
  intros (Hb & Hk & Hd). constructor; [simpl; lia|].
  eapply Forall_impl; [apply (IH h Hd)|]. simpl. intros. lia.
Qed.

(** The entries after a prefix may be replaced by entries that start no
    earlier. *)
Lemma disj_from_suffix (e1 e2 e2' : list entry) b k h v0 :
  disj_from b (e1 ++ (k, h, v0) :: e2) -> disj_from k e2' ->
  disj_from b (e1 ++ e2').
Proof.
  revert b. induction e1 as [|[[k1 h1] v1] e1 IH]; intros b; simpl.
  - intros (Hb & _) Hd. eapply disj_from_weaken; eassumption.
  - intros (Hb & Hk & Hd) Hd2. repeat split; auto.
Qed.

Lemma ins_split (h : heap) lo hi v l : forall b,
  disj_from b (ents h l) ->
  exists A B, l = A ++ B
    /\ Forall (fun a => (ent h a).1.2 < lo) A
    /\ Forall (fun a => lo <= (ent h a).1.2) B
    /\ ins lo hi v (ents h l) = ents h A ++ ins_at lo hi v (ents h B).
Proof.
  induction l as [|a l IH]; intros b Hd.
  - exists [], []. repeat split; constructor.
  - rewrite ents_cons in Hd |- *. destruct (ent h a) as [[k hh] v0] eqn:He.
    simpl in Hd. destruct Hd as (Hb & Hk & Hd). cbn [ins].
    destruct (decide (hh < lo)) as [Hlt|Hge].
    + destruct (IH hh Hd) as (A & B & -> & HA & HB & Hins).
      exists (a :: A), B. split; [reflexivity|]. split; [|split; [exact HB|]].
      * constructor; [rewrite He; exact Hlt|exact HA].
      * rewrite Hins, ents_cons, He. reflexivity.
    + exists [], (a :: l). split; [reflexivity|]. split; [constructor|]. split.
      * constructor; [rewrite He; simpl; lia|].
        apply (Forall_ents (fun e => lo <= e.1.2)).
        eapply Forall_impl; [apply (disj_key_lt_high _ hh Hd)|].
        simpl. intros. lia.
      * rewrite ents_cons, He. reflexivity.
Qed.

End ImapHeap.

Section ImapRefine.
Context {V : Type} `{EqDecision V}.
Abbreviation heap := (gmap nat (avlNode (V:=V))).
Abbreviation avlNode := (avlNode (V:=V)).
Abbreviation avlTree := (avlTree (V:=V)).
Abbreviation entry := (Z * Z * option V)%type.

Lemma holds_high (s : avlTree) l (f : Z -> bool) a :
  shape_ok s l -> a ∈ l ->
  holds s (fun n => f (high n)) (f (ent (nodes s) a).1.2) a.
Proof.
  intros Hok Ha. destruct (shape_dom s l a Hok Ha) as (nd & Hnd).
  unfold holds. rewrite (ent_Some _ _ _ Hnd), Hnd. reflexivity.
Qed.

(** [Imap.Insert] does to the entries of the tree what [ins] says. *)
Lemma Imap_Insert_refines (s : avlTree) l lo hi v b :
  shape_ok s l -> disj_from b (ents (nodes s) l) -> lo < hi ->
  exists s' l', Imap_Insert (mkInterval lo hi) v (mkImap s) = Some (mkImap s')
    /\ shape_ok s' l'
    /\ ents (nodes s') l' = ins lo hi v (ents (nodes s) l).
Proof.
  intros Hsh Hd Hlh.
  destruct (ins_split (nodes s) lo hi v l b Hd) as (A & B & -> & HA & HB & Hins).
  rewrite Hins. rewrite Imap_Insert_unfold by assumption. cbn [tree].
  rewrite (shape_Search s (fun n => lo <=? high n) A B Hsh).
  2:{ apply Forall_forall. intros a Ha. rewrite Forall_forall in HA.
      pose proof (holds_high s _ (fun x => lo <=? x) a Hsh ltac:(solve_in)) as Hh.
      simpl in Hh. rewrite (proj2 (Z.leb_gt _ _) (HA a Ha)) in Hh. exact Hh. }
  2:{ apply Forall_forall. intros a Ha. rewrite Forall_forall in HB.
      pose proof (holds_high s _ (fun x => lo <=? x) a Hsh ltac:(solve_in)) as Hh.
      simpl in Hh. rewrite (proj2 (Z.leb_le _ _) (HB a Ha)) in Hh. exact Hh. }
  cbn [mbind option_bind].
  pose proof (shape_fuel _ _ Hsh) as Hfuel. rewrite length_app in Hfuel.
  pose proof (shape_NoDup _ _ Hsh) as Hnodup.
  pose proof Hd as Hd0. rewrite ents_app in Hd0.
  apply disj_from_app_inv in Hd0 as (HdA & c & HdB).
  assert (HAk : Forall (fun a => (ent (nodes s) a).1.1 < lo) A).
  { pose proof (disj_key_lt_high _ _ HdA) as Hkh.
    rewrite Forall_forall in HA. rewrite Forall_forall in Hkh. apply Forall_forall.
    intros a Ha. specialize (HA a Ha). specialize (Hkh _ (ents_in _ a A Ha)).
    simpl in *. lia. }
  destruct B as [|p B1].
  - rewrite Insert_loop_nil. cbn [mbind option_bind].
    destruct (Insert_tail_finish lo hi v s A [] None b Hlh Hsh Hd)
      as (s' & l' & Hrun & Hsh' & He); [exact HAk|constructor|exact I|].
    exists s', l'. split; [exact Hrun|]. split; [exact Hsh'|]. exact He.
  - destruct (shape_dom s _ p Hsh ltac:(solve_in)) as (nd & Hnd).
    pose proof (ent_Some _ _ _ Hnd) as Hep.
    pose proof HdB as HdB0.
    rewrite ents_cons, Hep in HdB. cbn [disj_from] in HdB.
    destruct HdB as (_ & Hkh & HdB1).
    apply Forall_cons in HB as (Hph & HB1). rewrite Hep in Hph. simpl in Hph.
    assert (HB1k : Forall (fun a => high nd <= (ent (nodes s) a).1.1) B1).
    { pose proof (disj_key_lt_high _ _ HdB1) as Hk1. rewrite Forall_forall in Hk1.
      apply Forall_forall. intros a Ha. apply (Hk1 _ (ents_in _ a B1 Ha)). }
    assert (Hd' : disj_from b (ents (nodes s) A ++ (key nd, high nd, value nd)
                                 :: ents (nodes s) B1)).
    { rewrite ents_app, ents_cons, Hep in Hd. exact Hd. }
    cbn [head]. rewrite (ents_cons _ p), Hep. cbn [ins_at].
    destruct (decide (key nd < lo)) as [Hkl|Hkl].
    + destruct (fuel s) as [|fl] eqn:Hfl; [simpl in Hfuel; lia|].
      rewrite (Insert_loop_step fl lo hi v p s nd (head B1) Hnd ltac:(lia)
                 (shape_Next s A p B1 Hsh)).
      rewrite (decide_True (P := key nd < lo)) by exact Hkl.
      destruct (upd_ents s A p B1 (set_high lo) nd Hsh Hnd (lk_set_high _ _))
        as (s1 & Hu1 & Hsh1 & Hp1 & Hoth1 & Hep1 & HeA1 & HeB1).
      cbn [key high value set_high] in Hep1.
      assert (Hent1 : forall a, a <> p -> ent (nodes s1) a = ent (nodes s) a).
      { intros a Ha. unfold ent. now rewrite Hoth1. }
      assert (HpA : forall a, a ∈ A -> a <> p).
      { intros a Ha ->. nodup_absurd Hnodup p. }
      assert (HpB : forall a, a ∈ B1 -> a <> p).
      { intros a Ha ->. nodup_absurd Hnodup p. }
      destruct (decide (hi < high nd)) as [Hhh|Hhh].
      * destruct (decide (value nd = v)) as [Hv|Hv].
        { cbn [mbind option_bind]. exists s, (A ++ p :: B1).
          split; [reflexivity|]. split; [exact Hsh|].
          rewrite ents_app, ents_cons, Hep. reflexivity. }
        rewrite Hu1. cbn [mbind option_bind].
        replace (A ++ p :: B1) with ((A ++ [p]) ++ B1) in Hsh1
          by (rewrite <- app_assoc; reflexivity).
        assert (HeAp1 : ents (nodes s1) (A ++ [p])
                        = ents (nodes s) A ++ [(key nd, lo, value nd)]).
        { rewrite ents_app, HeA1. simpl. now rewrite Hep1. }
        destruct (shape_Insert s1 (A ++ [p]) B1 hi b Hsh1)
          as (n2 & s2 & Hins2 & Hnone2 & Hsh2 & Hen2 & Hoth2).
        { rewrite ents_app, HeAp1, HeB1, <- app_assoc. simpl.
          eapply disj_from_suffix; [exact Hd'|]. simpl. repeat split; try lia.
          eapply disj_from_weaken; [|exact HdB1]. lia. }
        { apply Forall_app. split.
          - apply Forall_forall. intros a Ha. rewrite (Hent1 a (HpA a Ha)).
            rewrite Forall_forall in HAk. specialize (HAk a Ha). lia.
          - constructor; [|constructor]. rewrite Hep1. simpl. lia. }
        { apply Forall_forall. intros a Ha. rewrite (Hent1 a (HpB a Ha)).
          rewrite Forall_forall in HB1k. specialize (HB1k a Ha). lia. }
        rewrite Hins2. cbn [mbind option_bind].
        assert (Hpn2 : p <> n2) by (intros ->; congruence).
        pose proof (Hoth2 p Hpn2) as Hpp. rewrite Hp1 in Hpp.
        destruct (nodes s2 !! p) as [nd2|] eqn:Hnd2; [|discriminate].
        simpl in Hpp. injection Hpp as Hk2 Hh2 Hv2.
        cbn [mbind option_bind].
        destruct (shape_dom s2 _ n2 Hsh2 ltac:(solve_in)) as (ndn & Hndn).
        rewrite (ent_Some _ _ _ Hndn) in Hen2. injection Hen2 as Hkn _ _.
        destruct (upd_ents s2 (A ++ [p]) n2 B1 (set_high (high nd)) ndn Hsh2 Hndn
                    (lk_set_high _ _))
          as (s3 & Hu3 & Hsh3 & Hn3 & Hoth3 & Hen3 & HeA3 & HeB3).
        rewrite Hu3. cbn [mbind option_bind].
        destruct (upd_ents s3 (A ++ [p]) n2 B1 (set_value (value nd2)) _ Hsh3 Hn3
                    (lk_set_value _ _))
          as (s4 & Hu4 & Hsh4 & Hn4 & Hoth4 & Hen4 & HeA4 & HeB4).
        rewrite Hu4. cbn [mbind option_bind].
        cbn [key high value set_high set_value] in Hen4. rewrite Hkn, Hv2 in Hen4.
        pose proof (shape_NoDup _ _ Hsh2) as Hnodup2.
        assert (HeAp4 : ents (nodes s4) (A ++ [p])
                        = ents (nodes s) A ++ [(key nd, lo, value nd)]).
        { rewrite HeA4, HeA3, <- HeAp1. apply ents_ext. intros a Ha. apply Hoth2.
          intros ->. nodup_absurd Hnodup2 n2. }
        assert (HeB4' : ents (nodes s4) B1 = ents (nodes s) B1).
        { rewrite HeB4, HeB3, <- HeB1. apply ents_ext. intros a Ha. apply Hoth2.
          intros ->. nodup_absurd Hnodup2 n2. }
        assert (Hep4 : ent (nodes s4) p = (key nd, lo, value nd)).
        { rewrite (ent_Some _ p nd2) by (rewrite Hoth4, Hoth3 by congruence; exact Hnd2).
          now rewrite Hk2, Hh2, Hv2. }
        destruct (Insert_tail_finish lo hi v s4 (A ++ [p]) (n2 :: B1) (Some p) b Hlh Hsh4)
          as (s' & l' & Htail & Hsh' & He).
        { rewrite ents_app, HeAp4, ents_cons, Hen4, HeB4', <- app_assoc. simpl.
          eapply disj_from_suffix; [exact Hd'|]. simpl. repeat split; try lia.
          exact HdB1. }
        { pose proof (Forall_ents (fun e => e.1.1 < lo) (nodes s4) (A ++ [p])) as [Hf _].
          apply Hf. rewrite HeAp4. apply Forall_app. split.
          - pose proof (Forall_ents (fun e => e.1.1 < lo) (nodes s) A) as [_ Hb].
            apply Hb. exact HAk.
          - constructor; [simpl; lia|constructor]. }
        { pose proof (Forall_ents (fun e => hi <= e.1.1) (nodes s4) (n2 :: B1)) as [Hf _].
          apply Hf. rewrite ents_cons, Hen4, HeB4'. constructor; [simpl; lia|].
          pose proof (Forall_ents (fun e => hi <= e.1.1) (nodes s) B1) as [_ Hb].
          apply Hb. eapply Forall_impl; [exact HB1k|]. simpl. intros. lia. }
        { split; [eapply shape_dom; [exact Hsh4|solve_in]|].
          rewrite Hep4. simpl. intros (_ & ?). contradiction. }
        cbn [head] in Htail. rewrite Htail. exists s', l'.
        split; [reflexivity|]. split; [exact Hsh'|].
        rewrite He, HeAp4, ents_cons, Hen4, HeB4', <- app_assoc. cbn [finish].
        rewrite decide_False by (intros (_ & ?); contradiction). reflexivity.
      * rewrite Hu1. cbn [mbind option_bind].
        replace (A ++ p :: B1) with ((A ++ [p]) ++ B1) in Hsh1
          by (rewrite <- app_assoc; reflexivity).
        destruct (Insert_loop_rest lo hi v B1 (A ++ [p]) s1 fl Hsh1)
          as (s2 & D & R & HBR & Hrun & Hsh2 & HeR & Hpay & Hhv).
        { apply Forall_forall. intros a Ha. rewrite (Hent1 a (HpB a Ha)).
          rewrite Forall_forall in HB1k. specialize (HB1k a Ha). lia. }
        { simpl in Hfuel. lia. }
        rewrite Hrun. cbn [mbind option_bind].
        rewrite HeB1 in HeR.
        pose proof (shape_NoDup _ _ Hsh2) as Hnodup2.
        assert (Hpay2 : forall a, a ∈ A ++ [p] ->
                  payload <$> nodes s2 !! a = payload <$> nodes s1 !! a).
        { intros a Ha. apply Hpay. intros Hh. symmetry in Hh.
          apply head_Some_elem_of in Hh. nodup_absurd Hnodup2 a. }
        assert (Hep2 : ent (nodes s2) p = (key nd, lo, value nd)).
        { rewrite (ent_payload _ _ p (Hpay2 p ltac:(solve_in))). exact Hep1. }
        assert (HeA2 : ents (nodes s2) A = ents (nodes s) A).
        { rewrite <- HeA1. apply ents_ext. intros a Ha. apply Hpay2. solve_in. }
        assert (HdR : disj_from (Z.max (high nd) hi) (ents (nodes s2) R)).
        { rewrite HeR. apply rest_disj_max. exact HdB1. }
        assert (HkR : Forall (fun a => hi <= (ent (nodes s2) a).1.1) R).
        { pose proof (disj_key_lt_high _ _ HdR) as HkR. rewrite Forall_forall in HkR.
          apply Forall_forall. intros a Ha. specialize (HkR _ (ents_in _ a R Ha)).
          simpl in HkR. lia. }
        destruct (decide (value nd = v)) as [Hv|Hv].
        -- rewrite <- app_assoc in Hsh2. simpl in Hsh2.
           destruct (Insert_tail_merge lo hi v s2 A p R (key nd) Hsh2)
             as (s' & l' & Htail & Hsh' & He).
           { rewrite Hep2, Hv. reflexivity. }
           rewrite Htail. exists s', l'. split; [reflexivity|]. split; [exact Hsh'|].
           rewrite He, HeA2, HeR, Hv. reflexivity.
        -- destruct (Insert_tail_finish lo hi v s2 (A ++ [p]) R (Some p) b Hlh Hsh2)
             as (s' & l' & Htail & Hsh' & He).
           ++ rewrite !ents_app, HeA2. simpl. rewrite Hep2, <- app_assoc. simpl.
              eapply disj_from_suffix; [exact Hd'|]. simpl. repeat split; try lia.
              eapply disj_from_weaken; [|exact HdR]. lia.
           ++ apply Forall_app. split.
              ** apply Forall_forall. intros a Ha.
                 rewrite (ent_payload _ _ a (Hpay2 a ltac:(solve_in))), (Hent1 a (HpA a Ha)).
                 rewrite Forall_forall in HAk. auto.
              ** constructor; [|constructor]. rewrite Hep2. exact Hkl.
           ++ exact HkR.
           ++ split; [eapply shape_dom; [exact Hsh2|solve_in]|].
              rewrite Hep2. simpl. intros (_ & ?). contradiction.
           ++ rewrite Htail. exists s', l'. split; [reflexivity|]. split; [exact Hsh'|].
              rewrite He, ents_app, HeA2, HeR. simpl. rewrite Hep2, <- app_assoc.
              reflexivity.
    + destruct (Insert_loop_rest lo hi v (p :: B1) A s (fuel s) Hsh)
        as (s1 & D & R & HBR & Hrun & Hsh1 & HeR & Hpay & Hhv).
      { constructor; [rewrite Hep; simpl; lia|].
        eapply Forall_impl; [exact HB1k|]. simpl. intros. lia. }
      { simpl in *. lia. }
      cbn [head] in Hrun. rewrite Hrun. cbn [mbind option_bind].
      rewrite ents_cons, Hep in HeR.
      pose proof (shape_NoDup _ _ Hsh1) as Hnodup1.
      assert (HpayA : forall a, a ∈ A ->
                payload <$> nodes s1 !! a = payload <$> nodes s !! a).
      { intros a Ha. apply Hpay. intros Hh. symmetry in Hh. apply head_Some_elem_of in Hh.
        nodup_absurd Hnodup1 a. }
      assert (HdR : disj_from (Z.max (key nd) hi) (ents (nodes s1) R)).
      { rewrite HeR. apply rest_disj_max. simpl. repeat split; try lia. exact HdB1. }
      destruct (Insert_tail_finish lo hi v s1 A R (Some p) b Hlh Hsh1)
        as (s' & l' & Htail & Hsh' & He).
      * rewrite ents_app, (ents_ext (nodes s) (nodes s1) A) by exact HpayA.
        eapply disj_from_suffix; [exact Hd'|].
        eapply disj_from_weaken; [|exact HdR]. lia.
      * apply Forall_forall. intros a Ha. rewrite (ent_payload _ _ a (HpayA a Ha)).
        rewrite Forall_forall in HAk. auto.
      * pose proof (disj_key_lt_high _ _ HdR) as HkR. rewrite Forall_forall in HkR.
        apply Forall_forall. intros a Ha. specialize (HkR _ (ents_in _ a R Ha)).
        simpl in HkR. lia.
      * split.
        -- destruct (decide (Some p = head R)) as [Hh|Hh].
           ++ symmetry in Hh. apply head_Some_elem_of in Hh.
              eapply shape_dom; [exact Hsh1|solve_in].
           ++ specialize (Hpay p Hh). rewrite Hnd in Hpay. simpl in Hpay.
              destruct (nodes s1 !! p); [eauto|discriminate].
        -- destruct (Hhv p) as (Hh1 & _). rewrite Hh1, Hep. simpl. lia.
      * rewrite Htail. exists s', l'. split; [reflexivity|]. split; [exact Hsh'|].
        rewrite He, HeR, (ents_ext (nodes s) (nodes s1) A) by exact HpayA. reflexivity.
Qed.

End ImapRefine.

(** * The invariant of the interval map *)

Section ImapInv.
Context {V : Type} `{EqDecision V}.
Abbreviation heap := (gmap nat (avlNode (V:=V))).
Abbreviation avlNode := (avlNode (V:=V)).
Abbreviation avlTree := (avlTree (V:=V)).
Abbreviation Imap := (Imap (V:=V)).
Abbreviation entry := (Z * Z * option V)%type.

(** A Go [Interval] holds two [uint64]. *)
Definition Interval_valid (k : Interval) : Prop :=
  0 <= Low k < 2 ^ 64 /\ 0 <= High k < 2 ^ 64.

(** The maps that [Insert] builds from the empty map. *)
Inductive imap_reachable : Imap -> Prop :=
| imap_reach_empty : imap_reachable Imap_empty
| imap_reach_Insert m k v m' :
    imap_reachable m -> Interval_valid k -> Imap_Insert k v m = Some m' ->
    imap_reachable m'.

(** A sequence of calls of [Insert]. *)
Fixpoint Imap_Inserts (ops : list (Interval * option V)) (m : Imap) : option Imap :=
  match ops with
  | [] => Some m
  | (k, v) :: ops => m' ← Imap_Insert k v m; Imap_Inserts ops m'
  end.

(** The value of the last insertion of [ops] that covers [x], if any;
    [acc] is the value from the insertions before [ops]. *)
Fixpoint last_cover (ops : list (Interval * option V)) (x : Z)
    (acc : option (option V)) : option (option V) :=
  match ops with
  | [] => acc
  | (k, v) :: ops => last_cover ops x (if Interval_Contains k x then Some v else acc)
  end.

(** The tree of the map holds the entries [es], which are canonical. *)
Definition imap_ok (m : Imap) (es : list entry) : Prop :=
  exists l, shape_ok (tree m) l /\ ents (nodes (tree m)) l = es
            /\ canon_from 0 None es.

(** The entries as [Iter] yields them. *)
Definition pair_of (e : entry) : Interval * option V := (mkInterval e.1.1 e.1.2, e.2).

(** The entries that end above an address. *)
Fixpoint ending_above (x : Z) (es : list entry) : list entry :=
  match es with
  | [] => []
  | (k, h, v0) :: es' => if decide (x < h) then es else ending_above x es'
  end.

Lemma imap_ok_empty : imap_ok Imap_empty [].
Proof.
  exists []. split; [|split; [reflexivity|exact I]].
  exists E. repeat split; try constructor.
Qed.

Lemma Imap_Insert_empty k v (m : Imap) :
  Interval_Empty k = true -> Imap_Insert k v m = Some m.
Proof. intros He. unfold Imap_Insert. rewrite He. reflexivity. Qed.

Lemma imap_ok_Insert (m : Imap) es lo hi v :
  imap_ok m es -> 0 <= lo -> lo < hi ->
  exists m', Imap_Insert (mkInterval lo hi) v m = Some m'
    /\ imap_ok m' (ins lo hi v es).
Proof.
  intros (l & Hsh & He & Hc) H0 Hlh. destruct m as [s]. cbn [tree] in *.
  assert (Hd : disj_from 0 (ents (nodes s) l)) by (rewrite He; eapply canon_disj; exact Hc).
  destruct (Imap_Insert_refines s l lo hi v 0 Hsh Hd Hlh) as (s' & l' & Hrun & Hsh' & He').
  exists (mkImap s'). split; [exact Hrun|].
  exists l'. cbn [tree]. split; [exact Hsh'|]. split; [rewrite He', He; reflexivity|].
  apply ins_canon; auto; congruence.
Qed.

Lemma imap_reachable_ok (m : Imap) : imap_reachable m -> exists es, imap_ok m es.
Proof.
  induction 1 as [|m k v m' _ (es & IH) (Hlo & Hhi) Hrun].
  - exists []. apply imap_ok_empty.
  - destruct (Interval_Empty k) eqn:He.
    + rewrite (Imap_Insert_empty k v m He) in Hrun. injection Hrun as <-. eauto.
    + unfold Interval_Empty in He. apply Z.leb_gt in He.
      destruct k as [lo hi]. cbn [Low High] in *.
      destruct (imap_ok_Insert m es lo hi v IH ltac:(lia) He) as (m0 & Hrun0 & Hok).
      rewrite Hrun in Hrun0. injection Hrun0 as <-. eauto.
Qed.

(** ** Find *)

Lemma first_above_split (h : heap) x l : forall b,
  disj_from b (ents h l) ->
  exists A B, l = A ++ B
    /\ Forall (fun a => (ent h a).1.2 <= x) A
    /\ Forall (fun a => x < (ent h a).1.2) B
    /\ first_above (ents h l) x = ent h <$> head B
    /\ ending_above x (ents h l) = ents h B.
Proof.
  induction l as [|a l IH]; intros b Hd.
  - exists [], []. repeat split; constructor.
  - rewrite ents_cons in Hd |- *. destruct (ent h a) as [[k hh] v0] eqn:He.
    simpl in Hd. destruct Hd as (Hb & Hk & Hd). cbn [first_above ending_above].
    destruct (decide (x < hh)) as [Hlt|Hge].
    + exists [], (a :: l). split; [reflexivity|]. split; [constructor|]. split; [|split].
      * constructor; [rewrite He; simpl; lia|].
        pose proof (disj_key_lt_high _ _ Hd) as Hk1. rewrite Forall_forall in Hk1.
        apply Forall_forall. intros a' Ha'. specialize (Hk1 _ (ents_in _ a' l Ha')).
        simpl in Hk1. lia.
      * simpl. now rewrite He.
      * rewrite ents_cons, He. reflexivity.
    + destruct (IH hh Hd) as (A & B & -> & HA & HB & Hf & Hen).
      exists (a :: A), B. split; [reflexivity|]. split; [|auto].
      constructor; [rewrite He; simpl; lia|exact HA].
Qed.

Lemma holds_high_lt (s : avlTree) l x a :
  shape_ok s l -> a ∈ l ->
  holds s (fun n => x <? high n) (x <? (ent (nodes s) a).1.2) a.
Proof.
  intros Hok Ha. destruct (shape_dom s l a Hok Ha) as (nd & Hnd).
  unfold holds. rewrite (ent_Some _ _ _ Hnd), Hnd. reflexivity.
Qed.

Lemma Search_above (s : avlTree) l b x :
  shape_ok s l -> disj_from b (ents (nodes s) l) ->
  exists A B, l = A ++ B
    /\ avlTree_Search (fun n => x <? high n) s = Some (head B)
    /\ first_above (ents (nodes s) l) x = ent (nodes s) <$> head B
    /\ ending_above x (ents (nodes s) l) = ents (nodes s) B.
Proof.
  intros Hsh Hd.
  destruct (first_above_split (nodes s) x l b Hd) as (A & B & -> & HA & HB & Hf & Hen).
  exists A, B. split; [reflexivity|]. split; [|auto].
  apply (shape_Search s _ A B Hsh).
  - apply Forall_forall. intros a Ha. rewrite Forall_forall in HA.
    pose proof (holds_high_lt s _ x a Hsh ltac:(solve_in)) as Hh.
    rewrite (proj2 (Z.ltb_ge _ _) (HA a Ha)) in Hh. exact Hh.
  - apply Forall_forall. intros a Ha. rewrite Forall_forall in HB.
    pose proof (holds_high_lt s _ x a Hsh ltac:(solve_in)) as Hh.
    rewrite (proj2 (Z.ltb_lt _ _) (HB a Ha)) in Hh. exact Hh.
Qed.

Lemma Imap_Find_refines (m : Imap) es x :
  imap_ok m es -> Imap_Find m x = Some (Find_entries es x).
Proof.
  intros (l & Hsh & <- & Hc).
  destruct (Search_above (tree m) l 0 x Hsh (canon_disj _ _ _ Hc))
    as (A & B & -> & HS & Hf & _).
  unfold Imap_Find, Find_entries. rewrite HS, Hf. cbn [mbind option_bind].
  destruct B as [|a B]; [reflexivity|]. cbn [head fmap option_fmap option_map].
  destruct (shape_dom (tree m) _ a Hsh ltac:(solve_in)) as (nd & Hnd).
  rewrite Hnd, (ent_Some _ _ _ Hnd). cbn [mbind option_bind].
  unfold interval. destruct (decide (key nd <= x)); reflexivity.
Qed.

(** ** Iter *)

Lemma Iter_loop_spec (m : Imap) : forall B A fl,
  shape_ok (tree m) (A ++ B) -> (length B <= fl)%nat ->
  Iter_loop fl m (mkIter (head B)) = Some (pair_of <$> ents (nodes (tree m)) B).
Proof.
  induction B as [|a B IH]; intros A fl Hsh Hfl.
  - destruct fl; reflexivity.
  - simpl in Hfl. destruct fl as [|fl]; [lia|].
    destruct (shape_dom (tree m) _ a Hsh ltac:(solve_in)) as (nd & Hnd).
    cbn [Iter_loop head]. unfold Iter_Valid, Iter_Key, Iter_Value, Iter_Next.
    cbn [it_n]. rewrite bool_decide_eq_true_2 by discriminate.
    cbn [mbind option_bind]. rewrite Hnd. cbn [mbind option_bind].
    rewrite (shape_Next (tree m) A a B Hsh). cbn [mbind option_bind].
    replace (A ++ a :: B) with ((A ++ [a]) ++ B) in Hsh
      by (rewrite <- app_assoc; reflexivity).
    rewrite (IH (A ++ [a]) fl Hsh) by lia. cbn [mbind option_bind].
    rewrite ents_cons, (ent_Some _ _ _ Hnd). reflexivity.
Qed.

Lemma Imap_iterate_refines (m : Imap) es x :
  imap_ok m es -> Imap_iterate m x = Some (pair_of <$> ending_above x es).
Proof.
  intros (l & Hsh & <- & Hc).
  destruct (Search_above (tree m) l 0 x Hsh (canon_disj _ _ _ Hc))
    as (A & B & -> & HS & _ & Hen).
  unfold Imap_iterate, Imap_Iter. rewrite HS. cbn [mbind option_bind].
  rewrite Hen. apply (Iter_loop_spec m B A); [exact Hsh|].
  pose proof (shape_fuel _ _ Hsh) as Hf. rewrite length_app in Hf. lia.
Qed.

Lemma ending_above_all es x : forall b,
  disj_from b es -> x <= b -> ending_above x es = es.
Proof.
  destruct es as [|[[k h] v0] es]; intros b; simpl; [reflexivity|].
  intros (Hb & Hk & _) Hx. rewrite decide_True by lia. reflexivity.
Qed.

End ImapInv.

(** ** Theorems on imap.go and iter.go *)

Section ImapTheorems.
Context {V : Type} `{EqDecision V}.
Abbreviation Imap := (Imap (V:=V)).
Abbreviation entry := (Z * Z * option V)%type.

(** [Insert] on the entries, for any interval. *)
Definition ins_interval (k : Interval) (v : option V) (es : list entry) : list entry :=
  if Interval_Empty k then es else ins (Low k) (High k) v es.

Lemma Interval_Contains_iff k a :
  Interval_Contains k a = true <-> Low k <= a < High k.
Proof. unfold Interval_Contains. rewrite andb_true_iff, Z.leb_le, Z.ltb_lt. tauto. Qed.

Lemma ins_interval_val k v es x b :
  disj_from b es ->
  val_at (ins_interval k v es) x
  = if Interval_Contains k x then Some v else val_at es x.
Proof.
  intros Hd. unfold ins_interval, Interval_Empty.
  destruct (High k <=? Low k) eqn:He.
  - apply Z.leb_le in He. destruct (Interval_Contains k x) eqn:Hc; [|reflexivity].
    apply Interval_Contains_iff in Hc. lia.
  - apply Z.leb_gt in He. rewrite (ins_val (Low k) (High k) v es x b He Hd).
    destruct (decide (Low k <= x < High k)) as [Hin|Hin].
    + rewrite (proj2 (Interval_Contains_iff k x) Hin). reflexivity.
    + destruct (Interval_Contains k x) eqn:Hc; [|reflexivity].
      apply Interval_Contains_iff in Hc. lia.
Qed.

Lemma imap_ok_Insert_interval (m : Imap) es k v :
  imap_ok m es -> Interval_valid k ->
  exists m', Imap_Insert k v m = Some m' /\ imap_ok m' (ins_interval k v es).
Proof.
  intros Hok (Hlo & Hhi). unfold ins_interval.
  destruct (Interval_Empty k) eqn:He.
  - exists m. split; [now apply Imap_Insert_empty|exact Hok].
  - unfold Interval_Empty in He. apply Z.leb_gt in He.
    destruct k as [lo hi]. cbn [Low High] in *.
    apply imap_ok_Insert; [assumption|lia|assumption].
Qed.

Lemma imap_ok_canon (m : Imap) es : imap_ok m es -> canon_from 0 None es.
Proof. intros (l & _ & _ & Hc). exact Hc. Qed.

Lemma imap_ok_disj (m : Imap) es : imap_ok m es -> disj_from 0 es.
Proof. intros Hok. eapply canon_disj. eapply imap_ok_canon. exact Hok. Qed.

(** The result of [Find], from the values of the entries. *)
Lemma Find_entries_val (es : list entry) x b :
  disj_from b es ->
  (exists k h w, find_entry es x = Some (k, h, w)
     /\ Find_entries es x = (mkInterval k h, w) /\ val_at es x = Some w
     /\ Interval_Contains (mkInterval k h) x = true)
  \/ (find_entry es x = None /\ Find_entries es x = (mkInterval 0 0, None)
      /\ val_at es x = None).
Proof.
  intros Hd. rewrite (Find_entries_find es x b Hd). unfold val_at.
  destruct (find_entry es x) as [[[k h] w]|] eqn:Hf.
  - left. exists k, h, w. repeat split.
    apply Interval_Contains_iff. simpl. exact (proj1 (find_entry_in _ _ _ _ _ Hf)).
  - right. auto.
Qed.

Lemma find_entry_same (es : list entry) x y k h w : forall b,
  disj_from b es -> find_entry es x = Some (k, h, w) -> k <= y < h ->
  find_entry es y = Some (k, h, w).
Proof.
  induction es as [|[[k1 h1] v1] es IH]; intros b; simpl; [discriminate|].
  intros (Hb & Hk & Hd). destruct (decide (k1 <= x < h1)).
  - intros [= -> -> ->] Hy. rewrite decide_True by lia. reflexivity.
  - intros Hf Hy.
    pose proof (disj_lower es h1 _ Hd (proj2 (find_entry_in _ _ _ _ _ Hf))) as Hl.
    simpl in Hl. rewrite decide_False by lia. eapply IH; eassumption.
Qed.

Lemma Imap_Inserts_ok ops : forall (m : Imap) es,
  imap_ok m es -> Forall (fun op => Interval_valid op.1) ops ->
  exists m' es', Imap_Inserts ops m = Some m' /\ imap_ok m' es'
    /\ forall x, val_at es' x = last_cover ops x (val_at es x).
Proof.
  induction ops as [|[k v] ops IH]; intros m es Hok Hv.
  - exists m, es. repeat split; auto.
  - apply Forall_cons in Hv as (Hk & Hv). simpl in Hk.
    destruct (imap_ok_Insert_interval m es k v Hok Hk) as (m1 & Hrun & Hok1).
    destruct (IH m1 _ Hok1 Hv) as (m' & es' & Hruns & Hok' & Hval).
    exists m', es'. cbn [Imap_Inserts]. rewrite Hrun. cbn [mbind option_bind].
    split; [exact Hruns|]. split; [exact Hok'|].
    intros x. rewrite Hval. cbn [last_cover].
    rewrite (ins_interval_val k v es x 0 (imap_ok_disj m es Hok)). reflexivity.
Qed.

(** Two maps with the same values at every address hold the same
    entries. *)
Lemma imap_ok_unique (m1 m2 : Imap) es1 es2 :
  imap_ok m1 es1 -> imap_ok m2 es2 ->
  (forall x, val_at es1 x = val_at es2 x) ->
  forall x, Imap_Find m1 x = Imap_Find m2 x.
Proof.
  intros H1 H2 Hv x.
  rewrite (Imap_Find_refines m1 es1 x H1), (Imap_Find_refines m2 es2 x H2).
  rewrite (canon_unique es1 es2 0 None (imap_ok_canon _ _ H1) (imap_ok_canon _ _ H2) Hv).
  reflexivity.
Qed.

(** X13. After [Insert(k, v)] on a map built by insertions, [Find] at
    every address of [k] returns the value [v], and the interval it
    returns covers all of [k] (it is larger when the new interval was
    merged with a neighbour or lay inside an interval of the same
    value). *)
Theorem Imap_Insert_then_Find (m : Imap) k v x :
  imap_reachable m -> Interval_valid k -> Interval_Contains k x = true ->
  exists m' iv, Imap_Insert k v m = Some m' /\ Imap_Find m' x = Some (iv, v)
    /\ Low iv <= Low k /\ High k <= High iv.
Proof.
  intros Hr Hk Hx. destruct (imap_reachable_ok m Hr) as (es & Hok).
  destruct (imap_ok_Insert_interval m es k v Hok Hk) as (m' & Hrun & Hok').
  pose proof (imap_ok_disj _ _ Hok) as Hd.
  pose proof (imap_ok_canon _ _ Hok') as Hc'.
  pose proof (canon_disj _ _ _ Hc') as Hd'.
  set (es' := ins_interval k v es) in *.
  assert (Hval : forall y, Interval_Contains k y = true -> val_at es' y = Some v).
  { intros y Hy. unfold es'. rewrite (ins_interval_val k v es y 0 Hd), Hy. reflexivity. }
  exists m'. rewrite (Imap_Find_refines m' es' x Hok').
  destruct (Find_entries_val es' x 0 Hd')
    as [(k' & h' & w & Hf & HF & Hv & Hc)|(_ & _ & Hv)];
    [|rewrite (Hval x Hx) in Hv; discriminate].
  rewrite (Hval x Hx) in Hv. injection Hv as <-.
  exists (mkInterval k' h'). split; [exact Hrun|]. split; [now rewrite HF|].
  destruct (find_entry_run es' x k' h' v 0 None Hc' Hf) as (_ & Hlo & Hhi).
  apply Interval_Contains_iff in Hx, Hc. cbn [Low High] in *. split.
  - destruct (decide (k' <= Low k)) as [|Hn]; [assumption|exfalso].
    apply Hlo, Hval, Interval_Contains_iff. lia.
  - destruct (decide (High k <= h')) as [|Hn]; [assumption|exfalso].
    apply Hhi, Hval, Interval_Contains_iff. lia.
Qed.

(** X14. [Insert(k, v)] leaves the addresses outside [k] as they were:
    at such an address [Find] returns the same value as before, and an
    interval that contains the address exactly when the one before did. *)
Theorem Imap_Insert_Find_outside (m : Imap) k v x :
  imap_reachable m -> Interval_valid k -> Interval_Contains k x = false ->
  exists m' iv w iv', Imap_Insert k v m = Some m'
    /\ Imap_Find m x = Some (iv, w) /\ Imap_Find m' x = Some (iv', w)
    /\ Interval_Contains iv' x = Interval_Contains iv x.
Proof.
  intros Hr Hk Hx. destruct (imap_reachable_ok m Hr) as (es & Hok).
  destruct (imap_ok_Insert_interval m es k v Hok Hk) as (m' & Hrun & Hok').
  pose proof (imap_ok_disj _ _ Hok) as Hd. pose proof (imap_ok_disj _ _ Hok') as Hd'.
  pose proof (ins_interval_val k v es x 0 Hd) as Hval. rewrite Hx in Hval.
  exists m'. rewrite (Imap_Find_refines m es x Hok), (Imap_Find_refines m' _ x Hok').
  destruct (Find_entries_val es x 0 Hd)
    as [(k1 & h1 & w1 & _ & HF1 & Hv1 & Hc1)|(_ & HF1 & Hv1)];
    destruct (Find_entries_val (ins_interval k v es) x 0 Hd')
      as [(k2 & h2 & w2 & _ & HF2 & Hv2 & Hc2)|(_ & HF2 & Hv2)];
    rewrite HF1, HF2; rewrite Hv1, Hv2 in Hval; try discriminate.
  - injection Hval as ->. exists (mkInterval k1 h1), w1, (mkInterval k2 h2).
    split; [exact Hrun|]. split; [reflexivity|]. split; [reflexivity|]. congruence.
  - exists (mkInterval 0 0), None, (mkInterval 0 0).
    split; [exact Hrun|]. repeat split.
Qed.

(** X15. The intervals of a map built by insertions, as the iteration
    from address 0 yields them, are not empty, lie in increasing order
    without overlap, and two that abut hold different values; the
    iteration from another address yields those of them that end above
    it. *)
Theorem Imap_iterate_canonical (m : Imap) :
  imap_reachable m ->
  exists es, Imap_iterate m 0 = Some (pair_of <$> es)
    /\ canon_from 0 None es
    /\ forall addr, Imap_iterate m addr = Some (pair_of <$> ending_above addr es).
Proof.
  intros Hr. destruct (imap_reachable_ok m Hr) as (es & Hok).
  exists es. split; [|split].
  - rewrite (Imap_iterate_refines m es 0 Hok).
    now rewrite (ending_above_all es 0 0 (imap_ok_disj _ _ Hok)).
  - exact (imap_ok_canon _ _ Hok).
  - intros addr. exact (Imap_iterate_refines m es addr Hok).
Qed.

(** X16. [Find(addr)] returns a stored interval that contains the
    address, with its value, when there is one, and the empty interval
    with a nil value when no stored interval contains the address. *)
Theorem Imap_Find_stored (m : Imap) x :
  imap_reachable m ->
  exists ps iv w, Imap_iterate m 0 = Some ps /\ Imap_Find m x = Some (iv, w)
    /\ ((Interval_Contains iv x = true /\ (iv, w) ∈ ps)
        \/ (iv = mkInterval 0 0 /\ w = None
            /\ forall p, p ∈ ps -> Interval_Contains p.1 x = false)).
Proof.
  intros Hr. destruct (imap_reachable_ok m Hr) as (es & Hok).
  pose proof (imap_ok_disj _ _ Hok) as Hd.
  exists (pair_of <$> es). rewrite (Imap_iterate_refines m es 0 Hok).
  rewrite (ending_above_all es 0 0 Hd) by lia.
  rewrite (Imap_Find_refines m es x Hok).
  destruct (Find_entries_val es x 0 Hd)
    as [(k1 & h1 & w1 & Hf & HF & _ & Hc)|(Hf & HF & _)]; rewrite HF.
  - eexists _, _. split; [reflexivity|]. split; [reflexivity|]. left.
    split; [exact Hc|].
    apply (list_elem_of_fmap_2 pair_of es (k1, h1, w1)).
    exact (proj2 (find_entry_in _ _ _ _ _ Hf)).
  - eexists _, _. split; [reflexivity|]. split; [reflexivity|]. right.
    split; [reflexivity|]. split; [reflexivity|].
    intros p Hp. apply list_elem_of_fmap in Hp as ([[k h] w] & -> & Hin).
    apply not_true_is_false. intros Hc. apply Interval_Contains_iff in Hc.
    cbn [pair_of fst snd Low High] in Hc.
    clear -Hf Hin Hc. induction es as [|[[k1 h1] v1] es IH]; [inversion Hin|].
    simpl in Hf. destruct (decide (k1 <= x < h1)); [discriminate|].
    apply elem_of_cons in Hin as [[= -> -> ->]|Hin]; [lia|auto].
Qed.

(** X17. [Insert] is idempotent: inserting the same interval with the
    same value a second time changes the result of no [Find]. *)
Theorem Imap_Insert_idempotent (m : Imap) k v :
  imap_reachable m -> Interval_valid k ->
  exists m1 m2, Imap_Insert k v m = Some m1 /\ Imap_Insert k v m1 = Some m2
    /\ forall x, Imap_Find m2 x = Imap_Find m1 x.
Proof.
  intros Hr Hk. destruct (imap_reachable_ok m Hr) as (es & Hok).
  destruct (imap_ok_Insert_interval m es k v Hok Hk) as (m1 & Hrun1 & Hok1).
  destruct (imap_ok_Insert_interval m1 _ k v Hok1 Hk) as (m2 & Hrun2 & Hok2).
  exists m1, m2. split; [exact Hrun1|]. split; [exact Hrun2|].
  apply (imap_ok_unique m2 m1 _ _ Hok2 Hok1). intros x.
  rewrite (ins_interval_val k v _ x 0 (imap_ok_disj _ _ Hok1)).
  rewrite (ins_interval_val k v es x 0 (imap_ok_disj _ _ Hok)).
  destruct (Interval_Contains k x); reflexivity.
Qed.

(** X18. A later insertion over the same interval wins: inserting
    [v1] and then [v2] over [k] gives the results of [Find] that
    inserting [v2] alone gives. *)
Theorem Imap_Insert_overwrite (m : Imap) k v1 v2 :
  imap_reachable m -> Interval_valid k ->
  exists m1 m12 m2, Imap_Insert k v1 m = Some m1 /\ Imap_Insert k v2 m1 = Some m12
    /\ Imap_Insert k v2 m = Some m2
    /\ forall x, Imap_Find m12 x = Imap_Find m2 x.
Proof.
  intros Hr Hk. destruct (imap_reachable_ok m Hr) as (es & Hok).
  destruct (imap_ok_Insert_interval m es k v1 Hok Hk) as (m1 & Hr1 & Hok1).
  destruct (imap_ok_Insert_interval m1 _ k v2 Hok1 Hk) as (m12 & Hr12 & Hok12).
  destruct (imap_ok_Insert_interval m es k v2 Hok Hk) as (m2 & Hr2 & Hok2).
  exists m1, m12, m2. repeat (split; [assumption|]).
  apply (imap_ok_unique m12 m2 _ _ Hok12 Hok2). intros x.
  rewrite (ins_interval_val k v2 _ x 0 (imap_ok_disj _ _ Hok1)).
  rewrite (ins_interval_val k v1 es x 0 (imap_ok_disj _ _ Hok)).
  rewrite (ins_interval_val k v2 es x 0 (imap_ok_disj _ _ Hok)).
  destruct (Interval_Contains k x); reflexivity.
Qed.

(** X19. Insertions over intervals that share no address commute: the
    results of [Find] do not depend on the order of the two calls. *)
Theorem Imap_Insert_commute (m : Imap) k1 v1 k2 v2 :
  imap_reachable m -> Interval_valid k1 -> Interval_valid k2 ->
  High k1 <= Low k2 \/ High k2 <= Low k1 ->
  exists m1 m12 m2 m21,
    Imap_Insert k1 v1 m = Some m1 /\ Imap_Insert k2 v2 m1 = Some m12
    /\ Imap_Insert k2 v2 m = Some m2 /\ Imap_Insert k1 v1 m2 = Some m21
    /\ forall x, Imap_Find m12 x = Imap_Find m21 x.
Proof.
  intros Hr Hk1 Hk2 Hdis.
  destruct (imap_reachable_ok m Hr) as (es & Hok).
  destruct (imap_ok_Insert_interval m es k1 v1 Hok Hk1) as (m1 & Hr1 & Hok1).
  destruct (imap_ok_Insert_interval m1 _ k2 v2 Hok1 Hk2) as (m12 & Hr12 & Hok12).
  destruct (imap_ok_Insert_interval m es k2 v2 Hok Hk2) as (m2 & Hr2 & Hok2).
  destruct (imap_ok_Insert_interval m2 _ k1 v1 Hok2 Hk1) as (m21 & Hr21 & Hok21).
  exists m1, m12, m2, m21. repeat (split; [assumption|]).
  apply (imap_ok_unique m12 m21 _ _ Hok12 Hok21). intros x.
  rewrite (ins_interval_val k2 v2 _ x 0 (imap_ok_disj _ _ Hok1)).
  rewrite (ins_interval_val k1 v1 es x 0 (imap_ok_disj _ _ Hok)).
  rewrite (ins_interval_val k1 v1 _ x 0 (imap_ok_disj _ _ Hok2)).
  rewrite (ins_interval_val k2 v2 es x 0 (imap_ok_disj _ _ Hok)).
  destruct (Interval_Contains k1 x) eqn:H1, (Interval_Contains k2 x) eqn:H2;
    try reflexivity.
  apply Interval_Contains_iff in H1, H2. lia.
Qed.

(** X20. The interval that [Find] returns is a maximal run: [Find]
    returns the same interval and value at each of its addresses, and at
    the address just below it and at the address just above it [Find] does
    not return an interval that holds that address with the same value. *)
Theorem Imap_Find_maximal_run (m : Imap) x iv w :
  imap_reachable m -> Imap_Find m x = Some (iv, w) ->
  Interval_Contains iv x = true ->
  (forall y, Interval_Contains iv y = true -> Imap_Find m y = Some (iv, w))
  /\ (forall y iv2, y = Low iv - 1 \/ y = High iv ->
        Imap_Find m y = Some (iv2, w) -> Interval_Contains iv2 y = false).
Proof.
  intros Hr HF Hx. destruct (imap_reachable_ok m Hr) as (es & Hok).
  pose proof (imap_ok_disj _ _ Hok) as Hd. pose proof (imap_ok_canon _ _ Hok) as Hc.
  rewrite (Imap_Find_refines m es x Hok) in HF. injection HF as HF.
  destruct (Find_entries_val es x 0 Hd)
    as [(k1 & h1 & w1 & Hf & HF1 & _ & _)|(_ & HF1 & _)]; rewrite HF1 in HF.
  2:{ injection HF as <- <-. apply Interval_Contains_iff in Hx.
      cbn [Low High] in Hx. lia. }
  injection HF as <- <-.
  destruct (find_entry_run es x k1 h1 w1 0 None Hc Hf) as (_ & Hlo & Hhi).
  cbn [Low High]. split.
  - intros y Hy. apply Interval_Contains_iff in Hy. cbn [Low High] in Hy.
    rewrite (Imap_Find_refines m es y Hok), (Find_entries_find es y 0 Hd).
    rewrite (find_entry_same es x y k1 h1 w1 0 Hd Hf Hy). reflexivity.
  - intros y iv2 Hy HF2. rewrite (Imap_Find_refines m es y Hok) in HF2.
    injection HF2 as HF2.
    destruct (Find_entries_val es y 0 Hd)
      as [(k2 & h2 & w2 & _ & HF3 & Hv & _)|(_ & HF3 & _)]; rewrite HF3 in HF2.
    + injection HF2 as <- <-. exfalso. destruct Hy as [->| ->]; auto.
    + injection HF2 as <- _. apply not_true_is_false. intros Hc2.
      apply Interval_Contains_iff in Hc2. cbn [Low High] in Hc2. lia.
Qed.

(** X21. After a sequence of insertions into the empty map, [Find] at
    an address returns the value of the last insertion whose interval
    holds the address, with an interval that holds the address; when no
    insertion covered the address it returns the empty interval and
    nil. *)
Theorem Imap_Inserts_Find (ops : list (Interval * option V)) x :
  Forall (fun op => Interval_valid op.1) ops ->
  exists m iv w, Imap_Inserts ops Imap_empty = Some m
    /\ Imap_Find m x = Some (iv, w)
    /\ ((last_cover ops x None = Some w /\ Interval_Contains iv x = true)
        \/ (last_cover ops x None = None /\ iv = mkInterval 0 0 /\ w = None)).
Proof.
  intros Hv.
  destruct (Imap_Inserts_ok ops Imap_empty [] imap_ok_empty Hv)
    as (m & es & Hrun & Hok & Hval).
  exists m. rewrite (Imap_Find_refines m es x Hok). specialize (Hval x).
  rewrite val_at_nil in Hval.
  destruct (Find_entries_val es x 0 (imap_ok_disj _ _ Hok))
    as [(k1 & h1 & w1 & _ & HF & Hv1 & Hc)|(_ & HF & Hv1)]; rewrite HF.
  - eexists _, _. split; [exact Hrun|]. split; [reflexivity|]. left.
    split; [congruence|exact Hc].
  - eexists _, _. split; [exact Hrun|]. split; [reflexivity|]. right.
    split; [congruence|auto].
Qed.

End ImapTheorems.

(** ** Example maps *)

(** The maps after [Insert([10,20), 1)] and then [Insert([30,40), 2)] on
    an empty map. *)
Definition imap_demo1 : Imap (V:=nat) :=
  mkImap (mkTree (Some 0%nat)
    (<[0%nat := mkNode 10 None None None 1 20 (Some 1%nat)]> ∅)).

Definition imap_demo2 : Imap (V:=nat) :=
  mkImap (mkTree (Some 0%nat)
    (<[0%nat := mkNode 10 None (Some 1%nat) None 2 20 (Some 1%nat)]>
       (<[1%nat := mkNode 30 None None (Some 0%nat) 1 40 (Some 2%nat)]> ∅))).

Ltac solve_valid := unfold Interval_valid; cbn [Low High fst snd]; lia.

Ltac solve_imap_reach2 :=
  apply (imap_reach_Insert imap_demo1 (mkInterval 30 40) (Some 2%nat) imap_demo2);
  [ apply (imap_reach_Insert Imap_empty (mkInterval 10 20) (Some 1%nat) imap_demo1);
    [ apply imap_reach_empty | solve_valid | vm_compute; reflexivity ]
  | solve_valid
  | vm_compute; reflexivity ].

Lemma Imap_Insert_then_Find_witness :
  exists m' iv, Imap_Insert (mkInterval 15 35) (Some 3%nat) imap_demo2 = Some m'
    /\ Imap_Find m' 20 = Some (iv, Some 3%nat)
    /\ Low iv <= Low (mkInterval 15 35) /\ High (mkInterval 15 35) <= High iv.
Proof.
  apply (Imap_Insert_then_Find imap_demo2 (mkInterval 15 35) (Some 3%nat) 20).
  - solve_imap_reach2.
  - solve_valid.
  - reflexivity.
Defined.

Lemma Imap_Insert_Find_outside_witness :
  exists m' iv w iv', Imap_Insert (mkInterval 15 35) (Some 3%nat) imap_demo2 = Some m'
    /\ Imap_Find imap_demo2 12 = Some (iv, w) /\ Imap_Find m' 12 = Some (iv', w)
    /\ Interval_Contains iv' 12 = Interval_Contains iv 12.
Proof.
  apply (Imap_Insert_Find_outside imap_demo2 (mkInterval 15 35) (Some 3%nat) 12).
  - solve_imap_reach2.
  - solve_valid.
  - reflexivity.
Defined.

Lemma Imap_iterate_canonical_witness :
  exists es, Imap_iterate imap_demo2 0 = Some (pair_of <$> es)
    /\ canon_from 0 None es
    /\ forall addr, Imap_iterate imap_demo2 addr
                    = Some (pair_of <$> ending_above addr es).
Proof.
  apply (Imap_iterate_canonical imap_demo2). solve_imap_reach2.
Defined.

Lemma Imap_Find_stored_witness :
  exists ps iv w, Imap_iterate imap_demo2 0 = Some ps
    /\ Imap_Find imap_demo2 35 = Some (iv, w)
    /\ ((Interval_Contains iv 35 = true /\ (iv, w) ∈ ps)
        \/ (iv = mkInterval 0 0 /\ w = None
            /\ forall p, p ∈ ps -> Interval_Contains p.1 35 = false)).
Proof.
  apply (Imap_Find_stored imap_demo2 35). solve_imap_reach2.
Defined.

Lemma Imap_Insert_idempotent_witness :
  exists m1 m2, Imap_Insert (mkInterval 15 35) (Some 3%nat) imap_demo2 = Some m1
    /\ Imap_Insert (mkInterval 15 35) (Some 3%nat) m1 = Some m2
    /\ forall x, Imap_Find m2 x = Imap_Find m1 x.
Proof.
  apply (Imap_Insert_idempotent imap_demo2 (mkInterval 15 35) (Some 3%nat)).
  - solve_imap_reach2.
  - solve_valid.
Defined.

Lemma Imap_Insert_overwrite_witness :
  exists m1 m12 m2,
    Imap_Insert (mkInterval 15 35) (Some 3%nat) imap_demo2 = Some m1
    /\ Imap_Insert (mkInterval 15 35) (Some 4%nat) m1 = Some m12
    /\ Imap_Insert (mkInterval 15 35) (Some 4%nat) imap_demo2 = Some m2
    /\ forall x, Imap_Find m12 x = Imap_Find m2 x.
Proof.
  apply (Imap_Insert_overwrite imap_demo2 (mkInterval 15 35) (Some 3%nat) (Some 4%nat)).
  - solve_imap_reach2.
  - solve_valid.
Defined.

Lemma Imap_Insert_commute_witness :
  exists m1 m12 m2 m21,
    Imap_Insert (mkInterval 15 25) (Some 3%nat) imap_demo2 = Some m1
    /\ Imap_Insert (mkInterval 25 35) (Some 4%nat) m1 = Some m12
    /\ Imap_Insert (mkInterval 25 35) (Some 4%nat) imap_demo2 = Some m2
    /\ Imap_Insert (mkInterval 15 25) (Some 3%nat) m2 = Some m21
    /\ forall x, Imap_Find m12 x = Imap_Find m21 x.
Proof.
  apply (Imap_Insert_commute imap_demo2 (mkInterval 15 25) (Some 3%nat)
           (mkInterval 25 35) (Some 4%nat)).
  - solve_imap_reach2.
  - solve_valid.
  - solve_valid.
  - cbn [Low High]. lia.
Defined.

Lemma Imap_Find_maximal_run_witness :
  (forall y, Interval_Contains (mkInterval 30 40) y = true ->
     Imap_Find imap_demo2 y = Some (mkInterval 30 40, Some 2%nat))
  /\ (forall y iv2, y = Low (mkInterval 30 40) - 1 \/ y = High (mkInterval 30 40) ->
        Imap_Find imap_demo2 y = Some (iv2, Some 2%nat) ->
        Interval_Contains iv2 y = false).
Proof.
  apply (Imap_Find_maximal_run imap_demo2 35 (mkInterval 30 40) (Some 2%nat)).
  - solve_imap_reach2.
  - vm_compute; reflexivity.
  - reflexivity.
Defined.

Lemma Imap_Inserts_Find_witness :
  exists m iv w,
    Imap_Inserts [(mkInterval 10 20, Some 1%nat); (mkInterval 15 30, Some 2%nat)]
      Imap_empty = Some m
    /\ Imap_Find m 17 = Some (iv, w)
    /\ ((last_cover [(mkInterval 10 20, Some 1%nat); (mkInterval 15 30, Some 2%nat)]
           17 None = Some w
         /\ Interval_Contains iv 17 = true)
        \/ (last_cover [(mkInterval 10 20, Some 1%nat); (mkInterval 15 30, Some 2%nat)]
              17 None = None
            /\ iv = mkInterval 0 0 /\ w = None)).
Proof.
  apply (Imap_Inserts_Find
           [(mkInterval 10 20, Some 1%nat); (mkInterval 15 30, Some 2%nat)] 17).
  repeat first [ apply Forall_nil_2 | apply Forall_cons_2 ]; solve_valid.
Defined.
